(** * Modal: a shallow embedding of [src/components/modal/index.ts]

    The development follows the later of the two revisions held in the
    source file (the one with the drag behaviour).  The Modal class only
    acts on DOM state, so the first part of the file is a small model of
    the DOM interface the class uses; the second part transcribes the
    class, method by method, as transformers of that state; the third part
    states and proves the properties. *)

From Stdlib Require Import ZArith List Ascii String Permutation Lia.
From stdpp Require Import base option list gmap strings pretty.
Import ListNotations.
Local Open Scope string_scope.
Local Open Scope list_scope.

(** ** JavaScript numbers (integer fragment)

    Pixel coordinates and sizes are integers; [NaN] is what arithmetic
    yields when it reads a field that was never assigned ([undefined]). *)

Inductive number : Type :=
  | Int (z : Z)
  | NaN.

Definition num_add (a b : number) : number :=
  match a, b with
  | Int x, Int y => Int (x + y)
  | _, _ => NaN
  end.

Definition num_sub (a b : number) : number :=
  match a, b with
  | Int x, Int y => Int (x - y)
  | _, _ => NaN
  end.

(** [Math.max]: NaN if either argument is NaN. *)
Definition Math_max (a b : number) : number :=
  match a, b with
  | Int x, Int y => Int (Z.max x y)
  | _, _ => NaN
  end.

(** Number to string conversion, as done by a template literal. *)
Definition num_to_string (n : number) : string :=
  match n with
  | Int z => pretty z
  | NaN => "NaN"
  end.

(** ** The DOM model *)

(** References to element objects and to Modal objects. *)
Abbreviation ElemId := nat (only parsing).
Abbreviation ModalRef := nat (only parsing).

(** Function objects that the code registers as event listeners.  Arrow
    functions are allocated afresh each time their defining expression is
    evaluated, hence the serial number; the bound methods are created once
    per Modal instance (class field initialisers). *)
Inductive Callback : Type :=
  | ClickOutsideClosure (this : ModalRef) (serial : nat)
  | KeydownClosure (this : ModalRef) (serial : nat)
  | OnResizeMouseDown (this : ModalRef)
  | OnResizeMouseMove (this : ModalRef)
  | OnResizeMouseUp (this : ModalRef)
  | OnDragMouseDown (this : ModalRef)
  | OnDragMouseMove (this : ModalRef)
  | OnDragMouseUp (this : ModalRef)
  | TriggerToggleClosure (object : ModalRef) (serial : nat)
  | TriggerShowClosure (object : ModalRef) (serial : nat)
  | TriggerHideClosure (object : ModalRef) (serial : nat).

#[global] Instance Callback_eq_dec : EqDecision Callback.
Proof. solve_decision. Defined.

(** An entry of an event target's listener list: type, callback, capture. *)
Record Listener : Type := mkListener {
  l_type : string;
  l_callback : Callback;
  l_capture : bool;
}.

#[global] Instance Listener_eq_dec : EqDecision Listener.
Proof. solve_decision. Defined.

(** An element.  The class attribute is kept as the token list
    [classList]; [attributes] holds the other attributes. *)
Record Element : Type := mkElement {
  tagName : string;
  parentNode : option ElemId;
  classList : list string;
  attributes : gmap string string;
  style : gmap string string;
  clientWidth : Z;
  clientHeight : Z;
  listeners : list Listener;
}.

Definition blankElement (tag : string) : Element :=
  {| tagName := tag; parentNode := None; classList := [];
     attributes := ∅; style := ∅;
     clientWidth := 0; clientHeight := 0; listeners := [] |}.

(** User supplied option callbacks are opaque; invoking one is recorded. *)
Inductive UserFn : Type :=
  | NoopFn
  | NamedFn (name : string).

Inductive Hook : Type := HookShow | HookHide | HookToggle.

#[global] Instance Hook_eq_dec : EqDecision Hook.
Proof. solve_decision. Defined.

Inductive Exn : Type :=
  | TypeError (what : string).

(** What the program does to the outside besides changing the DOM. *)
Inductive Effect : Type :=
  | Invoked (h : Hook) (f : UserFn) (arg : ModalRef)
  | ConsoleLogString (s : string)
  | ConsoleLogElement (e : ElemId)
  | ConsoleError (s : string)
  | StopPropagation
  | PreventDefault
  | Uncaught (e : Exn).

Record ModalOptions : Type := mkModalOptions {
  placement : string;
  backdropClasses : string;
  backdrop : string;
  closable : bool;
  onHide : UserFn;
  onShow : UserFn;
  onToggle : UserFn;
}.

(** The fields of a Modal object.  Numeric fields that the constructor
    leaves unassigned start as [NaN], which is what reading them in an
    arithmetic expression gives. *)
Record Modal : Type := mkModal {
  _targetEl : ElemId;
  _options : ModalOptions;
  _isHidden : bool;
  _backdropEl : option ElemId;
  _clickOutsideEventListener : option Callback;
  _keydownEventListener : option Callback;
  _resizeTargetEl : option ElemId;
  _modalWidthBeforeResize : number;
  _modalHeightBeforeResize : number;
  _resizeMouseDownX : number;
  _resizeMouseDownY : number;
  _dragAnchorEl : option ElemId;
  _dragTargetEl : option ElemId;
  _dragXBeforeDragging : number;
  _dragYBeforeDragging : number;
  _currentDragX : number;
  _currentDragY : number;
  _dragMouseDownX : number;
  _dragMouseDownY : number;
}.

(** The state of a page: element objects by reference, the elements
    connected to the document in tree order, the body element, the
    listeners registered on the document itself, the Modal objects by
    reference, allocation counters and the trace of effects.

    Two things the browser does are outside the model: the layout
    ([clientWidth] and [clientHeight] are given per element and are not
    recomputed from inline styles) and the syntax checks of DOM methods on
    their string arguments (class tokens and selectors are taken as valid). *)
Record World : Type := mkWorld {
  elements : gmap ElemId Element;
  tree : list ElemId;
  body : ElemId;
  documentListeners : list Listener;
  nextElem : ElemId;
  modals : list Modal;
  nextSerial : nat;
  effects : list Effect;
}.

(** A call either returns a value, or throws; in both cases the state is
    the one reached so far. *)
Inductive Completion (A : Type) : Type :=
  | Normal (a : A) (w : World)
  | Throw (e : Exn) (w : World).

Arguments Normal {A} a w.
Arguments Throw {A} e w.

Definition bind {A B : Type} (c : Completion A) (k : A -> World -> Completion B) : Completion B :=
  match c with
  | Normal a w => k a w
  | Throw e w => Throw e w
  end.

Definition outcome {A : Type} (c : Completion A) : World :=
  match c with
  | Normal _ w => w
  | Throw _ w => w
  end.

Definition returns {A : Type} (c : Completion A) : bool :=
  match c with
  | Normal _ _ => true
  | Throw _ _ => false
  end.

Notation "c >>= k" := (bind c k) (at level 50, left associativity).

(** *** Field updates *)

Definition with_elements (f : gmap ElemId Element -> gmap ElemId Element) (w : World) : World :=
  {| elements := f (elements w); tree := tree w; body := body w;
     documentListeners := documentListeners w; nextElem := nextElem w;
     modals := modals w; nextSerial := nextSerial w; effects := effects w |}.

Definition with_tree (f : list ElemId -> list ElemId) (w : World) : World :=
  {| elements := elements w; tree := f (tree w); body := body w;
     documentListeners := documentListeners w; nextElem := nextElem w;
     modals := modals w; nextSerial := nextSerial w; effects := effects w |}.

Definition with_documentListeners (f : list Listener -> list Listener) (w : World) : World :=
  {| elements := elements w; tree := tree w; body := body w;
     documentListeners := f (documentListeners w); nextElem := nextElem w;
     modals := modals w; nextSerial := nextSerial w; effects := effects w |}.

Definition with_nextElem (n : ElemId) (w : World) : World :=
  {| elements := elements w; tree := tree w; body := body w;
     documentListeners := documentListeners w; nextElem := n;
     modals := modals w; nextSerial := nextSerial w; effects := effects w |}.

Definition with_modals (f : list Modal -> list Modal) (w : World) : World :=
  {| elements := elements w; tree := tree w; body := body w;
     documentListeners := documentListeners w; nextElem := nextElem w;
     modals := f (modals w); nextSerial := nextSerial w; effects := effects w |}.

Definition with_nextSerial (n : nat) (w : World) : World :=
  {| elements := elements w; tree := tree w; body := body w;
     documentListeners := documentListeners w; nextElem := nextElem w;
     modals := modals w; nextSerial := n; effects := effects w |}.

(** Effects are recorded in order of occurrence. *)
Definition emit (x : Effect) (w : World) : World :=
  {| elements := elements w; tree := tree w; body := body w;
     documentListeners := documentListeners w; nextElem := nextElem w;
     modals := modals w; nextSerial := nextSerial w; effects := effects w ++ [x] |}.

(** *** Elements *)

(** Dereferencing: a reference always denotes an object. *)
Definition element (w : World) (e : ElemId) : Element :=
  default (blankElement "") (elements w !! e).

Definition updElement (e : ElemId) (f : Element -> Element) (w : World) : World :=
  with_elements (fun m => <[e := f (element w e)]> m) w.

Definition with_classList (f : list string -> list string) (x : Element) : Element :=
  {| tagName := tagName x; parentNode := parentNode x; classList := f (classList x);
     attributes := attributes x; style := style x;
     clientWidth := clientWidth x; clientHeight := clientHeight x;
     listeners := listeners x |}.

Definition with_attributes (f : gmap string string -> gmap string string) (x : Element) : Element :=
  {| tagName := tagName x; parentNode := parentNode x; classList := classList x;
     attributes := f (attributes x); style := style x;
     clientWidth := clientWidth x; clientHeight := clientHeight x;
     listeners := listeners x |}.

Definition with_style (f : gmap string string -> gmap string string) (x : Element) : Element :=
  {| tagName := tagName x; parentNode := parentNode x; classList := classList x;
     attributes := attributes x; style := f (style x);
     clientWidth := clientWidth x; clientHeight := clientHeight x;
     listeners := listeners x |}.

Definition with_listeners (f : list Listener -> list Listener) (x : Element) : Element :=
  {| tagName := tagName x; parentNode := parentNode x; classList := classList x;
     attributes := attributes x; style := style x;
     clientWidth := clientWidth x; clientHeight := clientHeight x;
     listeners := f (listeners x) |}.

Definition with_parentNode (p : option ElemId) (x : Element) : Element :=
  {| tagName := tagName x; parentNode := p; classList := classList x;
     attributes := attributes x; style := style x;
     clientWidth := clientWidth x; clientHeight := clientHeight x;
     listeners := listeners x |}.

(** [DOMTokenList.add] and [.remove]: an ordered set of tokens.  [add]
    takes the tokens that the list accepts, see [validToken] below. *)
Definition token_add (c : string) (l : list string) : list string :=
  if decide (c ∈ l) then l else l ++ [c].

Definition token_remove (c : string) (l : list string) : list string :=
  filter (fun x => x ≠ c) l.

Definition classList_add (e : ElemId) (c : string) : World -> World :=
  updElement e (with_classList (token_add c)).

Definition classList_remove (e : ElemId) (c : string) : World -> World :=
  updElement e (with_classList (token_remove c)).

(** ASCII whitespace: tab, line feed, form feed, carriage return, space. *)
Definition isAsciiWhitespace (c : ascii) : bool :=
  let n := nat_of_ascii c in
  Nat.eqb n 9 || Nat.eqb n 10 || Nat.eqb n 12 || Nat.eqb n 13 || Nat.eqb n 32.

(** The tokens that [DOMTokenList.add] accepts: a token that is empty or
    holds ASCII whitespace makes the call throw, and that call is not in
    the model.  Every token that the code writes itself is valid; the
    tokens of [backdropClasses] come from the caller. *)
Definition validToken (t : string) : bool :=
  negb (bool_decide (t = "")) && forallb (fun c => negb (isAsciiWhitespace c)) (list_ascii_of_string t).

Definition setAttribute (e : ElemId) (name value : string) : World -> World :=
  updElement e (with_attributes (fun m => <[name := value]> m)).

Definition removeAttribute (e : ElemId) (name : string) : World -> World :=
  updElement e (with_attributes (fun m => delete name m)).

Definition getAttribute (w : World) (e : ElemId) (name : string) : option string :=
  attributes (element w e) !! name.

Definition hasAttribute (w : World) (e : ElemId) (name : string) : bool :=
  bool_decide (is_Some (getAttribute w e name)).

Definition setStyle (e : ElemId) (prop value : string) : World -> World :=
  updElement e (with_style (fun m => <[prop := value]> m)).

(** *** Event targets and listener lists *)

Inductive EventTarget : Type :=
  | OnElement (e : ElemId)
  | OnDocument.

(** [addEventListener] ignores a listener that is already registered with
    the same type, callback and capture flag. *)
Definition listener_add (l : Listener) (ls : list Listener) : list Listener :=
  if decide (l ∈ ls) then ls else ls ++ [l].

Definition listener_remove (l : Listener) (ls : list Listener) : list Listener :=
  filter (fun x => x ≠ l) ls.

Definition listenersOf (w : World) (t : EventTarget) : list Listener :=
  match t with
  | OnElement e => listeners (element w e)
  | OnDocument => documentListeners w
  end.

Definition addEventListener (t : EventTarget) (type : string) (cb : Callback)
    (capture : bool) : World -> World :=
  match t with
  | OnElement e => updElement e (with_listeners (listener_add (mkListener type cb capture)))
  | OnDocument => with_documentListeners (listener_add (mkListener type cb capture))
  end.

Definition removeEventListener (t : EventTarget) (type : string) (cb : Callback)
    (capture : bool) : World -> World :=
  match t with
  | OnElement e => updElement e (with_listeners (listener_remove (mkListener type cb capture)))
  | OnDocument => with_documentListeners (listener_remove (mkListener type cb capture))
  end.

(** *** The document tree *)

(** Proper ancestors of an element, nearest first. *)
Fixpoint ancestors_upto (fuel : nat) (w : World) (e : ElemId) : list ElemId :=
  match fuel with
  | O => []
  | S k =>
      match parentNode (element w e) with
      | Some p => p :: ancestors_upto k w p
      | None => []
      end
  end.

Definition ancestors (w : World) (e : ElemId) : list ElemId :=
  ancestors_upto (S (length (tree w))) w e.

(** [document.createElement]: a fresh, detached element. *)
Definition createElement (tag : string) (w : World) : ElemId * World :=
  let e := nextElem w in
  (e, with_nextElem (S e) (with_elements (fun m => <[e := blankElement tag]> m) w)).

(** [document.querySelector('body').append(child)] for a detached [child]:
    the body closes the tree order, so its new last child does too. *)
Definition body_append (child : ElemId) (w : World) : World :=
  with_tree (fun t => t ++ [child]) (updElement child (with_parentNode (Some (body w))) w).

(** [el.remove()]: the element leaves the document with its descendants. *)
Definition remove (e : ElemId) (w : World) : World :=
  updElement e (with_parentNode None)
    (with_tree (filter (fun x => e ∉ x :: ancestors w x)) w).

(** [document.querySelector('[name]')]. *)
Definition document_querySelector_attr (w : World) (name : string) : option ElemId :=
  List.find (fun e => hasAttribute w e name) (tree w).

(** [root.querySelector('[name]')]: first proper descendant in tree order. *)
Definition querySelector_attr (w : World) (root : ElemId) (name : string) : option ElemId :=
  List.find (fun e => bool_decide (root ∈ ancestors w e) && hasAttribute w e name) (tree w).

(** [root.querySelector('#' + id)] for an [id] that is a plain identifier
    (see [plainIdent] below): the first proper descendant with that id.
    For other strings the selector is read by the CSS grammar, or the call
    throws; those calls are not in the model. *)
Definition querySelector_id (w : World) (root : ElemId) (id : string) : option ElemId :=
  List.find (fun e => bool_decide (root ∈ ancestors w e)
                      && bool_decide (getAttribute w e "id" = Some id)) (tree w).

(** A plain identifier: ASCII letters, digits, "-" and "_", the first a
    letter or "_".  After "#" it is the ID selector of that identifier. *)
Definition isIdentStart (c : ascii) : bool :=
  let n := nat_of_ascii c in
  (Nat.leb 65 n && Nat.leb n 90) || (Nat.leb 97 n && Nat.leb n 122) || Nat.eqb n 95.

Definition isIdentChar (c : ascii) : bool :=
  let n := nat_of_ascii c in
  isIdentStart c || (Nat.leb 48 n && Nat.leb n 57) || Nat.eqb n 45.

Definition plainIdent (s : string) : bool :=
  match s with
  | EmptyString => false
  | String c rest => isIdentStart c && forallb isIdentChar (list_ascii_of_string rest)
  end.

(** [document.getElementById(id)]; the empty id matches nothing. *)
Definition getElementById (w : World) (id : string) : option ElemId :=
  if decide (id = "") then None
  else List.find (fun e => bool_decide (getAttribute w e "id" = Some id)) (tree w).

(** [document.querySelectorAll('[name]')]: a static list in tree order. *)
Definition querySelectorAll_attr (w : World) (name : string) : list ElemId :=
  List.filter (fun e => hasAttribute w e name) (tree w).

(** [el.closest('a, button')]: nearest inclusive ancestor that is a link
    or a button. *)
Definition closest_a_button (w : World) (e : ElemId) : option ElemId :=
  List.find (fun x => bool_decide (tagName (element w x) = "a")
                      || bool_decide (tagName (element w x) = "button"))
            (e :: ancestors w e).

(** [s.split(' ')]. *)
Fixpoint split_spaces (s : string) : list string :=
  match s with
  | EmptyString => [""]
  | String c rest =>
      if Ascii.eqb c " "%char then "" :: split_spaces rest
      else match split_spaces rest with
           | [] => [String c ""]
           | t :: ts => String c t :: ts
           end
  end.

(** *** Modal objects *)

Definition DefaultOptions : ModalOptions :=
  {| placement := "center";
     backdropClasses := "bg-black bg-opacity-30 fixed inset-0 z-40";
     backdrop := "dynamic";
     closable := true;
     onHide := NoopFn;
     onShow := NoopFn;
     onToggle := NoopFn |}.

(** [ModalOptions] as passed by a caller: any field may be left out, and a
    field that is there holds a value.  (An object that holds [undefined]
    under a key is an [OptionsObject], below.) *)
Record PartialOptions : Type := mkPartialOptions {
  opt_placement : option string;
  opt_backdropClasses : option string;
  opt_backdrop : option string;
  opt_closable : option bool;
  opt_onHide : option UserFn;
  opt_onShow : option UserFn;
  opt_onToggle : option UserFn;
}.

Definition noOptions : PartialOptions :=
  {| opt_placement := None; opt_backdropClasses := None; opt_backdrop := None;
     opt_closable := None; opt_onHide := None; opt_onShow := None;
     opt_onToggle := None |}.

Definition allOptions (o : ModalOptions) : PartialOptions :=
  {| opt_placement := Some (placement o);
     opt_backdropClasses := Some (backdropClasses o);
     opt_backdrop := Some (backdrop o);
     opt_closable := Some (closable o);
     opt_onHide := Some (onHide o);
     opt_onShow := Some (onShow o);
     opt_onToggle := Some (onToggle o) |}.

(** The object spread [{ ...base, ...o }]. *)
Definition spread (base : ModalOptions) (o : PartialOptions) : ModalOptions :=
  {| placement := default (placement base) (opt_placement o);
     backdropClasses := default (backdropClasses base) (opt_backdropClasses o);
     backdrop := default (backdrop base) (opt_backdrop o);
     closable := default (closable base) (opt_closable o);
     onHide := default (onHide base) (opt_onHide o);
     onShow := default (onShow base) (opt_onShow o);
     onToggle := default (onToggle base) (opt_onToggle o) |}.

(** An own property of an object literal: missing, or there with a value
    that may be [undefined] ([None]). *)
Inductive Property (A : Type) : Type :=
  | Missing
  | Own (v : option A).

Arguments Missing {A}.
Arguments Own {A} v.

(** Any object passed as [options]. *)
Record OptionsObject : Type := mkOptionsObject {
  own_placement : Property string;
  own_backdropClasses : Property string;
  own_backdrop : Property string;
  own_closable : Property bool;
  own_onHide : Property UserFn;
  own_onShow : Property UserFn;
  own_onToggle : Property UserFn;
}.

(** What an object holds under each key of [ModalOptions]; [None] is
    [undefined]. *)
Record OptionValues : Type := mkOptionValues {
  value_placement : option string;
  value_backdropClasses : option string;
  value_backdrop : option string;
  value_closable : option bool;
  value_onHide : option UserFn;
  value_onShow : option UserFn;
  value_onToggle : option UserFn;
}.

(** A spread copies every own property, whatever its value. *)
Definition spreadProperty {A : Type} (base : A) (p : Property A) : option A :=
  match p with
  | Missing => Some base
  | Own v => v
  end.

(** [{ ...base, ...o }] for any object [o]. *)
Definition spreadObject (base : ModalOptions) (o : OptionsObject) : OptionValues :=
  {| value_placement := spreadProperty (placement base) (own_placement o);
     value_backdropClasses := spreadProperty (backdropClasses base) (own_backdropClasses o);
     value_backdrop := spreadProperty (backdrop base) (own_backdrop o);
     value_closable := spreadProperty (closable base) (own_closable o);
     value_onHide := spreadProperty (onHide base) (own_onHide o);
     value_onShow := spreadProperty (onShow base) (own_onShow o);
     value_onToggle := spreadProperty (onToggle base) (own_onToggle o) |}.

(** The objects of [PartialOptions] among all objects, and the values
    of a [ModalOptions]. *)
Definition ownProperty {A : Type} (v : option A) : Property A :=
  match v with
  | Some x => Own (Some x)
  | None => Missing
  end.

Definition asObject (o : PartialOptions) : OptionsObject :=
  {| own_placement := ownProperty (opt_placement o);
     own_backdropClasses := ownProperty (opt_backdropClasses o);
     own_backdrop := ownProperty (opt_backdrop o);
     own_closable := ownProperty (opt_closable o);
     own_onHide := ownProperty (opt_onHide o);
     own_onShow := ownProperty (opt_onShow o);
     own_onToggle := ownProperty (opt_onToggle o) |}.

Definition valuesOf (o : ModalOptions) : OptionValues :=
  {| value_placement := Some (placement o);
     value_backdropClasses := Some (backdropClasses o);
     value_backdrop := Some (backdrop o);
     value_closable := Some (closable o);
     value_onHide := Some (onHide o);
     value_onShow := Some (onShow o);
     value_onToggle := Some (onToggle o) |}.

Definition MinResizeWidth : number := Int 200.
Definition MinResizeHeight : number := Int 100.

(** Assignments to the fields of a Modal object. *)
Definition set_isHidden (v : bool) (M : Modal) : Modal :=
  {| _targetEl := _targetEl M; _options := _options M; _isHidden := v;
     _backdropEl := _backdropEl M;
     _clickOutsideEventListener := _clickOutsideEventListener M;
     _keydownEventListener := _keydownEventListener M;
     _resizeTargetEl := _resizeTargetEl M;
     _modalWidthBeforeResize := _modalWidthBeforeResize M;
     _modalHeightBeforeResize := _modalHeightBeforeResize M;
     _resizeMouseDownX := _resizeMouseDownX M; _resizeMouseDownY := _resizeMouseDownY M;
     _dragAnchorEl := _dragAnchorEl M; _dragTargetEl := _dragTargetEl M;
     _dragXBeforeDragging := _dragXBeforeDragging M;
     _dragYBeforeDragging := _dragYBeforeDragging M; _currentDragX := _currentDragX M;
     _currentDragY := _currentDragY M; _dragMouseDownX := _dragMouseDownX M;
     _dragMouseDownY := _dragMouseDownY M |}.

Definition set_backdropEl (v : option ElemId) (M : Modal) : Modal :=
  {| _targetEl := _targetEl M; _options := _options M; _isHidden := _isHidden M;
     _backdropEl := v; _clickOutsideEventListener := _clickOutsideEventListener M;
     _keydownEventListener := _keydownEventListener M;
     _resizeTargetEl := _resizeTargetEl M;
     _modalWidthBeforeResize := _modalWidthBeforeResize M;
     _modalHeightBeforeResize := _modalHeightBeforeResize M;
     _resizeMouseDownX := _resizeMouseDownX M; _resizeMouseDownY := _resizeMouseDownY M;
     _dragAnchorEl := _dragAnchorEl M; _dragTargetEl := _dragTargetEl M;
     _dragXBeforeDragging := _dragXBeforeDragging M;
     _dragYBeforeDragging := _dragYBeforeDragging M; _currentDragX := _currentDragX M;
     _currentDragY := _currentDragY M; _dragMouseDownX := _dragMouseDownX M;
     _dragMouseDownY := _dragMouseDownY M |}.

Definition set_clickOutsideEventListener (v : option Callback) (M : Modal) : Modal :=
  {| _targetEl := _targetEl M; _options := _options M; _isHidden := _isHidden M;
     _backdropEl := _backdropEl M; _clickOutsideEventListener := v;
     _keydownEventListener := _keydownEventListener M;
     _resizeTargetEl := _resizeTargetEl M;
     _modalWidthBeforeResize := _modalWidthBeforeResize M;
     _modalHeightBeforeResize := _modalHeightBeforeResize M;
     _resizeMouseDownX := _resizeMouseDownX M; _resizeMouseDownY := _resizeMouseDownY M;
     _dragAnchorEl := _dragAnchorEl M; _dragTargetEl := _dragTargetEl M;
     _dragXBeforeDragging := _dragXBeforeDragging M;
     _dragYBeforeDragging := _dragYBeforeDragging M; _currentDragX := _currentDragX M;
     _currentDragY := _currentDragY M; _dragMouseDownX := _dragMouseDownX M;
     _dragMouseDownY := _dragMouseDownY M |}.

Definition set_keydownEventListener (v : option Callback) (M : Modal) : Modal :=
  {| _targetEl := _targetEl M; _options := _options M; _isHidden := _isHidden M;
     _backdropEl := _backdropEl M;
     _clickOutsideEventListener := _clickOutsideEventListener M;
     _keydownEventListener := v; _resizeTargetEl := _resizeTargetEl M;
     _modalWidthBeforeResize := _modalWidthBeforeResize M;
     _modalHeightBeforeResize := _modalHeightBeforeResize M;
     _resizeMouseDownX := _resizeMouseDownX M; _resizeMouseDownY := _resizeMouseDownY M;
     _dragAnchorEl := _dragAnchorEl M; _dragTargetEl := _dragTargetEl M;
     _dragXBeforeDragging := _dragXBeforeDragging M;
     _dragYBeforeDragging := _dragYBeforeDragging M; _currentDragX := _currentDragX M;
     _currentDragY := _currentDragY M; _dragMouseDownX := _dragMouseDownX M;
     _dragMouseDownY := _dragMouseDownY M |}.

Definition set_resizeTargetEl (v : option ElemId) (M : Modal) : Modal :=
  {| _targetEl := _targetEl M; _options := _options M; _isHidden := _isHidden M;
     _backdropEl := _backdropEl M;
     _clickOutsideEventListener := _clickOutsideEventListener M;
     _keydownEventListener := _keydownEventListener M; _resizeTargetEl := v;
     _modalWidthBeforeResize := _modalWidthBeforeResize M;
     _modalHeightBeforeResize := _modalHeightBeforeResize M;
     _resizeMouseDownX := _resizeMouseDownX M; _resizeMouseDownY := _resizeMouseDownY M;
     _dragAnchorEl := _dragAnchorEl M; _dragTargetEl := _dragTargetEl M;
     _dragXBeforeDragging := _dragXBeforeDragging M;
     _dragYBeforeDragging := _dragYBeforeDragging M; _currentDragX := _currentDragX M;
     _currentDragY := _currentDragY M; _dragMouseDownX := _dragMouseDownX M;
     _dragMouseDownY := _dragMouseDownY M |}.

Definition set_modalWidthBeforeResize (v : number) (M : Modal) : Modal :=
  {| _targetEl := _targetEl M; _options := _options M; _isHidden := _isHidden M;
     _backdropEl := _backdropEl M;
     _clickOutsideEventListener := _clickOutsideEventListener M;
     _keydownEventListener := _keydownEventListener M;
     _resizeTargetEl := _resizeTargetEl M; _modalWidthBeforeResize := v;
     _modalHeightBeforeResize := _modalHeightBeforeResize M;
     _resizeMouseDownX := _resizeMouseDownX M; _resizeMouseDownY := _resizeMouseDownY M;
     _dragAnchorEl := _dragAnchorEl M; _dragTargetEl := _dragTargetEl M;
     _dragXBeforeDragging := _dragXBeforeDragging M;
     _dragYBeforeDragging := _dragYBeforeDragging M; _currentDragX := _currentDragX M;
     _currentDragY := _currentDragY M; _dragMouseDownX := _dragMouseDownX M;
     _dragMouseDownY := _dragMouseDownY M |}.

Definition set_modalHeightBeforeResize (v : number) (M : Modal) : Modal :=
  {| _targetEl := _targetEl M; _options := _options M; _isHidden := _isHidden M;
     _backdropEl := _backdropEl M;
     _clickOutsideEventListener := _clickOutsideEventListener M;
     _keydownEventListener := _keydownEventListener M;
     _resizeTargetEl := _resizeTargetEl M;
     _modalWidthBeforeResize := _modalWidthBeforeResize M; _modalHeightBeforeResize := v;
     _resizeMouseDownX := _resizeMouseDownX M; _resizeMouseDownY := _resizeMouseDownY M;
     _dragAnchorEl := _dragAnchorEl M; _dragTargetEl := _dragTargetEl M;
     _dragXBeforeDragging := _dragXBeforeDragging M;
     _dragYBeforeDragging := _dragYBeforeDragging M; _currentDragX := _currentDragX M;
     _currentDragY := _currentDragY M; _dragMouseDownX := _dragMouseDownX M;
     _dragMouseDownY := _dragMouseDownY M |}.

Definition set_resizeMouseDownX (v : number) (M : Modal) : Modal :=
  {| _targetEl := _targetEl M; _options := _options M; _isHidden := _isHidden M;
     _backdropEl := _backdropEl M;
     _clickOutsideEventListener := _clickOutsideEventListener M;
     _keydownEventListener := _keydownEventListener M;
     _resizeTargetEl := _resizeTargetEl M;
     _modalWidthBeforeResize := _modalWidthBeforeResize M;
     _modalHeightBeforeResize := _modalHeightBeforeResize M; _resizeMouseDownX := v;
     _resizeMouseDownY := _resizeMouseDownY M; _dragAnchorEl := _dragAnchorEl M;
     _dragTargetEl := _dragTargetEl M; _dragXBeforeDragging := _dragXBeforeDragging M;
     _dragYBeforeDragging := _dragYBeforeDragging M; _currentDragX := _currentDragX M;
     _currentDragY := _currentDragY M; _dragMouseDownX := _dragMouseDownX M;
     _dragMouseDownY := _dragMouseDownY M |}.

Definition set_resizeMouseDownY (v : number) (M : Modal) : Modal :=
  {| _targetEl := _targetEl M; _options := _options M; _isHidden := _isHidden M;
     _backdropEl := _backdropEl M;
     _clickOutsideEventListener := _clickOutsideEventListener M;
     _keydownEventListener := _keydownEventListener M;
     _resizeTargetEl := _resizeTargetEl M;
     _modalWidthBeforeResize := _modalWidthBeforeResize M;
     _modalHeightBeforeResize := _modalHeightBeforeResize M;
     _resizeMouseDownX := _resizeMouseDownX M; _resizeMouseDownY := v;
     _dragAnchorEl := _dragAnchorEl M; _dragTargetEl := _dragTargetEl M;
     _dragXBeforeDragging := _dragXBeforeDragging M;
     _dragYBeforeDragging := _dragYBeforeDragging M; _currentDragX := _currentDragX M;
     _currentDragY := _currentDragY M; _dragMouseDownX := _dragMouseDownX M;
     _dragMouseDownY := _dragMouseDownY M |}.

Definition set_dragAnchorEl (v : option ElemId) (M : Modal) : Modal :=
  {| _targetEl := _targetEl M; _options := _options M; _isHidden := _isHidden M;
     _backdropEl := _backdropEl M;
     _clickOutsideEventListener := _clickOutsideEventListener M;
     _keydownEventListener := _keydownEventListener M;
     _resizeTargetEl := _resizeTargetEl M;
     _modalWidthBeforeResize := _modalWidthBeforeResize M;
     _modalHeightBeforeResize := _modalHeightBeforeResize M;
     _resizeMouseDownX := _resizeMouseDownX M; _resizeMouseDownY := _resizeMouseDownY M;
     _dragAnchorEl := v; _dragTargetEl := _dragTargetEl M;
     _dragXBeforeDragging := _dragXBeforeDragging M;
     _dragYBeforeDragging := _dragYBeforeDragging M; _currentDragX := _currentDragX M;
     _currentDragY := _currentDragY M; _dragMouseDownX := _dragMouseDownX M;
     _dragMouseDownY := _dragMouseDownY M |}.

Definition set_dragTargetEl (v : option ElemId) (M : Modal) : Modal :=
  {| _targetEl := _targetEl M; _options := _options M; _isHidden := _isHidden M;
     _backdropEl := _backdropEl M;
     _clickOutsideEventListener := _clickOutsideEventListener M;
     _keydownEventListener := _keydownEventListener M;
     _resizeTargetEl := _resizeTargetEl M;
     _modalWidthBeforeResize := _modalWidthBeforeResize M;
     _modalHeightBeforeResize := _modalHeightBeforeResize M;
     _resizeMouseDownX := _resizeMouseDownX M; _resizeMouseDownY := _resizeMouseDownY M;
     _dragAnchorEl := _dragAnchorEl M; _dragTargetEl := v;
     _dragXBeforeDragging := _dragXBeforeDragging M;
     _dragYBeforeDragging := _dragYBeforeDragging M; _currentDragX := _currentDragX M;
     _currentDragY := _currentDragY M; _dragMouseDownX := _dragMouseDownX M;
     _dragMouseDownY := _dragMouseDownY M |}.

Definition set_dragXBeforeDragging (v : number) (M : Modal) : Modal :=
  {| _targetEl := _targetEl M; _options := _options M; _isHidden := _isHidden M;
     _backdropEl := _backdropEl M;
     _clickOutsideEventListener := _clickOutsideEventListener M;
     _keydownEventListener := _keydownEventListener M;
     _resizeTargetEl := _resizeTargetEl M;
     _modalWidthBeforeResize := _modalWidthBeforeResize M;
     _modalHeightBeforeResize := _modalHeightBeforeResize M;
     _resizeMouseDownX := _resizeMouseDownX M; _resizeMouseDownY := _resizeMouseDownY M;
     _dragAnchorEl := _dragAnchorEl M; _dragTargetEl := _dragTargetEl M;
     _dragXBeforeDragging := v; _dragYBeforeDragging := _dragYBeforeDragging M;
     _currentDragX := _currentDragX M; _currentDragY := _currentDragY M;
     _dragMouseDownX := _dragMouseDownX M; _dragMouseDownY := _dragMouseDownY M |}.

Definition set_dragYBeforeDragging (v : number) (M : Modal) : Modal :=
  {| _targetEl := _targetEl M; _options := _options M; _isHidden := _isHidden M;
     _backdropEl := _backdropEl M;
     _clickOutsideEventListener := _clickOutsideEventListener M;
     _keydownEventListener := _keydownEventListener M;
     _resizeTargetEl := _resizeTargetEl M;
     _modalWidthBeforeResize := _modalWidthBeforeResize M;
     _modalHeightBeforeResize := _modalHeightBeforeResize M;
     _resizeMouseDownX := _resizeMouseDownX M; _resizeMouseDownY := _resizeMouseDownY M;
     _dragAnchorEl := _dragAnchorEl M; _dragTargetEl := _dragTargetEl M;
     _dragXBeforeDragging := _dragXBeforeDragging M; _dragYBeforeDragging := v;
     _currentDragX := _currentDragX M; _currentDragY := _currentDragY M;
     _dragMouseDownX := _dragMouseDownX M; _dragMouseDownY := _dragMouseDownY M |}.

Definition set_currentDragX (v : number) (M : Modal) : Modal :=
  {| _targetEl := _targetEl M; _options := _options M; _isHidden := _isHidden M;
     _backdropEl := _backdropEl M;
     _clickOutsideEventListener := _clickOutsideEventListener M;
     _keydownEventListener := _keydownEventListener M;
     _resizeTargetEl := _resizeTargetEl M;
     _modalWidthBeforeResize := _modalWidthBeforeResize M;
     _modalHeightBeforeResize := _modalHeightBeforeResize M;
     _resizeMouseDownX := _resizeMouseDownX M; _resizeMouseDownY := _resizeMouseDownY M;
     _dragAnchorEl := _dragAnchorEl M; _dragTargetEl := _dragTargetEl M;
     _dragXBeforeDragging := _dragXBeforeDragging M;
     _dragYBeforeDragging := _dragYBeforeDragging M; _currentDragX := v;
     _currentDragY := _currentDragY M; _dragMouseDownX := _dragMouseDownX M;
     _dragMouseDownY := _dragMouseDownY M |}.

Definition set_currentDragY (v : number) (M : Modal) : Modal :=
  {| _targetEl := _targetEl M; _options := _options M; _isHidden := _isHidden M;
     _backdropEl := _backdropEl M;
     _clickOutsideEventListener := _clickOutsideEventListener M;
     _keydownEventListener := _keydownEventListener M;
     _resizeTargetEl := _resizeTargetEl M;
     _modalWidthBeforeResize := _modalWidthBeforeResize M;
     _modalHeightBeforeResize := _modalHeightBeforeResize M;
     _resizeMouseDownX := _resizeMouseDownX M; _resizeMouseDownY := _resizeMouseDownY M;
     _dragAnchorEl := _dragAnchorEl M; _dragTargetEl := _dragTargetEl M;
     _dragXBeforeDragging := _dragXBeforeDragging M;
     _dragYBeforeDragging := _dragYBeforeDragging M; _currentDragX := _currentDragX M;
     _currentDragY := v; _dragMouseDownX := _dragMouseDownX M;
     _dragMouseDownY := _dragMouseDownY M |}.

Definition set_dragMouseDownX (v : number) (M : Modal) : Modal :=
  {| _targetEl := _targetEl M; _options := _options M; _isHidden := _isHidden M;
     _backdropEl := _backdropEl M;
     _clickOutsideEventListener := _clickOutsideEventListener M;
     _keydownEventListener := _keydownEventListener M;
     _resizeTargetEl := _resizeTargetEl M;
     _modalWidthBeforeResize := _modalWidthBeforeResize M;
     _modalHeightBeforeResize := _modalHeightBeforeResize M;
     _resizeMouseDownX := _resizeMouseDownX M; _resizeMouseDownY := _resizeMouseDownY M;
     _dragAnchorEl := _dragAnchorEl M; _dragTargetEl := _dragTargetEl M;
     _dragXBeforeDragging := _dragXBeforeDragging M;
     _dragYBeforeDragging := _dragYBeforeDragging M; _currentDragX := _currentDragX M;
     _currentDragY := _currentDragY M; _dragMouseDownX := v;
     _dragMouseDownY := _dragMouseDownY M |}.

Definition set_dragMouseDownY (v : number) (M : Modal) : Modal :=
  {| _targetEl := _targetEl M; _options := _options M; _isHidden := _isHidden M;
     _backdropEl := _backdropEl M;
     _clickOutsideEventListener := _clickOutsideEventListener M;
     _keydownEventListener := _keydownEventListener M;
     _resizeTargetEl := _resizeTargetEl M;
     _modalWidthBeforeResize := _modalWidthBeforeResize M;
     _modalHeightBeforeResize := _modalHeightBeforeResize M;
     _resizeMouseDownX := _resizeMouseDownX M; _resizeMouseDownY := _resizeMouseDownY M;
     _dragAnchorEl := _dragAnchorEl M; _dragTargetEl := _dragTargetEl M;
     _dragXBeforeDragging := _dragXBeforeDragging M;
     _dragYBeforeDragging := _dragYBeforeDragging M; _currentDragX := _currentDragX M;
     _currentDragY := _currentDragY M; _dragMouseDownX := _dragMouseDownX M;
     _dragMouseDownY := v |}.

Definition blankModal : Modal :=
  {| _targetEl := 0; _options := DefaultOptions; _isHidden := true;
     _backdropEl := None; _clickOutsideEventListener := None;
     _keydownEventListener := None; _resizeTargetEl := None;
     _modalWidthBeforeResize := NaN; _modalHeightBeforeResize := NaN;
     _resizeMouseDownX := NaN; _resizeMouseDownY := NaN;
     _dragAnchorEl := None; _dragTargetEl := None;
     _dragXBeforeDragging := NaN; _dragYBeforeDragging := NaN;
     _currentDragX := NaN; _currentDragY := NaN;
     _dragMouseDownX := NaN; _dragMouseDownY := NaN |}.

(** Reading and writing the fields of [this]. *)
Definition deref (w : World) (this : ModalRef) : Modal :=
  default blankModal (modals w !! this).

Definition updModal (this : ModalRef) (f : Modal -> Modal) (w : World) : World :=
  with_modals (alter f this) w.

(** A mouse or keyboard event, as far as the handlers read it. *)
Record Event : Type := mkEvent {
  ev_type : string;
  ev_target : ElemId;
  ev_key : string;
  pageX : Z;
  pageY : Z;
}.

(** ** The Modal class *)

(** The [switch] of [_getPlacementClasses], on the placement string. *)
Definition placementClasses (p : string) : list string :=
  if decide (p = "top-left") then ["justify-start"; "items-start"]
  else if decide (p = "top-center") then ["justify-center"; "items-start"]
  else if decide (p = "top-right") then ["justify-end"; "items-start"]
  else if decide (p = "center-left") then ["justify-start"; "items-center"]
  else if decide (p = "center") then ["justify-center"; "items-center"]
  else if decide (p = "center-right") then ["justify-end"; "items-center"]
  else if decide (p = "bottom-left") then ["justify-start"; "items-end"]
  else if decide (p = "bottom-center") then ["justify-center"; "items-end"]
  else if decide (p = "bottom-right") then ["justify-end"; "items-end"]
  else ["justify-center"; "items-center"].

Definition _getPlacementClasses (this : ModalRef) (w : World) : list string :=
  placementClasses (placement (_options (deref w this))).

(** A value interpolated into a template literal; [null] prints as such. *)
Definition interpolate (v : option string) : string := default "null" v.

(** [_init], for a target that is not null. *)
Definition _init (this : ModalRef) (w : World) : World :=
  let targetEl := _targetEl (deref w this) in
  let w := fold_left (fun w c => classList_add targetEl c w)
                     (_getPlacementClasses this w) w in
  let w :=
    match querySelector_attr w targetEl "data-modal-resize-target" with
    | Some resizeEl =>
        let resizeTargetId := getAttribute w resizeEl "data-modal-resize-target" in
        match querySelector_id w targetEl (interpolate resizeTargetId) with
        | Some resizeTargetEl =>
            let w := updModal this (set_resizeTargetEl (Some resizeTargetEl)) w in
            addEventListener (OnElement resizeEl) "mousedown" (OnResizeMouseDown this) true w
        | None => w
        end
    | None => w
    end in
  match querySelector_attr w targetEl "data-modal-drag" with
  | Some dragAnchorEl =>
      let dragTargetId := getAttribute w dragAnchorEl "data-modal-drag" in
      match querySelector_id w targetEl (interpolate dragTargetId) with
      | Some dragTargetEl =>
          let w := updModal this (set_dragAnchorEl (Some dragAnchorEl)) w in
          let w := updModal this (set_dragTargetEl (Some dragTargetEl)) w in
          addEventListener (OnElement dragAnchorEl) "mousedown" (OnDragMouseDown this) true w
      | None => w
      end
  | None => w
  end.

(** The fields as the constructor body assigns them. *)
Definition constructed (targetEl : ElemId) (options : PartialOptions) : Modal :=
  {| _targetEl := targetEl;
     _options := spread DefaultOptions options;
     _isHidden := true;
     _backdropEl := None;
     _clickOutsideEventListener := None;
     _keydownEventListener := None;
     _resizeTargetEl := None;
     _modalWidthBeforeResize := NaN; _modalHeightBeforeResize := NaN;
     _resizeMouseDownX := NaN; _resizeMouseDownY := NaN;
     _dragAnchorEl := None; _dragTargetEl := None;
     _dragXBeforeDragging := Int 0; _dragYBeforeDragging := Int 0;
     _currentDragX := Int 0; _currentDragY := Int 0;
     _dragMouseDownX := NaN; _dragMouseDownY := NaN |}.

(** [new Modal(targetEl, options)].  The reference of the new object is the
    next free index of the object store.  With a null target [_init] skips
    the placement classes and then dereferences the target: the constructor
    throws and no object is returned. *)
Definition Modal_new (targetEl : option ElemId) (options : option PartialOptions)
    (w : World) : Completion ModalRef :=
  let options := default (allOptions DefaultOptions) options in
  match targetEl with
  | None => Throw (TypeError "this._targetEl is null") w
  | Some el =>
      let this := length (modals w) in
      Normal this (_init this (with_modals (fun l => l ++ [constructed el options]) w))
  end.

Definition _createBackdrop (this : ModalRef) (w : World) : World :=
  if _isHidden (deref w this) then
    let (backdropEl, w) := createElement "div" w in
    let w := setAttribute backdropEl "modal-backdrop" "" w in
    let w := fold_left (fun w c => classList_add backdropEl c w)
                       (split_spaces (backdropClasses (_options (deref w this)))) w in
    let w := body_append backdropEl w in
    updModal this (set_backdropEl (Some backdropEl)) w
  else w.

(** [document.querySelector('[modal-backdrop]').remove()]: a null result
    of the query is dereferenced. *)
Definition _destroyBackdropEl (this : ModalRef) (w : World) : Completion unit :=
  if negb (_isHidden (deref w this)) then
    match document_querySelector_attr w "modal-backdrop" with
    | Some el => Normal tt (remove el w)
    | None => Throw (TypeError "document.querySelector(...) is null") w
    end
  else Normal tt w.

Definition _setupModalCloseEventListeners (this : ModalRef) (w : World) : World :=
  let w :=
    if decide (backdrop (_options (deref w this)) = "dynamic") then
      let closure := ClickOutsideClosure this (nextSerial w) in
      let w := with_nextSerial (S (nextSerial w)) w in
      let w := updModal this (set_clickOutsideEventListener (Some closure)) w in
      addEventListener (OnElement (_targetEl (deref w this))) "mouseup" closure true w
    else w in
  let closure := KeydownClosure this (nextSerial w) in
  let w := with_nextSerial (S (nextSerial w)) w in
  let w := updModal this (set_keydownEventListener (Some closure)) w in
  addEventListener (OnElement (body w)) "keydown" closure true w.

(** [removeEventListener] with an undefined callback does nothing. *)
Definition removeEventListener_opt (t : EventTarget) (type : string)
    (cb : option Callback) (capture : bool) (w : World) : World :=
  match cb with
  | Some cb => removeEventListener t type cb capture w
  | None => w
  end.

Definition _removeModalCloseEventListeners (this : ModalRef) (w : World) : World :=
  let w :=
    if decide (backdrop (_options (deref w this)) = "dynamic") then
      removeEventListener_opt (OnElement (_targetEl (deref w this))) "click"
        (_clickOutsideEventListener (deref w this)) true w
    else w in
  removeEventListener_opt (OnElement (body w)) "keydown"
    (_keydownEventListener (deref w this)) true w.

(** The methods [isVisible()] and [isHidden()]. *)
Definition isVisible (this : ModalRef) (w : World) : bool :=
  negb (_isHidden (deref w this)).

Definition isHidden (this : ModalRef) (w : World) : bool :=
  _isHidden (deref w this).

(** The conditions [this.isHidden] and [this.isVisible], without a call:
    the value tested is the method itself, a function object. *)
Definition function_object_truthy : bool := true.

Definition show (this : ModalRef) (w : World) : Completion unit :=
  if function_object_truthy then
    let targetEl := _targetEl (deref w this) in
    let w := classList_add targetEl "flex" w in
    let w := classList_remove targetEl "hidden" w in
    let w := setAttribute targetEl "aria-modal" "true" w in
    let w := setAttribute targetEl "role" "dialog" w in
    let w := removeAttribute targetEl "aria-hidden" w in
    let w := _createBackdrop this w in
    let w := updModal this (set_isHidden false) w in
    let w := classList_add (body w) "overflow-hidden" w in
    let w := if closable (_options (deref w this))
             then _setupModalCloseEventListeners this w else w in
    Normal tt (emit (Invoked HookShow (onShow (_options (deref w this))) this) w)
  else Normal tt w.

Definition hide (this : ModalRef) (w : World) : Completion unit :=
  if function_object_truthy then
    let targetEl := _targetEl (deref w this) in
    let w := classList_add targetEl "hidden" w in
    let w := classList_remove targetEl "flex" w in
    let w := setAttribute targetEl "aria-hidden" "true" w in
    let w := removeAttribute targetEl "aria-modal" w in
    let w := removeAttribute targetEl "role" w in
    _destroyBackdropEl this w >>= fun _ w =>
    let w := updModal this (set_isHidden true) w in
    let w := classList_remove (body w) "overflow-hidden" w in
    let w := if closable (_options (deref w this))
             then _removeModalCloseEventListeners this w else w in
    Normal tt (emit (Invoked HookHide (onHide (_options (deref w this))) this) w)
  else Normal tt w.

Definition toggle (this : ModalRef) (w : World) : Completion unit :=
  (if _isHidden (deref w this) then show this w else hide this w) >>= fun _ w =>
  Normal tt (emit (Invoked HookToggle (onToggle (_options (deref w this))) this) w).

Definition _handleOutsideClick (this : ModalRef) (target : ElemId) (w : World)
    : Completion unit :=
  if bool_decide (target = _targetEl (deref w this))
     || (bool_decide (Some target = _backdropEl (deref w this)) && isVisible this w)
  then hide this w
  else Normal tt w.

(** *** Resize handlers *)

(** Dereferencing an element field that may be undefined. *)
Definition required (what : string) (o : option ElemId) (w : World)
    (k : ElemId -> World -> Completion unit) : Completion unit :=
  match o with
  | Some el => k el w
  | None => Throw (TypeError what) w
  end.

Definition __onResizeMouseDown (this : ModalRef) (e : Event) (w : World) : Completion unit :=
  let w := emit StopPropagation w in
  let w := emit PreventDefault w in
  required "this._resizeTargetEl is undefined" (_resizeTargetEl (deref w this)) w
    (fun resizeTargetEl w =>
  let w := updModal this
             (set_modalWidthBeforeResize (Int (clientWidth (element w resizeTargetEl)))) w in
  let w := updModal this
             (set_modalHeightBeforeResize (Int (clientHeight (element w resizeTargetEl)))) w in
  let w := updModal this (set_resizeMouseDownX (Int (pageX e))) w in
  let w := updModal this (set_resizeMouseDownY (Int (pageY e))) w in
  let w := addEventListener OnDocument "mousemove" (OnResizeMouseMove this) true w in
  let w := addEventListener OnDocument "mouseup" (OnResizeMouseUp this) true w in
  Normal tt w).

Definition __onResizeMouseMove (this : ModalRef) (e : Event) (w : World) : Completion unit :=
  let w := emit StopPropagation w in
  let w := emit PreventDefault w in
  let deltaX := num_sub (Int (pageX e)) (_resizeMouseDownX (deref w this)) in
  let deltaY := num_sub (Int (pageY e)) (_resizeMouseDownY (deref w this)) in
  let newWidth := num_add (_modalWidthBeforeResize (deref w this)) deltaX in
  let newHeight := num_add (_modalHeightBeforeResize (deref w this)) deltaY in
  let newWidth := Math_max MinResizeWidth newWidth in
  let newHeight := Math_max MinResizeHeight newHeight in
  required "this._resizeTargetEl is undefined" (_resizeTargetEl (deref w this)) w
    (fun resizeTargetEl w =>
  let w := setStyle resizeTargetEl "width" (num_to_string newWidth +:+ "px") w in
  let w := setStyle resizeTargetEl "height" (num_to_string newHeight +:+ "px") w in
  let w := setStyle resizeTargetEl "maxWidth" "100%" w in
  Normal tt w).

Definition __onResizeMouseUp (this : ModalRef) (e : Event) (w : World) : Completion unit :=
  let w := emit StopPropagation w in
  let w := removeEventListener OnDocument "mousemove" (OnResizeMouseMove this) true w in
  let w := removeEventListener OnDocument "mouseup" (OnResizeMouseUp this) true w in
  Normal tt w.

(** *** Drag handlers *)

Definition __onDragMouseDown (this : ModalRef) (e : Event) (w : World) : Completion unit :=
  let eventTargetEl := ev_target e in
  if bool_decide (is_Some (closest_a_button w eventTargetEl)) then Normal tt w
  else
    let w := emit StopPropagation w in
    let w := emit PreventDefault w in
    let w := emit (ConsoleLogString "target") w in
    let w := emit (ConsoleLogElement (ev_target e)) w in
    let w := updModal this (set_dragMouseDownX (Int (pageX e))) w in
    let w := updModal this (set_dragMouseDownY (Int (pageY e))) w in
    let w := addEventListener OnDocument "mousemove" (OnDragMouseMove this) true w in
    let w := addEventListener OnDocument "mouseup" (OnDragMouseUp this) true w in
    Normal tt w.

Definition translate (x y : number) : string :=
  "translate(" +:+ num_to_string x +:+ "px, " +:+ num_to_string y +:+ "px)".

Definition __onDragMouseMove (this : ModalRef) (e : Event) (w : World) : Completion unit :=
  let w := emit StopPropagation w in
  let w := emit PreventDefault w in
  let deltaX := num_sub (Int (pageX e)) (_dragMouseDownX (deref w this)) in
  let deltaY := num_sub (Int (pageY e)) (_dragMouseDownY (deref w this)) in
  let newX := num_add (_dragXBeforeDragging (deref w this)) deltaX in
  let newY := num_add (_dragYBeforeDragging (deref w this)) deltaY in
  let w := updModal this (set_currentDragX newX) w in
  let w := updModal this (set_currentDragY newY) w in
  required "this._dragTargetEl is undefined" (_dragTargetEl (deref w this)) w
    (fun dragTargetEl w =>
  Normal tt (setStyle dragTargetEl "transform" (translate newX newY) w)).

Definition __onDragMouseUp (this : ModalRef) (e : Event) (w : World) : Completion unit :=
  let w := emit StopPropagation w in
  let w := updModal this (set_dragXBeforeDragging (_currentDragX (deref w this))) w in
  let w := updModal this (set_dragYBeforeDragging (_currentDragY (deref w this))) w in
  let w := removeEventListener OnDocument "mousemove" (OnDragMouseMove this) true w in
  let w := removeEventListener OnDocument "mouseup" (OnDragMouseUp this) true w in
  Normal tt w.

(** *** Calling a registered listener *)

Definition invoke (cb : Callback) (ev : Event) (w : World) : Completion unit :=
  match cb with
  | ClickOutsideClosure this _ => _handleOutsideClick this (ev_target ev) w
  | KeydownClosure this _ =>
      if decide (ev_key ev = "Escape") then hide this w else Normal tt w
  | OnResizeMouseDown this => __onResizeMouseDown this ev w
  | OnResizeMouseMove this => __onResizeMouseMove this ev w
  | OnResizeMouseUp this => __onResizeMouseUp this ev w
  | OnDragMouseDown this => __onDragMouseDown this ev w
  | OnDragMouseMove this => __onDragMouseMove this ev w
  | OnDragMouseUp this => __onDragMouseUp this ev w
  | TriggerToggleClosure object _ => toggle object w
  | TriggerShowClosure object _ =>
      if function_object_truthy then show object w else Normal tt w
  | TriggerHideClosure object _ =>
      if function_object_truthy then hide object w else Normal tt w
  end.

(** The event [ev] visits the event target [t]: the listeners [ls], taken
    from those registered there when the visit begins, are called in order
    if they are for its type, skipping those removed meanwhile; an
    exception thrown by one is reported and the others still run.  This is
    one visit; which targets an event visits, and with which of their
    listeners, is [dispatchEvent] below. *)
Fixpoint callListeners (t : EventTarget) (ls : list Listener) (ev : Event) (w : World)
    : World :=
  match ls with
  | [] => w
  | l :: rest =>
      let w :=
        if bool_decide (l_type l = ev_type ev) && bool_decide (l ∈ listenersOf w t) then
          match invoke (l_callback l) ev w with
          | Normal _ w => w
          | Throw e w => emit (Uncaught e) w
          end
        else w in
      callListeners t rest ev w
  end.

(** All listeners of one target, whatever the path of the event. *)
Definition deliver (t : EventTarget) (ev : Event) (w : World) : World :=
  callListeners t (listenersOf w t) ev w.

(** *** The path of an event

    A mouse or key event whose target is an element of the document goes
    down from the document through the ancestors of the target to the
    target, calling the capturing listeners, and up again, calling the
    others (the events of this component all bubble).  After a listener
    has called [stopPropagation] the listeners of the node where the event
    is still run and no further node is visited.  (The window, on which
    this code registers nothing, is left out.) *)

Definition is_stopPropagation (x : Effect) : bool :=
  match x with
  | StopPropagation => true
  | _ => false
  end.

Definition eventPath (w : World) (target : ElemId) : list EventTarget :=
  OnDocument :: map OnElement (rev (target :: ancestors w target)).

Definition listenersInPhase (capture : bool) (w : World) (t : EventTarget) : list Listener :=
  List.filter (fun l => Bool.eqb (l_capture l) capture) (listenersOf w t).

(** One node in one phase; the flag tells whether propagation stops. *)
Definition visitNode (capture : bool) (t : EventTarget) (ev : Event) (w : World)
    : bool * World :=
  let w' := callListeners t (listenersInPhase capture w t) ev w in
  (existsb is_stopPropagation (drop (length (effects w)) (effects w')), w').

Fixpoint visitPath (capture : bool) (path : list EventTarget) (ev : Event) (w : World)
    : bool * World :=
  match path with
  | [] => (false, w)
  | t :: rest =>
      let (stop, w') := visitNode capture t ev w in
      if stop then (true, w') else visitPath capture rest ev w'
  end.

Definition dispatchEvent (ev : Event) (w : World) : World :=
  let path := eventPath w (ev_target ev) in
  let (stop, w1) := visitPath true path ev w in
  if stop then w1 else snd (visitPath false (rev path) ev w1).

(** ** Declarative bootstrapping *)

Record ModalInstance : Type := mkModalInstance {
  id : string;
  object : ModalRef;
}.

Definition getModalInstance (id' : string) (instances : list ModalInstance)
    : option ModalInstance :=
  if existsb (fun modalInstance => bool_decide (id modalInstance = id')) instances
  then List.find (fun modalInstance => bool_decide (id modalInstance = id')) instances
  else None.

(** [list.forEach(f)], with the local variables [f] assigns threaded as [s]. *)
Fixpoint forEach {A S : Type} (l : list A) (f : A -> S -> World -> Completion S)
    (s : S) (w : World) : Completion S :=
  match l with
  | [] => Normal s w
  | x :: rest => f x s w >>= fun s w => forEach rest f s w
  end.

(** [v ? v : d] on an attribute value: null and the empty string are falsy. *)
Definition or_default (v : option string) (d : string) : string :=
  match v with
  | Some s => if decide (s = "") then d else s
  | None => d
  end.

(** The options literal built from the target's data attributes. *)
Definition optionsFromAttributes (w : World) (modalEl : ElemId) : PartialOptions :=
  let placement' := getAttribute w modalEl "data-modal-placement" in
  let backdrop' := getAttribute w modalEl "data-modal-backdrop" in
  {| opt_placement := Some (or_default placement' (placement DefaultOptions));
     opt_backdropClasses := None;
     opt_backdrop := Some (or_default backdrop' (backdrop DefaultOptions));
     opt_closable := None; opt_onHide := None; opt_onShow := None;
     opt_onToggle := None |}.

(** Body of the loop over [[data-modal-target]] triggers. *)
Definition initTarget (triggerEl : ElemId) (modalInstances : list ModalInstance)
    (w : World) : Completion (list ModalInstance) :=
  let modalId := interpolate (getAttribute w triggerEl "data-modal-target") in
  match getElementById w modalId with
  | Some modalEl =>
      match getModalInstance modalId modalInstances with
      | None =>
          Modal_new (Some modalEl) (Some (optionsFromAttributes w modalEl)) w
            >>= fun obj w =>
          Normal (modalInstances ++ [{| id := modalId; object := obj |}]) w
      | Some _ => Normal modalInstances w
      end
  | None =>
      Normal modalInstances
        (emit (ConsoleError ("Modal with id " +:+ modalId +:+
           " does not exist. Are you sure that the data-modal-target attribute points to the correct modal id?.")) w)
  end.

(** Body of the loop over [[data-modal-toggle]] triggers. *)
Definition initToggle (triggerEl : ElemId) (modalInstances : list ModalInstance)
    (w : World) : Completion (list ModalInstance) :=
  let modalId := interpolate (getAttribute w triggerEl "data-modal-toggle") in
  match getElementById w modalId with
  | Some modalEl =>
      (match getModalInstance modalId modalInstances with
       | None =>
           Modal_new (Some modalEl) (Some (optionsFromAttributes w modalEl)) w
             >>= fun obj w =>
           let modal := {| id := modalId; object := obj |} in
           Normal (modal, modalInstances ++ [modal]) w
       | Some modal => Normal (modal, modalInstances) w
       end) >>= fun '(modal, modalInstances) w =>
      let closure := TriggerToggleClosure (object modal) (nextSerial w) in
      let w := with_nextSerial (S (nextSerial w)) w in
      Normal modalInstances (addEventListener (OnElement triggerEl) "click" closure false w)
  | None =>
      Normal modalInstances
        (emit (ConsoleError ("Modal with id " +:+ modalId +:+
           " does not exist. Are you sure that the data-modal-toggle attribute points to the correct modal id?")) w)
  end.

(** Body of the loops over [[data-modal-show]] and [[data-modal-hide]]
    triggers, which differ in the attribute and in the click handler. *)
Definition initShowHide (attr : string) (mk : ModalRef -> nat -> Callback)
    (triggerEl : ElemId) (modalInstances : list ModalInstance) (w : World)
    : Completion (list ModalInstance) :=
  let modalId := interpolate (getAttribute w triggerEl attr) in
  match getElementById w modalId with
  | Some modalEl =>
      match getModalInstance modalId modalInstances with
      | Some modal =>
          let closure := mk (object modal) (nextSerial w) in
          let w := with_nextSerial (S (nextSerial w)) w in
          Normal modalInstances
            (addEventListener (OnElement triggerEl) "click" closure false w)
      | None =>
          Normal modalInstances
            (emit (ConsoleError ("Modal with id " +:+ modalId +:+
               " has not been initialized. Please initialize it using the data-modal-target attribute.")) w)
      end
  | None =>
      Normal modalInstances
        (emit (ConsoleError ("Modal with id " +:+ modalId +:+
           " does not exist. Are you sure that the " +:+ attr +:+
           " attribute points to the correct modal id?")) w)
  end.

(** [initModals()].  The list [modalInstances] is local to the function;
    it is the value of the completion here so that it can be observed. *)
Definition initModals (w : World) : Completion (list ModalInstance) :=
  forEach (querySelectorAll_attr w "data-modal-target") initTarget [] w
    >>= fun modalInstances w =>
  forEach (querySelectorAll_attr w "data-modal-toggle") initToggle modalInstances w
    >>= fun modalInstances w =>
  forEach (querySelectorAll_attr w "data-modal-show")
          (initShowHide "data-modal-show" TriggerShowClosure) modalInstances w
    >>= fun modalInstances w =>
  forEach (querySelectorAll_attr w "data-modal-hide")
          (initShowHide "data-modal-hide" TriggerHideClosure) modalInstances w.

(** * Vocabulary of the properties *)

(** ** Placement and the instance registry *)

(** The nine placements and the nine pairs of classes. *)
Definition compassPositions : list string :=
  ["top-left"; "top-center"; "top-right";
   "center-left"; "center"; "center-right";
   "bottom-left"; "bottom-center"; "bottom-right"].

Definition placementPairs : list (list string) :=
  [ ["justify-start"; "items-start"]; ["justify-center"; "items-start"];
    ["justify-end"; "items-start"];
    ["justify-start"; "items-center"]; ["justify-center"; "items-center"];
    ["justify-end"; "items-center"];
    ["justify-start"; "items-end"]; ["justify-center"; "items-end"];
    ["justify-end"; "items-end"] ].

(** The registry holds no identifier twice. *)
Definition distinctIds (instances : list ModalInstance) : Prop :=
  NoDup (map id instances).

(** The first [n1] rounds of the first loop of [initModals] followed by the
    first [n2] rounds of the second: the loops that push to the list. *)
Definition initModals_rounds (n1 n2 : nat) (w : World) : Completion (list ModalInstance) :=
  forEach (take n1 (querySelectorAll_attr w "data-modal-target")) initTarget [] w
    >>= fun modalInstances w =>
  forEach (take n2 (querySelectorAll_attr w "data-modal-toggle")) initToggle modalInstances w.

(** ** The steps of [show] and [hide]

    For the proofs both methods are cut in three: the statements on the
    target up to the backdrop, the backdrop, and the rest. *)

(** The backdrop element that [_createBackdrop] builds, before it is
    attached. *)
Definition backdropSketch (this : ModalRef) (w : World) : World :=
  fold_left (fun w0 c => classList_add (nextElem w) c w0)
    (split_spaces (backdropClasses (_options (deref w this))))
    (setAttribute (nextElem w) "modal-backdrop" "" (snd (createElement "div" w))).

(** [show] up to the backdrop, and after it. *)
Definition showPrefix (this : ModalRef) (w : World) : World :=
  let targetEl := _targetEl (deref w this) in
  removeAttribute targetEl "aria-hidden"
    (setAttribute targetEl "role" "dialog"
       (setAttribute targetEl "aria-modal" "true"
          (classList_remove targetEl "hidden" (classList_add targetEl "flex" w)))).

Definition showSuffix (this : ModalRef) (w : World) : World :=
  let w := updModal this (set_isHidden false) w in
  let w := classList_add (body w) "overflow-hidden" w in
  let w := if closable (_options (deref w this))
           then _setupModalCloseEventListeners this w else w in
  emit (Invoked HookShow (onShow (_options (deref w this))) this) w.

(** [hide] up to the backdrop, and after it. *)
Definition hidePrefix (this : ModalRef) (w : World) : World :=
  let targetEl := _targetEl (deref w this) in
  removeAttribute targetEl "role"
    (removeAttribute targetEl "aria-modal"
       (setAttribute targetEl "aria-hidden" "true"
          (classList_remove targetEl "flex" (classList_add targetEl "hidden" w)))).

Definition hideSuffix (this : ModalRef) (w : World) : World :=
  let w := updModal this (set_isHidden true) w in
  let w := classList_remove (body w) "overflow-hidden" w in
  let w := if closable (_options (deref w this))
           then _removeModalCloseEventListeners this w else w in
  emit (Invoked HookHide (onHide (_options (deref w this))) this) w.

(** [hide] finds a backdrop to remove whenever it looks for one. *)
Definition backdropAvailable (this : ModalRef) (w : World) : Prop :=
  _isHidden (deref w this) = false ->
  is_Some (document_querySelector_attr w "modal-backdrop").

(** ** Callbacks, objects, listeners *)

(** The effect [x] is an invocation of the callback of hook [h] with the
    modal [this]; how often that happened in a trace. *)
Definition is_invocation (h : Hook) (this : ModalRef) (x : Effect) : bool :=
  match x with
  | Invoked h' _ arg => bool_decide (h' = h) && bool_decide (arg = this)
  | _ => false
  end.

Definition invocations (h : Hook) (this : ModalRef) (l : list Effect) : nat :=
  length (List.filter (is_invocation h this) l).

(** The object [this] exists. *)
Definition allocated (this : ModalRef) (w : World) : Prop :=
  this < length (modals w).

(** The serial number of the keydown closure. *)
Definition keydownSerial (this : ModalRef) (w : World) : nat :=
  if decide (backdrop (_options (deref w this)) = "dynamic")
  then S (nextSerial w) else nextSerial w.

(** The state in which [show] reaches its suffix. *)
Definition showMiddle (this : ModalRef) (w : World) : World :=
  _createBackdrop this (showPrefix this w).

(** The document holds no backdrop element. *)
Definition noBackdrop (w : World) : Prop :=
  forall e, e ∈ tree w -> hasAttribute w e "modal-backdrop" = false.

(** What C3 asks of a cycle. *)
Definition restoredByCycle (this : ModalRef) (w : World) : Prop :=
  let targetEl := _targetEl (deref w this) in
  let w2 := outcome (hide this (outcome (show this w))) in
  classList (element w2 targetEl) = classList (element w targetEl) /\
  attributes (element w2 targetEl) = attributes (element w targetEl) /\
  noBackdrop w2.

(** A handler called for each of a sequence of events. *)
Definition handleEach (h : Event -> World -> Completion unit) (evs : list Event)
    (w : World) : World :=
  fold_left (fun w0 e => outcome (h e w0)) evs w.

(** Every "mouseup" listener registered on [e] is a click-outside closure
    of the modal [this]. *)
Definition onlyOwnMouseup (this : ModalRef) (e : ElemId) (w : World) : Prop :=
  forall l, l ∈ listeners (element w e) -> l_type l = "mouseup" ->
            exists n, l_callback l = ClickOutsideClosure this n.

(** The facts about [this] that a call of the click-outside handler
    relies on and maintains. *)
Record dismissible (this : ModalRef) (targetEl : ElemId) (backdropEl : option ElemId)
    (w : World) : Prop := {
  dis_allocated : allocated this w;
  dis_target : _targetEl (deref w this) = targetEl;
  dis_backdrop : _backdropEl (deref w this) = backdropEl;
  dis_available : backdropAvailable this w;
}.

(** ** A sample page

    [<body>] holds a trigger button and the modal [#my-modal], marked up
    as hidden; inside the modal a panel with a drag anchor (which holds a
    close button) and a resize handle. *)

Definition sampleElement (tag : string) (parent : option ElemId) (classes : list string)
    (attrs : list (string * string)) : Element :=
  {| tagName := tag; parentNode := parent; classList := classes;
     attributes := list_to_map attrs; style := ∅;
     clientWidth := 640; clientHeight := 480; listeners := [] |}.

Definition samplePageWith (modalClasses : list string)
    (modalAttrs : list (string * string)) : World :=
  {| elements := list_to_map
       [ (0, sampleElement "html" None [] []);
         (1, sampleElement "body" (Some 0) [] []);
         (2, sampleElement "button" (Some 1) [] [("data-modal-toggle", "my-modal")]);
         (3, sampleElement "div" (Some 1) modalClasses (("id", "my-modal") :: modalAttrs));
         (4, sampleElement "div" (Some 3) [] [("id", "panel")]);
         (5, sampleElement "div" (Some 4) [] [("data-modal-drag", "panel")]);
         (6, sampleElement "button" (Some 5) [] []);
         (7, sampleElement "div" (Some 4) [] [("data-modal-resize-target", "panel")]) ];
     tree := [0; 1; 2; 3; 4; 5; 6; 7];
     body := 1;
     documentListeners := [];
     nextElem := 8;
     modals := [];
     nextSerial := 0;
     effects := [] |}.

Definition samplePage : World :=
  samplePageWith ["hidden"; "fixed"] [("aria-hidden", "true")].

(** The sample page after [initModals]: one Modal, reference 0, target 3. *)
Definition sampleReady : World := outcome (initModals samplePage).

(** ... and after the modal has been shown. *)
Definition sampleShown : World := outcome (show 0 sampleReady).

(** The same page with [role="dialog"] written in the markup of the modal. *)
Definition samplePageWithRole : World :=
  samplePageWith ["hidden"; "fixed"] [("aria-hidden", "true"); ("role", "dialog")].

Definition sampleReadyWithRole : World := outcome (initModals samplePageWithRole).

(** The same page with a modal that is not marked up as hidden. *)
Definition samplePageUnmarked : World := samplePageWith ["flex"] [].

Definition sampleReadyUnmarked : World := outcome (initModals samplePageUnmarked).

Definition sampleEvent (type : string) (target : ElemId) (x y : Z) : Event :=
  {| ev_type := type; ev_target := target; ev_key := ""; pageX := x; pageY := y |}.

(** The sample page in the middle of a first drag gesture that has moved
    the panel by (30, 40). *)
Definition sampleDragging : World :=
  outcome (__onDragMouseMove 0 (sampleEvent "mousemove" 5 40 60)
             (outcome (__onDragMouseDown 0 (sampleEvent "mousedown" 5 10 20) sampleReady))).

(** ** Backdrops and visible modals

    [hide] removes the first backdrop element of the document without
    checking that there is one.  The last part of the development shows
    that there always is: starting from a page without Modal objects,
    whatever sequence of constructions, calls and events follows, the
    document holds at least as many backdrop elements as there are
    visible modals. *)

(** What that argument looks at: the tree order, the allocation counter,
    the body, which elements carry the backdrop attribute, the parent
    links, and which modals are hidden. *)
Record sameView (w w' : World) : Prop := {
  sv_tree : tree w' = tree w;
  sv_nextElem : nextElem w' = nextElem w;
  sv_body : body w' = body w;
  sv_backdrop : forall e,
    hasAttribute w' e "modal-backdrop" = hasAttribute w e "modal-backdrop";
  sv_parent : forall e, parentNode (element w' e) = parentNode (element w e);
  sv_hidden : map _isHidden (modals w') = map _isHidden (modals w);
}.

(** A state transformer that this argument cannot see. *)
Definition quiet (f : World -> World) : Prop := forall w, sameView w (f w).

(** Backdrop elements in the document, and visible modals. *)
Definition isBackdrop (w : World) (e : ElemId) : bool :=
  hasAttribute w e "modal-backdrop".

Definition countBackdrops (w : World) : nat :=
  length (List.filter (isBackdrop w) (tree w)).

Definition countVisible (w : World) : nat :=
  length (List.filter negb (map _isHidden (modals w))).

(** The document is tidy: its elements are allocated and listed once, and
    no element, the body included, hangs under a backdrop. *)
Record tidy (w : World) : Prop := {
  tidy_tree : forall e, e ∈ tree w -> e < nextElem w;
  tidy_nodup : NoDup (tree w);
  tidy_parent : forall e p,
    parentNode (element w e) = Some p -> p < nextElem w /\ isBackdrop w p = false;
  tidy_body : body w < nextElem w /\ isBackdrop w (body w) = false;
}.

(** ... and it holds a backdrop for every visible modal. *)
Record consistent (w : World) : Prop := {
  con_tidy : tidy w;
  con_count : countVisible w <= countBackdrops w;
}.

(** A page before any Modal exists. *)
Definition pristine (w : World) : Prop := tidy w /\ modals w = [].

(** What can happen next: a construction, a call of a public method, an
    event reaching the listeners of some target, the bootstrapping. *)
Inductive step (w : World) : World -> Prop :=
  | step_new (targetEl : option ElemId) (options : option PartialOptions) :
      step w (outcome (Modal_new targetEl options w))
  | step_show (this : ModalRef) : step w (outcome (show this w))
  | step_hide (this : ModalRef) : step w (outcome (hide this w))
  | step_toggle (this : ModalRef) : step w (outcome (toggle this w))
  | step_deliver (t : EventTarget) (ev : Event) : step w (deliver t ev w)
  | step_initModals : step w (outcome (initModals w)).

Inductive reachable : World -> Prop :=
  | reachable_page (w : World) : pristine w -> reachable w
  | reachable_step (w w' : World) : reachable w -> step w w' -> reachable w'.

(** ** Further vocabulary *)

(** The backdrop classes of [this] are tokens that a class list accepts. *)
Definition acceptsBackdropClasses (this : ModalRef) (w : World) : bool :=
  forallb validToken (split_spaces (backdropClasses (_options (deref w this)))).

(** [show] builds no backdrop, or builds it from valid tokens. *)
Definition showable (this : ModalRef) (w : World) : Prop :=
  _isHidden (deref w this) = true -> acceptsBackdropClasses this w = true.

(** The resize handles and drag anchors of the page name plain
    identifiers. *)
Definition namesPlainIdent (w : World) (e : ElemId) (name : string) : bool :=
  match getAttribute w e name with
  | Some v => plainIdent v
  | None => true
  end.

Definition plainPage (w : World) : bool :=
  forallb (fun e => namesPlainIdent w e "data-modal-resize-target"
                    && namesPlainIdent w e "data-modal-drag") (tree w).

(** The only "mouseup" listeners of the page are click-outside closures
    of [this], on the element [targetEl]. *)
Definition mouseupOnlyOwn (this : ModalRef) (targetEl : ElemId) (w : World) : Prop :=
  forall t l, l ∈ listenersOf w t -> l_type l = "mouseup" ->
    t = OnElement targetEl /\ exists n, l_callback l = ClickOutsideClosure this n.

(** The element [e] is a link or a button, or lies inside one. *)
Definition withinControl (w : World) (e : ElemId) : Prop :=
  exists x, x ∈ e :: ancestors w e /\
            (tagName (element w x) = "a" \/ tagName (element w x) = "button").

(** Every "keydown" listener registered on [e] is a keydown closure of the
    modal [this]. *)
Definition onlyOwnKeydown (this : ModalRef) (e : ElemId) (w : World) : Prop :=
  forall l, l ∈ listeners (element w e) -> l_type l = "keydown" ->
            exists n, l_callback l = KeydownClosure this n.

(** ** What bootstrapping leaves as it is *)

(** The second state has the document of the first: the same tree, and on
    every element the same tag, parent and attributes. *)
Record sameMarkup (w w' : World) : Prop := {
  sm_tree : tree w' = tree w;
  sm_body : body w' = body w;
  sm_tag : forall e, tagName (element w' e) = tagName (element w e);
  sm_parent : forall e, parentNode (element w' e) = parentNode (element w e);
  sm_attributes : forall e, attributes (element w' e) = attributes (element w e);
}.

(** The second state extends the first: the markup is the same, the Modal
    objects of the first are unchanged and every further object is hidden,
    the listeners of the first are still registered, and no callback has
    been invoked in between. *)
Record extends (w w' : World) : Prop := {
  ext_markup : sameMarkup w w';
  ext_length : length (modals w) <= length (modals w');
  ext_modals : forall m, m < length (modals w) -> deref w' m = deref w m;
  ext_hidden : forall m, length (modals w) <= m -> _isHidden (deref w' m) = true;
  ext_listeners : forall e l, l ∈ listeners (element w e) -> l ∈ listeners (element w' e);
  ext_document : documentListeners w' = documentListeners w;
  ext_calls : forall h m, invocations h m (effects w') = invocations h m (effects w);
}.

(** Every entry of the instance list names an existing Modal object whose
    target is the element with the entry's identifier and whose options
    are those that the attributes of the target give. *)
Definition registered (w : World) (instances : list ModalInstance) : Prop :=
  forall modalInstance, modalInstance ∈ instances ->
    let M := deref w (object modalInstance) in
    allocated (object modalInstance) w /\
    getElementById w (id modalInstance) = Some (_targetEl M) /\
    _options M = spread DefaultOptions (optionsFromAttributes w (_targetEl M)).

(** A round of a loop of [initModals], or several: the state is extended,
    the instance list keeps its entries, and its entries are registered. *)
Record round (instances : list ModalInstance) (w : World)
    (instances' : list ModalInstance) (w' : World) : Prop := {
  round_extends : extends w w';
  round_keeps : forall modalInstance, modalInstance ∈ instances -> modalInstance ∈ instances';
  round_registered : registered w' instances';
}.

(** The trigger [triggerEl] has a click listener made of [closure] for a
    Modal object whose target is [modalEl]. *)
Definition wired (closure : ModalRef -> nat -> Callback) (triggerEl modalEl : ElemId)
    (w : World) : Prop :=
  exists obj n,
    allocated obj w /\ _targetEl (deref w obj) = modalEl /\
    mkListener "click" (closure obj n) false ∈ listeners (element w triggerEl).

(** The instance list has an entry for the identifier. *)
Definition knows (modalId : string) (instances : list ModalInstance) : Prop :=
  exists modalInstance, modalInstance ∈ instances /\ id modalInstance = modalId.

(** What [_init] looks up under a target: the resize handle and the
    element that it resizes, the drag anchor and the element that it
    drags; both, or nothing. *)
Definition resizeParts (w : World) (targetEl : ElemId) : option (ElemId * ElemId) :=
  match querySelector_attr w targetEl "data-modal-resize-target" with
  | Some resizeEl =>
      match querySelector_id w targetEl
              (interpolate (getAttribute w resizeEl "data-modal-resize-target")) with
      | Some resizeTargetEl => Some (resizeEl, resizeTargetEl)
      | None => None
      end
  | None => None
  end.

Definition dragParts (w : World) (targetEl : ElemId) : option (ElemId * ElemId) :=
  match querySelector_attr w targetEl "data-modal-drag" with
  | Some dragAnchorEl =>
      match querySelector_id w targetEl
              (interpolate (getAttribute w dragAnchorEl "data-modal-drag")) with
      | Some dragTargetEl => Some (dragAnchorEl, dragTargetEl)
      | None => None
      end
  | None => None
  end.

(** ** More sample pages *)

(** The sample page with the modal shown, after a script has taken the
    backdrop element out of the document. *)
Definition sampleShownBare : World := remove 8 sampleShown.

(** A page with two modals, [#first] and [#second], each with a toggle
    button; and the page after [initModals]: Modal 0 on element 3, Modal 1
    on element 5. *)
Definition stackPage : World :=
  {| elements := list_to_map
       [ (0, sampleElement "html" None [] []);
         (1, sampleElement "body" (Some 0) [] []);
         (2, sampleElement "button" (Some 1) [] [("data-modal-toggle", "first")]);
         (3, sampleElement "div" (Some 1) ["hidden"] [("id", "first")]);
         (4, sampleElement "button" (Some 1) [] [("data-modal-toggle", "second")]);
         (5, sampleElement "div" (Some 1) ["hidden"]
               [("id", "second"); ("data-modal-backdrop", "static");
                ("data-modal-placement", "")]) ];
     tree := [0; 1; 2; 3; 4; 5];
     body := 1;
     documentListeners := [];
     nextElem := 6;
     modals := [];
     nextSerial := 0;
     effects := [] |}.

Definition stackReady : World := outcome (initModals stackPage).

(** A page whose only triggers are a show button and a hide button. *)
Definition orphanPage : World :=
  {| elements := list_to_map
       [ (0, sampleElement "html" None [] []);
         (1, sampleElement "body" (Some 0) [] []);
         (2, sampleElement "button" (Some 1) [] [("data-modal-show", "my-modal")]);
         (3, sampleElement "div" (Some 1) ["hidden"] [("id", "my-modal")]);
         (4, sampleElement "button" (Some 3) [] [("data-modal-hide", "gone")]) ];
     tree := [0; 1; 2; 3; 4];
     body := 1;
     documentListeners := [];
     nextElem := 5;
     modals := [];
     nextSerial := 0;
     effects := [] |}.

(** ** Listeners that can run *)

(** Exceptions that a listener let escape. *)
Definition is_uncaught (x : Effect) : bool :=
  match x with
  | Uncaught _ => true
  | _ => false
  end.

Definition uncaught (w : World) : nat :=
  length (List.filter is_uncaught (effects w)).

(** What a callback needs to run to its end: the gesture handlers
    dereference the resize target or the drag target of their Modal. *)
Definition callbackReady (w : World) (cb : Callback) : Prop :=
  match cb with
  | OnResizeMouseDown m | OnResizeMouseMove m => is_Some (_resizeTargetEl (deref w m))
  | OnDragMouseDown m | OnDragMouseMove m => is_Some (_dragTargetEl (deref w m))
  | _ => True
  end.

(** Every registered listener is ready. *)
Definition wellWired (w : World) : Prop :=
  forall t l, l ∈ listenersOf w t -> callbackReady w (l_callback l).

(** From the first state to the second no resize or drag target got lost,
    every listener that is new is ready, and no exception escaped. *)
Record keepsWiring (w w' : World) : Prop := {
  kw_resize : forall m,
    is_Some (_resizeTargetEl (deref w m)) -> is_Some (_resizeTargetEl (deref w' m));
  kw_drag : forall m,
    is_Some (_dragTargetEl (deref w m)) -> is_Some (_dragTargetEl (deref w' m));
  kw_listeners : forall t l,
    l ∈ listenersOf w' t -> l ∈ listenersOf w t \/ callbackReady w' (l_callback l);
  kw_uncaught : uncaught w' = uncaught w;
}.

(** The states that a run of steps leads to from [w0]. *)
Inductive runs (w0 : World) : World -> Prop :=
  | runs_start : runs w0 w0
  | runs_step (w w' : World) : runs w0 w -> step w w' -> runs w0 w'.

(** The entries of [instances] name, in order, the Modal objects
    constructed since the store held [n0] objects. *)
Definition listsNewObjects (n0 : nat) (instances : list ModalInstance) (w : World) : Prop :=
  length (modals w) = n0 + length instances /\
  forall i modalInstance, instances !! i = Some modalInstance -> object modalInstance = n0 + i.

(** An options object that holds [undefined] under [closable]. *)
Definition closableUndefined : OptionsObject :=
  {| own_placement := Missing; own_backdropClasses := Missing; own_backdrop := Missing;
     own_closable := Own None;
     own_onHide := Missing; own_onShow := Missing; own_onToggle := Missing |}.

(** The sample page with one of the centre classes written in the markup
    of the modal. *)
Definition samplePageCentred : World :=
  samplePageWith ["hidden"; "justify-center"] [("aria-hidden", "true")].

(** * Properties *)

(** ** Reading the state after an update *)

Lemma element_updElement (e e' : ElemId) (f : Element -> Element) (w : World) :
  element (updElement e f w) e' = if decide (e = e') then f (element w e) else element w e'.
Proof.
  unfold element, updElement; simpl.
  rewrite lookup_insert. destruct (decide (e = e')); reflexivity.
Qed.

Lemma element_updElement_eq (e : ElemId) (f : Element -> Element) (w : World) :
  element (updElement e f w) e = f (element w e).
Proof. rewrite element_updElement. destruct (decide (e = e)); congruence. Qed.

Lemma element_updElement_ne (e e' : ElemId) (f : Element -> Element) (w : World) :
  e ≠ e' -> element (updElement e f w) e' = element w e'.
Proof. intros. rewrite element_updElement. destruct (decide (e = e')); congruence. Qed.

(** An update of one element that leaves a projection alone leaves it alone
    on every element. *)
Lemma element_updElement_frame {A : Type} (g : Element -> A) (e e' : ElemId)
    (f : Element -> Element) (w : World) :
  (forall x, g (f x) = g x) -> g (element (updElement e f w) e') = g (element w e').
Proof.
  intros Hf. rewrite element_updElement.
  destruct (decide (e = e')) as [->|]; [apply Hf | reflexivity].
Qed.

Lemma deref_updModal (this m : ModalRef) (f : Modal -> Modal) (w : World) (M : Modal) :
  modals w !! this = Some M ->
  deref (updModal this f w) m = if decide (this = m) then f M else deref w m.
Proof.
  intros HM. unfold deref, updModal; simpl.
  rewrite list_lookup_alter. repeat case_decide; subst; try congruence.
  rewrite HM. reflexivity.
Qed.

Lemma deref_Some (w : World) (this : ModalRef) (M : Modal) :
  modals w !! this = Some M -> deref w this = M.
Proof. intros H. unfold deref. rewrite H. reflexivity. Qed.

Lemma lookup_updModal (this : ModalRef) (f : Modal -> Modal) (w : World) (M : Modal) :
  modals w !! this = Some M -> modals (updModal this f w) !! this = Some (f M).
Proof. intros H. unfold updModal; simpl. rewrite list_lookup_alter_eq, H. reflexivity. Qed.

(** An assignment to a field of some Modal leaves every other field of
    every Modal as it was. *)
Lemma deref_updModal_frame {A : Type} (g : Modal -> A) (this m : ModalRef)
    (f : Modal -> Modal) (w : World) :
  (forall M, g (f M) = g M) -> g (deref (updModal this f w) m) = g (deref w m).
Proof.
  intros Hf. unfold deref, updModal; simpl.
  rewrite list_lookup_alter. case_decide; subst; [|reflexivity].
  destruct (modals w !! m); simpl; [apply Hf | reflexivity].
Qed.

(** Each primitive update changes one component of the state; the
    equations below say which components it leaves alone. *)

Lemma modals_updElement (e0 : ElemId) (f0 : Element -> Element) (w : World) :
  modals (updElement e0 f0 w) = modals w.
Proof. reflexivity. Qed.

Lemma modals_with_tree (f0 : list ElemId -> list ElemId) (w : World) :
  modals (with_tree f0 w) = modals w.
Proof. reflexivity. Qed.

Lemma modals_with_documentListeners (f0 : list Listener -> list Listener) (w : World) :
  modals (with_documentListeners f0 w) = modals w.
Proof. reflexivity. Qed.

Lemma modals_with_nextElem (n0 : ElemId) (w : World) :
  modals (with_nextElem n0 w) = modals w.
Proof. reflexivity. Qed.

Lemma modals_with_nextSerial (n0 : nat) (w : World) :
  modals (with_nextSerial n0 w) = modals w.
Proof. reflexivity. Qed.

Lemma modals_emit (x0 : Effect) (w : World) :
  modals (emit x0 w) = modals w.
Proof. reflexivity. Qed.

Lemma elements_updModal (m0 : ModalRef) (f0 : Modal -> Modal) (w : World) :
  elements (updModal m0 f0 w) = elements w.
Proof. reflexivity. Qed.

Lemma elements_with_tree (f0 : list ElemId -> list ElemId) (w : World) :
  elements (with_tree f0 w) = elements w.
Proof. reflexivity. Qed.

Lemma elements_with_documentListeners (f0 : list Listener -> list Listener) (w : World) :
  elements (with_documentListeners f0 w) = elements w.
Proof. reflexivity. Qed.

Lemma elements_with_nextElem (n0 : ElemId) (w : World) :
  elements (with_nextElem n0 w) = elements w.
Proof. reflexivity. Qed.

Lemma elements_with_nextSerial (n0 : nat) (w : World) :
  elements (with_nextSerial n0 w) = elements w.
Proof. reflexivity. Qed.

Lemma elements_emit (x0 : Effect) (w : World) :
  elements (emit x0 w) = elements w.
Proof. reflexivity. Qed.

Lemma tree_updElement (e0 : ElemId) (f0 : Element -> Element) (w : World) :
  tree (updElement e0 f0 w) = tree w.
Proof. reflexivity. Qed.

Lemma tree_updModal (m0 : ModalRef) (f0 : Modal -> Modal) (w : World) :
  tree (updModal m0 f0 w) = tree w.
Proof. reflexivity. Qed.

Lemma tree_with_documentListeners (f0 : list Listener -> list Listener) (w : World) :
  tree (with_documentListeners f0 w) = tree w.
Proof. reflexivity. Qed.

Lemma tree_with_nextElem (n0 : ElemId) (w : World) :
  tree (with_nextElem n0 w) = tree w.
Proof. reflexivity. Qed.

Lemma tree_with_nextSerial (n0 : nat) (w : World) :
  tree (with_nextSerial n0 w) = tree w.
Proof. reflexivity. Qed.

Lemma tree_emit (x0 : Effect) (w : World) :
  tree (emit x0 w) = tree w.
Proof. reflexivity. Qed.

Lemma body_updElement (e0 : ElemId) (f0 : Element -> Element) (w : World) :
  body (updElement e0 f0 w) = body w.
Proof. reflexivity. Qed.

Lemma body_updModal (m0 : ModalRef) (f0 : Modal -> Modal) (w : World) :
  body (updModal m0 f0 w) = body w.
Proof. reflexivity. Qed.

Lemma body_with_tree (f0 : list ElemId -> list ElemId) (w : World) :
  body (with_tree f0 w) = body w.
Proof. reflexivity. Qed.

Lemma body_with_documentListeners (f0 : list Listener -> list Listener) (w : World) :
  body (with_documentListeners f0 w) = body w.
Proof. reflexivity. Qed.

Lemma body_with_nextElem (n0 : ElemId) (w : World) :
  body (with_nextElem n0 w) = body w.
Proof. reflexivity. Qed.

Lemma body_with_nextSerial (n0 : nat) (w : World) :
  body (with_nextSerial n0 w) = body w.
Proof. reflexivity. Qed.

Lemma body_emit (x0 : Effect) (w : World) :
  body (emit x0 w) = body w.
Proof. reflexivity. Qed.

Lemma documentListeners_updElement (e0 : ElemId) (f0 : Element -> Element) (w : World) :
  documentListeners (updElement e0 f0 w) = documentListeners w.
Proof. reflexivity. Qed.

Lemma documentListeners_updModal (m0 : ModalRef) (f0 : Modal -> Modal) (w : World) :
  documentListeners (updModal m0 f0 w) = documentListeners w.
Proof. reflexivity. Qed.

Lemma documentListeners_with_tree (f0 : list ElemId -> list ElemId) (w : World) :
  documentListeners (with_tree f0 w) = documentListeners w.
Proof. reflexivity. Qed.

Lemma documentListeners_with_nextElem (n0 : ElemId) (w : World) :
  documentListeners (with_nextElem n0 w) = documentListeners w.
Proof. reflexivity. Qed.

Lemma documentListeners_with_nextSerial (n0 : nat) (w : World) :
  documentListeners (with_nextSerial n0 w) = documentListeners w.
Proof. reflexivity. Qed.

Lemma documentListeners_emit (x0 : Effect) (w : World) :
  documentListeners (emit x0 w) = documentListeners w.
Proof. reflexivity. Qed.

Lemma nextElem_updElement (e0 : ElemId) (f0 : Element -> Element) (w : World) :
  nextElem (updElement e0 f0 w) = nextElem w.
Proof. reflexivity. Qed.

Lemma nextElem_updModal (m0 : ModalRef) (f0 : Modal -> Modal) (w : World) :
  nextElem (updModal m0 f0 w) = nextElem w.
Proof. reflexivity. Qed.

Lemma nextElem_with_tree (f0 : list ElemId -> list ElemId) (w : World) :
  nextElem (with_tree f0 w) = nextElem w.
Proof. reflexivity. Qed.

Lemma nextElem_with_documentListeners (f0 : list Listener -> list Listener) (w : World) :
  nextElem (with_documentListeners f0 w) = nextElem w.
Proof. reflexivity. Qed.

Lemma nextElem_with_nextSerial (n0 : nat) (w : World) :
  nextElem (with_nextSerial n0 w) = nextElem w.
Proof. reflexivity. Qed.

Lemma nextElem_emit (x0 : Effect) (w : World) :
  nextElem (emit x0 w) = nextElem w.
Proof. reflexivity. Qed.

Lemma nextSerial_updElement (e0 : ElemId) (f0 : Element -> Element) (w : World) :
  nextSerial (updElement e0 f0 w) = nextSerial w.
Proof. reflexivity. Qed.

Lemma nextSerial_updModal (m0 : ModalRef) (f0 : Modal -> Modal) (w : World) :
  nextSerial (updModal m0 f0 w) = nextSerial w.
Proof. reflexivity. Qed.

Lemma nextSerial_with_tree (f0 : list ElemId -> list ElemId) (w : World) :
  nextSerial (with_tree f0 w) = nextSerial w.
Proof. reflexivity. Qed.

Lemma nextSerial_with_documentListeners (f0 : list Listener -> list Listener) (w : World) :
  nextSerial (with_documentListeners f0 w) = nextSerial w.
Proof. reflexivity. Qed.

Lemma nextSerial_with_nextElem (n0 : ElemId) (w : World) :
  nextSerial (with_nextElem n0 w) = nextSerial w.
Proof. reflexivity. Qed.

Lemma nextSerial_emit (x0 : Effect) (w : World) :
  nextSerial (emit x0 w) = nextSerial w.
Proof. reflexivity. Qed.

Lemma effects_updElement (e0 : ElemId) (f0 : Element -> Element) (w : World) :
  effects (updElement e0 f0 w) = effects w.
Proof. reflexivity. Qed.

Lemma effects_updModal (m0 : ModalRef) (f0 : Modal -> Modal) (w : World) :
  effects (updModal m0 f0 w) = effects w.
Proof. reflexivity. Qed.

Lemma effects_with_tree (f0 : list ElemId -> list ElemId) (w : World) :
  effects (with_tree f0 w) = effects w.
Proof. reflexivity. Qed.

Lemma effects_with_documentListeners (f0 : list Listener -> list Listener) (w : World) :
  effects (with_documentListeners f0 w) = effects w.
Proof. reflexivity. Qed.

Lemma effects_with_nextElem (n0 : ElemId) (w : World) :
  effects (with_nextElem n0 w) = effects w.
Proof. reflexivity. Qed.

Lemma effects_with_nextSerial (n0 : nat) (w : World) :
  effects (with_nextSerial n0 w) = effects w.
Proof. reflexivity. Qed.

Lemma deref_updElement (e0 : ElemId) (f0 : Element -> Element) (w : World) (m : ModalRef) :
  deref (updElement e0 f0 w) m = deref w m.
Proof. reflexivity. Qed.

Lemma element_updModal (m0 : ModalRef) (f0 : Modal -> Modal) (w : World) (e : ElemId) :
  element (updModal m0 f0 w) e = element w e.
Proof. reflexivity. Qed.

Lemma element_with_tree (f0 : list ElemId -> list ElemId) (w : World) (e : ElemId) :
  element (with_tree f0 w) e = element w e.
Proof. reflexivity. Qed.

Lemma deref_with_tree (f0 : list ElemId -> list ElemId) (w : World) (m : ModalRef) :
  deref (with_tree f0 w) m = deref w m.
Proof. reflexivity. Qed.

Lemma element_with_documentListeners (f0 : list Listener -> list Listener) (w : World) (e : ElemId) :
  element (with_documentListeners f0 w) e = element w e.
Proof. reflexivity. Qed.

Lemma deref_with_documentListeners (f0 : list Listener -> list Listener) (w : World) (m : ModalRef) :
  deref (with_documentListeners f0 w) m = deref w m.
Proof. reflexivity. Qed.

Lemma element_with_nextElem (n0 : ElemId) (w : World) (e : ElemId) :
  element (with_nextElem n0 w) e = element w e.
Proof. reflexivity. Qed.

Lemma deref_with_nextElem (n0 : ElemId) (w : World) (m : ModalRef) :
  deref (with_nextElem n0 w) m = deref w m.
Proof. reflexivity. Qed.

Lemma element_with_nextSerial (n0 : nat) (w : World) (e : ElemId) :
  element (with_nextSerial n0 w) e = element w e.
Proof. reflexivity. Qed.

Lemma deref_with_nextSerial (n0 : nat) (w : World) (m : ModalRef) :
  deref (with_nextSerial n0 w) m = deref w m.
Proof. reflexivity. Qed.

Lemma element_emit (x0 : Effect) (w : World) (e : ElemId) :
  element (emit x0 w) e = element w e.
Proof. reflexivity. Qed.

Lemma deref_emit (x0 : Effect) (w : World) (m : ModalRef) :
  deref (emit x0 w) m = deref w m.
Proof. reflexivity. Qed.

Lemma tree_with_tree (f0 : list ElemId -> list ElemId) (w : World) :
  tree (with_tree f0 w) = f0 (tree w).
Proof. reflexivity. Qed.

Lemma effects_emit (x0 : Effect) (w : World) :
  effects (emit x0 w) = effects w ++ [x0].
Proof. reflexivity. Qed.

Lemma documentListeners_with_documentListeners (f0 : list Listener -> list Listener) (w : World) :
  documentListeners (with_documentListeners f0 w) = f0 (documentListeners w).
Proof. reflexivity. Qed.

Lemma nextElem_with_nextElem (n0 : ElemId) (w : World) :
  nextElem (with_nextElem n0 w) = n0.
Proof. reflexivity. Qed.

Lemma nextSerial_with_nextSerial (n0 : nat) (w : World) :
  nextSerial (with_nextSerial n0 w) = n0.
Proof. reflexivity. Qed.

Create Rewrite HintDb world.

#[global] Hint Rewrite modals_updElement modals_with_tree modals_with_documentListeners modals_with_nextElem : world.
#[global] Hint Rewrite modals_with_nextSerial modals_emit elements_updModal elements_with_tree : world.
#[global] Hint Rewrite elements_with_documentListeners elements_with_nextElem elements_with_nextSerial elements_emit : world.
#[global] Hint Rewrite tree_updElement tree_updModal tree_with_documentListeners tree_with_nextElem : world.
#[global] Hint Rewrite tree_with_nextSerial tree_emit body_updElement body_updModal : world.
#[global] Hint Rewrite body_with_tree body_with_documentListeners body_with_nextElem body_with_nextSerial : world.
#[global] Hint Rewrite body_emit documentListeners_updElement documentListeners_updModal documentListeners_with_tree : world.
#[global] Hint Rewrite documentListeners_with_nextElem documentListeners_with_nextSerial documentListeners_emit nextElem_updElement : world.
#[global] Hint Rewrite nextElem_updModal nextElem_with_tree nextElem_with_documentListeners nextElem_with_nextSerial : world.
#[global] Hint Rewrite nextElem_emit nextSerial_updElement nextSerial_updModal nextSerial_with_tree : world.
#[global] Hint Rewrite nextSerial_with_documentListeners nextSerial_with_nextElem nextSerial_emit effects_updElement : world.
#[global] Hint Rewrite effects_updModal effects_with_tree effects_with_documentListeners effects_with_nextElem : world.
#[global] Hint Rewrite effects_with_nextSerial deref_updElement element_updModal element_with_tree : world.
#[global] Hint Rewrite deref_with_tree element_with_documentListeners deref_with_documentListeners element_with_nextElem : world.
#[global] Hint Rewrite deref_with_nextElem element_with_nextSerial deref_with_nextSerial element_emit : world.
#[global] Hint Rewrite deref_emit tree_with_tree effects_emit documentListeners_with_documentListeners : world.
#[global] Hint Rewrite nextElem_with_nextElem nextSerial_with_nextSerial : world.

Lemma token_add_elem (c x : string) (l : list string) :
  x ∈ token_add c l <-> x = c \/ x ∈ l.
Proof.
  unfold token_add. destruct (decide (c ∈ l)).
  - split; [tauto | intros [->|]; assumption].
  - rewrite elem_of_app, list_elem_of_singleton. tauto.
Qed.

Lemma token_remove_elem (c x : string) (l : list string) :
  x ∈ token_remove c l <-> x ≠ c /\ x ∈ l.
Proof. unfold token_remove. rewrite list_elem_of_filter. tauto. Qed.

(** ** Placement classes (C9) *)

Lemma placementClasses_pair (p : string) : placementClasses p ∈ placementPairs.
Proof.
  unfold placementClasses, placementPairs.
  repeat (case_decide; [repeat constructor|]). repeat constructor.
Qed.

Lemma placementClasses_default (p : string) :
  p ∉ compassPositions -> placementClasses p = ["justify-center"; "items-center"].
Proof.
  intros Hp. unfold placementClasses.
  repeat (case_decide; [subst; try reflexivity; exfalso; apply Hp;
                        unfold compassPositions; repeat constructor|]).
  reflexivity.
Qed.

Lemma placementClasses_two (p : string) :
  exists c1 c2, placementClasses p = [c1; c2] /\ c1 ≠ c2.
Proof.
  unfold placementClasses.
  repeat (case_decide; [eexists _, _; split; [reflexivity | discriminate]|]).
  eexists _, _; split; [reflexivity | discriminate].
Qed.

(** What [_init] leaves of the class lists: the listeners it registers and
    the fields it assigns do not touch them. *)
Lemma classList_addEventListener (t : EventTarget) (ty : string) (cb : Callback)
    (cap : bool) (w : World) (e : ElemId) :
  classList (element (addEventListener t ty cb cap w) e) = classList (element w e).
Proof.
  destruct t; simpl; [|reflexivity].
  apply (element_updElement_frame classList). reflexivity.
Qed.

Lemma _init_classList (this : ModalRef) (w : World) (e : ElemId) :
  classList (element (_init this w) e)
  = classList (element (fold_left (fun w0 c => classList_add (_targetEl (deref w this)) c w0)
                                  (_getPlacementClasses this w) w) e).
Proof.
  unfold _init. cbv zeta.
  set (w1 := fold_left _ _ w). clearbody w1.
  set (w2 := match querySelector_attr w1 _ "data-modal-resize-target" with
             | Some _ => _ | None => _ end).
  assert (Hw2 : classList (element w2 e) = classList (element w1 e)).
  { subst w2. destruct (querySelector_attr w1 _ _); [|reflexivity].
    destruct (querySelector_id w1 _ _); [|reflexivity].
    rewrite classList_addEventListener. reflexivity. }
  rewrite <- Hw2. clearbody w2.
  destruct (querySelector_attr w2 _ _); [|reflexivity].
  destruct (querySelector_id w2 _ _); [|reflexivity].
  rewrite classList_addEventListener. reflexivity.
Qed.

Lemma deref_addEventListener (t : EventTarget) (ty : string) (cb : Callback)
    (cap : bool) (w : World) (m : ModalRef) :
  deref (addEventListener t ty cb cap w) m = deref w m.
Proof. destruct t; reflexivity. Qed.

Lemma deref_removeEventListener (t : EventTarget) (ty : string) (cb : Callback)
    (cap : bool) (w : World) (m : ModalRef) :
  deref (removeEventListener t ty cb cap w) m = deref w m.
Proof. destruct t; reflexivity. Qed.

(** [_init] assigns only the resize and drag element fields. *)
Lemma _init_deref_frame {A : Type} (g : Modal -> A) (this m : ModalRef) (w : World) :
  (forall v M, g (set_resizeTargetEl v M) = g M) ->
  (forall v M, g (set_dragAnchorEl v M) = g M) ->
  (forall v M, g (set_dragTargetEl v M) = g M) ->
  g (deref (_init this w) m) = g (deref w m).
Proof.
  intros H1 H2 H3. unfold _init.
  set (w1 := fold_left _ _ w).
  assert (Hw1 : deref w1 m = deref w m).
  { subst w1. unfold _getPlacementClasses.
    destruct (placementClasses_two (placement (_options (deref w this)))) as (c1 & c2 & -> & _).
    reflexivity. }
  rewrite <- Hw1. clear Hw1. generalize w1. clear w1. intros w1.
  set (w2 := match querySelector_attr w1 _ "data-modal-resize-target" with
             | Some _ => _ | None => _ end).
  assert (Hw2 : g (deref w2 m) = g (deref w1 m)).
  { subst w2. destruct (querySelector_attr w1 _ _); [|reflexivity].
    destruct (querySelector_id w1 _ _); [|reflexivity].
    rewrite deref_addEventListener. apply deref_updModal_frame. apply H1. }
  rewrite <- Hw2. clear Hw2. generalize w2. clear w2. intros w2.
  destruct (querySelector_attr w2 _ _); [|reflexivity].
  destruct (querySelector_id w2 _ _); [|reflexivity].
  rewrite deref_addEventListener.
  rewrite (deref_updModal_frame g) by apply H3.
  apply deref_updModal_frame. apply H2.
Qed.

Lemma deref_new_object (w : World) (obj : Modal) :
  deref (with_modals (fun l => l ++ [obj]) w) (length (modals w)) = obj.
Proof.
  unfold deref; simpl. rewrite lookup_app_r by lia.
  rewrite Nat.sub_diag. reflexivity.
Qed.


(** Without a target element there is nothing to add the classes to: the
    constructor skips them and throws on the next statement. *)
Lemma Modal_new_null_throws (options : option PartialOptions) (w : World) :
  Modal_new None options w = Throw (TypeError "this._targetEl is null") w.
Proof. reflexivity. Qed.

(** ** Option defaults (C5) *)


(** ** The instance registry (C10) *)

Lemma getModalInstance_find (id' : string) (instances : list ModalInstance) :
  getModalInstance id' instances
  = List.find (fun modalInstance => bool_decide (id modalInstance = id')) instances.
Proof.
  unfold getModalInstance.
  destruct (existsb _ instances) eqn:E; [reflexivity|].
  symmetry. induction instances as [|x l IH]; [reflexivity|].
  simpl in *. destruct (bool_decide (id x = id')); [discriminate|].
  apply IH, E.
Qed.

Lemma getModalInstance_None (id' : string) (instances : list ModalInstance) :
  getModalInstance id' instances = None <->
  forall modalInstance, modalInstance ∈ instances -> id modalInstance ≠ id'.
Proof.
  rewrite getModalInstance_find.
  induction instances as [|x l IH]; simpl.
  - split; [intros _ mi Hmi; inversion Hmi | reflexivity].
  - destruct (bool_decide (id x = id')) eqn:E.
    + apply bool_decide_eq_true in E. split; [discriminate|].
      intros H. exfalso. apply (H x); [left | exact E].
    + apply bool_decide_eq_false in E. rewrite IH. split.
      * intros H mi Hmi. apply elem_of_cons in Hmi as [->|Hmi]; [exact E | apply H, Hmi].
      * intros H mi Hmi. apply H. right. exact Hmi.
Qed.

Lemma getModalInstance_Some (id' : string) (instances : list ModalInstance)
    (found : ModalInstance) :
  getModalInstance id' instances = Some found <->
  exists before after,
    instances = before ++ found :: after /\ id found = id' /\
    forall modalInstance, modalInstance ∈ before -> id modalInstance ≠ id'.
Proof.
  rewrite getModalInstance_find.
  induction instances as [|x l IH]; simpl.
  - split; [discriminate|]. intros (b & a & H & _). destruct b; discriminate.
  - destruct (bool_decide (id x = id')) eqn:E.
    + apply bool_decide_eq_true in E. split.
      * intros [= <-]. exists [], l. split; [reflexivity|]. split; [exact E|].
        intros mi Hmi. inversion Hmi.
      * intros (b & a & H & Hid & Hb). destruct b as [|y b]; simpl in H.
        -- congruence.
        -- injection H as <- _. exfalso. apply (Hb x); [left | exact E].
    + apply bool_decide_eq_false in E. rewrite IH. split.
      * intros (b & a & -> & Hid & Hb). exists (x :: b), a.
        split; [reflexivity|]. split; [exact Hid|].
        intros mi Hmi. apply elem_of_cons in Hmi as [->|Hmi]; [exact E | apply Hb, Hmi].
      * intros (b & a & H & Hid & Hb). destruct b as [|y b]; simpl in H.
        -- injection H as -> _. contradiction.
        -- injection H as <- ->. exists b, a. split; [reflexivity|]. split; [exact Hid|].
           intros mi Hmi. apply Hb. right. exact Hmi.
Qed.

Lemma distinctIds_push (instances : list ModalInstance) (id' : string) (obj : ModalRef) :
  distinctIds instances ->
  getModalInstance id' instances = None ->
  distinctIds (instances ++ [{| id := id'; object := obj |}]).
Proof.
  unfold distinctIds. intros Hnd Hnone.
  rewrite map_app. simpl. apply NoDup_app. split; [exact Hnd|].
  split; [|apply NoDup_singleton].
  intros i Hi Hi'. apply list_elem_of_singleton in Hi' as ->.
  apply list_elem_of_fmap in Hi as (mi & Hid & Hmi).
  rewrite getModalInstance_None in Hnone. apply (Hnone mi Hmi). symmetry. exact Hid.
Qed.

Lemma forEach_invariant {A S : Type} (I : S -> Prop)
    (f : A -> S -> World -> Completion S) (l : list A) :
  (forall x s w, I s -> exists s' w', f x s w = Normal s' w' /\ I s') ->
  forall s w, I s -> exists s' w', forEach l f s w = Normal s' w' /\ I s'.
Proof.
  intros Hf. induction l as [|x l IH]; intros s w Hs; simpl.
  - exists s, w. split; [reflexivity | exact Hs].
  - destruct (Hf x s w Hs) as (s1 & w1 & -> & Hs1). simpl. apply IH, Hs1.
Qed.

Lemma initTarget_distinct (triggerEl : ElemId) (instances : list ModalInstance) (w : World) :
  distinctIds instances ->
  exists instances' w',
    initTarget triggerEl instances w = Normal instances' w' /\ distinctIds instances'.
Proof.
  intros Hnd. unfold initTarget.
  destruct (getElementById w _); [|eauto].
  destruct (getModalInstance _ instances) eqn:E; [eauto|].
  simpl. eexists _, _. split; [reflexivity|]. apply distinctIds_push; assumption.
Qed.

Lemma initToggle_distinct (triggerEl : ElemId) (instances : list ModalInstance) (w : World) :
  distinctIds instances ->
  exists instances' w',
    initToggle triggerEl instances w = Normal instances' w' /\ distinctIds instances'.
Proof.
  intros Hnd. unfold initToggle.
  destruct (getElementById w _); [|eauto].
  destruct (getModalInstance _ instances) eqn:E; simpl; [eauto|].
  eexists _, _. split; [reflexivity|]. apply distinctIds_push; assumption.
Qed.

Lemma initShowHide_same (attr : string) (mk : ModalRef -> nat -> Callback)
    (triggerEl : ElemId) (instances : list ModalInstance) (w : World) :
  exists w', initShowHide attr mk triggerEl instances w = Normal instances w'.
Proof.
  unfold initShowHide.
  destruct (getElementById w _); [|eauto].
  destruct (getModalInstance _ instances); eauto.
Qed.


(** ** Footprints of the DOM operations and of the private methods *)

(** Adding several classes to one element. *)
Lemma fold_classList_add_frame {A : Type} (g : World -> A) (e : ElemId)
    (l : list string) (w : World) :
  (forall c w0, g (classList_add e c w0) = g w0) ->
  g (fold_left (fun w0 c => classList_add e c w0) l w) = g w.
Proof.
  intros Hg. revert w. induction l as [|c l IH]; intros w; simpl; [reflexivity|].
  rewrite IH. apply Hg.
Qed.

Lemma fold_classList_add_element {A : Type} (g : Element -> A) (e e' : ElemId)
    (l : list string) (w : World) :
  (forall f x, g (with_classList f x) = g x) ->
  g (element (fold_left (fun w0 c => classList_add e c w0) l w) e') = g (element w e').
Proof.
  intros Hg.
  apply (fold_classList_add_frame (fun w0 => g (element w0 e'))).
  intros c w0. unfold classList_add. apply element_updElement_frame. apply Hg.
Qed.

Lemma fold_classList_add_element_ne (e e' : ElemId) (l : list string) (w : World) :
  e ≠ e' -> element (fold_left (fun w0 c => classList_add e c w0) l w) e' = element w e'.
Proof.
  intros Hne.
  apply (fold_classList_add_frame (fun w0 => element w0 e')).
  intros c w0. unfold classList_add. apply element_updElement_ne, Hne.
Qed.

Lemma _createBackdrop_hidden (this : ModalRef) (w : World) :
  _isHidden (deref w this) = true ->
  _createBackdrop this w
  = updModal this (set_backdropEl (Some (nextElem w)))
      (body_append (nextElem w) (backdropSketch this w)).
Proof. intros H. unfold _createBackdrop. rewrite H. reflexivity. Qed.

Lemma _createBackdrop_visible (this : ModalRef) (w : World) :
  _isHidden (deref w this) = false -> _createBackdrop this w = w.
Proof. intros H. unfold _createBackdrop. rewrite H. reflexivity. Qed.

(** Components of the state that the sketch does not touch. *)
Lemma backdropSketch_frame {A : Type} (g : World -> A) (this : ModalRef) (w : World) :
  (forall e f w0, g (updElement e f w0) = g w0) ->
  (forall n w0, g (with_nextElem n w0) = g w0) ->
  g (backdropSketch this w) = g w.
Proof.
  intros Hel Hnext. unfold backdropSketch.
  rewrite fold_classList_add_frame by (intros; apply Hel).
  unfold setAttribute, createElement; simpl.
  rewrite Hel, Hnext.
  change (with_elements (fun m => <[nextElem w := blankElement "div"]> m) w)
    with (updElement (nextElem w) (fun _ => blankElement "div") w).
  apply Hel.
Qed.

Lemma backdropSketch_element_ne (this : ModalRef) (w : World) (e : ElemId) :
  e ≠ nextElem w -> element (backdropSketch this w) e = element w e.
Proof.
  intros Hne. unfold backdropSketch.
  rewrite fold_classList_add_element_ne by congruence.
  unfold setAttribute. rewrite element_updElement_ne by congruence.
  unfold createElement, element; simpl. rewrite lookup_insert_ne by congruence.
  reflexivity.
Qed.

Lemma backdropSketch_attributes (this : ModalRef) (w : World) :
  attributes (element (backdropSketch this w) (nextElem w)) = {["modal-backdrop" := ""]}.
Proof.
  unfold backdropSketch.
  rewrite (fold_classList_add_element attributes) by reflexivity.
  unfold setAttribute. rewrite element_updElement_eq. simpl.
  unfold createElement, element; simpl. rewrite lookup_insert_eq. reflexivity.
Qed.

Lemma backdropSketch_nextElem (this : ModalRef) (w : World) :
  nextElem (backdropSketch this w) = S (nextElem w).
Proof.
  unfold backdropSketch.
  rewrite (fold_classList_add_frame nextElem) by reflexivity. reflexivity.
Qed.

(** Components that [_createBackdrop] does not touch. *)
Lemma _createBackdrop_frame {A : Type} (g : World -> A) (this : ModalRef) (w : World) :
  (forall e f w0, g (updElement e f w0) = g w0) ->
  (forall n w0, g (with_nextElem n w0) = g w0) ->
  (forall f w0, g (with_tree f w0) = g w0) ->
  (forall v w0, g (updModal this (set_backdropEl v) w0) = g w0) ->
  g (_createBackdrop this w) = g w.
Proof.
  intros Hel Hnext Htree Hmod.
  destruct (_isHidden (deref w this)) eqn:E.
  - rewrite _createBackdrop_hidden by exact E.
    rewrite Hmod. unfold body_append. rewrite Htree, Hel.
    apply backdropSketch_frame; assumption.
  - rewrite _createBackdrop_visible by exact E. reflexivity.
Qed.

Lemma _createBackdrop_deref_frame {A : Type} (g : Modal -> A) (this m : ModalRef) (w : World) :
  (forall v M, g (set_backdropEl v M) = g M) ->
  g (deref (_createBackdrop this w) m) = g (deref w m).
Proof.
  intros Hg.
  destruct (_isHidden (deref w this)) eqn:E.
  - rewrite _createBackdrop_hidden by exact E.
    rewrite deref_updModal_frame by apply Hg.
    unfold body_append. rewrite deref_with_tree, deref_updElement.
    apply (backdropSketch_frame (fun w0 => g (deref w0 m))); reflexivity.
  - rewrite _createBackdrop_visible by exact E. reflexivity.
Qed.

Lemma _createBackdrop_element_ne (this : ModalRef) (w : World) (e : ElemId) :
  e ≠ nextElem w -> element (_createBackdrop this w) e = element w e.
Proof.
  intros Hne.
  destruct (_isHidden (deref w this)) eqn:E.
  - rewrite _createBackdrop_hidden by exact E.
    rewrite element_updModal. unfold body_append.
    rewrite element_with_tree, element_updElement_ne by congruence.
    apply backdropSketch_element_ne, Hne.
  - rewrite _createBackdrop_visible by exact E. reflexivity.
Qed.

Lemma _createBackdrop_tree (this : ModalRef) (w : World) :
  tree (_createBackdrop this w)
  = if _isHidden (deref w this) then tree w ++ [nextElem w] else tree w.
Proof.
  destruct (_isHidden (deref w this)) eqn:E.
  - rewrite _createBackdrop_hidden by exact E.
    rewrite tree_updModal. unfold body_append. rewrite tree_with_tree, tree_updElement.
    rewrite (backdropSketch_frame tree) by reflexivity. reflexivity.
  - rewrite _createBackdrop_visible by exact E. reflexivity.
Qed.

Lemma _createBackdrop_backdrop_attributes (this : ModalRef) (w : World) :
  _isHidden (deref w this) = true ->
  attributes (element (_createBackdrop this w) (nextElem w)) = {["modal-backdrop" := ""]}.
Proof.
  intros E. rewrite _createBackdrop_hidden by exact E.
  rewrite element_updModal. unfold body_append. rewrite element_with_tree.
  rewrite (element_updElement_frame attributes) by reflexivity.
  apply backdropSketch_attributes.
Qed.

Lemma element_addEventListener_frame {A : Type} (g : Element -> A) (t : EventTarget)
    (ty : string) (cb : Callback) (cap : bool) (w : World) (e : ElemId) :
  (forall f x, g (with_listeners f x) = g x) ->
  g (element (addEventListener t ty cb cap w) e) = g (element w e).
Proof.
  intros Hg. destruct t; simpl; [|reflexivity].
  apply element_updElement_frame. apply Hg.
Qed.

Lemma element_removeEventListener_frame {A : Type} (g : Element -> A) (t : EventTarget)
    (ty : string) (cb : Callback) (cap : bool) (w : World) (e : ElemId) :
  (forall f x, g (with_listeners f x) = g x) ->
  g (element (removeEventListener t ty cb cap w) e) = g (element w e).
Proof.
  intros Hg. destruct t; simpl; [|reflexivity].
  apply element_updElement_frame. apply Hg.
Qed.

Lemma element_removeEventListener_opt_frame {A : Type} (g : Element -> A) (t : EventTarget)
    (ty : string) (cb : option Callback) (cap : bool) (w : World) (e : ElemId) :
  (forall f x, g (with_listeners f x) = g x) ->
  g (element (removeEventListener_opt t ty cb cap w) e) = g (element w e).
Proof.
  intros Hg. destruct cb; simpl; [|reflexivity].
  apply element_removeEventListener_frame, Hg.
Qed.

(** [_setupModalCloseEventListeners] changes listener lists, the two
    listener fields of [this] and the closure counter, nothing else. *)
Lemma _setup_frame {A : Type} (g : World -> A) (this : ModalRef) (w : World) :
  (forall e f w0, g (updElement e f w0) = g w0) ->
  (forall n w0, g (with_nextSerial n w0) = g w0) ->
  (forall v w0, g (updModal this (set_clickOutsideEventListener v) w0) = g w0) ->
  (forall v w0, g (updModal this (set_keydownEventListener v) w0) = g w0) ->
  g (_setupModalCloseEventListeners this w) = g w.
Proof.
  intros Hel Hser Hc Hk. unfold _setupModalCloseEventListeners, addEventListener.
  rewrite Hel, Hk, Hser.
  destruct (decide (backdrop (_options (deref w this)) = "dynamic")); [|reflexivity].
  rewrite Hel, Hc, Hser. reflexivity.
Qed.

Lemma _setup_deref_frame {A : Type} (g : Modal -> A) (this m : ModalRef) (w : World) :
  (forall v M, g (set_clickOutsideEventListener v M) = g M) ->
  (forall v M, g (set_keydownEventListener v M) = g M) ->
  g (deref (_setupModalCloseEventListeners this w) m) = g (deref w m).
Proof.
  intros Hc Hk. unfold _setupModalCloseEventListeners, addEventListener.
  rewrite deref_updElement, deref_updModal_frame by apply Hk.
  rewrite deref_with_nextSerial.
  destruct (decide (backdrop (_options (deref w this)) = "dynamic")); [|reflexivity].
  rewrite deref_updElement, deref_updModal_frame by apply Hc.
  reflexivity.
Qed.

Lemma _setup_element_frame {A : Type} (g : Element -> A) (this : ModalRef)
    (w : World) (e : ElemId) :
  (forall f x, g (with_listeners f x) = g x) ->
  g (element (_setupModalCloseEventListeners this w) e) = g (element w e).
Proof.
  intros Hg. unfold _setupModalCloseEventListeners.
  rewrite element_addEventListener_frame by apply Hg.
  rewrite element_updModal, element_with_nextSerial.
  destruct (decide (backdrop (_options (deref w this)) = "dynamic")); [|reflexivity].
  rewrite element_addEventListener_frame by apply Hg. reflexivity.
Qed.

(** [_removeModalCloseEventListeners] changes listener lists only. *)
Lemma _remove_frame {A : Type} (g : World -> A) (this : ModalRef) (w : World) :
  (forall e f w0, g (updElement e f w0) = g w0) ->
  g (_removeModalCloseEventListeners this w) = g w.
Proof.
  intros Hel. unfold _removeModalCloseEventListeners, removeEventListener_opt,
    removeEventListener.
  set (w1 := if decide _ then _ else _).
  assert (H1 : g w1 = g w).
  { subst w1. destruct (decide _); [|reflexivity].
    destruct (_clickOutsideEventListener _); [apply Hel | reflexivity]. }
  rewrite <- H1. clearbody w1.
  destruct (_keydownEventListener _); [apply Hel | reflexivity].
Qed.

Lemma _remove_element_frame {A : Type} (g : Element -> A) (this : ModalRef)
    (w : World) (e : ElemId) :
  (forall f x, g (with_listeners f x) = g x) ->
  g (element (_removeModalCloseEventListeners this w) e) = g (element w e).
Proof.
  intros Hg. unfold _removeModalCloseEventListeners.
  rewrite element_removeEventListener_opt_frame by apply Hg.
  destruct (decide _); [|reflexivity].
  apply element_removeEventListener_opt_frame, Hg.
Qed.

(** *** [show] and [hide] in three steps *)

Lemma show_steps (this : ModalRef) (w : World) :
  show this w = Normal tt (showSuffix this (_createBackdrop this (showPrefix this w))).
Proof. reflexivity. Qed.

Lemma hide_steps (this : ModalRef) (w : World) :
  hide this w
  = _destroyBackdropEl this (hidePrefix this w) >>= fun _ w0 => Normal tt (hideSuffix this w0).
Proof. reflexivity. Qed.

(** The two prefixes only touch the class list and attributes of the
    target. *)
Lemma showPrefix_frame {A : Type} (g : World -> A) (this : ModalRef) (w : World) :
  (forall e f w0, g (updElement e f w0) = g w0) -> g (showPrefix this w) = g w.
Proof.
  intros Hel. unfold showPrefix, removeAttribute, setAttribute, classList_remove,
    classList_add. rewrite !Hel. reflexivity.
Qed.

Lemma hidePrefix_frame {A : Type} (g : World -> A) (this : ModalRef) (w : World) :
  (forall e f w0, g (updElement e f w0) = g w0) -> g (hidePrefix this w) = g w.
Proof.
  intros Hel. unfold hidePrefix, removeAttribute, setAttribute, classList_remove,
    classList_add. rewrite !Hel. reflexivity.
Qed.

Lemma showPrefix_element_ne (this : ModalRef) (w : World) (e : ElemId) :
  e ≠ _targetEl (deref w this) -> element (showPrefix this w) e = element w e.
Proof.
  intros Hne. unfold showPrefix, removeAttribute, setAttribute, classList_remove,
    classList_add. rewrite !element_updElement_ne by congruence. reflexivity.
Qed.

Lemma hidePrefix_element_ne (this : ModalRef) (w : World) (e : ElemId) :
  e ≠ _targetEl (deref w this) -> element (hidePrefix this w) e = element w e.
Proof.
  intros Hne. unfold hidePrefix, removeAttribute, setAttribute, classList_remove,
    classList_add. rewrite !element_updElement_ne by congruence. reflexivity.
Qed.

Lemma showPrefix_target (this : ModalRef) (w : World) :
  let x := element w (_targetEl (deref w this)) in
  let x' := element (showPrefix this w) (_targetEl (deref w this)) in
  classList x' = token_remove "hidden" (token_add "flex" (classList x)) /\
  attributes x'
    = delete "aria-hidden" (<["role" := "dialog"]> (<["aria-modal" := "true"]> (attributes x))) /\
  listeners x' = listeners x /\ style x' = style x /\ parentNode x' = parentNode x.
Proof.
  simpl. unfold showPrefix, removeAttribute, setAttribute, classList_remove, classList_add.
  rewrite !element_updElement_eq. simpl. repeat split; reflexivity.
Qed.

Lemma hidePrefix_target (this : ModalRef) (w : World) :
  let x := element w (_targetEl (deref w this)) in
  let x' := element (hidePrefix this w) (_targetEl (deref w this)) in
  classList x' = token_remove "flex" (token_add "hidden" (classList x)) /\
  attributes x'
    = delete "role" (delete "aria-modal" (<["aria-hidden" := "true"]> (attributes x))) /\
  listeners x' = listeners x /\ style x' = style x /\ parentNode x' = parentNode x.
Proof.
  simpl. unfold hidePrefix, removeAttribute, setAttribute, classList_remove, classList_add.
  rewrite !element_updElement_eq. simpl. repeat split; reflexivity.
Qed.

(** Neither prefix changes which elements carry the backdrop attribute. *)
Lemma hasAttribute_updElement_other (e e' : ElemId) (f : Element -> Element)
    (name : string) (w : World) :
  (forall x, attributes (f x) !! name = attributes x !! name) ->
  hasAttribute (updElement e f w) e' name = hasAttribute w e' name.
Proof.
  intros Hf. unfold hasAttribute, getAttribute.
  rewrite element_updElement.
  destruct (decide (e = e')) as [->|]; [rewrite Hf|]; reflexivity.
Qed.

Lemma showPrefix_backdrop_attr (this : ModalRef) (w : World) (e : ElemId) :
  hasAttribute (showPrefix this w) e "modal-backdrop" = hasAttribute w e "modal-backdrop".
Proof.
  unfold showPrefix, removeAttribute, setAttribute, classList_remove, classList_add.
  rewrite !hasAttribute_updElement_other; try reflexivity; intros x; simpl.
  - rewrite lookup_insert_ne by discriminate. reflexivity.
  - rewrite lookup_insert_ne by discriminate. reflexivity.
  - rewrite lookup_delete_ne by discriminate. reflexivity.
Qed.

Lemma hidePrefix_backdrop_attr (this : ModalRef) (w : World) (e : ElemId) :
  hasAttribute (hidePrefix this w) e "modal-backdrop" = hasAttribute w e "modal-backdrop".
Proof.
  unfold hidePrefix, removeAttribute, setAttribute, classList_remove, classList_add.
  rewrite !hasAttribute_updElement_other; try reflexivity; intros x; simpl.
  - rewrite lookup_insert_ne by discriminate. reflexivity.
  - rewrite lookup_delete_ne by discriminate. reflexivity.
  - rewrite lookup_delete_ne by discriminate. reflexivity.
Qed.

(** *** The suffixes *)

Lemma showSuffix_effects (this : ModalRef) (w : World) :
  effects (showSuffix this w)
  = effects w ++ [Invoked HookShow (onShow (_options (deref w this))) this].
Proof.
  unfold showSuffix. cbv zeta. rewrite effects_emit.
  set (w1 := classList_add _ _ _).
  assert (Hopt : forall m, _options (deref w1 m) = _options (deref w m)).
  { intros m. subst w1. unfold classList_add. rewrite deref_updElement.
    apply deref_updModal_frame. reflexivity. }
  assert (Heff : effects w1 = effects w) by reflexivity.
  clearbody w1.
  destruct (closable (_options (deref w1 this))).
  - rewrite (_setup_frame effects) by reflexivity.
    rewrite (_setup_deref_frame _options) by reflexivity.
    rewrite Hopt, Heff. reflexivity.
  - rewrite Hopt, Heff. reflexivity.
Qed.

Lemma hideSuffix_effects (this : ModalRef) (w : World) :
  effects (hideSuffix this w)
  = effects w ++ [Invoked HookHide (onHide (_options (deref w this))) this].
Proof.
  unfold hideSuffix. cbv zeta. rewrite effects_emit.
  set (w1 := classList_remove _ _ _).
  assert (Hopt : forall m, _options (deref w1 m) = _options (deref w m)).
  { intros m. subst w1. unfold classList_remove. rewrite deref_updElement.
    apply deref_updModal_frame. reflexivity. }
  assert (Heff : effects w1 = effects w) by reflexivity.
  clearbody w1.
  destruct (closable (_options (deref w1 this))).
  - rewrite (_remove_frame effects) by reflexivity.
    rewrite (_remove_frame (fun w0 => deref w0 this)) by reflexivity.
    rewrite Hopt, Heff. reflexivity.
  - rewrite Hopt, Heff. reflexivity.
Qed.

(** The suffixes assign [_isHidden] and the listener fields only. *)
Lemma showSuffix_deref_frame {A : Type} (g : Modal -> A) (this m : ModalRef) (w : World) :
  (forall v M, g (set_isHidden v M) = g M) ->
  (forall v M, g (set_clickOutsideEventListener v M) = g M) ->
  (forall v M, g (set_keydownEventListener v M) = g M) ->
  g (deref (showSuffix this w) m) = g (deref w m).
Proof.
  intros Hh Hc Hk. unfold showSuffix. cbv zeta. rewrite deref_emit.
  set (w1 := classList_add _ _ _).
  assert (H1 : g (deref w1 m) = g (deref w m)).
  { subst w1. unfold classList_add. rewrite deref_updElement.
    apply deref_updModal_frame. apply Hh. }
  rewrite <- H1. clearbody w1.
  destruct (closable (_options (deref w1 this))); [|reflexivity].
  apply _setup_deref_frame; assumption.
Qed.

Lemma hideSuffix_deref_frame {A : Type} (g : Modal -> A) (this m : ModalRef) (w : World) :
  (forall v M, g (set_isHidden v M) = g M) ->
  g (deref (hideSuffix this w) m) = g (deref w m).
Proof.
  intros Hh. unfold hideSuffix. cbv zeta. rewrite deref_emit.
  set (w1 := classList_remove _ _ _).
  assert (H1 : g (deref w1 m) = g (deref w m)).
  { subst w1. unfold classList_remove. rewrite deref_updElement.
    apply deref_updModal_frame. apply Hh. }
  rewrite <- H1. clearbody w1.
  destruct (closable (_options (deref w1 this))); [|reflexivity].
  apply (_remove_frame (fun w0 => g (deref w0 m))). reflexivity.
Qed.

(** Components of the state that the suffixes leave alone. *)
Lemma showSuffix_frame {A : Type} (g : World -> A) (this : ModalRef) (w : World) :
  (forall e f w0, g (updElement e f w0) = g w0) ->
  (forall m f w0, g (updModal m f w0) = g w0) ->
  (forall n w0, g (with_nextSerial n w0) = g w0) ->
  (forall x w0, g (emit x w0) = g w0) ->
  g (showSuffix this w) = g w.
Proof.
  intros Hel Hmod Hser Hemit. unfold showSuffix. cbv zeta. rewrite Hemit.
  set (w1 := classList_add _ _ _).
  assert (H1 : g w1 = g w).
  { subst w1. unfold classList_add. rewrite Hel. apply Hmod. }
  rewrite <- H1. clearbody w1.
  destruct (closable (_options (deref w1 this))); [|reflexivity].
  apply _setup_frame; intros; auto.
Qed.

Lemma hideSuffix_frame {A : Type} (g : World -> A) (this : ModalRef) (w : World) :
  (forall e f w0, g (updElement e f w0) = g w0) ->
  (forall m f w0, g (updModal m f w0) = g w0) ->
  (forall x w0, g (emit x w0) = g w0) ->
  g (hideSuffix this w) = g w.
Proof.
  intros Hel Hmod Hemit. unfold hideSuffix. cbv zeta. rewrite Hemit.
  set (w1 := classList_remove _ _ _).
  assert (H1 : g w1 = g w).
  { subst w1. unfold classList_remove. rewrite Hel. apply Hmod. }
  rewrite <- H1. clearbody w1.
  destruct (closable (_options (deref w1 this))); [|reflexivity].
  apply _remove_frame; intros; auto.
Qed.

(** *** The whole of [show] and [hide] *)

Lemma show_returns (this : ModalRef) (w : World) :
  show this w = Normal tt (outcome (show this w)).
Proof. reflexivity. Qed.

Lemma show_effects (this : ModalRef) (w : World) :
  effects (outcome (show this w))
  = effects w ++ [Invoked HookShow (onShow (_options (deref w this))) this].
Proof.
  rewrite show_steps. unfold outcome. rewrite showSuffix_effects.
  rewrite (_createBackdrop_frame effects) by reflexivity.
  rewrite (_createBackdrop_deref_frame _options) by reflexivity.
  rewrite (showPrefix_frame effects) by reflexivity.
  rewrite (showPrefix_frame (fun w0 => deref w0 this)) by reflexivity.
  reflexivity.
Qed.

Lemma show_deref_frame {A : Type} (g : Modal -> A) (this m : ModalRef) (w : World) :
  (forall v M, g (set_isHidden v M) = g M) ->
  (forall v M, g (set_backdropEl v M) = g M) ->
  (forall v M, g (set_clickOutsideEventListener v M) = g M) ->
  (forall v M, g (set_keydownEventListener v M) = g M) ->
  g (deref (outcome (show this w)) m) = g (deref w m).
Proof.
  intros Hh Hb Hc Hk. rewrite show_steps. unfold outcome.
  rewrite showSuffix_deref_frame by assumption.
  rewrite _createBackdrop_deref_frame by assumption.
  rewrite (showPrefix_frame (fun w0 => deref w0 m)) by reflexivity.
  reflexivity.
Qed.

(** Whether the first element carrying an attribute exists depends on the
    tree order and on which elements carry it. *)
Lemma document_querySelector_attr_ext (w w' : World) (name : string) :
  tree w' = tree w ->
  (forall e, hasAttribute w' e name = hasAttribute w e name) ->
  document_querySelector_attr w' name = document_querySelector_attr w name.
Proof.
  intros Ht Ha. unfold document_querySelector_attr. rewrite Ht. clear Ht.
  induction (tree w) as [|e l IH]; simpl; [reflexivity|].
  rewrite Ha, IH. reflexivity.
Qed.

Lemma hidePrefix_query (this : ModalRef) (w : World) :
  document_querySelector_attr (hidePrefix this w) "modal-backdrop"
  = document_querySelector_attr w "modal-backdrop".
Proof.
  apply document_querySelector_attr_ext.
  - apply (hidePrefix_frame tree). reflexivity.
  - apply hidePrefix_backdrop_attr.
Qed.

Lemma hide_hidden (this : ModalRef) (w : World) :
  _isHidden (deref w this) = true ->
  hide this w = Normal tt (hideSuffix this (hidePrefix this w)).
Proof.
  intros E. rewrite hide_steps. unfold _destroyBackdropEl.
  rewrite (hidePrefix_frame (fun w0 => deref w0 this)) by reflexivity.
  rewrite E. reflexivity.
Qed.

Lemma hide_visible (this : ModalRef) (w : World) (el : ElemId) :
  _isHidden (deref w this) = false ->
  document_querySelector_attr w "modal-backdrop" = Some el ->
  hide this w = Normal tt (hideSuffix this (remove el (hidePrefix this w))).
Proof.
  intros E Hq. rewrite hide_steps. unfold _destroyBackdropEl.
  rewrite (hidePrefix_frame (fun w0 => deref w0 this)) by reflexivity.
  rewrite E, hidePrefix_query, Hq. reflexivity.
Qed.

Lemma hide_throws (this : ModalRef) (w : World) :
  _isHidden (deref w this) = false ->
  document_querySelector_attr w "modal-backdrop" = None ->
  hide this w
  = Throw (TypeError "document.querySelector(...) is null") (hidePrefix this w).
Proof.
  intros E Hq. rewrite hide_steps. unfold _destroyBackdropEl.
  rewrite (hidePrefix_frame (fun w0 => deref w0 this)) by reflexivity.
  rewrite E, hidePrefix_query, Hq. reflexivity.
Qed.

Lemma remove_frame {A : Type} (g : World -> A) (el : ElemId) (w : World) :
  (forall e f w0, g (updElement e f w0) = g w0) ->
  (forall f w0, g (with_tree f w0) = g w0) ->
  g (remove el w) = g w.
Proof. intros Hel Htree. unfold remove. rewrite Hel. apply Htree. Qed.

Lemma hide_effects (this : ModalRef) (w : World) :
  backdropAvailable this w ->
  hide this w = Normal tt (outcome (hide this w)) /\
  effects (outcome (hide this w))
  = effects w ++ [Invoked HookHide (onHide (_options (deref w this))) this].
Proof.
  intros Hav. destruct (_isHidden (deref w this)) eqn:E.
  - rewrite hide_hidden by exact E. split; [reflexivity|].
    unfold outcome. rewrite hideSuffix_effects.
    rewrite (hidePrefix_frame effects) by reflexivity.
    rewrite (hidePrefix_frame (fun w0 => deref w0 this)) by reflexivity.
    reflexivity.
  - destruct (Hav E) as [el Hq].
    rewrite (hide_visible this w el) by assumption. split; [reflexivity|].
    unfold outcome. rewrite hideSuffix_effects.
    rewrite (remove_frame effects) by reflexivity.
    rewrite (remove_frame (fun w0 => deref w0 this)) by reflexivity.
    rewrite (hidePrefix_frame effects) by reflexivity.
    rewrite (hidePrefix_frame (fun w0 => deref w0 this)) by reflexivity.
    reflexivity.
Qed.

Lemma hide_deref_frame {A : Type} (g : Modal -> A) (this m : ModalRef) (w : World) :
  (forall v M, g (set_isHidden v M) = g M) ->
  g (deref (outcome (hide this w)) m) = g (deref w m).
Proof.
  intros Hh. destruct (_isHidden (deref w this)) eqn:E.
  - rewrite hide_hidden by exact E. unfold outcome.
    rewrite hideSuffix_deref_frame by assumption.
    rewrite (hidePrefix_frame (fun w0 => deref w0 m)) by reflexivity. reflexivity.
  - destruct (document_querySelector_attr w "modal-backdrop") as [el|] eqn:Hq.
    + rewrite (hide_visible this w el) by assumption. unfold outcome.
      rewrite hideSuffix_deref_frame by assumption.
      rewrite (remove_frame (fun w0 => deref w0 m)) by reflexivity.
      rewrite (hidePrefix_frame (fun w0 => deref w0 m)) by reflexivity. reflexivity.
    + rewrite hide_throws by assumption. unfold outcome.
      rewrite (hidePrefix_frame (fun w0 => deref w0 m)) by reflexivity. reflexivity.
Qed.

(** ** Counting callback invocations *)

Lemma invocations_snoc (h : Hook) (this : ModalRef) (l : list Effect) (x : Effect) :
  invocations h this (l ++ [x])
  = invocations h this l + (if is_invocation h this x then 1 else 0).
Proof.
  unfold invocations. rewrite List.filter_app, length_app. simpl.
  destruct (is_invocation h this x); reflexivity.
Qed.

(** ** [toggle] (C4) *)


(** ** Redundant calls (C1) *)

Lemma length_modals_updModal (m : ModalRef) (f : Modal -> Modal) (w : World) :
  length (modals (updModal m f w)) = length (modals w).
Proof. unfold updModal; simpl. apply length_alter. Qed.

Ltac frame_side := intros; first [reflexivity | apply length_modals_updModal].

Lemma show_length_modals (this : ModalRef) (w : World) :
  length (modals (outcome (show this w))) = length (modals w).
Proof.
  rewrite show_steps. unfold outcome.
  rewrite (showSuffix_frame (fun w0 => length (modals w0))) by frame_side.
  rewrite (_createBackdrop_frame (fun w0 => length (modals w0))) by frame_side.
  apply (showPrefix_frame (fun w0 => length (modals w0))). reflexivity.
Qed.

Lemma hide_length_modals (this : ModalRef) (w : World) :
  length (modals (outcome (hide this w))) = length (modals w).
Proof.
  assert (Hs : forall w0, length (modals (hideSuffix this w0)) = length (modals w0)).
  { intros w0. apply (hideSuffix_frame (fun w1 => length (modals w1))); frame_side. }
  assert (Hp : length (modals (hidePrefix this w)) = length (modals w)).
  { apply (hidePrefix_frame (fun w0 => length (modals w0))). reflexivity. }
  destruct (_isHidden (deref w this)) eqn:E.
  - rewrite hide_hidden by exact E. unfold outcome. rewrite Hs. exact Hp.
  - destruct (document_querySelector_attr w "modal-backdrop") as [el|] eqn:Hq.
    + rewrite (hide_visible this w el) by assumption. unfold outcome.
      rewrite Hs. rewrite (remove_frame (fun w0 => length (modals w0))) by reflexivity.
      exact Hp.
    + rewrite hide_throws by assumption. exact Hp.
Qed.

Lemma allocated_lookup (this : ModalRef) (w : World) :
  allocated this w -> modals w !! this = Some (deref w this).
Proof.
  unfold allocated, deref. intros H.
  destruct (lookup_lt_is_Some_2 (modals w) this H) as [M ->]. reflexivity.
Qed.

Lemma deref_updModal_eq (this : ModalRef) (f : Modal -> Modal) (w : World) :
  allocated this w -> deref (updModal this f w) this = f (deref w this).
Proof.
  intros H. rewrite (deref_updModal this this f w (deref w this)).
  - destruct (decide (this = this)); congruence.
  - apply allocated_lookup, H.
Qed.

Lemma deref_updModal_ne (this m : ModalRef) (f : Modal -> Modal) (w : World) :
  this ≠ m -> deref (updModal this f w) m = deref w m.
Proof.
  intros Hne. unfold deref, updModal; simpl.
  rewrite list_lookup_alter_ne by exact Hne. reflexivity.
Qed.

Lemma showSuffix_isHidden (this : ModalRef) (w : World) :
  allocated this w -> _isHidden (deref (showSuffix this w) this) = false.
Proof.
  intros Hal. unfold showSuffix. cbv zeta. rewrite deref_emit.
  set (w1 := classList_add _ _ _).
  assert (H1 : _isHidden (deref w1 this) = false).
  { subst w1. unfold classList_add. rewrite deref_updElement.
    rewrite deref_updModal_eq by exact Hal. reflexivity. }
  clearbody w1.
  destruct (closable (_options (deref w1 this))); [|exact H1].
  rewrite (_setup_deref_frame _isHidden) by reflexivity. exact H1.
Qed.

Lemma hideSuffix_isHidden (this : ModalRef) (w : World) :
  allocated this w -> _isHidden (deref (hideSuffix this w) this) = true.
Proof.
  intros Hal. unfold hideSuffix. cbv zeta. rewrite deref_emit.
  set (w1 := classList_remove _ _ _).
  assert (H1 : _isHidden (deref w1 this) = true).
  { subst w1. unfold classList_remove. rewrite deref_updElement.
    rewrite deref_updModal_eq by exact Hal. reflexivity. }
  clearbody w1.
  destruct (closable (_options (deref w1 this))); [|exact H1].
  rewrite (_remove_frame (fun w0 => deref w0 this)) by reflexivity. exact H1.
Qed.

Lemma show_isHidden (this : ModalRef) (w : World) :
  allocated this w -> _isHidden (deref (outcome (show this w)) this) = false.
Proof.
  intros Hal. rewrite show_steps. unfold outcome. apply showSuffix_isHidden.
  unfold allocated.
  rewrite (_createBackdrop_frame (fun w0 => length (modals w0))) by frame_side.
  rewrite (showPrefix_frame (fun w0 => length (modals w0))) by reflexivity.
  exact Hal.
Qed.

Lemma hide_isHidden (this : ModalRef) (w : World) :
  allocated this w -> backdropAvailable this w ->
  _isHidden (deref (outcome (hide this w)) this) = true.
Proof.
  intros Hal Hav.
  assert (Hp : allocated this (hidePrefix this w)).
  { unfold allocated.
    rewrite (hidePrefix_frame (fun w0 => length (modals w0))) by reflexivity.
    exact Hal. }
  destruct (_isHidden (deref w this)) eqn:E.
  - rewrite hide_hidden by exact E. unfold outcome. apply hideSuffix_isHidden, Hp.
  - destruct (Hav E) as [el Hq].
    rewrite (hide_visible this w el) by assumption. unfold outcome.
    apply hideSuffix_isHidden. unfold allocated.
    rewrite (remove_frame (fun w0 => length (modals w0))) by reflexivity. exact Hp.
Qed.

(** C1, as the code has it.  The conditions of [show] and [hide] test the
    methods [isHidden] and [isVisible] themselves and not their results,
    so both bodies run on every call: [show] on a modal that is visible
    already invokes [onShow] once more, and [hide] on a modal that is
    hidden already invokes [onHide] once more. *)
Theorem redundant_calls_run_again (this : ModalRef) (w : World) :
  (isVisible this w = true ->
   show this w = Normal tt (outcome (show this w)) /\
   invocations HookShow this (effects (outcome (show this w)))
     = S (invocations HookShow this (effects w))) /\
  (isHidden this w = true ->
   hide this w = Normal tt (outcome (hide this w)) /\
   invocations HookHide this (effects (outcome (hide this w)))
     = S (invocations HookHide this (effects w))).
Proof.
  split.
  - intros _. split; [apply show_returns|].
    rewrite show_effects, invocations_snoc. simpl.
    rewrite !bool_decide_eq_true_2 by reflexivity. simpl. lia.
  - unfold isHidden. intros E.
    assert (Hav : backdropAvailable this w).
    { intros E'. congruence. }
    destruct (hide_effects this w Hav) as [Hret Heff].
    split; [exact Hret|].
    rewrite Heff, invocations_snoc. simpl.
    rewrite !bool_decide_eq_true_2 by reflexivity. simpl. lia.
Qed.

(** ** Listener lists *)

Lemma listener_add_elem (l x : Listener) (ls : list Listener) :
  x ∈ listener_add l ls <-> x = l \/ x ∈ ls.
Proof.
  unfold listener_add. destruct (decide (l ∈ ls)).
  - split; [tauto | intros [->|]; assumption].
  - rewrite elem_of_app, list_elem_of_singleton. tauto.
Qed.

Lemma listener_remove_elem (l x : Listener) (ls : list Listener) :
  x ∈ listener_remove l ls <-> x ≠ l /\ x ∈ ls.
Proof. unfold listener_remove. rewrite list_elem_of_filter. tauto. Qed.

Lemma listeners_addEventListener (e e' : ElemId) (ty : string) (cb : Callback)
    (cap : bool) (w : World) :
  listeners (element (addEventListener (OnElement e) ty cb cap w) e')
  = if decide (e = e') then listener_add (mkListener ty cb cap) (listeners (element w e'))
    else listeners (element w e').
Proof.
  simpl. rewrite element_updElement.
  destruct (decide (e = e')) as [->|]; reflexivity.
Qed.

Lemma listeners_removeEventListener (e e' : ElemId) (ty : string) (cb : Callback)
    (cap : bool) (w : World) :
  listeners (element (removeEventListener (OnElement e) ty cb cap w) e')
  = if decide (e = e') then listener_remove (mkListener ty cb cap) (listeners (element w e'))
    else listeners (element w e').
Proof.
  simpl. rewrite element_updElement.
  destruct (decide (e = e')) as [->|]; reflexivity.
Qed.

Lemma addEventListener_keeps (e e' : ElemId) (ty : string) (cb : Callback)
    (cap : bool) (w : World) (x : Listener) :
  x ∈ listeners (element w e') ->
  x ∈ listeners (element (addEventListener (OnElement e) ty cb cap w) e').
Proof.
  intros H. rewrite listeners_addEventListener.
  destruct (decide (e = e')); [apply listener_add_elem; right|]; exact H.
Qed.

Lemma removeEventListener_opt_keeps (e e' : ElemId) (ty : string) (cb : option Callback)
    (cap : bool) (w : World) (x : Listener) :
  l_type x ≠ ty ->
  x ∈ listeners (element w e') ->
  x ∈ listeners (element (removeEventListener_opt (OnElement e) ty cb cap w) e').
Proof.
  intros Hty H. destruct cb as [cb|]; [|exact H].
  unfold removeEventListener_opt. rewrite listeners_removeEventListener.
  destruct (decide (e = e')); [|exact H].
  apply listener_remove_elem. split; [|exact H].
  intros ->. apply Hty. reflexivity.
Qed.

Lemma removeEventListener_opt_shrinks (e e' : ElemId) (ty : string) (cb : option Callback)
    (cap : bool) (w : World) (x : Listener) :
  x ∈ listeners (element (removeEventListener_opt (OnElement e) ty cb cap w) e') ->
  x ∈ listeners (element w e').
Proof.
  destruct cb as [cb|]; [|tauto].
  unfold removeEventListener_opt. rewrite listeners_removeEventListener.
  destruct (decide (e = e')); [|tauto].
  rewrite listener_remove_elem. tauto.
Qed.

(** What [_setupModalCloseEventListeners] registers. *)
Lemma _setup_keeps (this : ModalRef) (w : World) (e : ElemId) (x : Listener) :
  x ∈ listeners (element w e) ->
  x ∈ listeners (element (_setupModalCloseEventListeners this w) e).
Proof.
  intros H. unfold _setupModalCloseEventListeners.
  apply addEventListener_keeps. rewrite element_updModal, element_with_nextSerial.
  destruct (decide _); [|exact H].
  apply addEventListener_keeps. exact H.
Qed.

Lemma _setup_registers_mouseup (this : ModalRef) (w : World) :
  backdrop (_options (deref w this)) = "dynamic" ->
  mkListener "mouseup" (ClickOutsideClosure this (nextSerial w)) true
    ∈ listeners (element (_setupModalCloseEventListeners this w) (_targetEl (deref w this))).
Proof.
  intros Hdyn. unfold _setupModalCloseEventListeners.
  apply addEventListener_keeps. rewrite element_updModal, element_with_nextSerial.
  destruct (decide _) as [_|Hn]; [|contradiction].
  rewrite (deref_updModal_frame _targetEl) by reflexivity.
  rewrite deref_with_nextSerial, listeners_addEventListener.
  destruct (decide _) as [_|Hn]; [|contradiction].
  apply listener_add_elem. left. reflexivity.
Qed.

Lemma _setup_registers_keydown (this : ModalRef) (w : World) :
  mkListener "keydown" (KeydownClosure this (keydownSerial this w)) true
    ∈ listeners (element (_setupModalCloseEventListeners this w) (body w)).
Proof.
  unfold _setupModalCloseEventListeners, keydownSerial.
  destruct (decide _).
  - rewrite listeners_addEventListener.
    destruct (decide _) as [_|Hn]; [|exfalso; apply Hn; reflexivity].
    apply listener_add_elem. left. reflexivity.
  - rewrite listeners_addEventListener.
    destruct (decide _) as [_|Hn]; [|exfalso; apply Hn; reflexivity].
    apply listener_add_elem. left. reflexivity.
Qed.

Lemma _setup_keydown_field (this : ModalRef) (w : World) :
  allocated this w ->
  _keydownEventListener (deref (_setupModalCloseEventListeners this w) this)
  = Some (KeydownClosure this (keydownSerial this w)).
Proof.
  intros Hal. unfold _setupModalCloseEventListeners, keydownSerial.
  rewrite deref_addEventListener.
  destruct (decide _).
  - rewrite deref_updModal_eq; [reflexivity|].
    unfold allocated. simpl. rewrite length_alter. exact Hal.
  - rewrite deref_updModal_eq; [reflexivity|]. exact Hal.
Qed.

Lemma _setup_click_field (this : ModalRef) (w : World) :
  allocated this w ->
  backdrop (_options (deref w this)) = "dynamic" ->
  _clickOutsideEventListener (deref (_setupModalCloseEventListeners this w) this)
  = Some (ClickOutsideClosure this (nextSerial w)).
Proof.
  intros Hal Hdyn. unfold _setupModalCloseEventListeners.
  rewrite deref_addEventListener.
  rewrite (deref_updModal_frame _clickOutsideEventListener) by reflexivity.
  rewrite deref_with_nextSerial.
  destruct (decide _) as [_|Hn]; [|contradiction].
  rewrite deref_addEventListener, deref_updModal_eq; [reflexivity|]. exact Hal.
Qed.

(** What [_removeModalCloseEventListeners] leaves registered: it only
    ever asks for "click" and "keydown" listeners to be removed. *)
Lemma _remove_keeps (this : ModalRef) (w : World) (e : ElemId) (x : Listener) :
  l_type x ≠ "click" -> l_type x ≠ "keydown" ->
  x ∈ listeners (element w e) ->
  x ∈ listeners (element (_removeModalCloseEventListeners this w) e).
Proof.
  intros Hc Hk H. unfold _removeModalCloseEventListeners.
  apply removeEventListener_opt_keeps; [exact Hk|].
  destruct (decide _); [|exact H].
  apply removeEventListener_opt_keeps; [exact Hc | exact H].
Qed.

Lemma _remove_shrinks (this : ModalRef) (w : World) (e : ElemId) (x : Listener) :
  x ∈ listeners (element (_removeModalCloseEventListeners this w) e) ->
  x ∈ listeners (element w e).
Proof.
  unfold _removeModalCloseEventListeners. intros H.
  apply removeEventListener_opt_shrinks in H.
  destruct (decide _); [|exact H].
  apply removeEventListener_opt_shrinks in H. exact H.
Qed.

Lemma _remove_unregisters_keydown (this : ModalRef) (w : World) (cb : Callback) :
  _keydownEventListener (deref w this) = Some cb ->
  mkListener "keydown" cb true
    ∉ listeners (element (_removeModalCloseEventListeners this w) (body w)).
Proof.
  intros Hcb. unfold _removeModalCloseEventListeners.
  set (w1 := if decide _ then _ else _).
  assert (Hd : deref w1 this = deref w this).
  { subst w1. destruct (decide _); [|reflexivity].
    destruct (_clickOutsideEventListener _); reflexivity. }
  assert (Hb : body w1 = body w).
  { subst w1. destruct (decide _); [|reflexivity].
    destruct (_clickOutsideEventListener _); reflexivity. }
  clearbody w1. rewrite Hd, Hcb, Hb. unfold removeEventListener_opt.
  rewrite listeners_removeEventListener.
  destruct (decide _) as [_|Hn]; [|exfalso; apply Hn; reflexivity].
  rewrite listener_remove_elem. intros [Hne _]. apply Hne. reflexivity.
Qed.

(** Element components that [show] and [hide] leave alone in their
    suffixes, and [hide] in removing the backdrop. *)
Lemma showSuffix_element_frame {A : Type} (g : Element -> A) (this : ModalRef)
    (w : World) (e : ElemId) :
  (forall f x, g (with_classList f x) = g x) ->
  (forall f x, g (with_listeners f x) = g x) ->
  g (element (showSuffix this w) e) = g (element w e).
Proof.
  intros Hcl Hls. unfold showSuffix. cbv zeta. rewrite element_emit.
  set (w1 := classList_add _ _ _).
  assert (H1 : g (element w1 e) = g (element w e)).
  { subst w1. unfold classList_add.
    rewrite element_updElement_frame by apply Hcl. reflexivity. }
  rewrite <- H1. clearbody w1.
  destruct (closable _); [|reflexivity].
  apply _setup_element_frame, Hls.
Qed.

Lemma hideSuffix_element_frame {A : Type} (g : Element -> A) (this : ModalRef)
    (w : World) (e : ElemId) :
  (forall f x, g (with_classList f x) = g x) ->
  (forall f x, g (with_listeners f x) = g x) ->
  g (element (hideSuffix this w) e) = g (element w e).
Proof.
  intros Hcl Hls. unfold hideSuffix. cbv zeta. rewrite element_emit.
  set (w1 := classList_remove _ _ _).
  assert (H1 : g (element w1 e) = g (element w e)).
  { subst w1. unfold classList_remove.
    rewrite element_updElement_frame by apply Hcl. reflexivity. }
  rewrite <- H1. clearbody w1.
  destruct (closable _); [|reflexivity].
  apply _remove_element_frame, Hls.
Qed.

Lemma remove_element_frame {A : Type} (g : Element -> A) (el e : ElemId) (w : World) :
  (forall p x, g (with_parentNode p x) = g x) ->
  g (element (remove el w) e) = g (element w e).
Proof.
  intros Hg. unfold remove.
  rewrite element_updElement_frame by apply Hg. reflexivity.
Qed.

Lemma hidePrefix_element_frame {A : Type} (g : Element -> A) (this : ModalRef)
    (w : World) (e : ElemId) :
  (forall f x, g (with_classList f x) = g x) ->
  (forall f x, g (with_attributes f x) = g x) ->
  g (element (hidePrefix this w) e) = g (element w e).
Proof.
  intros Hcl Hat. unfold hidePrefix, removeAttribute, setAttribute, classList_remove,
    classList_add.
  rewrite !(element_updElement_frame g) by first [apply Hcl | apply Hat].
  reflexivity.
Qed.

Lemma showPrefix_element_frame {A : Type} (g : Element -> A) (this : ModalRef)
    (w : World) (e : ElemId) :
  (forall f x, g (with_classList f x) = g x) ->
  (forall f x, g (with_attributes f x) = g x) ->
  g (element (showPrefix this w) e) = g (element w e).
Proof.
  intros Hcl Hat. unfold showPrefix, removeAttribute, setAttribute, classList_remove,
    classList_add.
  rewrite !(element_updElement_frame g) by first [apply Hcl | apply Hat].
  reflexivity.
Qed.

(** The state in which [show] reaches its last statements. *)
Lemma showSuffix_inner (this : ModalRef) (w : World) :
  closable (_options (deref w this)) = true ->
  showSuffix this w
  = emit (Invoked HookShow (onShow (_options (deref w this))) this)
      (_setupModalCloseEventListeners this
         (classList_add (body w) "overflow-hidden" (updModal this (set_isHidden false) w))).
Proof.
  intros Hc. unfold showSuffix. cbv zeta.
  set (w1 := classList_add _ _ _).
  assert (Hopt : _options (deref w1 this) = _options (deref w this)).
  { subst w1. unfold classList_add. rewrite deref_updElement.
    apply deref_updModal_frame. reflexivity. }
  rewrite Hopt, Hc.
  rewrite (_setup_deref_frame _options) by reflexivity.
  rewrite Hopt. reflexivity.
Qed.

Lemma showSuffix_registers_mouseup (this : ModalRef) (w : World) :
  closable (_options (deref w this)) = true ->
  backdrop (_options (deref w this)) = "dynamic" ->
  mkListener "mouseup" (ClickOutsideClosure this (nextSerial w)) true
    ∈ listeners (element (showSuffix this w) (_targetEl (deref w this))).
Proof.
  intros Hc Hdyn. rewrite showSuffix_inner by exact Hc. rewrite element_emit.
  set (w1 := classList_add _ _ _).
  assert (Hd : forall {A} (g : Modal -> A),
             (forall v M, g (set_isHidden v M) = g M) ->
             g (deref w1 this) = g (deref w this)).
  { intros A g Hg. subst w1. unfold classList_add. rewrite deref_updElement.
    apply deref_updModal_frame, Hg. }
  rewrite <- (Hd _ _targetEl) by reflexivity.
  change (nextSerial w) with (nextSerial w1).
  apply _setup_registers_mouseup.
  rewrite (Hd _ (fun M => backdrop (_options M))) by reflexivity. exact Hdyn.
Qed.

Lemma showSuffix_registers_keydown (this : ModalRef) (w : World) :
  closable (_options (deref w this)) = true ->
  mkListener "keydown" (KeydownClosure this (keydownSerial this w)) true
    ∈ listeners (element (showSuffix this w) (body w)).
Proof.
  intros Hc. rewrite showSuffix_inner by exact Hc. rewrite element_emit.
  set (w1 := classList_add _ _ _).
  assert (Hk : keydownSerial this w = keydownSerial this w1).
  { subst w1. unfold keydownSerial, classList_add. rewrite deref_updElement.
    rewrite (deref_updModal_frame _options) by reflexivity. reflexivity. }
  rewrite Hk. change (body w) with (body w1). apply _setup_registers_keydown.
Qed.

Lemma showSuffix_keydown_field (this : ModalRef) (w : World) :
  allocated this w ->
  closable (_options (deref w this)) = true ->
  _keydownEventListener (deref (showSuffix this w) this)
  = Some (KeydownClosure this (keydownSerial this w)).
Proof.
  intros Hal Hc. rewrite showSuffix_inner by exact Hc. rewrite deref_emit.
  set (w1 := classList_add _ _ _).
  assert (Hk : keydownSerial this w = keydownSerial this w1).
  { subst w1. unfold keydownSerial, classList_add. rewrite deref_updElement.
    rewrite (deref_updModal_frame _options) by reflexivity. reflexivity. }
  rewrite Hk. apply _setup_keydown_field.
  subst w1. unfold allocated, classList_add. rewrite modals_updElement.
  rewrite length_modals_updModal. exact Hal.
Qed.

Lemma showSuffix_click_field (this : ModalRef) (w : World) :
  allocated this w ->
  closable (_options (deref w this)) = true ->
  backdrop (_options (deref w this)) = "dynamic" ->
  _clickOutsideEventListener (deref (showSuffix this w) this)
  = Some (ClickOutsideClosure this (nextSerial w)).
Proof.
  intros Hal Hc Hdyn. rewrite showSuffix_inner by exact Hc. rewrite deref_emit.
  set (w1 := classList_add _ _ _).
  change (nextSerial w) with (nextSerial w1).
  apply _setup_click_field.
  - subst w1. unfold allocated, classList_add. rewrite modals_updElement.
    rewrite length_modals_updModal. exact Hal.
  - subst w1. unfold classList_add. rewrite deref_updElement.
    rewrite (deref_updModal_frame _options) by reflexivity. exact Hdyn.
Qed.

Lemma showMiddle_deref_frame {A : Type} (g : Modal -> A) (this m : ModalRef) (w : World) :
  (forall v M, g (set_backdropEl v M) = g M) ->
  g (deref (showMiddle this w) m) = g (deref w m).
Proof.
  intros Hg. unfold showMiddle. rewrite _createBackdrop_deref_frame by exact Hg.
  rewrite (showPrefix_frame (fun w0 => deref w0 m)) by reflexivity. reflexivity.
Qed.

Lemma showMiddle_frame {A : Type} (g : World -> A) (this : ModalRef) (w : World) :
  (forall e f w0, g (updElement e f w0) = g w0) ->
  (forall n w0, g (with_nextElem n w0) = g w0) ->
  (forall f w0, g (with_tree f w0) = g w0) ->
  (forall v w0, g (updModal this (set_backdropEl v) w0) = g w0) ->
  g (showMiddle this w) = g w.
Proof.
  intros Hel Hn Ht Hm. unfold showMiddle.
  rewrite _createBackdrop_frame by assumption.
  apply showPrefix_frame, Hel.
Qed.

Lemma showMiddle_allocated (this : ModalRef) (w : World) :
  allocated this w -> allocated this (showMiddle this w).
Proof.
  unfold allocated.
  rewrite (showMiddle_frame (fun w0 => length (modals w0))) by frame_side. tauto.
Qed.

Lemma show_registers_mouseup (this : ModalRef) (w : World) :
  closable (_options (deref w this)) = true ->
  backdrop (_options (deref w this)) = "dynamic" ->
  mkListener "mouseup" (ClickOutsideClosure this (nextSerial w)) true
    ∈ listeners (element (outcome (show this w)) (_targetEl (deref w this))).
Proof.
  intros Hc Hdyn. rewrite show_steps. unfold outcome. fold (showMiddle this w).
  rewrite <- (showMiddle_deref_frame _targetEl this this w) by reflexivity.
  rewrite <- (showMiddle_frame nextSerial this w) by reflexivity.
  apply showSuffix_registers_mouseup.
  - rewrite (showMiddle_deref_frame _options) by reflexivity. exact Hc.
  - rewrite (showMiddle_deref_frame _options) by reflexivity. exact Hdyn.
Qed.

Lemma show_registers_keydown (this : ModalRef) (w : World) :
  closable (_options (deref w this)) = true ->
  mkListener "keydown" (KeydownClosure this (keydownSerial this w)) true
    ∈ listeners (element (outcome (show this w)) (body w)) /\
  (allocated this w ->
   _keydownEventListener (deref (outcome (show this w)) this)
   = Some (KeydownClosure this (keydownSerial this w))).
Proof.
  intros Hc. rewrite show_steps. unfold outcome. fold (showMiddle this w).
  assert (Hk : keydownSerial this w = keydownSerial this (showMiddle this w)).
  { unfold keydownSerial.
    rewrite (showMiddle_deref_frame _options) by reflexivity.
    rewrite (showMiddle_frame nextSerial) by reflexivity. reflexivity. }
  assert (Hc' : closable (_options (deref (showMiddle this w) this)) = true).
  { rewrite (showMiddle_deref_frame _options) by reflexivity. exact Hc. }
  rewrite Hk. split.
  - rewrite <- (showMiddle_frame body this w) by reflexivity.
    apply showSuffix_registers_keydown, Hc'.
  - intros Hal. apply showSuffix_keydown_field; [|exact Hc'].
    apply showMiddle_allocated, Hal.
Qed.

(** [hide] leaves every listener registered whose type is neither "click"
    nor "keydown". *)
Lemma hideSuffix_keeps (this : ModalRef) (w : World) (e : ElemId) (x : Listener) :
  l_type x ≠ "click" -> l_type x ≠ "keydown" ->
  x ∈ listeners (element w e) ->
  x ∈ listeners (element (hideSuffix this w) e).
Proof.
  intros Hc Hk H. unfold hideSuffix. cbv zeta. rewrite element_emit.
  set (w1 := classList_remove _ _ _).
  assert (H1 : x ∈ listeners (element w1 e)).
  { subst w1. unfold classList_remove.
    rewrite (element_updElement_frame listeners) by reflexivity. exact H. }
  clearbody w1.
  destruct (closable _); [|exact H1].
  apply _remove_keeps; assumption.
Qed.

Lemma hide_keeps_listener (this : ModalRef) (w : World) (e : ElemId) (x : Listener) :
  l_type x ≠ "click" -> l_type x ≠ "keydown" ->
  x ∈ listeners (element w e) ->
  x ∈ listeners (element (outcome (hide this w)) e).
Proof.
  intros Hc Hk H.
  assert (Hp : x ∈ listeners (element (hidePrefix this w) e)).
  { rewrite (hidePrefix_element_frame listeners) by reflexivity. exact H. }
  destruct (_isHidden (deref w this)) eqn:E.
  - rewrite hide_hidden by exact E. unfold outcome. apply hideSuffix_keeps; assumption.
  - destruct (document_querySelector_attr w "modal-backdrop") as [el|] eqn:Hq.
    + rewrite (hide_visible this w el) by assumption. unfold outcome.
      apply hideSuffix_keeps; try assumption.
      rewrite (remove_element_frame listeners) by reflexivity. exact Hp.
    + rewrite hide_throws by assumption. exact Hp.
Qed.

Lemma hideSuffix_unregisters_keydown (this : ModalRef) (w : World) (cb : Callback) :
  closable (_options (deref w this)) = true ->
  _keydownEventListener (deref w this) = Some cb ->
  mkListener "keydown" cb true ∉ listeners (element (hideSuffix this w) (body w)).
Proof.
  intros Hc Hcb. unfold hideSuffix. cbv zeta. rewrite element_emit.
  set (w1 := classList_remove _ _ _).
  assert (Hd : forall {A} (g : Modal -> A),
             (forall v M, g (set_isHidden v M) = g M) ->
             g (deref w1 this) = g (deref w this)).
  { intros A g Hg. subst w1. unfold classList_remove. rewrite deref_updElement.
    apply deref_updModal_frame, Hg. }
  rewrite (Hd _ _options) by reflexivity. rewrite Hc.
  change (body w) with (body w1).
  apply _remove_unregisters_keydown.
  rewrite (Hd _ _keydownEventListener) by reflexivity. exact Hcb.
Qed.

Lemma hide_unregisters_keydown (this : ModalRef) (w : World) (cb : Callback) :
  backdropAvailable this w ->
  closable (_options (deref w this)) = true ->
  _keydownEventListener (deref w this) = Some cb ->
  mkListener "keydown" cb true ∉ listeners (element (outcome (hide this w)) (body w)).
Proof.
  intros Hav Hc Hcb.
  destruct (_isHidden (deref w this)) eqn:E.
  - rewrite hide_hidden by exact E. unfold outcome.
    rewrite <- (hidePrefix_frame body this w) by reflexivity.
    apply hideSuffix_unregisters_keydown;
      rewrite (hidePrefix_frame (fun w0 => deref w0 this)) by reflexivity; assumption.
  - destruct (Hav E) as [el Hq].
    rewrite (hide_visible this w el) by assumption. unfold outcome.
    rewrite <- (hidePrefix_frame body this w) by reflexivity.
    rewrite <- (remove_frame body el (hidePrefix this w)) by reflexivity.
    apply hideSuffix_unregisters_keydown;
      rewrite (remove_frame (fun w0 => deref w0 this)) by reflexivity;
      rewrite (hidePrefix_frame (fun w0 => deref w0 this)) by reflexivity; assumption.
Qed.

(** ** Backdrops in the document *)

Lemma find_is_Some {A : Type} (f : A -> bool) (l : list A) (x : A) :
  x ∈ l -> f x = true -> is_Some (List.find f l).
Proof.
  intros Hx Hf. induction l as [|y l IH]; [inversion Hx|].
  simpl. destruct (f y) eqn:E; [eauto|].
  apply IH. apply elem_of_cons in Hx as [->|Hx]; [congruence | exact Hx].
Qed.

Lemma show_tree (this : ModalRef) (w : World) :
  tree (outcome (show this w))
  = if _isHidden (deref w this) then tree w ++ [nextElem w] else tree w.
Proof.
  rewrite show_steps. unfold outcome.
  rewrite (showSuffix_frame tree) by reflexivity.
  rewrite _createBackdrop_tree.
  rewrite (showPrefix_frame (fun w0 => deref w0 this)) by reflexivity.
  rewrite (showPrefix_frame tree) by reflexivity.
  rewrite (showPrefix_frame nextElem) by reflexivity. reflexivity.
Qed.

Lemma show_attributes_ne (this : ModalRef) (w : World) (e : ElemId) :
  e ≠ nextElem w -> e ≠ _targetEl (deref w this) ->
  attributes (element (outcome (show this w)) e) = attributes (element w e).
Proof.
  intros Hn Ht. rewrite show_steps. unfold outcome.
  rewrite (showSuffix_element_frame attributes) by reflexivity.
  rewrite _createBackdrop_element_ne
    by (rewrite (showPrefix_frame nextElem) by reflexivity; exact Hn).
  rewrite showPrefix_element_ne by exact Ht. reflexivity.
Qed.

Lemma show_backdrop_attr (this : ModalRef) (w : World) (e : ElemId) :
  e ≠ nextElem w ->
  hasAttribute (outcome (show this w)) e "modal-backdrop" = hasAttribute w e "modal-backdrop".
Proof.
  intros Hn. unfold hasAttribute at 1. unfold getAttribute.
  rewrite show_steps. unfold outcome.
  rewrite (showSuffix_element_frame attributes) by reflexivity.
  rewrite _createBackdrop_element_ne
    by (rewrite (showPrefix_frame nextElem) by reflexivity; exact Hn).
  apply showPrefix_backdrop_attr.
Qed.

Lemma show_new_backdrop (this : ModalRef) (w : World) :
  _isHidden (deref w this) = true ->
  attributes (element (outcome (show this w)) (nextElem w)) = {["modal-backdrop" := ""]}.
Proof.
  intros E. rewrite show_steps. unfold outcome.
  rewrite (showSuffix_element_frame attributes) by reflexivity.
  rewrite <- (showPrefix_frame nextElem this w) by reflexivity.
  apply _createBackdrop_backdrop_attributes.
  rewrite (showPrefix_frame (fun w0 => deref w0 this)) by reflexivity. exact E.
Qed.

Lemma show_visible_same_backdrops (this : ModalRef) (w : World) (e : ElemId) :
  _isHidden (deref w this) = false ->
  hasAttribute (outcome (show this w)) e "modal-backdrop" = hasAttribute w e "modal-backdrop".
Proof.
  intros E. unfold hasAttribute at 1. unfold getAttribute.
  rewrite show_steps. unfold outcome.
  rewrite (showSuffix_element_frame attributes) by reflexivity.
  rewrite _createBackdrop_visible
    by (rewrite (showPrefix_frame (fun w0 => deref w0 this)) by reflexivity; exact E).
  apply showPrefix_backdrop_attr.
Qed.

(** After [show], [hide] finds a backdrop. *)
Lemma show_backdropAvailable (this : ModalRef) (w : World) :
  backdropAvailable this w -> backdropAvailable this (outcome (show this w)).
Proof.
  intros Hav _. destruct (_isHidden (deref w this)) eqn:E.
  - unfold document_querySelector_attr.
    apply (find_is_Some _ _ (nextElem w)).
    + rewrite show_tree, E. apply elem_of_app. right. left.
    + unfold hasAttribute, getAttribute. rewrite show_new_backdrop by exact E.
      rewrite lookup_singleton_eq. apply bool_decide_eq_true_2. eauto.
  - rewrite (document_querySelector_attr_ext w).
    + apply Hav, E.
    + rewrite show_tree, E. reflexivity.
    + intros e. apply show_visible_same_backdrops, E.
Qed.

(** ** Listener pairing (C2) *)

(** C2, as the code has it.  With backdrop "dynamic" and closable true,
    [show] registers a "mouseup" listener on the target and a "keydown"
    listener on the body; the matching [hide] removes the "keydown"
    listener, but asks for a "click" listener to be removed from the
    target, so the "mouseup" listener stays registered after [hide]. *)
Theorem mouseup_listener_outlives_hide (this : ModalRef) (w : World) :
  allocated this w ->
  backdrop (_options (deref w this)) = "dynamic" ->
  closable (_options (deref w this)) = true ->
  backdropAvailable this w ->
  let targetEl := _targetEl (deref w this) in
  let w1 := outcome (show this w) in
  let w2 := outcome (hide this w1) in
  let onMouseup := mkListener "mouseup" (ClickOutsideClosure this (nextSerial w)) true in
  let onKeydown := mkListener "keydown" (KeydownClosure this (S (nextSerial w))) true in
  (show this w = Normal tt w1) /\ (hide this w1 = Normal tt w2) /\
  (onMouseup ∈ listeners (element w1 targetEl)) /\
  (onKeydown ∈ listeners (element w1 (body w))) /\
  (onKeydown ∉ listeners (element w2 (body w))) /\
  (onMouseup ∈ listeners (element w2 targetEl)).
Proof.
  intros Hal Hdyn Hc Hav targetEl w1 w2 onMouseup onKeydown.
  assert (Hks : keydownSerial this w = S (nextSerial w)).
  { unfold keydownSerial. destruct (decide _); [reflexivity | contradiction]. }
  assert (Hav1 : backdropAvailable this w1) by (apply show_backdropAvailable, Hav).
  assert (Hm1 : onMouseup ∈ listeners (element w1 targetEl))
    by (apply show_registers_mouseup; assumption).
  destruct (show_registers_keydown this w Hc) as [Hk1 Hfield].
  rewrite Hks in Hk1, Hfield.
  split; [apply show_returns|].
  split; [apply hide_effects, Hav1|].
  split; [exact Hm1|]. split; [exact Hk1|]. split.
  - subst w2. replace (body w) with (body w1).
    + apply hide_unregisters_keydown; try exact Hav1.
      * subst w1. rewrite (show_deref_frame _options) by reflexivity. exact Hc.
      * apply Hfield, Hal.
    + subst w1. rewrite show_steps. unfold outcome.
      rewrite (showSuffix_frame body) by reflexivity.
      apply (showMiddle_frame body); reflexivity.
  - apply hide_keeps_listener; [discriminate | discriminate | exact Hm1].
Qed.

(** ** [show] followed by [hide] (C3) *)

Lemma showSuffix_classList_ne (this : ModalRef) (w : World) (e : ElemId) :
  e ≠ body w -> classList (element (showSuffix this w) e) = classList (element w e).
Proof.
  intros Hne. unfold showSuffix. cbv zeta. rewrite element_emit.
  set (w1 := classList_add _ _ _).
  assert (H1 : classList (element w1 e) = classList (element w e)).
  { subst w1. unfold classList_add. rewrite element_updElement_ne; [reflexivity|].
    rewrite body_updModal. congruence. }
  rewrite <- H1. clearbody w1.
  destruct (closable _); [|reflexivity].
  apply (_setup_element_frame classList). reflexivity.
Qed.

Lemma hideSuffix_classList_ne (this : ModalRef) (w : World) (e : ElemId) :
  e ≠ body w -> classList (element (hideSuffix this w) e) = classList (element w e).
Proof.
  intros Hne. unfold hideSuffix. cbv zeta. rewrite element_emit.
  set (w1 := classList_remove _ _ _).
  assert (H1 : classList (element w1 e) = classList (element w e)).
  { subst w1. unfold classList_remove. rewrite element_updElement_ne; [reflexivity|].
    rewrite body_updModal. congruence. }
  rewrite <- H1. clearbody w1.
  destruct (closable _); [|reflexivity].
  apply (_remove_element_frame classList). reflexivity.
Qed.

(** The target after [show]. *)
Lemma show_target (this : ModalRef) (w : World) :
  let targetEl := _targetEl (deref w this) in
  targetEl ≠ nextElem w -> targetEl ≠ body w ->
  classList (element (outcome (show this w)) targetEl)
    = token_remove "hidden" (token_add "flex" (classList (element w targetEl))) /\
  attributes (element (outcome (show this w)) targetEl)
    = delete "aria-hidden"
        (<["role" := "dialog"]> (<["aria-modal" := "true"]> (attributes (element w targetEl)))).
Proof.
  intros targetEl Hn Hb.
  destruct (showPrefix_target this w) as (Hcl & Hat & _). fold targetEl in Hcl, Hat.
  rewrite show_steps. unfold outcome. split.
  - rewrite showSuffix_classList_ne.
    + rewrite _createBackdrop_element_ne; [exact Hcl|].
      rewrite (showPrefix_frame nextElem) by reflexivity. exact Hn.
    + rewrite (_createBackdrop_frame body) by reflexivity.
      rewrite (showPrefix_frame body) by reflexivity. exact Hb.
  - rewrite (showSuffix_element_frame attributes) by reflexivity.
    rewrite _createBackdrop_element_ne; [exact Hat|].
    rewrite (showPrefix_frame nextElem) by reflexivity. exact Hn.
Qed.

(** The target after a [hide] that returns. *)
Lemma hide_target (this : ModalRef) (w : World) :
  let targetEl := _targetEl (deref w this) in
  backdropAvailable this w -> targetEl ≠ body w ->
  classList (element (outcome (hide this w)) targetEl)
    = token_remove "flex" (token_add "hidden" (classList (element w targetEl))) /\
  attributes (element (outcome (hide this w)) targetEl)
    = delete "role"
        (delete "aria-modal" (<["aria-hidden" := "true"]> (attributes (element w targetEl)))).
Proof.
  intros targetEl Hav Hb.
  destruct (hidePrefix_target this w) as (Hcl & Hat & _). fold targetEl in Hcl, Hat.
  assert (Hbody : body (hidePrefix this w) = body w)
    by (apply (hidePrefix_frame body); reflexivity).
  destruct (_isHidden (deref w this)) eqn:E.
  - rewrite hide_hidden by exact E. unfold outcome. split.
    + rewrite hideSuffix_classList_ne by congruence. exact Hcl.
    + rewrite (hideSuffix_element_frame attributes) by reflexivity. exact Hat.
  - destruct (Hav E) as [el Hq].
    rewrite (hide_visible this w el) by assumption. unfold outcome. split.
    + rewrite hideSuffix_classList_ne
        by (rewrite (remove_frame body) by reflexivity; congruence).
      rewrite (remove_element_frame classList) by reflexivity. exact Hcl.
    + rewrite (hideSuffix_element_frame attributes) by reflexivity.
      rewrite (remove_element_frame attributes) by reflexivity. exact Hat.
Qed.

Lemma token_remove_app (c : string) (l1 l2 : list string) :
  token_remove c (l1 ++ l2) = token_remove c l1 ++ token_remove c l2.
Proof. unfold token_remove. apply filter_app. Qed.

Lemma token_remove_absent (c : string) (l : list string) :
  c ∉ l -> token_remove c l = l.
Proof.
  intros H. unfold token_remove. induction l as [|x l IH]; [reflexivity|].
  rewrite filter_cons. rewrite not_elem_of_cons in H. destruct H as [Hx Hl].
  destruct (decide (x ≠ c)); [rewrite IH by exact Hl; reflexivity|].
  exfalso. apply n. congruence.
Qed.

Lemma token_remove_comm (c d : string) (l : list string) :
  token_remove c (token_remove d l) = token_remove d (token_remove c l).
Proof.
  unfold token_remove. induction l as [|x l IH]; [reflexivity|].
  rewrite !filter_cons.
  destruct (decide (x ≠ d)), (decide (x ≠ c)); rewrite ?filter_cons;
    repeat case_decide; try contradiction; rewrite IH; reflexivity.
Qed.

(** The class list of a target that was marked hidden, after a cycle. *)
Lemma cycle_classList (l : list string) :
  "hidden" ∈ l -> "flex" ∉ l ->
  token_remove "flex" (token_add "hidden" (token_remove "hidden" (token_add "flex" l)))
  = token_remove "hidden" l ++ ["hidden"].
Proof.
  intros Hh Hf. unfold token_add at 2.
  destruct (decide ("flex" ∈ l)); [contradiction|].
  rewrite token_remove_app.
  change (token_remove "hidden" ["flex"]) with ["flex"].
  unfold token_add.
  destruct (decide ("hidden" ∈ token_remove "hidden" l ++ ["flex"])) as [Hin|_].
  { exfalso. apply elem_of_app in Hin as [Hin|Hin].
    - apply token_remove_elem in Hin. tauto.
    - apply list_elem_of_singleton in Hin. discriminate. }
  rewrite !token_remove_app.
  change (token_remove "flex" ["flex"]) with (@nil string).
  change (token_remove "flex" ["hidden"]) with ["hidden"].
  rewrite app_nil_r.
  rewrite token_remove_comm, (token_remove_absent "flex" l) by exact Hf.
  reflexivity.
Qed.

Lemma cycle_classList_same_classes (l : list string) (c : string) :
  "hidden" ∈ l -> c ∈ token_remove "hidden" l ++ ["hidden"] <-> c ∈ l.
Proof.
  intros Hh. rewrite elem_of_app, token_remove_elem, list_elem_of_singleton.
  destruct (decide (c = "hidden")) as [->|]; tauto.
Qed.

Lemma cycle_classList_permutation (l : list string) :
  NoDup l -> "hidden" ∈ l -> token_remove "hidden" l ++ ["hidden"] ≡ₚ l.
Proof.
  intros Hnd Hh. apply NoDup_Permutation; [|exact Hnd|].
  - apply NoDup_app. split; [apply NoDup_filter, Hnd|].
    split; [|apply NoDup_singleton].
    intros x Hx Hx'. apply list_elem_of_singleton in Hx' as ->.
    apply token_remove_elem in Hx. tauto.
  - intros c. apply cycle_classList_same_classes, Hh.
Qed.

Lemma cycle_attributes (a : gmap string string) :
  a !! "aria-hidden" = Some "true" -> a !! "aria-modal" = None -> a !! "role" = None ->
  delete "role" (delete "aria-modal" (<["aria-hidden" := "true"]>
    (delete "aria-hidden" (<["role" := "dialog"]> (<["aria-modal" := "true"]> a))))) = a.
Proof.
  intros Hh Hm Hr. apply map_eq. intros k.
  rewrite !lookup_delete, !lookup_insert, !lookup_delete, !lookup_insert.
  repeat case_decide; subst; congruence.
Qed.

Lemma hide_backdrop_attr (this : ModalRef) (w : World) (e : ElemId) :
  hasAttribute (outcome (hide this w)) e "modal-backdrop" = hasAttribute w e "modal-backdrop".
Proof.
  unfold hasAttribute at 1. unfold getAttribute.
  destruct (_isHidden (deref w this)) eqn:E.
  - rewrite hide_hidden by exact E. unfold outcome.
    rewrite (hideSuffix_element_frame attributes) by reflexivity.
    apply hidePrefix_backdrop_attr.
  - destruct (document_querySelector_attr w "modal-backdrop") as [el|] eqn:Hq.
    + rewrite (hide_visible this w el) by assumption. unfold outcome.
      rewrite (hideSuffix_element_frame attributes) by reflexivity.
      rewrite (remove_element_frame attributes) by reflexivity.
      apply hidePrefix_backdrop_attr.
    + rewrite hide_throws by assumption. apply hidePrefix_backdrop_attr.
Qed.

Lemma find_Some_elem {A : Type} (f : A -> bool) (l : list A) (x : A) :
  List.find f l = Some x -> x ∈ l /\ f x = true.
Proof.
  induction l as [|y l IH]; simpl; [discriminate|].
  destruct (f y) eqn:E.
  - intros [= <-]. split; [left | exact E].
  - intros H. destruct (IH H). split; [right|]; assumption.
Qed.

(** Every element that is in the document after [hide] was there before,
    and the backdrop that [hide] looked up is not among them. *)
Lemma hide_tree (this : ModalRef) (w : World) (e : ElemId) :
  e ∈ tree (outcome (hide this w)) ->
  e ∈ tree w /\
  (_isHidden (deref w this) = false ->
   document_querySelector_attr w "modal-backdrop" ≠ Some e).
Proof.
  assert (Hp : tree (hidePrefix this w) = tree w)
    by (apply (hidePrefix_frame tree); reflexivity).
  destruct (_isHidden (deref w this)) eqn:E.
  - rewrite hide_hidden by exact E. unfold outcome.
    rewrite (hideSuffix_frame tree) by reflexivity. rewrite Hp.
    intros H. split; [exact H | discriminate].
  - destruct (document_querySelector_attr w "modal-backdrop") as [el|] eqn:Hq.
    + rewrite (hide_visible this w el) by assumption. unfold outcome.
      rewrite (hideSuffix_frame tree) by reflexivity.
      unfold remove. rewrite tree_updElement, tree_with_tree, Hp.
      intros H. apply list_elem_of_filter in H as [Hkeep H].
      split; [exact H|]. intros _ [= ->]. apply Hkeep. left.
    + rewrite hide_throws by assumption. unfold outcome. rewrite Hp.
      intros H. split; [exact H | discriminate].
Qed.

(** C3, amended.  Take a hidden modal whose backdrop classes are valid
    tokens and whose target, an element other than the body, is marked up
    as hidden: its class list has "hidden" and not "flex", its
    [aria-hidden] attribute is "true" and it has neither [aria-modal] nor
    [role]; and a document without backdrop elements.  Then [show]
    followed by [hide] returns, leaves the target with the same classes
    ("hidden" now last in the list) and the same attributes, and leaves
    the document without backdrop elements. *)
Theorem show_then_hide_restores_marked_target (this : ModalRef) (w : World) :
  let targetEl := _targetEl (deref w this) in
  let before := element w targetEl in
  allocated this w ->
  isHidden this w = true ->
  acceptsBackdropClasses this w = true ->
  targetEl < nextElem w ->
  targetEl ≠ body w ->
  "hidden" ∈ classList before ->
  "flex" ∉ classList before ->
  attributes before !! "aria-hidden" = Some "true" ->
  attributes before !! "aria-modal" = None ->
  attributes before !! "role" = None ->
  noBackdrop w ->
  let w1 := outcome (show this w) in
  let w2 := outcome (hide this w1) in
  (show this w = Normal tt w1) /\ (hide this w1 = Normal tt w2) /\
  (classList (element w2 targetEl) = token_remove "hidden" (classList before) ++ ["hidden"]) /\
  (forall c, c ∈ classList (element w2 targetEl) <-> c ∈ classList before) /\
  (NoDup (classList before) -> classList (element w2 targetEl) ≡ₚ classList before) /\
  (attributes (element w2 targetEl) = attributes before) /\
  noBackdrop w2.
Proof.
  intros targetEl before Hal Hhid _ Hlt Hb Hh Hf Ha1 Ha2 Ha3 Hnb. cbv zeta.
  unfold isHidden in Hhid.
  assert (Hav : backdropAvailable this w) by (intros E; congruence).
  pose proof (show_backdropAvailable this w Hav) as Hav1.
  pose proof (show_deref_frame _targetEl this this w
                (fun _ _ => eq_refl) (fun _ _ => eq_refl)
                (fun _ _ => eq_refl) (fun _ _ => eq_refl)) as Ht1.
  assert (Hb1 : body (outcome (show this w)) = body w).
  { rewrite show_steps. unfold outcome.
    rewrite (showSuffix_frame body) by reflexivity.
    apply (showMiddle_frame body); reflexivity. }
  assert (Hn : _targetEl (deref w this) ≠ nextElem w) by (subst targetEl; lia).
  pose proof (show_target this w Hn Hb) as [Hcl1 Hat1].
  pose proof (show_isHidden this w Hal) as Hvis1.
  pose proof (show_backdrop_attr this w) as Hsame1.
  pose proof (show_tree this w) as Htree1. rewrite Hhid in Htree1.
  pose proof (show_returns this w) as Hret1.
  revert Hret1 Hav1 Ht1 Hb1 Hcl1 Hat1 Hvis1 Hsame1 Htree1.
  generalize (outcome (show this w)).
  intros w1 Hret1 Hav1 Ht1 Hb1 Hcl1 Hat1 Hvis1 Hsame1 Htree1.
  assert (Hb1' : _targetEl (deref w1 this) ≠ body w1) by (rewrite Ht1, Hb1; exact Hb).
  pose proof (hide_target this w1 Hav1 Hb1') as [Hcl2 Hat2].
  rewrite Ht1 in Hcl2, Hat2.
  pose proof (proj1 (hide_effects this w1 Hav1)) as Hret2.
  pose proof (hide_backdrop_attr this w1) as Hsame2.
  pose proof (fun e => hide_tree this w1 e) as Htree2.
  revert Hret2 Hcl2 Hat2 Hsame2 Htree2.
  generalize (outcome (hide this w1)). intros w2 Hret2 Hcl2 Hat2 Hsame2 Htree2.
  assert (Hcl : classList (element w2 targetEl)
                = token_remove "hidden" (classList before) ++ ["hidden"]).
  { subst targetEl before. rewrite Hcl2, Hcl1. apply cycle_classList; assumption. }
  split; [exact Hret1|].
  split; [exact Hret2|].
  split; [exact Hcl|].
  split; [intros c; rewrite Hcl; apply cycle_classList_same_classes, Hh|].
  split; [intros Hnd; rewrite Hcl; apply cycle_classList_permutation; assumption|].
  split; [subst targetEl before; rewrite Hat2, Hat1; apply cycle_attributes; assumption|].
  (* the only backdrop of [w1] is the new element, which [hide] removes *)
  assert (Hattr1 : forall e, e ∈ tree w1 ->
             hasAttribute w1 e "modal-backdrop" = true -> e = nextElem w).
  { intros e He Hattr. destruct (decide (e = nextElem w)) as [|Hne]; [assumption|].
    exfalso. rewrite Hsame1 in Hattr by exact Hne.
    rewrite Htree1 in He.
    apply elem_of_app in He as [He|He].
    - rewrite (Hnb e He) in Hattr. discriminate.
    - apply list_elem_of_singleton in He. contradiction. }
  intros e He. rewrite Hsame2.
  destruct (hasAttribute w1 e "modal-backdrop") eqn:Hattr; [|reflexivity].
  exfalso. apply Htree2 in He as [He Hfound].
  destruct (Hav1 Hvis1) as [el Hq].
  destruct (find_Some_elem _ _ _ Hq) as [Hel Hel'].
  apply (Hfound Hvis1). rewrite Hq. f_equal.
  rewrite (Hattr1 e He Hattr). apply Hattr1; assumption.
Qed.

(** ** Resizing (C6) *)

Lemma modals_addEventListener (t : EventTarget) (ty : string) (cb : Callback)
    (cap : bool) (w : World) :
  modals (addEventListener t ty cb cap w) = modals w.
Proof. destruct t; reflexivity. Qed.

Lemma modals_removeEventListener (t : EventTarget) (ty : string) (cb : Callback)
    (cap : bool) (w : World) :
  modals (removeEventListener t ty cb cap w) = modals w.
Proof. destruct t; reflexivity. Qed.

Ltac allocated_side Hal :=
  unfold allocated;
  rewrite ?modals_addEventListener, ?modals_removeEventListener,
          ?length_modals_updModal, ?modals_emit;
  exact Hal.

Lemma __onResizeMouseDown_fields (this : ModalRef) (down : Event) (w : World)
    (resizeTargetEl : ElemId) :
  allocated this w ->
  _resizeTargetEl (deref w this) = Some resizeTargetEl ->
  let w1 := outcome (__onResizeMouseDown this down w) in
  __onResizeMouseDown this down w = Normal tt w1 /\
  allocated this w1 /\
  _resizeTargetEl (deref w1 this) = Some resizeTargetEl /\
  _modalWidthBeforeResize (deref w1 this) = Int (clientWidth (element w resizeTargetEl)) /\
  _modalHeightBeforeResize (deref w1 this) = Int (clientHeight (element w resizeTargetEl)) /\
  _resizeMouseDownX (deref w1 this) = Int (pageX down) /\
  _resizeMouseDownY (deref w1 this) = Int (pageY down).
Proof.
  intros Hal Hr w1. subst w1. unfold __onResizeMouseDown. cbv zeta.
  rewrite !deref_emit, Hr. unfold required, outcome.
  split; [reflexivity|].
  split; [allocated_side Hal|].
  rewrite !deref_addEventListener.
  rewrite !deref_updModal_eq by allocated_side Hal.
  simpl. rewrite !deref_emit. repeat split; try reflexivity. exact Hr.
Qed.

Lemma __onResizeMouseMove_style (this : ModalRef) (move : Event) (w : World)
    (resizeTargetEl : ElemId) (width height x0 y0 : Z) :
  _resizeTargetEl (deref w this) = Some resizeTargetEl ->
  _modalWidthBeforeResize (deref w this) = Int width ->
  _modalHeightBeforeResize (deref w this) = Int height ->
  _resizeMouseDownX (deref w this) = Int x0 ->
  _resizeMouseDownY (deref w this) = Int y0 ->
  let w' := outcome (__onResizeMouseMove this move w) in
  __onResizeMouseMove this move w = Normal tt w' /\
  modals w' = modals w /\
  style (element w' resizeTargetEl) !! "width"
    = Some (pretty (Z.max 200 (width + (pageX move - x0))) +:+ "px") /\
  style (element w' resizeTargetEl) !! "height"
    = Some (pretty (Z.max 100 (height + (pageY move - y0))) +:+ "px") /\
  style (element w' resizeTargetEl) !! "maxWidth" = Some "100%".
Proof.
  intros Hr Hw Hh Hx Hy w'. subst w'. unfold __onResizeMouseMove. cbv zeta.
  rewrite !deref_emit, Hr, Hw, Hh, Hx, Hy. unfold required, outcome.
  split; [reflexivity|]. split; [reflexivity|].
  unfold setStyle. rewrite !element_updElement_eq. simpl.
  rewrite !lookup_insert. repeat split; reflexivity.
Qed.

(** Moves change neither the fields of the modal nor the recorded size. *)
Lemma resize_moves_modals (this : ModalRef) (evs : list Event) (w : World) :
  modals (handleEach (__onResizeMouseMove this) evs w) = modals w.
Proof.
  unfold handleEach. revert w. induction evs as [|e evs IH]; intros w; [reflexivity|].
  simpl. rewrite IH. unfold __onResizeMouseMove, required. cbv zeta.
  destruct (_resizeTargetEl _); reflexivity.
Qed.

Lemma deref_same_modals (w w' : World) (m : ModalRef) :
  modals w' = modals w -> deref w' m = deref w m.
Proof. intros H. unfold deref. rewrite H. reflexivity. Qed.

(** C6. In a resize gesture that starts with the resize target rendered
    at (width, height), a move of the pointer to (dx, dy) from where it was
    pressed sets the inline width of the target to max(200, width + dx)
    pixels and its inline height to max(100, height + dy) pixels, whatever
    moves came before in the gesture. *)
Theorem resize_move_sets_clamped_size (this : ModalRef) (w : World)
    (resizeTargetEl : ElemId) (down move : Event) (earlier : list Event) (dx dy : Z) :
  allocated this w ->
  _resizeTargetEl (deref w this) = Some resizeTargetEl ->
  pageX move = (pageX down + dx)%Z ->
  pageY move = (pageY down + dy)%Z ->
  let width := clientWidth (element w resizeTargetEl) in
  let height := clientHeight (element w resizeTargetEl) in
  let w1 := outcome (__onResizeMouseDown this down w) in
  let w2 := handleEach (__onResizeMouseMove this) earlier w1 in
  let w3 := outcome (__onResizeMouseMove this move w2) in
  (__onResizeMouseDown this down w = Normal tt w1) /\
  (__onResizeMouseMove this move w2 = Normal tt w3) /\
  (style (element w3 resizeTargetEl) !! "width"
     = Some (pretty (Z.max 200 (width + dx)) +:+ "px")) /\
  (style (element w3 resizeTargetEl) !! "height"
     = Some (pretty (Z.max 100 (height + dy)) +:+ "px")).
Proof.
  intros Hal Hr Hx Hy width height w1 w2 w3.
  destruct (__onResizeMouseDown_fields this down w resizeTargetEl Hal Hr)
    as (Hret & _ & Hr1 & Hw1 & Hh1 & Hx1 & Hy1).
  fold w1 in Hret, Hr1, Hw1, Hh1, Hx1, Hy1.
  assert (Hd : deref w2 this = deref w1 this).
  { apply deref_same_modals. apply resize_moves_modals. }
  destruct (__onResizeMouseMove_style this move w2 resizeTargetEl
              width height (pageX down) (pageY down))
    as (Hret3 & _ & Hsw & Hsh & _); try (rewrite Hd; assumption).
  fold w3 in Hret3, Hsw, Hsh.
  split; [exact Hret|]. split; [exact Hret3|].
  split.
  - rewrite Hsw. do 3 f_equal. lia.
  - rewrite Hsh. do 3 f_equal. lia.
Qed.

(** ** Dragging (C7) *)

Lemma __onDragMouseUp_fields (this : ModalRef) (up : Event) (w : World) :
  allocated this w ->
  let w1 := outcome (__onDragMouseUp this up w) in
  __onDragMouseUp this up w = Normal tt w1 /\
  allocated this w1 /\
  _dragTargetEl (deref w1 this) = _dragTargetEl (deref w this) /\
  _dragXBeforeDragging (deref w1 this) = _currentDragX (deref w this) /\
  _dragYBeforeDragging (deref w1 this) = _currentDragY (deref w this) /\
  (forall e, element w1 e = element w e) /\ tree w1 = tree w.
Proof.
  intros Hal w1. subst w1. unfold __onDragMouseUp. cbv zeta. unfold outcome.
  split; [reflexivity|].
  split; [allocated_side Hal|].
  rewrite !deref_removeEventListener.
  rewrite !deref_updModal_eq by allocated_side Hal.
  simpl. rewrite !deref_emit. repeat split; reflexivity.
Qed.

Lemma __onDragMouseDown_fields (this : ModalRef) (down : Event) (w : World) :
  allocated this w ->
  closest_a_button w (ev_target down) = None ->
  let w1 := outcome (__onDragMouseDown this down w) in
  __onDragMouseDown this down w = Normal tt w1 /\
  allocated this w1 /\
  _dragTargetEl (deref w1 this) = _dragTargetEl (deref w this) /\
  _dragXBeforeDragging (deref w1 this) = _dragXBeforeDragging (deref w this) /\
  _dragYBeforeDragging (deref w1 this) = _dragYBeforeDragging (deref w this) /\
  _dragMouseDownX (deref w1 this) = Int (pageX down) /\
  _dragMouseDownY (deref w1 this) = Int (pageY down) /\
  mkListener "mousemove" (OnDragMouseMove this) true ∈ documentListeners w1 /\
  mkListener "mouseup" (OnDragMouseUp this) true ∈ documentListeners w1.
Proof.
  intros Hal Hcl w1. subst w1. unfold __onDragMouseDown. cbv zeta.
  rewrite Hcl. rewrite bool_decide_eq_false_2 by (intros [x Hx]; discriminate).
  unfold outcome.
  split; [reflexivity|].
  split; [allocated_side Hal|].
  rewrite !deref_addEventListener.
  rewrite !deref_updModal_eq by allocated_side Hal.
  simpl. rewrite !deref_emit.
  repeat split; try reflexivity.
  - apply listener_add_elem. right. apply listener_add_elem. left. reflexivity.
  - apply listener_add_elem. left. reflexivity.
Qed.

Lemma __onDragMouseMove_fields (this : ModalRef) (move : Event) (w : World)
    (dragTargetEl : ElemId) (bx by' x0 y0 : Z) :
  allocated this w ->
  _dragTargetEl (deref w this) = Some dragTargetEl ->
  _dragXBeforeDragging (deref w this) = Int bx ->
  _dragYBeforeDragging (deref w this) = Int by' ->
  _dragMouseDownX (deref w this) = Int x0 ->
  _dragMouseDownY (deref w this) = Int y0 ->
  let w' := outcome (__onDragMouseMove this move w) in
  let newX := (bx + (pageX move - x0))%Z in
  let newY := (by' + (pageY move - y0))%Z in
  __onDragMouseMove this move w = Normal tt w' /\
  allocated this w' /\
  _dragTargetEl (deref w' this) = Some dragTargetEl /\
  _dragXBeforeDragging (deref w' this) = Int bx /\
  _dragYBeforeDragging (deref w' this) = Int by' /\
  _dragMouseDownX (deref w' this) = Int x0 /\
  _dragMouseDownY (deref w' this) = Int y0 /\
  _currentDragX (deref w' this) = Int newX /\
  _currentDragY (deref w' this) = Int newY /\
  style (element w' dragTargetEl) !! "transform" = Some (translate (Int newX) (Int newY)).
Proof.
  intros Hal Ht Hbx Hby Hx Hy w' newX newY. subst w'.
  unfold __onDragMouseMove. cbv zeta.
  rewrite !deref_emit, Hbx, Hby, Hx, Hy.
  rewrite !(deref_updModal_frame _dragTargetEl) by reflexivity.
  rewrite !deref_emit, Ht. unfold required, outcome.
  split; [reflexivity|].
  split; [unfold allocated, setStyle; rewrite modals_updElement; allocated_side Hal|].
  unfold setStyle. rewrite deref_updElement, element_updElement_eq.
  rewrite !(deref_updModal_frame _dragTargetEl),
          !(deref_updModal_frame _dragXBeforeDragging),
          !(deref_updModal_frame _dragYBeforeDragging),
          !(deref_updModal_frame _dragMouseDownX),
          !(deref_updModal_frame _dragMouseDownY) by reflexivity.
  rewrite (deref_updModal_frame _currentDragX) by reflexivity.
  rewrite !deref_updModal_eq by allocated_side Hal.
  simpl. rewrite !deref_emit, lookup_insert_eq.
  repeat split; assumption || reflexivity.
Qed.

(** Earlier moves of a gesture leave the baseline, the press position and
    the drag target as they are. *)
Lemma drag_moves_fields (this : ModalRef) (evs : list Event) (w : World)
    (dragTargetEl : ElemId) (bx by' x0 y0 : Z) :
  allocated this w ->
  _dragTargetEl (deref w this) = Some dragTargetEl ->
  _dragXBeforeDragging (deref w this) = Int bx ->
  _dragYBeforeDragging (deref w this) = Int by' ->
  _dragMouseDownX (deref w this) = Int x0 ->
  _dragMouseDownY (deref w this) = Int y0 ->
  let w' := handleEach (__onDragMouseMove this) evs w in
  allocated this w' /\
  _dragTargetEl (deref w' this) = Some dragTargetEl /\
  _dragXBeforeDragging (deref w' this) = Int bx /\
  _dragYBeforeDragging (deref w' this) = Int by' /\
  _dragMouseDownX (deref w' this) = Int x0 /\
  _dragMouseDownY (deref w' this) = Int y0.
Proof.
  unfold handleEach. revert w.
  induction evs as [|e evs IH]; intros w Hal Ht Hbx Hby Hx Hy; simpl.
  - repeat split; assumption.
  - destruct (__onDragMouseMove_fields this e w dragTargetEl bx by' x0 y0)
      as (_ & Hal' & Ht' & Hbx' & Hby' & Hx' & Hy' & _); try assumption.
    apply IH; assumption.
Qed.

Lemma closest_a_button_ext (w w' : World) (e : ElemId) :
  (forall x, element w' x = element w x) -> tree w' = tree w ->
  closest_a_button w' e = closest_a_button w e.
Proof.
  intros Hel Ht. unfold closest_a_button, ancestors. rewrite Ht.
  assert (Ha : forall fuel x, ancestors_upto fuel w' x = ancestors_upto fuel w x).
  { induction fuel as [|k IH]; intros x; simpl; [reflexivity|].
    rewrite Hel. destruct (parentNode (element w x)); [rewrite IH|]; reflexivity. }
  rewrite Ha. generalize (e :: ancestors_upto (S (length (tree w))) w e).
  intros l. induction l as [|x l IH]; simpl; [reflexivity|].
  rewrite Hel, IH. reflexivity.
Qed.

(** C7. When a drag gesture ends with the drag target translated to
    (x1, y1), releasing the pointer makes that position the baseline, and
    in the next gesture a move of the pointer to (dx2, dy2) from where it
    was pressed translates the target to (x1 + dx2, y1 + dy2): its inline
    transform is the text "translate(", x1 + dx2, "px, ", y1 + dy2,
    "px)". *)
Theorem drag_translation_accumulates (this : ModalRef) (w : World)
    (dragTargetEl : ElemId) (x1 y1 : Z) (up1 down2 move2 : Event)
    (earlier : list Event) (dx2 dy2 : Z) :
  allocated this w ->
  _dragTargetEl (deref w this) = Some dragTargetEl ->
  _currentDragX (deref w this) = Int x1 ->
  _currentDragY (deref w this) = Int y1 ->
  closest_a_button w (ev_target down2) = None ->
  pageX move2 = (pageX down2 + dx2)%Z ->
  pageY move2 = (pageY down2 + dy2)%Z ->
  let wa := outcome (__onDragMouseUp this up1 w) in
  let wb := outcome (__onDragMouseDown this down2 wa) in
  let wc := handleEach (__onDragMouseMove this) earlier wb in
  let wd := outcome (__onDragMouseMove this move2 wc) in
  (__onDragMouseUp this up1 w = Normal tt wa) /\
  (_dragXBeforeDragging (deref wa this) = Int x1) /\
  (_dragYBeforeDragging (deref wa this) = Int y1) /\
  (__onDragMouseDown this down2 wa = Normal tt wb) /\
  (__onDragMouseMove this move2 wc = Normal tt wd) /\
  (style (element wd dragTargetEl) !! "transform"
     = Some ("translate(" +:+ pretty (x1 + dx2)%Z +:+ "px, "
               +:+ pretty (y1 + dy2)%Z +:+ "px)")) /\
  (_currentDragX (deref wd this) = Int (x1 + dx2)) /\
  (_currentDragY (deref wd this) = Int (y1 + dy2)).
Proof.
  intros Hal Ht Hx1 Hy1 Hcl Hx Hy wa wb wc wd.
  destruct (__onDragMouseUp_fields this up1 w Hal)
    as (Hra & Hala & Hta & Hbxa & Hbya & Hela & Htreea).
  fold wa in Hra, Hala, Hta, Hbxa, Hbya, Hela, Htreea.
  rewrite Hx1 in Hbxa. rewrite Hy1 in Hbya. rewrite Ht in Hta.
  assert (Hcla : closest_a_button wa (ev_target down2) = None).
  { rewrite (closest_a_button_ext w wa) by assumption. exact Hcl. }
  destruct (__onDragMouseDown_fields this down2 wa Hala Hcla)
    as (Hrb & Halb & Htb & Hbxb & Hbyb & Hdxb & Hdyb & _).
  fold wb in Hrb, Halb, Htb, Hbxb, Hbyb, Hdxb, Hdyb.
  rewrite Hta in Htb. rewrite Hbxa in Hbxb. rewrite Hbya in Hbyb.
  destruct (drag_moves_fields this earlier wb dragTargetEl x1 y1 (pageX down2) (pageY down2))
    as (Halc & Htc & Hbxc & Hbyc & Hdxc & Hdyc); try assumption.
  fold wc in Halc, Htc, Hbxc, Hbyc, Hdxc, Hdyc.
  destruct (__onDragMouseMove_fields this move2 wc dragTargetEl x1 y1
              (pageX down2) (pageY down2))
    as (Hrd & _ & _ & _ & _ & _ & _ & Hcx & Hcy & Hst); try assumption.
  fold wd in Hrd, Hcx, Hcy, Hst.
  replace (x1 + (pageX move2 - pageX down2))%Z with (x1 + dx2)%Z in * by lia.
  replace (y1 + (pageY move2 - pageY down2))%Z with (y1 + dy2)%Z in * by lia.
  repeat split; assumption.
Qed.

(** ** Dismissal by a pointer release (C8) *)

Lemma hide_backdropAvailable (this : ModalRef) (w : World) :
  allocated this w -> backdropAvailable this w ->
  backdropAvailable this (outcome (hide this w)).
Proof.
  intros Hal Hav E. rewrite hide_isHidden in E by assumption. discriminate.
Qed.

Lemma hide_allocated (this m : ModalRef) (w : World) :
  allocated m w -> allocated m (outcome (hide this w)).
Proof. unfold allocated. rewrite hide_length_modals. tauto. Qed.

Lemma show_allocated (this m : ModalRef) (w : World) :
  allocated m w -> allocated m (outcome (show this w)).
Proof. unfold allocated. rewrite show_length_modals. tauto. Qed.

Lemma hide_dismissible (this : ModalRef) (targetEl : ElemId) (backdropEl : option ElemId)
    (w : World) :
  dismissible this targetEl backdropEl w ->
  hide this w = Normal tt (outcome (hide this w)) /\
  dismissible this targetEl backdropEl (outcome (hide this w)) /\
  _isHidden (deref (outcome (hide this w)) this) = true.
Proof.
  intros [Hal Ht Hb Hav].
  split; [apply hide_effects, Hav|]. split.
  - split.
    + apply hide_allocated, Hal.
    + rewrite (hide_deref_frame _targetEl) by reflexivity. exact Ht.
    + rewrite (hide_deref_frame _backdropEl) by reflexivity. exact Hb.
    + apply hide_backdropAvailable; assumption.
  - apply hide_isHidden; assumption.
Qed.

Lemma _handleOutsideClick_dismisses (this : ModalRef) (targetEl : ElemId)
    (backdropEl : option ElemId) (target : ElemId) (w : World) :
  dismissible this targetEl backdropEl w ->
  target = targetEl \/ Some target = backdropEl ->
  let c := _handleOutsideClick this target w in
  c = Normal tt (outcome c) /\
  dismissible this targetEl backdropEl (outcome c) /\
  _isHidden (deref (outcome c) this) = true.
Proof.
  intros Hd Hc c. subst c. unfold _handleOutsideClick, isVisible.
  destruct (hide_dismissible this targetEl backdropEl w Hd) as (Hret & Hd' & Hh').
  destruct Hd as [Hal Ht Hb Hav]. rewrite Ht, Hb.
  destruct (decide (target = targetEl)) as [->|Hne].
  - rewrite bool_decide_eq_true_2 by reflexivity. simpl.
    split; [exact Hret|]. split; assumption.
  - rewrite (bool_decide_eq_false_2 _ Hne). simpl.
    destruct Hc as [Hc|Hc]; [contradiction|].
    rewrite (bool_decide_eq_true_2 _ Hc). simpl.
    destruct (_isHidden (deref w this)) eqn:E; simpl.
    + split; [reflexivity|]. split; [|exact E].
      split; assumption.
    + split; [exact Hret|]. split; assumption.
Qed.

Lemma _handleOutsideClick_ignores (this : ModalRef) (target : ElemId) (w : World) :
  target ≠ _targetEl (deref w this) ->
  Some target ≠ _backdropEl (deref w this) ->
  _handleOutsideClick this target w = Normal tt w.
Proof.
  intros Ht Hb. unfold _handleOutsideClick.
  rewrite (bool_decide_eq_false_2 _ Ht), (bool_decide_eq_false_2 _ Hb). reflexivity.
Qed.

(** A release on the target or on the backdrop: once a click-outside
    closure has run the modal is hidden, and it stays so. *)
Lemma callListeners_dismisses (this : ModalRef) (targetEl : ElemId)
    (backdropEl : option ElemId) (ev : Event) (n : nat) (ls : list Listener) (w : World) :
  let registered := mkListener "mouseup" (ClickOutsideClosure this n) true in
  ev_type ev = "mouseup" ->
  ev_target ev = targetEl \/ Some (ev_target ev) = backdropEl ->
  (forall l, l ∈ ls -> l_type l = "mouseup" ->
             exists k, l_callback l = ClickOutsideClosure this k) ->
  dismissible this targetEl backdropEl w ->
  _isHidden (deref w this) = true \/
    (registered ∈ ls /\ registered ∈ listeners (element w targetEl)) ->
  _isHidden (deref (callListeners (OnElement targetEl) ls ev w) this) = true.
Proof.
  intros registered Hty Hc. revert w.
  induction ls as [|l ls IH]; intros w Hown Hd Hcase; simpl.
  - destruct Hcase as [E|[Hin _]]; [exact E | inversion Hin].
  - assert (Hown' : forall l0, l0 ∈ ls -> l_type l0 = "mouseup" ->
               exists k, l_callback l0 = ClickOutsideClosure this k).
    { intros l0 Hl0. apply Hown. right. exact Hl0. }
    destruct (bool_decide (l_type l = ev_type ev) && bool_decide (l ∈ listeners (element w targetEl)))
      eqn:Hrun.
    + apply andb_true_iff in Hrun as [Hlty Hreg].
      apply bool_decide_eq_true in Hlty. rewrite Hty in Hlty.
      destruct (Hown l (list_elem_of_here _ _) Hlty) as [k Hk].
      rewrite Hk. simpl invoke.
      destruct (_handleOutsideClick_dismisses this targetEl backdropEl (ev_target ev) w Hd Hc)
        as (Hret & Hd' & Hh').
      rewrite Hret. apply IH; [exact Hown' | exact Hd' | left; exact Hh'].
    + apply IH; [exact Hown' | exact Hd |].
      destruct Hcase as [E|[Hin Hreg]]; [left; exact E|]. right.
      split; [|exact Hreg].
      apply elem_of_cons in Hin as [Heq|Hin]; [|exact Hin].
      exfalso. subst l. simpl in Hrun. rewrite Hty in Hrun.
      rewrite bool_decide_eq_true_2 in Hrun by reflexivity.
      rewrite (bool_decide_eq_true_2 _ Hreg) in Hrun. discriminate.
Qed.

(** A release anywhere else: no click-outside closure does anything. *)
Lemma callListeners_ignores (this : ModalRef) (targetEl : ElemId) (ev : Event)
    (ls : list Listener) (w : World) :
  ev_type ev = "mouseup" ->
  ev_target ev ≠ _targetEl (deref w this) ->
  Some (ev_target ev) ≠ _backdropEl (deref w this) ->
  (forall l, l ∈ ls -> l_type l = "mouseup" ->
             exists k, l_callback l = ClickOutsideClosure this k) ->
  callListeners (OnElement targetEl) ls ev w = w.
Proof.
  intros Hty Ht Hb. induction ls as [|l ls IH]; intros Hown; simpl; [reflexivity|].
  assert (Hown' : forall l0, l0 ∈ ls -> l_type l0 = "mouseup" ->
             exists k, l_callback l0 = ClickOutsideClosure this k).
  { intros l0 Hl0. apply Hown. right. exact Hl0. }
  destruct (bool_decide (l_type l = ev_type ev) && bool_decide (l ∈ listeners (element w targetEl)))
    eqn:Hrun; [|apply IH, Hown'].
  apply andb_true_iff in Hrun as [Hlty _].
  apply bool_decide_eq_true in Hlty. rewrite Hty in Hlty.
  destruct (Hown l (list_elem_of_here _ _) Hlty) as [k Hk].
  rewrite Hk. simpl invoke.
  rewrite _handleOutsideClick_ignores by assumption. apply IH, Hown'.
Qed.

(** The listeners of an existing element after [show]: the old ones and
    the two that [show] registers. *)
Lemma _setup_listeners_sub (this : ModalRef) (w : World) (e : ElemId) (x : Listener) :
  x ∈ listeners (element (_setupModalCloseEventListeners this w) e) ->
  x ∈ listeners (element w e) \/
  (exists n, x = mkListener "mouseup" (ClickOutsideClosure this n) true) \/
  (exists n, x = mkListener "keydown" (KeydownClosure this n) true).
Proof.
  unfold _setupModalCloseEventListeners.
  rewrite listeners_addEventListener. intros H.
  assert (H1 : x ∈ listeners (element
            (if decide (backdrop (_options (deref w this)) = "dynamic")
             then addEventListener (OnElement (_targetEl (deref
                      (updModal this (set_clickOutsideEventListener
                         (Some (ClickOutsideClosure this (nextSerial w))))
                         (with_nextSerial (S (nextSerial w)) w)) this)))
                    "mouseup" (ClickOutsideClosure this (nextSerial w)) true
                    (updModal this (set_clickOutsideEventListener
                         (Some (ClickOutsideClosure this (nextSerial w))))
                         (with_nextSerial (S (nextSerial w)) w))
             else w) e)
          \/ exists n, x = mkListener "keydown" (KeydownClosure this n) true).
  { destruct (decide (body _ = e)); [|left; exact H].
    apply listener_add_elem in H as [->|H]; [right; eauto | left; exact H]. }
  clear H. destruct H1 as [H1|H1]; [|tauto].
  destruct (decide (backdrop _ = "dynamic")); [|left; exact H1].
  rewrite listeners_addEventListener in H1.
  destruct (decide (_ = e)); [|left; exact H1].
  apply listener_add_elem in H1 as [->|H1]; [right; left; eauto | left; exact H1].
Qed.

Lemma show_listeners_sub (this : ModalRef) (w : World) (e : ElemId) (x : Listener) :
  e ≠ nextElem w ->
  x ∈ listeners (element (outcome (show this w)) e) ->
  x ∈ listeners (element w e) \/
  (exists n, x = mkListener "mouseup" (ClickOutsideClosure this n) true) \/
  (exists n, x = mkListener "keydown" (KeydownClosure this n) true).
Proof.
  intros Hne. rewrite show_steps. unfold outcome, showSuffix. cbv zeta.
  rewrite element_emit. fold (showMiddle this w).
  set (w1 := classList_add _ _ _).
  assert (H1 : listeners (element w1 e) = listeners (element w e)).
  { subst w1. unfold classList_add.
    rewrite (element_updElement_frame listeners) by reflexivity.
    rewrite element_updModal. unfold showMiddle.
    rewrite _createBackdrop_element_ne
      by (rewrite (showPrefix_frame nextElem) by reflexivity; exact Hne).
    apply (showPrefix_element_frame listeners); reflexivity. }
  clearbody w1. destruct (closable _).
  - intros H. apply _setup_listeners_sub in H. rewrite H1 in H. exact H.
  - rewrite H1. tauto.
Qed.

(** ** The properties on the sample page *)

Ltac by_computation :=
  unfold allocated; apply (bool_decide_unpack _); vm_compute; exact I.

Ltac each_element He :=
  vm_compute in He;
  repeat (apply elem_of_cons in He as [->|He]; [vm_compute; reflexivity|]);
  inversion He.

Lemma sampleReady_allocated : allocated 0 sampleReady.
Proof. by_computation. Defined.

Lemma sampleReady_available : backdropAvailable 0 sampleReady.
Proof. intros H. vm_compute in H. discriminate H. Defined.

Lemma sampleShown_available : backdropAvailable 0 sampleShown.
Proof. intros _. exists 8. vm_compute. reflexivity. Defined.

Lemma sampleReady_noBackdrop : noBackdrop sampleReady.
Proof. intros e He. each_element He. Defined.

(** On the sample page, a second [show] of the visible modal invokes
    [onShow] a second time and registers a second pair of listeners. *)
Example redundant_show_example :
  isVisible 0 sampleShown = true /\
  effects (outcome (show 0 sampleShown))
    = [Invoked HookShow NoopFn 0; Invoked HookShow NoopFn 0] /\
  listeners (element (outcome (show 0 sampleShown)) 3)
    = [mkListener "mouseup" (ClickOutsideClosure 0 1) true;
       mkListener "mouseup" (ClickOutsideClosure 0 3) true].
Proof. vm_compute. repeat split; reflexivity. Qed.

(** On the sample page, [show] then [hide] leaves the "mouseup" listener
    on the target and none on the body. *)
Example leaked_listener_example :
  let w2 := outcome (hide 0 sampleShown) in
  hide 0 sampleShown = Normal tt w2 /\
  listeners (element w2 3) = [mkListener "mouseup" (ClickOutsideClosure 0 1) true] /\
  listeners (element w2 1) = [].
Proof. vm_compute. repeat split; reflexivity. Qed.

Lemma redundant_calls_witness :
  isVisible 0 sampleShown = true /\
  isHidden 0 sampleReady = true /\
  invocations HookShow 0 (effects (outcome (show 0 sampleShown)))
    = S (invocations HookShow 0 (effects sampleShown)) /\
  invocations HookHide 0 (effects (outcome (hide 0 sampleReady)))
    = S (invocations HookHide 0 (effects sampleReady)).
Proof.
  assert (Hv : isVisible 0 sampleShown = true) by (vm_compute; reflexivity).
  assert (Hh : isHidden 0 sampleReady = true) by (vm_compute; reflexivity).
  split; [exact Hv|]. split; [exact Hh|]. split.
  - exact (proj2 (proj1 (redundant_calls_run_again 0 sampleShown) Hv)).
  - exact (proj2 (proj2 (redundant_calls_run_again 0 sampleReady) Hh)).
Defined.

Lemma mouseup_listener_witness :
  allocated 0 sampleReady /\
  backdrop (_options (deref sampleReady 0)) = "dynamic" /\
  closable (_options (deref sampleReady 0)) = true /\
  backdropAvailable 0 sampleReady /\
  mkListener "mouseup" (ClickOutsideClosure 0 (nextSerial sampleReady)) true
    ∈ listeners (element (outcome (hide 0 (outcome (show 0 sampleReady))))
                         (_targetEl (deref sampleReady 0))).
Proof.
  assert (Hd : backdrop (_options (deref sampleReady 0)) = "dynamic")
    by (vm_compute; reflexivity).
  assert (Hc : closable (_options (deref sampleReady 0)) = true)
    by (vm_compute; reflexivity).
  split; [exact sampleReady_allocated|]. split; [exact Hd|]. split; [exact Hc|].
  split; [exact sampleReady_available|].
  pose proof (mouseup_listener_outlives_hide 0 sampleReady sampleReady_allocated
                Hd Hc sampleReady_available) as H.
  cbv zeta in H. exact (proj2 (proj2 (proj2 (proj2 (proj2 H))))).
Defined.

(** The cycle that C3 is about, on the page whose markup gives the modal
    [role="dialog"]: the attribute is gone after the cycle. *)
Lemma show_then_hide_drops_role_counterexample :
  isHidden 0 sampleReadyWithRole = true /\
  ~ restoredByCycle 0 sampleReadyWithRole.
Proof.
  split; [vm_compute; reflexivity|].
  intros (_ & Hattrs & _).
  apply (f_equal (fun m : gmap string string => m !! "role")) in Hattrs.
  vm_compute in Hattrs. discriminate Hattrs.
Qed.

(** Two more cycles that the claim does not survive: on the sample page
    itself the class "hidden" moves to the end of the list, and a target
    that is not marked up as hidden comes out marked. *)
Example cycle_moves_hidden_example :
  let w2 := outcome (hide 0 (outcome (show 0 sampleReady))) in
  classList (element sampleReady 3) = ["hidden"; "fixed"; "justify-center"; "items-center"] /\
  classList (element w2 3) = ["fixed"; "justify-center"; "items-center"; "hidden"].
Proof. vm_compute. split; reflexivity. Qed.

Example cycle_marks_unmarked_target_example :
  let w2 := outcome (hide 0 (outcome (show 0 sampleReadyUnmarked))) in
  classList (element sampleReadyUnmarked 3) = ["flex"; "justify-center"; "items-center"] /\
  classList (element w2 3) = ["justify-center"; "items-center"; "hidden"] /\
  attributes (element sampleReadyUnmarked 3) !! "aria-hidden" = None /\
  attributes (element w2 3) !! "aria-hidden" = Some "true".
Proof. vm_compute. repeat split; reflexivity. Qed.

Lemma show_then_hide_witness :
  allocated 0 sampleReady /\
  isHidden 0 sampleReady = true /\
  acceptsBackdropClasses 0 sampleReady = true /\
  attributes (element (outcome (hide 0 (outcome (show 0 sampleReady))))
                      (_targetEl (deref sampleReady 0)))
    = attributes (element sampleReady (_targetEl (deref sampleReady 0))) /\
  noBackdrop (outcome (hide 0 (outcome (show 0 sampleReady)))).
Proof.
  assert (Hh : isHidden 0 sampleReady = true) by (vm_compute; reflexivity).
  assert (Htok : acceptsBackdropClasses 0 sampleReady = true) by (vm_compute; reflexivity).
  split; [exact sampleReady_allocated|]. split; [exact Hh|]. split; [exact Htok|].
  pose proof (show_then_hide_restores_marked_target 0 sampleReady) as H.
  cbv zeta in H.
  specialize (H sampleReady_allocated Hh Htok).
  assert (H1 : _targetEl (deref sampleReady 0) < nextElem sampleReady) by by_computation.
  assert (H2 : _targetEl (deref sampleReady 0) ≠ body sampleReady) by by_computation.
  assert (H3 : "hidden" ∈ classList (element sampleReady (_targetEl (deref sampleReady 0))))
    by by_computation.
  assert (H4 : "flex" ∉ classList (element sampleReady (_targetEl (deref sampleReady 0))))
    by by_computation.
  assert (H5 : attributes (element sampleReady (_targetEl (deref sampleReady 0)))
                 !! "aria-hidden" = Some "true") by (vm_compute; reflexivity).
  assert (H6 : attributes (element sampleReady (_targetEl (deref sampleReady 0)))
                 !! "aria-modal" = None) by (vm_compute; reflexivity).
  assert (H7 : attributes (element sampleReady (_targetEl (deref sampleReady 0)))
                 !! "role" = None) by (vm_compute; reflexivity).
  specialize (H H1 H2 H3 H4 H5 H6 H7 sampleReady_noBackdrop).
  destruct H as (_ & _ & _ & _ & _ & Hattrs & Hnb).
  split; [exact Hattrs | exact Hnb].
Defined.

Lemma sampleReady_showable : showable 0 sampleReady.
Proof. intros _. vm_compute. reflexivity. Defined.

Lemma sampleShown_showable : showable 0 sampleShown.
Proof. intros H. vm_compute in H. discriminate H. Defined.


Lemma resize_witness :
  let down := sampleEvent "mousedown" 7 100 100 in
  let move := sampleEvent "mousemove" 7 150 (-400) in
  let earlier := [sampleEvent "mousemove" 7 90 90] in
  allocated 0 sampleReady /\
  _resizeTargetEl (deref sampleReady 0) = Some 4 /\
  style (element (outcome (__onResizeMouseMove 0 move
                    (handleEach (__onResizeMouseMove 0) earlier
                       (outcome (__onResizeMouseDown 0 down sampleReady))))) 4)
    !! "width"
  = Some (pretty (Z.max 200 (clientWidth (element sampleReady 4) + 50)) +:+ "px") /\
  style (element (outcome (__onResizeMouseMove 0 move
                    (handleEach (__onResizeMouseMove 0) earlier
                       (outcome (__onResizeMouseDown 0 down sampleReady))))) 4)
    !! "height"
  = Some (pretty (Z.max 100 (clientHeight (element sampleReady 4) + (-500))) +:+ "px").
Proof.
  intros down move earlier.
  assert (Hr : _resizeTargetEl (deref sampleReady 0) = Some 4) by (vm_compute; reflexivity).
  split; [exact sampleReady_allocated|]. split; [exact Hr|].
  pose proof (resize_move_sets_clamped_size 0 sampleReady 4 down move earlier 50 (-500)
                sampleReady_allocated Hr eq_refl eq_refl) as H.
  cbv zeta in H. destruct H as (_ & _ & Hw & Hh).
  split; [exact Hw | exact Hh].
Defined.

Lemma drag_witness :
  let up1 := sampleEvent "mouseup" 5 40 60 in
  let down2 := sampleEvent "mousedown" 5 200 200 in
  let move2 := sampleEvent "mousemove" 5 205 190 in
  allocated 0 sampleDragging /\
  _dragTargetEl (deref sampleDragging 0) = Some 4 /\
  _currentDragX (deref sampleDragging 0) = Int 30 /\
  _currentDragY (deref sampleDragging 0) = Int 40 /\
  closest_a_button sampleDragging (ev_target down2) = None /\
  style (element (outcome (__onDragMouseMove 0 move2
                    (handleEach (__onDragMouseMove 0) []
                       (outcome (__onDragMouseDown 0 down2
                          (outcome (__onDragMouseUp 0 up1 sampleDragging))))))) 4)
    !! "transform"
  = Some "translate(35px, 30px)".
Proof.
  intros up1 down2 move2.
  assert (Hal : allocated 0 sampleDragging) by by_computation.
  assert (Ht : _dragTargetEl (deref sampleDragging 0) = Some 4) by (vm_compute; reflexivity).
  assert (Hx : _currentDragX (deref sampleDragging 0) = Int 30) by (vm_compute; reflexivity).
  assert (Hy : _currentDragY (deref sampleDragging 0) = Int 40) by (vm_compute; reflexivity).
  assert (Hcl : closest_a_button sampleDragging (ev_target down2) = None)
    by (vm_compute; reflexivity).
  split; [exact Hal|]. split; [exact Ht|]. split; [exact Hx|]. split; [exact Hy|].
  split; [exact Hcl|].
  pose proof (drag_translation_accumulates 0 sampleDragging 4 30 40 up1 down2 move2 [] 5 (-10)
                Hal Ht Hx Hy Hcl eq_refl eq_refl) as H.
  cbv zeta in H. destruct H as (_ & _ & _ & _ & _ & Hst & _). exact Hst.
Defined.

(** ** Backdrops and visible modals in the states the program reaches *)

Lemma sameView_refl (w : World) : sameView w w.
Proof. split; reflexivity. Qed.

Lemma sameView_trans (w1 w2 w3 : World) :
  sameView w1 w2 -> sameView w2 w3 -> sameView w1 w3.
Proof.
  intros [A1 A2 A3 A4 A5 A6] [B1 B2 B3 B4 B5 B6]. split; congruence.
Qed.

Lemma sameView_updElement (e : ElemId) (f : Element -> Element) (w : World) :
  (forall x, attributes (f x) !! "modal-backdrop" = attributes x !! "modal-backdrop") ->
  (forall x, parentNode (f x) = parentNode x) ->
  sameView w (updElement e f w).
Proof.
  intros Ha Hp. split; try reflexivity.
  - intros e'. apply hasAttribute_updElement_other, Ha.
  - intros e'. apply (element_updElement_frame parentNode), Hp.
Qed.

Lemma map_isHidden_alter (f : Modal -> Modal) (m : ModalRef) (l : list Modal) :
  (forall M, _isHidden (f M) = _isHidden M) ->
  map _isHidden (alter f m l) = map _isHidden l.
Proof.
  intros Hf. revert m. induction l as [|M l IH]; intros m; [reflexivity|].
  destruct m as [|m]; simpl.
  - rewrite Hf. reflexivity.
  - f_equal. apply IH.
Qed.

Lemma sameView_updModal (m : ModalRef) (f : Modal -> Modal) (w : World) :
  (forall M, _isHidden (f M) = _isHidden M) -> sameView w (updModal m f w).
Proof.
  intros Hf. split; try reflexivity.
  unfold updModal; simpl. apply map_isHidden_alter, Hf.
Qed.

Lemma quiet_compose (f g : World -> World) :
  quiet f -> quiet g -> quiet (fun w => g (f w)).
Proof. intros Hf Hg w. eapply sameView_trans; [apply Hf | apply Hg]. Qed.

Lemma quiet_classList_add (e : ElemId) (c : string) : quiet (classList_add e c).
Proof. intros w. apply sameView_updElement; reflexivity. Qed.

Lemma quiet_classList_remove (e : ElemId) (c : string) : quiet (classList_remove e c).
Proof. intros w. apply sameView_updElement; reflexivity. Qed.

Lemma quiet_setAttribute (e : ElemId) (name value : string) :
  name ≠ "modal-backdrop" -> quiet (setAttribute e name value).
Proof.
  intros Hne w. apply sameView_updElement; [|reflexivity].
  intros x. simpl. apply lookup_insert_ne, Hne.
Qed.

Lemma quiet_removeAttribute (e : ElemId) (name : string) :
  name ≠ "modal-backdrop" -> quiet (removeAttribute e name).
Proof.
  intros Hne w. apply sameView_updElement; [|reflexivity].
  intros x. simpl. apply lookup_delete_ne, Hne.
Qed.

Lemma quiet_setStyle (e : ElemId) (prop value : string) : quiet (setStyle e prop value).
Proof. intros w. apply sameView_updElement; reflexivity. Qed.

Lemma quiet_addEventListener (t : EventTarget) (ty : string) (cb : Callback) (cap : bool) :
  quiet (addEventListener t ty cb cap).
Proof.
  intros w. destruct t; [apply sameView_updElement; reflexivity | split; reflexivity].
Qed.

Lemma quiet_removeEventListener (t : EventTarget) (ty : string) (cb : Callback) (cap : bool) :
  quiet (removeEventListener t ty cb cap).
Proof.
  intros w. destruct t; [apply sameView_updElement; reflexivity | split; reflexivity].
Qed.

Lemma quiet_removeEventListener_opt (t : EventTarget) (ty : string) (cb : option Callback)
    (cap : bool) :
  quiet (removeEventListener_opt t ty cb cap).
Proof.
  destruct cb; [apply quiet_removeEventListener | intros w; apply sameView_refl].
Qed.

Lemma quiet_emit (x : Effect) : quiet (emit x).
Proof. intros w. split; reflexivity. Qed.

Lemma quiet_with_nextSerial (n : nat) : quiet (with_nextSerial n).
Proof. intros w. split; reflexivity. Qed.

Lemma quiet_updModal (m : ModalRef) (f : Modal -> Modal) :
  (forall M, _isHidden (f M) = _isHidden M) -> quiet (updModal m f).
Proof. intros Hf w. apply sameView_updModal, Hf. Qed.

Lemma quiet_fold_classList_add (e : ElemId) (l : list string) :
  quiet (fun w => fold_left (fun w0 c => classList_add e c w0) l w).
Proof.
  induction l as [|c l IH]; intros w; simpl; [apply sameView_refl|].
  eapply sameView_trans; [apply quiet_classList_add | apply IH].
Qed.

Create HintDb quiet discriminated.
#[global] Hint Resolve sameView_refl quiet_classList_add quiet_classList_remove
  quiet_setStyle quiet_addEventListener quiet_removeEventListener
  quiet_removeEventListener_opt quiet_emit quiet_with_nextSerial
  quiet_fold_classList_add : quiet.

(** Chaining: each statement of a method is quiet, so the method is. *)
Ltac quiet_step :=
  match goal with
  | |- sameView ?w ?w => apply sameView_refl
  | |- sameView ?w (?f ?a ?b ?c ?d ?w') =>
      apply (sameView_trans w w'); [|first [apply (quiet_addEventListener a b c d)
                                           | apply (quiet_removeEventListener a b c d)
                                           | apply (quiet_removeEventListener_opt a b c d)]]
  | |- sameView ?w (setAttribute ?e ?n ?v ?w') =>
      apply (sameView_trans w w'); [|apply quiet_setAttribute; discriminate]
  | |- sameView ?w (removeAttribute ?e ?n ?w') =>
      apply (sameView_trans w w'); [|apply quiet_removeAttribute; discriminate]
  | |- sameView ?w (classList_add ?e ?c ?w') =>
      apply (sameView_trans w w'); [|apply quiet_classList_add]
  | |- sameView ?w (classList_remove ?e ?c ?w') =>
      apply (sameView_trans w w'); [|apply quiet_classList_remove]
  | |- sameView ?w (setStyle ?e ?p ?v ?w') =>
      apply (sameView_trans w w'); [|apply quiet_setStyle]
  | |- sameView ?w (emit ?x ?w') =>
      apply (sameView_trans w w'); [|apply quiet_emit]
  | |- sameView ?w (with_nextSerial ?n ?w') =>
      apply (sameView_trans w w'); [|apply quiet_with_nextSerial]
  | |- sameView ?w (updModal ?m ?f ?w') =>
      apply (sameView_trans w w'); [|apply quiet_updModal; reflexivity]
  end.

Ltac quiet_steps := repeat quiet_step.

Lemma quiet__setup (this : ModalRef) : quiet (_setupModalCloseEventListeners this).
Proof.
  intros w. unfold _setupModalCloseEventListeners. cbv zeta.
  destruct (decide _); quiet_steps.
Qed.

Lemma quiet__remove (this : ModalRef) : quiet (_removeModalCloseEventListeners this).
Proof.
  intros w. unfold _removeModalCloseEventListeners. cbv zeta.
  destruct (decide _); quiet_steps.
Qed.

Lemma quiet_showPrefix (this : ModalRef) : quiet (showPrefix this).
Proof. intros w. unfold showPrefix. cbv zeta. quiet_steps. Qed.

Lemma quiet_hidePrefix (this : ModalRef) : quiet (hidePrefix this).
Proof. intros w. unfold hidePrefix. cbv zeta. quiet_steps. Qed.

Lemma quiet__init (this : ModalRef) : quiet (_init this).
Proof.
  intros w. unfold _init. cbv zeta.
  set (w1 := fold_left _ _ w).
  assert (H1 : sameView w w1) by apply quiet_fold_classList_add.
  clearbody w1.
  set (w2 := match querySelector_attr w1 _ "data-modal-resize-target" with
             | Some _ => _ | None => _ end).
  assert (H2 : sameView w w2).
  { subst w2. destruct (querySelector_attr w1 _ _); [|exact H1].
    destruct (querySelector_id w1 _ _); [|exact H1].
    apply (sameView_trans _ w1); [exact H1|]. quiet_steps. }
  clearbody w2.
  destruct (querySelector_attr w2 _ _); [|exact H2].
  destruct (querySelector_id w2 _ _); [|exact H2].
  apply (sameView_trans _ w2); [exact H2|]. quiet_steps.
Qed.

Lemma filter_ext_in_list {A : Type} (f g : A -> bool) (l : list A) :
  (forall x, f x = g x) -> List.filter f l = List.filter g l.
Proof.
  intros H. induction l as [|x l IH]; simpl; [reflexivity|].
  rewrite H, IH. reflexivity.
Qed.

Lemma sameView_counts (w w' : World) :
  sameView w w' ->
  countBackdrops w' = countBackdrops w /\ countVisible w' = countVisible w.
Proof.
  intros [Ht _ _ Ha _ Hh]. unfold countBackdrops, countVisible, isBackdrop.
  rewrite Ht, Hh. split; [|reflexivity].
  f_equal. apply filter_ext_in_list, Ha.
Qed.

Lemma sameView_tidy (w w' : World) : sameView w w' -> tidy w -> tidy w'.
Proof.
  intros [Ht Hn Hb Ha Hp Hh] [T1 T2 T3 T4]. split; unfold isBackdrop in *.
  - intros e. rewrite Ht, Hn. apply T1.
  - rewrite Ht. exact T2.
  - intros e p. rewrite Hp, Hn, Ha. apply T3.
  - rewrite Hb, Hn, Ha. exact T4.
Qed.

Lemma sameView_consistent (w w' : World) : sameView w w' -> consistent w -> consistent w'.
Proof.
  intros Hv [T C]. destruct (sameView_counts w w' Hv) as [Hb Hc].
  split; [eapply sameView_tidy; eassumption | rewrite Hb, Hc; exact C].
Qed.

(** Counting visible modals across an assignment to [_isHidden]. *)
Lemma count_negb_alter (v : bool) (m : nat) (l : list bool) :
  match l !! m with
  | Some old =>
      length (List.filter negb (alter (fun _ => v) m l)) + (if negb old then 1 else 0)
      = length (List.filter negb l) + (if negb v then 1 else 0)
  | None =>
      length (List.filter negb (alter (fun _ => v) m l)) = length (List.filter negb l)
  end.
Proof.
  revert m. induction l as [|b l IH]; intros m; [reflexivity|].
  destruct m as [|m].
  - change (alter (fun _ => v) 0 (b :: l)) with (v :: l).
    change ((b :: l) !! 0) with (Some b).
    destruct v, b; simpl; lia.
  - change (alter (fun _ => v) (S m) (b :: l)) with (b :: alter (fun _ => v) m l).
    change ((b :: l) !! S m) with (l !! m).
    specialize (IH m).
    destruct (l !! m) as [old|]; destruct b; cbn [List.filter negb length]; lia.
Qed.

Lemma map_isHidden_set (v : bool) (m : ModalRef) (l : list Modal) :
  map _isHidden (alter (set_isHidden v) m l) = alter (fun _ => v) m (map _isHidden l).
Proof.
  revert m. induction l as [|M l IH]; intros m; [reflexivity|].
  destruct m as [|m]; simpl; [reflexivity|]. f_equal. apply IH.
Qed.

Lemma lookup_map_isHidden (w : World) (m : ModalRef) :
  map _isHidden (modals w) !! m = _isHidden <$> modals w !! m.
Proof. apply list_lookup_fmap. Qed.

Lemma visible_allocated (w : World) (this : ModalRef) :
  _isHidden (deref w this) = false ->
  modals w !! this = Some (deref w this).
Proof.
  unfold deref. destruct (modals w !! this); [reflexivity|].
  simpl. discriminate.
Qed.

Lemma countVisible_set (v : bool) (this : ModalRef) (w : World) :
  match modals w !! this with
  | Some M =>
      countVisible (updModal this (set_isHidden v) w) + (if negb (_isHidden M) then 1 else 0)
      = countVisible w + (if negb v then 1 else 0)
  | None => countVisible (updModal this (set_isHidden v) w) = countVisible w
  end.
Proof.
  unfold countVisible, updModal; simpl.
  rewrite map_isHidden_set.
  pose proof (count_negb_alter v this (map _isHidden (modals w))) as H.
  rewrite lookup_map_isHidden in H.
  destruct (modals w !! this); exact H.
Qed.

Lemma countVisible_positive (w : World) (this : ModalRef) :
  _isHidden (deref w this) = false -> 0 < countVisible w.
Proof.
  intros E. apply visible_allocated in E as Hl.
  unfold countVisible.
  assert (Hin : false ∈ map _isHidden (modals w)).
  { apply list_elem_of_lookup. exists this.
    rewrite lookup_map_isHidden, Hl. simpl. rewrite E. reflexivity. }
  revert Hin. generalize (map _isHidden (modals w)). intros l Hin.
  induction l as [|b l IH]; [inversion Hin|].
  apply elem_of_cons in Hin as [<-|Hin]; simpl; [lia|].
  destruct b; simpl; [apply IH, Hin | lia].
Qed.

Lemma countBackdrops_positive (w : World) :
  0 < countBackdrops w -> is_Some (document_querySelector_attr w "modal-backdrop").
Proof.
  unfold countBackdrops, document_querySelector_attr, isBackdrop.
  induction (tree w) as [|e l IH]; simpl; [lia|].
  destruct (hasAttribute w e "modal-backdrop"); [eauto | exact IH].
Qed.

(** In a consistent state [hide] finds the backdrop it looks for. *)
Lemma consistent_backdropAvailable (w : World) (this : ModalRef) :
  consistent w -> backdropAvailable this w.
Proof.
  intros [_ C] E. apply countBackdrops_positive.
  pose proof (countVisible_positive w this E). lia.
Qed.

Lemma tidy_updModal (m : ModalRef) (f : Modal -> Modal) (w : World) :
  tidy w -> tidy (updModal m f w).
Proof. intros [T1 T2 T3 T4]. split; assumption. Qed.

Lemma countBackdrops_updModal (m : ModalRef) (f : Modal -> Modal) (w : World) :
  countBackdrops (updModal m f w) = countBackdrops w.
Proof. reflexivity. Qed.

(** *** [_createBackdrop] adds one backdrop *)

Lemma backdropSketch_parent (this : ModalRef) (w : World) :
  parentNode (element (backdropSketch this w) (nextElem w)) = None.
Proof.
  unfold backdropSketch.
  rewrite (fold_classList_add_element parentNode) by reflexivity.
  unfold setAttribute. rewrite element_updElement_eq. simpl.
  unfold createElement, element; simpl. rewrite lookup_insert_eq. reflexivity.
Qed.

Lemma _createBackdrop_hidden_view (this : ModalRef) (w : World) :
  _isHidden (deref w this) = true ->
  let b := nextElem w in
  let w' := _createBackdrop this w in
  tree w' = tree w ++ [b] /\ nextElem w' = S b /\ body w' = body w /\
  isBackdrop w' b = true /\
  (forall e, e ≠ b -> isBackdrop w' e = isBackdrop w e) /\
  parentNode (element w' b) = Some (body w) /\
  (forall e, e ≠ b -> parentNode (element w' e) = parentNode (element w e)) /\
  map _isHidden (modals w') = map _isHidden (modals w).
Proof.
  intros E b w'. subst b w'.
  split; [rewrite _createBackdrop_tree, E; reflexivity|].
  split.
  { rewrite _createBackdrop_hidden by exact E.
    rewrite nextElem_updModal. unfold body_append.
    rewrite nextElem_with_tree, nextElem_updElement. apply backdropSketch_nextElem. }
  split; [apply (_createBackdrop_frame body); reflexivity|].
  split.
  { unfold isBackdrop, hasAttribute, getAttribute.
    rewrite _createBackdrop_backdrop_attributes by exact E.
    rewrite lookup_singleton_eq. apply bool_decide_eq_true_2. eauto. }
  split.
  { intros e Hne. unfold isBackdrop, hasAttribute, getAttribute.
    rewrite _createBackdrop_element_ne by exact Hne. reflexivity. }
  split.
  { rewrite _createBackdrop_hidden by exact E.
    rewrite element_updModal. unfold body_append.
    rewrite element_with_tree, element_updElement_eq. simpl.
    rewrite (backdropSketch_frame body) by reflexivity. reflexivity. }
  split.
  { intros e Hne. rewrite _createBackdrop_element_ne by exact Hne. reflexivity. }
  rewrite _createBackdrop_hidden by exact E.
  unfold updModal, with_modals at 1. cbn [modals].
  rewrite map_isHidden_alter by reflexivity.
  unfold body_append. rewrite modals_with_tree, modals_updElement.
  rewrite (backdropSketch_frame modals) by reflexivity. reflexivity.
Qed.

Lemma filter_isBackdrop_ext (w w' : World) (l : list ElemId) :
  (forall e, e ∈ l -> isBackdrop w' e = isBackdrop w e) ->
  List.filter (isBackdrop w') l = List.filter (isBackdrop w) l.
Proof.
  induction l as [|x l IH]; intros H; simpl; [reflexivity|].
  rewrite H by left. rewrite IH; [reflexivity|].
  intros e He. apply H. right. exact He.
Qed.

Lemma _createBackdrop_hidden_consistent (this : ModalRef) (w : World) :
  _isHidden (deref w this) = true ->
  tidy w ->
  let w' := _createBackdrop this w in
  tidy w' /\ countBackdrops w' = S (countBackdrops w) /\ countVisible w' = countVisible w.
Proof.
  intros E [T1 T2 T3 T4] w'.
  destruct (_createBackdrop_hidden_view this w E)
    as (Ht & Hn & Hb & Hnew & Hold & Hpnew & Hpold & Hh).
  fold w' in Ht, Hn, Hb, Hnew, Hold, Hpnew, Hpold, Hh.
  assert (Hfresh : forall e, e ∈ tree w -> e ≠ nextElem w).
  { intros e He. apply T1 in He. lia. }
  split; [split|split].
  - intros e. rewrite Ht, Hn. intros He. apply elem_of_app in He as [He|He].
    + apply T1 in He. lia.
    + apply list_elem_of_singleton in He. lia.
  - rewrite Ht. apply NoDup_app. split; [exact T2|]. split; [|apply NoDup_singleton].
    intros e He He'. apply list_elem_of_singleton in He'. apply (Hfresh e He He').
  - intros e p. rewrite Hn. destruct (decide (e = nextElem w)) as [->|Hne].
    + rewrite Hpnew. intros [= <-]. destruct T4 as [T4 T4'].
      split; [lia|]. rewrite Hold by lia. exact T4'.
    + rewrite Hpold by exact Hne. intros Hp. destruct (T3 e p Hp) as [Hlt Hnb].
      split; [lia|]. rewrite Hold by lia. exact Hnb.
  - rewrite Hb, Hn. destruct T4 as [T4 T4']. split; [lia|].
    rewrite Hold by lia. exact T4'.
  - unfold countBackdrops. rewrite Ht, List.filter_app, length_app. simpl.
    rewrite Hnew. simpl.
    rewrite (filter_isBackdrop_ext w w') by (intros e He; apply Hold, Hfresh, He).
    lia.
  - unfold countVisible. rewrite Hh. reflexivity.
Qed.

(** *** The suffixes, seen as one assignment to [_isHidden] *)

Lemma showSuffix_view (this : ModalRef) (w : World) :
  sameView (updModal this (set_isHidden false) w) (showSuffix this w).
Proof.
  unfold showSuffix. cbv zeta. set (w1 := updModal this (set_isHidden false) w).
  apply (sameView_trans _ (classList_add (body w1) "overflow-hidden" w1));
    [apply quiet_classList_add|].
  set (w2 := classList_add _ _ w1). clearbody w2.
  apply (sameView_trans _ (if closable (_options (deref w2 this))
                           then _setupModalCloseEventListeners this w2 else w2)).
  - destruct (closable _); [apply quiet__setup | apply sameView_refl].
  - apply quiet_emit.
Qed.

Lemma hideSuffix_view (this : ModalRef) (w : World) :
  sameView (updModal this (set_isHidden true) w) (hideSuffix this w).
Proof.
  unfold hideSuffix. cbv zeta. set (w1 := updModal this (set_isHidden true) w).
  apply (sameView_trans _ (classList_remove (body w1) "overflow-hidden" w1));
    [apply quiet_classList_remove|].
  set (w2 := classList_remove _ _ w1). clearbody w2.
  apply (sameView_trans _ (if closable (_options (deref w2 this))
                           then _removeModalCloseEventListeners this w2 else w2)).
  - destruct (closable _); [apply quiet__remove | apply sameView_refl].
  - apply quiet_emit.
Qed.

(** *** [show] keeps the state consistent *)

Lemma consistent_show (this : ModalRef) (w : World) :
  consistent w -> consistent (outcome (show this w)).
Proof.
  intros Hc. rewrite show_steps. unfold outcome.
  apply (sameView_consistent _ _ (showSuffix_view this _)).
  pose proof (sameView_consistent _ _ (quiet_showPrefix this w) Hc) as [Ta Ca].
  assert (Hd : deref (showPrefix this w) this = deref w this)
    by (apply (showPrefix_frame (fun w0 => deref w0 this)); reflexivity).
  destruct (_isHidden (deref w this)) eqn:E.
  - destruct (_createBackdrop_hidden_consistent this (showPrefix this w))
      as (Tb & Cb & Vb); [rewrite Hd; exact E | exact Ta |].
    split; [apply tidy_updModal, Tb|].
    rewrite countBackdrops_updModal, Cb.
    pose proof (countVisible_set false this (_createBackdrop this (showPrefix this w))) as Hs.
    destruct (modals _ !! this) as [M|]; simpl in Hs; lia.
  - rewrite _createBackdrop_visible by (rewrite Hd; exact E).
    split; [apply tidy_updModal, Ta|].
    rewrite countBackdrops_updModal.
    pose proof (countVisible_set false this (showPrefix this w)) as Hs.
    rewrite <- Hd in E. rewrite (visible_allocated _ _ E), E in Hs. simpl in Hs. lia.
Qed.

(** *** [hide] keeps the state consistent *)

Lemma ancestors_not_backdrop (w : World) (fuel : nat) (x p : ElemId) :
  tidy w -> p ∈ ancestors_upto fuel w x -> isBackdrop w p = false.
Proof.
  intros [_ _ T3 _]. revert x. induction fuel as [|k IH]; intros x; simpl.
  - intros H. inversion H.
  - destruct (parentNode (element w x)) as [q|] eqn:Hq; [|intros H; inversion H].
    intros H. apply elem_of_cons in H as [->|H]; [apply (T3 x q Hq) | apply (IH q H)].
Qed.

Lemma remove_tree (w : World) (el : ElemId) :
  tidy w -> isBackdrop w el = true ->
  tree (remove el w) = filter (fun x => x ≠ el) (tree w).
Proof.
  intros T Hb. unfold remove. rewrite tree_updElement, tree_with_tree.
  apply list_filter_iff. intros x. rewrite not_elem_of_cons. split.
  - intros [H _]. congruence.
  - intros H. split; [congruence|].
    intros Hin. apply (ancestors_not_backdrop w _ x el T) in Hin. congruence.
Qed.

Lemma count_filter_remove (f : ElemId -> bool) (el : ElemId) (l : list ElemId) :
  NoDup l -> el ∈ l -> f el = true ->
  S (length (List.filter f (filter (fun x => x ≠ el) l))) = length (List.filter f l).
Proof.
  intros Hnd Hin Hf. induction l as [|x l IH]; [inversion Hin|].
  apply NoDup_cons in Hnd as [Hx Hnd].
  rewrite filter_cons. destruct (decide (x = el)) as [->|Hne].
  - destruct (decide (el ≠ el)) as [Hc|_]; [congruence|].
    simpl. rewrite Hf. simpl. f_equal. f_equal.
    clear IH Hin Hnd. induction l as [|y l IH]; [reflexivity|].
    apply not_elem_of_cons in Hx as [Hy Hx].
    rewrite filter_cons.
    destruct (decide (y ≠ el)) as [_|Hc]; [|exfalso; apply Hc; congruence].
    simpl. rewrite IH by exact Hx. reflexivity.
  - destruct (decide (x ≠ el)) as [_|Hc]; [|contradiction].
    apply elem_of_cons in Hin as [->|Hin]; [congruence|].
    simpl. destruct (f x); simpl; rewrite <- (IH Hnd Hin); reflexivity.
Qed.

Lemma remove_consistent (w : World) (el : ElemId) :
  tidy w -> document_querySelector_attr w "modal-backdrop" = Some el ->
  let w' := remove el w in
  tidy w' /\ S (countBackdrops w') = countBackdrops w /\ countVisible w' = countVisible w.
Proof.
  intros T Hq w'.
  destruct (find_Some_elem _ _ _ Hq) as [Hin Hb]. fold (isBackdrop w el) in Hb.
  pose proof (remove_tree w el T Hb) as Ht. fold w' in Ht.
  assert (Ha : forall e, isBackdrop w' e = isBackdrop w e).
  { intros e. subst w'. unfold isBackdrop, hasAttribute, getAttribute.
    rewrite (remove_element_frame attributes) by reflexivity. reflexivity. }
  assert (Hp : forall e p, parentNode (element w' e) = Some p ->
                           parentNode (element w e) = Some p).
  { intros e p. subst w'. unfold remove. rewrite element_updElement.
    destruct (decide (el = e)); [discriminate | tauto]. }
  destruct T as [T1 T2 T3 T4].
  split; [split|split].
  - intros e. rewrite Ht. intros He. apply list_elem_of_filter in He as [_ He].
    apply T1, He.
  - rewrite Ht. apply NoDup_filter, T2.
  - intros e p H. rewrite Ha. apply (T3 e p), Hp, H.
  - rewrite Ha. exact T4.
  - unfold countBackdrops. rewrite Ht.
    rewrite (filter_isBackdrop_ext w w') by (intros; apply Ha).
    apply count_filter_remove; assumption.
  - reflexivity.
Qed.

Lemma consistent_hide (this : ModalRef) (w : World) :
  consistent w -> consistent (outcome (hide this w)).
Proof.
  intros Hc.
  pose proof (sameView_consistent _ _ (quiet_hidePrefix this w) Hc) as [Ta Ca].
  assert (Hd : deref (hidePrefix this w) this = deref w this)
    by (apply (hidePrefix_frame (fun w0 => deref w0 this)); reflexivity).
  assert (Hm : modals (hidePrefix this w) = modals w)
    by (apply (hidePrefix_frame modals); reflexivity).
  destruct (_isHidden (deref w this)) eqn:E.
  - rewrite hide_hidden by exact E. unfold outcome.
    apply (sameView_consistent _ _ (hideSuffix_view this _)).
    split; [apply tidy_updModal, Ta|].
    rewrite countBackdrops_updModal.
    pose proof (countVisible_set true this (hidePrefix this w)) as Hs.
    destruct (modals _ !! this) as [M|]; simpl in Hs; lia.
  - destruct (document_querySelector_attr w "modal-backdrop") as [el|] eqn:Hq.
    + rewrite (hide_visible this w el) by assumption. unfold outcome.
      apply (sameView_consistent _ _ (hideSuffix_view this _)).
      rewrite <- (hidePrefix_query this) in Hq.
      destruct (remove_consistent (hidePrefix this w) el Ta Hq) as (Tr & Cr & Vr).
      split; [apply tidy_updModal, Tr|].
      rewrite countBackdrops_updModal.
      pose proof (countVisible_set true this (remove el (hidePrefix this w))) as Hs.
      change (modals (remove el (hidePrefix this w))) with (modals (hidePrefix this w)) in Hs.
      rewrite <- Hd in E. rewrite (visible_allocated _ _ E), E in Hs. simpl in Hs. lia.
    + rewrite hide_throws by assumption. unfold outcome. split; assumption.
Qed.

Lemma consistent_toggle (this : ModalRef) (w : World) :
  consistent w -> consistent (outcome (toggle this w)).
Proof.
  intros Hc. unfold toggle.
  destruct (_isHidden (deref w this)).
  - rewrite show_returns. simpl.
    apply (sameView_consistent _ _ (quiet_emit _ _)), consistent_show, Hc.
  - pose proof (consistent_hide this w Hc) as Hh.
    destruct (hide this w) as [[] w1|e w1]; simpl in *; [|exact Hh].
    apply (sameView_consistent _ _ (quiet_emit _ _)), Hh.
Qed.

(** *** Construction keeps the state consistent *)

Lemma consistent_Modal_new (targetEl : option ElemId) (options : option PartialOptions)
    (w : World) :
  consistent w -> consistent (outcome (Modal_new targetEl options w)).
Proof.
  intros Hc. unfold Modal_new. destruct targetEl as [el|]; [|exact Hc].
  unfold outcome. apply (sameView_consistent _ _ (quiet__init _ _)).
  destruct Hc as [[T1 T2 T3 T4] C]. split; [split; assumption|].
  set (w1 := with_modals _ w).
  assert (Hv : countVisible w1 = countVisible w).
  { subst w1. unfold countVisible, with_modals. cbn [modals].
    rewrite map_app, List.filter_app, length_app. simpl. lia. }
  change (countBackdrops w1) with (countBackdrops w). lia.
Qed.

(** *** The gesture handlers are quiet *)

Lemma quiet_resize_drag (this : ModalRef) (e : Event) (w : World) :
  sameView w (outcome (__onResizeMouseDown this e w)) /\
  sameView w (outcome (__onResizeMouseMove this e w)) /\
  sameView w (outcome (__onResizeMouseUp this e w)) /\
  sameView w (outcome (__onDragMouseDown this e w)) /\
  sameView w (outcome (__onDragMouseMove this e w)) /\
  sameView w (outcome (__onDragMouseUp this e w)).
Proof.
  repeat apply conj.
  - unfold __onResizeMouseDown, required. cbv zeta.
    destruct (_resizeTargetEl _); unfold outcome; quiet_steps.
  - unfold __onResizeMouseMove, required. cbv zeta.
    destruct (_resizeTargetEl _); unfold outcome; quiet_steps.
  - unfold __onResizeMouseUp, outcome. cbv zeta. quiet_steps.
  - unfold __onDragMouseDown. cbv zeta.
    destruct (bool_decide _); unfold outcome; quiet_steps.
  - unfold __onDragMouseMove, required. cbv zeta.
    destruct (_dragTargetEl _); unfold outcome; quiet_steps.
  - unfold __onDragMouseUp, outcome. cbv zeta. quiet_steps.
Qed.

(** *** Listeners and event delivery *)

Lemma consistent_invoke (cb : Callback) (ev : Event) (w : World) :
  consistent w -> consistent (outcome (invoke cb ev w)).
Proof.
  intros Hc.
  destruct (quiet_resize_drag (match cb with
                               | OnResizeMouseDown m | OnResizeMouseMove m
                               | OnResizeMouseUp m | OnDragMouseDown m
                               | OnDragMouseMove m | OnDragMouseUp m => m
                               | _ => 0 end) ev w)
    as (Q1 & Q2 & Q3 & Q4 & Q5 & Q6).
  destruct cb; simpl invoke;
    try (eapply sameView_consistent; [eassumption | exact Hc]).
  - unfold _handleOutsideClick.
    destruct (_ || _); [apply consistent_hide, Hc | exact Hc].
  - destruct (decide _); [apply consistent_hide, Hc | exact Hc].
  - apply consistent_toggle, Hc.
  - apply consistent_show, Hc.
  - apply consistent_hide, Hc.
Qed.

Lemma consistent_callListeners (t : EventTarget) (ls : list Listener) (ev : Event)
    (w : World) :
  consistent w -> consistent (callListeners t ls ev w).
Proof.
  revert w. induction ls as [|l ls IH]; intros w Hc; simpl; [exact Hc|].
  apply IH. destruct (_ && _); [|exact Hc].
  pose proof (consistent_invoke (l_callback l) ev w Hc) as Hi.
  destruct (invoke (l_callback l) ev w) as [[] w1|e w1]; simpl in Hi; [exact Hi|].
  apply (sameView_consistent _ _ (quiet_emit _ _)), Hi.
Qed.

Lemma consistent_deliver (t : EventTarget) (ev : Event) (w : World) :
  consistent w -> consistent (deliver t ev w).
Proof. apply consistent_callListeners. Qed.

(** *** Bootstrapping *)

Lemma forEach_outcome {A S : Type} (I : World -> Prop)
    (f : A -> S -> World -> Completion S) (l : list A) :
  (forall x s w, I w -> I (outcome (f x s w))) ->
  forall s w, I w -> I (outcome (forEach l f s w)).
Proof.
  intros Hf. induction l as [|x l IH]; intros s w Hw; simpl; [exact Hw|].
  pose proof (Hf x s w Hw) as H1.
  destruct (f x s w) as [s1 w1|e w1]; simpl in *; [apply IH, H1 | exact H1].
Qed.

Lemma consistent_initTarget (triggerEl : ElemId) (instances : list ModalInstance)
    (w : World) :
  consistent w -> consistent (outcome (initTarget triggerEl instances w)).
Proof.
  intros Hc. unfold initTarget. cbv zeta.
  destruct (getElementById w _);
    [|apply (sameView_consistent _ _ (quiet_emit _ _)), Hc].
  destruct (getModalInstance _ instances); [exact Hc|].
  apply (consistent_Modal_new (Some _) (Some _)), Hc.
Qed.

Lemma consistent_initToggle (triggerEl : ElemId) (instances : list ModalInstance)
    (w : World) :
  consistent w -> consistent (outcome (initToggle triggerEl instances w)).
Proof.
  intros Hc. unfold initToggle. cbv zeta.
  destruct (getElementById w _);
    [|apply (sameView_consistent _ _ (quiet_emit _ _)), Hc].
  destruct (getModalInstance _ instances); cbn [bind outcome Modal_new].
  - eapply sameView_consistent; [|exact Hc]. quiet_steps.
  - eapply sameView_consistent;
      [|apply (consistent_Modal_new (Some n) (Some (optionsFromAttributes w n))), Hc].
    cbn [outcome Modal_new]. quiet_steps.
Qed.

Lemma consistent_initShowHide (attr : string) (mk : ModalRef -> nat -> Callback)
    (triggerEl : ElemId) (instances : list ModalInstance) (w : World) :
  consistent w -> consistent (outcome (initShowHide attr mk triggerEl instances w)).
Proof.
  intros Hc. unfold initShowHide. cbv zeta.
  destruct (getElementById w _);
    [|apply (sameView_consistent _ _ (quiet_emit _ _)), Hc].
  destruct (getModalInstance _ instances); cbn [outcome].
  - eapply sameView_consistent; [|exact Hc]. quiet_steps.
  - apply (sameView_consistent _ _ (quiet_emit _ _)), Hc.
Qed.

Lemma consistent_initModals (w : World) :
  consistent w -> consistent (outcome (initModals w)).
Proof.
  intros Hc. unfold initModals.
  pose proof (forEach_outcome consistent initTarget
                (querySelectorAll_attr w "data-modal-target")
                consistent_initTarget [] w Hc) as H1.
  destruct (forEach _ initTarget [] w) as [s1 w1|e w1]; simpl in *; [|exact H1].
  pose proof (forEach_outcome consistent initToggle
                (querySelectorAll_attr w1 "data-modal-toggle")
                consistent_initToggle s1 w1 H1) as H2.
  destruct (forEach _ initToggle s1 w1) as [s2 w2|e w2]; simpl in *; [|exact H2].
  pose proof (forEach_outcome consistent (initShowHide "data-modal-show" TriggerShowClosure)
                (querySelectorAll_attr w2 "data-modal-show")
                (consistent_initShowHide _ _) s2 w2 H2) as H3.
  destruct (forEach _ (initShowHide "data-modal-show" _) s2 w2) as [s3 w3|e w3];
    simpl in *; [|exact H3].
  apply (forEach_outcome consistent); [apply consistent_initShowHide | exact H3].
Qed.

(** *** Reachable states *)

Lemma pristine_consistent (w : World) : pristine w -> consistent w.
Proof.
  intros [T Hm]. split; [exact T|].
  unfold countVisible. rewrite Hm. simpl. lia.
Qed.

Lemma step_consistent (w w' : World) : step w w' -> consistent w -> consistent w'.
Proof.
  intros [targetEl options|this|this|this|t ev|] Hc.
  - apply consistent_Modal_new, Hc.
  - apply consistent_show, Hc.
  - apply consistent_hide, Hc.
  - apply consistent_toggle, Hc.
  - apply consistent_deliver, Hc.
  - apply consistent_initModals, Hc.
Qed.

(** In every reachable state the document holds a backdrop for every
    visible modal ... *)
Lemma reachable_consistent (w : World) : reachable w -> consistent w.
Proof.
  induction 1 as [w Hp | w w' _ IH Hs].
  - apply pristine_consistent, Hp.
  - apply (step_consistent w w' Hs IH).
Qed.

(** ... so that [hide], and with it [toggle], always returns. *)
Lemma reachable_backdropAvailable (w : World) (this : ModalRef) :
  reachable w -> backdropAvailable this w.
Proof. intros H. apply consistent_backdropAvailable, reachable_consistent, H. Qed.

Lemma reachable_hide_returns (w : World) (this : ModalRef) :
  reachable w -> hide this w = Normal tt (outcome (hide this w)).
Proof. intros H. apply hide_effects, reachable_backdropAvailable, H. Qed.

(** The sample page is pristine, so the states used in the examples above
    are reachable. *)
Lemma samplePage_pristine : pristine samplePage.
Proof.
  split; [|reflexivity]. split.
  - intros e He. vm_compute in He.
    repeat (apply elem_of_cons in He as [->|He]; [simpl; lia|]).
    inversion He.
  - by_computation.
  - intros e p H. unfold element in H.
    destruct (elements samplePage !! e) as [x|] eqn:Hx; [|discriminate H].
    apply elem_of_list_to_map_2 in Hx. simpl in H.
    repeat (apply elem_of_cons in Hx as [Hx|Hx];
            [injection Hx as -> ->; simpl in H;
             first [discriminate H
                   | injection H as <-;
                     split; [simpl; lia | vm_compute; reflexivity]]|]).
    inversion Hx.
  - split; [simpl; lia | vm_compute; reflexivity].
Qed.

Lemma sampleShown_reachable : reachable sampleShown.
Proof.
  apply (reachable_step sampleReady); [|apply step_show].
  apply (reachable_step samplePage); [|apply step_initModals].
  apply reachable_page, samplePage_pristine.
Qed.

(** * Gestures and the listeners of the document *)

Lemma listener_remove_absent (l : Listener) (ls : list Listener) :
  l ∉ ls -> listener_remove l ls = ls.
Proof.
  unfold listener_remove. induction ls as [|x ls IH]; intros H; [reflexivity|].
  rewrite not_elem_of_cons in H. destruct H as [Hne H].
  rewrite filter_cons_True by congruence. rewrite IH by exact H. reflexivity.
Qed.

Lemma listener_remove_snoc (l : Listener) (ls : list Listener) :
  l ∉ ls -> listener_remove l (ls ++ [l]) = ls.
Proof.
  intros H. unfold listener_remove. rewrite filter_app.
  fold (listener_remove l ls). rewrite listener_remove_absent by exact H.
  rewrite filter_cons_False by (intros Hn; apply Hn; reflexivity).
  rewrite filter_nil. apply app_nil_r.
Qed.

Lemma listener_add_absent (l : Listener) (ls : list Listener) :
  l ∉ ls -> listener_add l ls = ls ++ [l].
Proof. intros H. unfold listener_add. destruct (decide (l ∈ ls)); [contradiction|reflexivity]. Qed.

Lemma listener_add_present (l : Listener) (ls : list Listener) :
  l ∈ ls -> listener_add l ls = ls.
Proof. intros H. unfold listener_add. destruct (decide (l ∈ ls)); [reflexivity|contradiction]. Qed.

(** Two listeners added to a list that has neither, then removed. *)
Lemma listener_pair_round_trip (a b : Listener) (ls : list Listener) :
  a ≠ b -> a ∉ ls -> b ∉ ls ->
  listener_add b (listener_add a ls) = ls ++ [a; b] /\
  listener_add b (listener_add a (ls ++ [a; b])) = ls ++ [a; b] /\
  listener_remove b (listener_remove a (ls ++ [a; b])) = ls.
Proof.
  intros Hab Ha Hb.
  assert (Hb' : b ∉ ls ++ [a]).
  { rewrite not_elem_of_app, list_elem_of_singleton. split; [exact Hb | congruence]. }
  split; [|split].
  - rewrite (listener_add_absent a) by exact Ha.
    rewrite listener_add_absent by exact Hb'.
    rewrite <- app_assoc. reflexivity.
  - rewrite (listener_add_present a), listener_add_present; [reflexivity| |];
      rewrite elem_of_app; right; repeat constructor.
  - assert (H1 : listener_remove a (ls ++ [a; b]) = ls ++ [b]).
    { unfold listener_remove. rewrite filter_app.
      fold (listener_remove a ls). rewrite listener_remove_absent by exact Ha.
      rewrite filter_cons_False by (intros Hn; apply Hn; reflexivity).
      rewrite filter_cons_True by congruence. reflexivity. }
    rewrite H1. apply listener_remove_snoc, Hb.
Qed.

Lemma resize_moves_documentListeners (this : ModalRef) (evs : list Event) (w : World) :
  documentListeners (handleEach (__onResizeMouseMove this) evs w) = documentListeners w.
Proof.
  unfold handleEach. revert w. induction evs as [|e evs IH]; intros w; [reflexivity|].
  simpl. rewrite IH. unfold __onResizeMouseMove, required. cbv zeta.
  destruct (_resizeTargetEl _); reflexivity.
Qed.

Lemma drag_moves_documentListeners (this : ModalRef) (evs : list Event) (w : World) :
  documentListeners (handleEach (__onDragMouseMove this) evs w) = documentListeners w.
Proof.
  unfold handleEach. revert w. induction evs as [|e evs IH]; intros w; [reflexivity|].
  simpl. rewrite IH. unfold __onDragMouseMove, required. cbv zeta.
  destruct (_dragTargetEl _); reflexivity.
Qed.

(** X9. A resize gesture registers its move and release listeners on the
    document when the handle is pressed, once however often it is pressed,
    and the release removes both: after the gesture the document has the
    listeners it had before. *)
Theorem resize_gesture_listeners_round_trip (this : ModalRef) (w : World) (r : ElemId)
    (down again up : Event) (moves : list Event) :
  let onMove := mkListener "mousemove" (OnResizeMouseMove this) true in
  let onUp := mkListener "mouseup" (OnResizeMouseUp this) true in
  _resizeTargetEl (deref w this) = Some r ->
  onMove ∉ documentListeners w -> onUp ∉ documentListeners w ->
  let w1 := outcome (__onResizeMouseDown this down w) in
  let w2 := handleEach (__onResizeMouseMove this) moves w1 in
  (documentListeners w1 = documentListeners w ++ [onMove; onUp]) /\
  (documentListeners (outcome (__onResizeMouseDown this again w2))
   = documentListeners w ++ [onMove; onUp]) /\
  (__onResizeMouseUp this up w2 = Normal tt (outcome (__onResizeMouseUp this up w2))) /\
  (documentListeners (outcome (__onResizeMouseUp this up w2)) = documentListeners w).
Proof.
  intros onMove onUp Hr Hm Hu w1 w2.
  destruct (listener_pair_round_trip onMove onUp (documentListeners w))
    as (Hadd & Hagain & Hrem); [discriminate | assumption | assumption |].
  assert (H1 : documentListeners w1 = documentListeners w ++ [onMove; onUp]).
  { subst w1. unfold __onResizeMouseDown, required. cbv zeta.
    rewrite !deref_emit, Hr. exact Hadd. }
  assert (H2 : documentListeners w2 = documentListeners w ++ [onMove; onUp]).
  { subst w2. rewrite resize_moves_documentListeners. exact H1. }
  assert (Hr2 : _resizeTargetEl (deref w2 this) = Some r).
  { subst w2. rewrite (deref_same_modals w1) by apply resize_moves_modals.
    subst w1. unfold __onResizeMouseDown, required. cbv zeta.
    rewrite !deref_emit, Hr. unfold outcome.
    rewrite !deref_addEventListener.
    rewrite !(deref_updModal_frame _resizeTargetEl) by reflexivity.
    rewrite !deref_emit. exact Hr. }
  split; [exact H1|]. split; [|split; [reflexivity|]].
  - unfold __onResizeMouseDown, required. cbv zeta.
    rewrite !deref_emit, Hr2. unfold outcome.
    change (listener_add onUp (listener_add onMove (documentListeners w2))
            = documentListeners w ++ [onMove; onUp]).
    rewrite H2. exact Hagain.
  - unfold __onResizeMouseUp, outcome. cbv zeta.
    change (listener_remove onUp (listener_remove onMove (documentListeners w2))
            = documentListeners w).
    rewrite H2. exact Hrem.
Qed.

Lemma closest_a_button_withinControl (w : World) (e : ElemId) :
  is_Some (closest_a_button w e) <-> withinControl w e.
Proof.
  unfold closest_a_button, withinControl. split.
  - intros [x Hx]. apply find_Some_elem in Hx as [Hin Hf]. exists x. split; [exact Hin|].
    apply orb_true_iff in Hf as [Hf|Hf]; apply bool_decide_eq_true in Hf; tauto.
  - intros (x & Hin & Htag). apply (find_is_Some _ _ x Hin).
    apply orb_true_iff.
    destruct Htag as [H|H]; [left | right]; apply bool_decide_eq_true_2, H.
Qed.

(** X10. Pressing the drag anchor on a link or a button, or on anything inside
    one, is none of the handler's business: it returns at once and the
    state is what it was.  Pressing it anywhere else stops the event,
    writes two lines to the console and records where the pointer is. *)
Theorem drag_press_skips_links_and_buttons (this : ModalRef) (down : Event) (w : World) :
  (withinControl w (ev_target down) -> __onDragMouseDown this down w = Normal tt w) /\
  (~ withinControl w (ev_target down) ->
   let w1 := outcome (__onDragMouseDown this down w) in
   __onDragMouseDown this down w = Normal tt w1 /\
   effects w1 = effects w ++ [StopPropagation; PreventDefault;
                              ConsoleLogString "target"; ConsoleLogElement (ev_target down)] /\
   (allocated this w ->
    _dragMouseDownX (deref w1 this) = Int (pageX down) /\
    _dragMouseDownY (deref w1 this) = Int (pageY down))).
Proof.
  split.
  - intros H. apply closest_a_button_withinControl in H.
    unfold __onDragMouseDown. cbv zeta.
    rewrite (bool_decide_eq_true_2 _ H). reflexivity.
  - intros H. rewrite <- closest_a_button_withinControl in H.
    unfold __onDragMouseDown. cbv zeta.
    rewrite (bool_decide_eq_false_2 _ H). unfold outcome.
    split; [reflexivity|]. split.
    + cbn [addEventListener]. autorewrite with world.
      rewrite <- !app_assoc. reflexivity.
    + intros Hal. rewrite !deref_addEventListener. split.
      * rewrite (deref_updModal_frame _dragMouseDownX) by reflexivity.
        rewrite deref_updModal_eq by allocated_side Hal. reflexivity.
      * rewrite deref_updModal_eq; [reflexivity|]. allocated_side Hal.
Qed.

Lemma drag_moves_length (this : ModalRef) (evs : list Event) (w : World) :
  length (modals (handleEach (__onDragMouseMove this) evs w)) = length (modals w).
Proof.
  unfold handleEach. revert w. induction evs as [|e evs IH]; intros w; [reflexivity|].
  simpl. rewrite IH. unfold __onDragMouseMove, required. cbv zeta.
  destruct (_dragTargetEl _); unfold outcome; unfold setStyle;
    rewrite ?modals_updElement, !length_modals_updModal; reflexivity.
Qed.

(** X11. A drag gesture registers its move and release listeners on the
    document when the anchor is pressed, and the release removes both
    after making the current translation the baseline of the next gesture. *)
Theorem drag_gesture_listeners_round_trip (this : ModalRef) (w : World)
    (down up : Event) (moves : list Event) :
  let onMove := mkListener "mousemove" (OnDragMouseMove this) true in
  let onUp := mkListener "mouseup" (OnDragMouseUp this) true in
  allocated this w ->
  ~ withinControl w (ev_target down) ->
  onMove ∉ documentListeners w -> onUp ∉ documentListeners w ->
  let w1 := outcome (__onDragMouseDown this down w) in
  let w2 := handleEach (__onDragMouseMove this) moves w1 in
  let w3 := outcome (__onDragMouseUp this up w2) in
  (documentListeners w1 = documentListeners w ++ [onMove; onUp]) /\
  (__onDragMouseUp this up w2 = Normal tt w3) /\
  (documentListeners w3 = documentListeners w) /\
  (_dragXBeforeDragging (deref w3 this) = _currentDragX (deref w2 this)) /\
  (_dragYBeforeDragging (deref w3 this) = _currentDragY (deref w2 this)).
Proof.
  intros onMove onUp Hal Hout Hm Hu w1 w2 w3.
  destruct (listener_pair_round_trip onMove onUp (documentListeners w))
    as (Hadd & _ & Hrem); [discriminate | assumption | assumption |].
  rewrite <- closest_a_button_withinControl in Hout.
  assert (H1 : documentListeners w1 = documentListeners w ++ [onMove; onUp]).
  { subst w1. unfold __onDragMouseDown. cbv zeta.
    rewrite (bool_decide_eq_false_2 _ Hout). exact Hadd. }
  assert (H2 : documentListeners w2 = documentListeners w ++ [onMove; onUp]).
  { subst w2. rewrite drag_moves_documentListeners. exact H1. }
  assert (Hal2 : allocated this w2).
  { subst w2. unfold allocated. rewrite drag_moves_length.
    subst w1. unfold __onDragMouseDown. cbv zeta.
    rewrite (bool_decide_eq_false_2 _ Hout). unfold outcome. allocated_side Hal. }
  split; [exact H1|]. split; [reflexivity|]. split; [|split].
  - subst w3. unfold __onDragMouseUp, outcome. cbv zeta.
    change (listener_remove onUp (listener_remove onMove (documentListeners w2))
            = documentListeners w).
    rewrite H2. exact Hrem.
  - subst w3. unfold __onDragMouseUp, outcome. cbv zeta.
    rewrite !deref_removeEventListener.
    rewrite (deref_updModal_frame _dragXBeforeDragging) by reflexivity.
    rewrite deref_updModal_eq by allocated_side Hal2.
    simpl. rewrite deref_emit. reflexivity.
  - subst w3. unfold __onDragMouseUp, outcome. cbv zeta.
    rewrite !deref_removeEventListener.
    rewrite deref_updModal_eq by allocated_side Hal2.
    simpl. rewrite (deref_updModal_frame _currentDragY) by reflexivity.
    rewrite deref_emit. reflexivity.
Qed.

(** * The backdrop and the scroll lock *)

Lemma noBackdrop_query (w : World) :
  noBackdrop w -> document_querySelector_attr w "modal-backdrop" = None.
Proof.
  unfold noBackdrop, document_querySelector_attr.
  induction (tree w) as [|e l IH]; intros H; simpl; [reflexivity|].
  rewrite (H e) by left. apply IH. intros x Hx. apply H. right. exact Hx.
Qed.

(** X2. A visible modal in a document that holds no backdrop element (the
    class does not get there by itself, a script that removes the backdrop
    does): [hide] marks the target up as hidden and then throws on the
    missing backdrop, and so does [toggle].  The modal still counts as
    visible, no callback has run, and every listener and every class
    outside the target is where it was. *)
Theorem hide_without_backdrop_throws (this : ModalRef) (w : World) :
  let targetEl := _targetEl (deref w this) in
  let w' := outcome (hide this w) in
  isVisible this w = true -> noBackdrop w ->
  returns (hide this w) = false /\
  returns (toggle this w) = false /\
  outcome (toggle this w) = w' /\
  isVisible this w' = true /\
  "hidden" ∈ classList (element w' targetEl) /\
  ("flex" ∉ classList (element w' targetEl)) /\
  getAttribute w' targetEl "aria-hidden" = Some "true" /\
  effects w' = effects w /\
  (forall e, listeners (element w' e) = listeners (element w e)) /\
  (forall e, e ≠ targetEl -> classList (element w' e) = classList (element w e)).
Proof.
  intros targetEl w' Hv Hnb. unfold isVisible in Hv.
  apply negb_true_iff in Hv.
  pose proof (hide_throws this w Hv (noBackdrop_query w Hnb)) as Hthrow.
  assert (Htoggle : toggle this w
            = Throw (TypeError "document.querySelector(...) is null") (hidePrefix this w)).
  { unfold toggle. rewrite Hv, Hthrow. reflexivity. }
  subst w'. rewrite Htoggle, Hthrow. unfold returns, outcome, isVisible.
  destruct (hidePrefix_target this w) as (Hcl & Hat & _). fold targetEl in Hcl, Hat.
  split; [reflexivity|]. split; [reflexivity|]. split; [reflexivity|].
  split; [|split; [|split; [|split; [|split; [|split]]]]].
  - rewrite (hidePrefix_frame (fun w0 => deref w0 this)) by reflexivity.
    rewrite Hv. reflexivity.
  - rewrite Hcl. apply token_remove_elem. split; [discriminate|].
    apply token_add_elem. left. reflexivity.
  - rewrite Hcl. rewrite token_remove_elem. intros [Hne _]. apply Hne. reflexivity.
  - unfold getAttribute. rewrite Hat.
    rewrite !lookup_delete_ne by discriminate. apply lookup_insert_eq.
  - apply (hidePrefix_frame effects). reflexivity.
  - intros e. apply (hidePrefix_element_frame listeners); reflexivity.
  - intros e He. rewrite hidePrefix_element_ne by exact He. reflexivity.
Qed.

Lemma showSuffix_classList_body (this : ModalRef) (w : World) :
  classList (element (showSuffix this w) (body w))
  = token_add "overflow-hidden" (classList (element w (body w))).
Proof.
  unfold showSuffix. cbv zeta. rewrite element_emit.
  set (w1 := classList_add _ _ _).
  assert (H1 : classList (element w1 (body w))
               = token_add "overflow-hidden" (classList (element w (body w)))).
  { subst w1. unfold classList_add. rewrite body_updModal, element_updElement_eq.
    rewrite element_updModal. reflexivity. }
  rewrite <- H1. clearbody w1.
  destruct (closable _); [|reflexivity].
  apply (_setup_element_frame classList). reflexivity.
Qed.

Lemma hideSuffix_classList_body (this : ModalRef) (w : World) :
  classList (element (hideSuffix this w) (body w))
  = token_remove "overflow-hidden" (classList (element w (body w))).
Proof.
  unfold hideSuffix. cbv zeta. rewrite element_emit.
  set (w1 := classList_remove _ _ _).
  assert (H1 : classList (element w1 (body w))
               = token_remove "overflow-hidden" (classList (element w (body w)))).
  { subst w1. unfold classList_remove. rewrite body_updModal, element_updElement_eq.
    rewrite element_updModal. reflexivity. }
  rewrite <- H1. clearbody w1.
  destruct (closable _); [|reflexivity].
  apply (_remove_element_frame classList). reflexivity.
Qed.

(** The fields of the other Modal objects. *)
Lemma showSuffix_deref_ne (this other : ModalRef) (w : World) :
  other ≠ this -> deref (showSuffix this w) other = deref w other.
Proof.
  intros Hne. unfold showSuffix. cbv zeta. rewrite deref_emit.
  set (w1 := classList_add _ _ _).
  assert (H1 : deref w1 other = deref w other).
  { subst w1. unfold classList_add. rewrite deref_updElement.
    apply deref_updModal_ne. congruence. }
  rewrite <- H1. clearbody w1.
  destruct (closable _); [|reflexivity].
  unfold _setupModalCloseEventListeners.
  rewrite deref_addEventListener, deref_updModal_ne, deref_with_nextSerial by congruence.
  destruct (decide _); [|reflexivity].
  rewrite deref_addEventListener, deref_updModal_ne, deref_with_nextSerial by congruence.
  reflexivity.
Qed.

Lemma hideSuffix_deref_ne (this other : ModalRef) (w : World) :
  other ≠ this -> deref (hideSuffix this w) other = deref w other.
Proof.
  intros Hne. unfold hideSuffix. cbv zeta. rewrite deref_emit.
  set (w1 := classList_remove _ _ _).
  assert (H1 : deref w1 other = deref w other).
  { subst w1. unfold classList_remove. rewrite deref_updElement.
    apply deref_updModal_ne. congruence. }
  rewrite <- H1. clearbody w1.
  destruct (closable _); [|reflexivity].
  apply (_remove_frame (fun w0 => deref w0 other)). reflexivity.
Qed.

Lemma show_deref_ne (this other : ModalRef) (w : World) :
  other ≠ this -> deref (outcome (show this w)) other = deref w other.
Proof.
  intros Hne. rewrite show_steps. unfold outcome.
  rewrite showSuffix_deref_ne by exact Hne.
  destruct (_isHidden (deref (showPrefix this w) this)) eqn:E.
  - rewrite _createBackdrop_hidden by exact E.
    rewrite deref_updModal_ne by congruence.
    unfold body_append. rewrite deref_with_tree, deref_updElement.
    rewrite (backdropSketch_frame (fun w0 => deref w0 other)) by reflexivity.
    apply (showPrefix_frame (fun w0 => deref w0 other)). reflexivity.
  - rewrite _createBackdrop_visible by exact E.
    apply (showPrefix_frame (fun w0 => deref w0 other)). reflexivity.
Qed.

Lemma hide_deref_ne (this other : ModalRef) (w : World) :
  other ≠ this -> deref (outcome (hide this w)) other = deref w other.
Proof.
  intros Hne.
  assert (Hp : deref (hidePrefix this w) other = deref w other)
    by (apply (hidePrefix_frame (fun w0 => deref w0 other)); reflexivity).
  destruct (_isHidden (deref w this)) eqn:E.
  - rewrite hide_hidden by exact E. unfold outcome.
    rewrite hideSuffix_deref_ne by exact Hne. exact Hp.
  - destruct (document_querySelector_attr w "modal-backdrop") as [el|] eqn:Hq.
    + rewrite (hide_visible this w el) by assumption. unfold outcome.
      rewrite hideSuffix_deref_ne by exact Hne.
      rewrite (remove_frame (fun w0 => deref w0 other)) by reflexivity. exact Hp.
    + rewrite hide_throws by assumption. exact Hp.
Qed.

(** X6. The class that keeps the page from scrolling is on the body after
    every [show] that returns (one that builds no backdrop, or builds it
    from valid tokens) and off it after every [hide] that returns,
    whichever other modals are visible: they stay as they are. *)
Theorem body_scroll_lock_follows_last_call (this : ModalRef) (w : World) :
  (showable this w ->
   "overflow-hidden" ∈ classList (element (outcome (show this w)) (body w)) /\
   forall other, other ≠ this ->
     isVisible other (outcome (show this w)) = isVisible other w) /\
  (backdropAvailable this w ->
   hide this w = Normal tt (outcome (hide this w)) /\
   ("overflow-hidden" ∉ classList (element (outcome (hide this w)) (body w))) /\
   forall other, other ≠ this ->
     isVisible other (outcome (hide this w)) = isVisible other w).
Proof.
  split; [intros _; split|].
  - rewrite show_steps. unfold outcome. fold (showMiddle this w).
    rewrite <- (showMiddle_frame body this w) by reflexivity.
    rewrite showSuffix_classList_body. apply token_add_elem. left. reflexivity.
  - intros other Hne. unfold isVisible. rewrite show_deref_ne by exact Hne. reflexivity.
  - intros Hav. split; [apply hide_effects, Hav|]. split.
    + assert (Hs : forall w0, body w0 = body w ->
                "overflow-hidden" ∉ classList (element (hideSuffix this w0) (body w))).
      { intros w0 <-. rewrite hideSuffix_classList_body, token_remove_elem.
        intros [Hne _]. apply Hne. reflexivity. }
      destruct (_isHidden (deref w this)) eqn:E.
      * rewrite hide_hidden by exact E. unfold outcome.
        apply Hs. apply (hidePrefix_frame body). reflexivity.
      * destruct (Hav E) as [el Hq].
        rewrite (hide_visible this w el) by assumption. unfold outcome.
        apply Hs. rewrite (remove_frame body) by reflexivity.
        apply (hidePrefix_frame body). reflexivity.
    + intros other Hne. unfold isVisible. rewrite hide_deref_ne by exact Hne. reflexivity.
Qed.

Lemma fold_classList_add_classList (e : ElemId) (l : list string) (w : World) :
  classList (element (fold_left (fun w0 c => classList_add e c w0) l w) e)
  = fold_left (fun cl c => token_add c cl) l (classList (element w e)).
Proof.
  revert w. induction l as [|c l IH]; intros w; simpl; [reflexivity|].
  rewrite IH. unfold classList_add. rewrite element_updElement_eq. reflexivity.
Qed.

Lemma backdropSketch_classList (this : ModalRef) (w : World) :
  classList (element (backdropSketch this w) (nextElem w))
  = fold_left (fun cl c => token_add c cl)
      (split_spaces (backdropClasses (_options (deref w this)))) [].
Proof.
  unfold backdropSketch. rewrite fold_classList_add_classList.
  unfold setAttribute. rewrite element_updElement_eq. simpl.
  unfold createElement, element; simpl. rewrite lookup_insert_eq. reflexivity.
Qed.

(** What [show] on a hidden modal adds to the document. *)
Lemma show_creates_backdrop_facts (this : ModalRef) (w : World) :
  allocated this w -> isHidden this w = true -> body w ≠ nextElem w ->
  let w' := outcome (show this w) in
  tree w' = tree w ++ [nextElem w] /\
  nextElem w' = S (nextElem w) /\
  _backdropEl (deref w' this) = Some (nextElem w) /\
  attributes (element w' (nextElem w)) = {["modal-backdrop" := ""]}.
Proof.
  intros Hal Hh Hbody w'. unfold isHidden in Hh.
  assert (Hh1 : _isHidden (deref (showPrefix this w) this) = true).
  { rewrite (showPrefix_frame (fun w0 => deref w0 this)) by reflexivity. exact Hh. }
  assert (Hn1 : nextElem (showPrefix this w) = nextElem w)
    by (apply (showPrefix_frame nextElem); reflexivity).
  destruct (_createBackdrop_hidden_view this (showPrefix this w) Hh1)
    as (Ht & Hn & _).
  rewrite Hn1 in Ht, Hn.
  subst w'. rewrite show_steps. unfold outcome.
  split; [rewrite (showSuffix_frame tree) by reflexivity;
          rewrite Ht, (showPrefix_frame tree) by reflexivity; reflexivity|].
  split; [rewrite (showSuffix_frame nextElem) by reflexivity; exact Hn|].
  split.
  - rewrite (showSuffix_deref_frame _backdropEl) by reflexivity.
    rewrite _createBackdrop_hidden by exact Hh1. rewrite Hn1.
    rewrite deref_updModal_eq; [reflexivity|].
    unfold allocated, body_append. rewrite modals_with_tree, modals_updElement.
    rewrite (backdropSketch_frame modals) by reflexivity.
    rewrite (showPrefix_frame modals) by reflexivity. exact Hal.
  - rewrite (showSuffix_element_frame attributes) by reflexivity.
    rewrite <- Hn1. apply _createBackdrop_backdrop_attributes, Hh1.
Qed.

(** X3. [show] on a hidden modal whose backdrop classes are valid tokens
    creates one element: the last child of the body, carrying the
    attribute [modal-backdrop] and the classes that [backdropClasses]
    lists, and remembered in [_backdropEl].  On a modal that is visible
    already it creates none. *)
Theorem show_creates_backdrop_only_when_hidden (this : ModalRef) (w : World) :
  let b := nextElem w in
  let w' := outcome (show this w) in
  (allocated this w -> isHidden this w = true ->
   acceptsBackdropClasses this w = true -> body w ≠ b ->
   tree w' = tree w ++ [b] /\
   nextElem w' = S b /\
   _backdropEl (deref w' this) = Some b /\
   parentNode (element w' b) = Some (body w) /\
   attributes (element w' b) = {["modal-backdrop" := ""]} /\
   classList (element w' b)
     = fold_left (fun cl c => token_add c cl)
         (split_spaces (backdropClasses (_options (deref w this)))) [] /\
   (backdropClasses (_options (deref w this)) = backdropClasses DefaultOptions ->
    classList (element w' b) = ["bg-black"; "bg-opacity-30"; "fixed"; "inset-0"; "z-40"])) /\
  (isVisible this w = true ->
   tree w' = tree w /\ nextElem w' = nextElem w /\
   _backdropEl (deref w' this) = _backdropEl (deref w this)).
Proof.
  intros b w'. split.
  - intros Hal Hh _ Hbody. unfold isHidden in Hh.
    assert (Hh1 : _isHidden (deref (showPrefix this w) this) = true).
    { rewrite (showPrefix_frame (fun w0 => deref w0 this)) by reflexivity. exact Hh. }
    assert (Hn1 : nextElem (showPrefix this w) = b)
      by (apply (showPrefix_frame nextElem); reflexivity).
    assert (Hb1 : body (showPrefix this w) = body w)
      by (apply (showPrefix_frame body); reflexivity).
    assert (Ho1 : _options (deref (showPrefix this w) this) = _options (deref w this)).
    { rewrite (showPrefix_frame (fun w0 => deref w0 this)) by reflexivity. reflexivity. }
    destruct (_createBackdrop_hidden_view this (showPrefix this w) Hh1)
      as (Ht & Hn & Hbd & _ & _ & Hpar & _ & _).
    rewrite Hn1 in Ht, Hn, Hpar. rewrite Hb1 in Hbd, Hpar.
    assert (Hcl : classList (element w' b)
                  = fold_left (fun cl c => token_add c cl)
                      (split_spaces (backdropClasses (_options (deref w this)))) []).
    { subst w'. rewrite show_steps. unfold outcome.
      rewrite showSuffix_classList_ne by (rewrite Hbd; congruence).
      rewrite _createBackdrop_hidden by exact Hh1.
      rewrite element_updModal. unfold body_append.
      rewrite element_with_tree, Hn1.
      rewrite (element_updElement_frame classList) by reflexivity.
      rewrite <- Hn1, backdropSketch_classList, Ho1. reflexivity. }
    subst w'. rewrite show_steps. unfold outcome.
    split; [rewrite (showSuffix_frame tree) by reflexivity;
            rewrite Ht, (showPrefix_frame tree) by reflexivity; reflexivity|].
    split; [rewrite (showSuffix_frame nextElem) by reflexivity; exact Hn|].
    split.
    { rewrite (showSuffix_deref_frame _backdropEl) by reflexivity.
      rewrite _createBackdrop_hidden by exact Hh1. rewrite Hn1.
      rewrite deref_updModal_eq; [reflexivity|].
      unfold allocated, body_append. rewrite modals_with_tree, modals_updElement.
      rewrite (backdropSketch_frame modals) by reflexivity.
      rewrite (showPrefix_frame modals) by reflexivity. exact Hal. }
    split; [rewrite (showSuffix_element_frame parentNode) by reflexivity; exact Hpar|].
    split.
    { rewrite (showSuffix_element_frame attributes) by reflexivity.
      rewrite <- Hn1. apply _createBackdrop_backdrop_attributes, Hh1. }
    split; [rewrite show_steps in Hcl; exact Hcl|].
    intros Hdef. rewrite show_steps in Hcl. unfold outcome in Hcl.
    rewrite Hcl, Hdef. reflexivity.
  - intros Hv. unfold isVisible in Hv. apply negb_true_iff in Hv.
    subst w'. split; [rewrite show_tree, Hv; reflexivity|].
    rewrite show_steps. unfold outcome.
    assert (Hv1 : _isHidden (deref (showPrefix this w) this) = false).
    { rewrite (showPrefix_frame (fun w0 => deref w0 this)) by reflexivity. exact Hv. }
    split.
    + rewrite (showSuffix_frame nextElem) by reflexivity.
      rewrite _createBackdrop_visible by exact Hv1.
      apply (showPrefix_frame nextElem). reflexivity.
    + rewrite (showSuffix_deref_frame _backdropEl) by reflexivity.
      rewrite _createBackdrop_visible by exact Hv1.
      rewrite (showPrefix_frame (fun w0 => deref w0 this)) by reflexivity. reflexivity.
Qed.

Lemma tidy_show (this : ModalRef) (w : World) : tidy w -> tidy (outcome (show this w)).
Proof.
  intros T. rewrite show_steps. unfold outcome.
  apply (sameView_tidy _ _ (showSuffix_view this _)), tidy_updModal.
  pose proof (sameView_tidy _ _ (quiet_showPrefix this w) T) as Ta.
  destruct (_isHidden (deref (showPrefix this w) this)) eqn:E.
  - apply (_createBackdrop_hidden_consistent this (showPrefix this w) E Ta).
  - rewrite _createBackdrop_visible by exact E. exact Ta.
Qed.

(** The document after a [hide] that found the backdrop [b]. *)
Lemma hide_visible_tree (this : ModalRef) (w : World) (b : ElemId) :
  tidy w -> _isHidden (deref w this) = false ->
  document_querySelector_attr w "modal-backdrop" = Some b ->
  hide this w = Normal tt (outcome (hide this w)) /\
  tree (outcome (hide this w)) = filter (fun x => x ≠ b) (tree w) /\
  parentNode (element (outcome (hide this w)) b) = None.
Proof.
  intros T E Hq. rewrite (hide_visible this w b) by assumption. unfold outcome.
  split; [reflexivity|].
  pose proof (sameView_tidy _ _ (quiet_hidePrefix this w) T) as Tp.
  destruct (find_Some_elem _ _ _ Hq) as [_ Hb].
  rewrite <- (hidePrefix_backdrop_attr this) in Hb.
  split.
  - rewrite (hideSuffix_frame tree) by reflexivity.
    rewrite (remove_tree _ _ Tp Hb).
    rewrite (hidePrefix_frame tree) by reflexivity. reflexivity.
  - rewrite (hideSuffix_element_frame parentNode) by reflexivity.
    unfold remove. rewrite element_updElement_eq. reflexivity.
Qed.

(** X4. A visible modal's [hide] takes the first backdrop element of the
    document out of it, whichever modal created that element, and keeps
    its own [_backdropEl] as it was; [hide] on a hidden modal removes
    nothing. *)
Theorem hide_removes_first_backdrop (this : ModalRef) (w : World) :
  let w' := outcome (hide this w) in
  (tidy w -> isVisible this w = true ->
   forall b, document_querySelector_attr w "modal-backdrop" = Some b ->
     hide this w = Normal tt w' /\
     tree w' = filter (fun x => x ≠ b) (tree w) /\
     parentNode (element w' b) = None) /\
  (isHidden this w = true -> hide this w = Normal tt w' /\ tree w' = tree w) /\
  (_backdropEl (deref w' this) = _backdropEl (deref w this)).
Proof.
  intros w'. subst w'. split; [|split].
  - intros T Hv b Hq. unfold isVisible in Hv. apply negb_true_iff in Hv.
    apply hide_visible_tree; assumption.
  - unfold isHidden. intros E. rewrite hide_hidden by exact E.
    split; [reflexivity|]. unfold outcome.
    rewrite (hideSuffix_frame tree) by reflexivity.
    apply (hidePrefix_frame tree). reflexivity.
  - apply (hide_deref_frame _backdropEl). reflexivity.
Qed.

Lemma find_app_skip {A : Type} (f : A -> bool) (l1 l2 : list A) :
  (forall x, x ∈ l1 -> f x = false) -> List.find f (l1 ++ l2) = List.find f l2.
Proof.
  induction l1 as [|x l1 IH]; intros H; simpl; [reflexivity|].
  rewrite (H x) by left. apply IH. intros y Hy. apply H. right. exact Hy.
Qed.

Lemma filter_ne_fresh (b : ElemId) (l : list ElemId) :
  b ∉ l -> filter (fun x => x ≠ b) l = l.
Proof.
  induction l as [|x l IH]; intros H; [reflexivity|].
  rewrite not_elem_of_cons in H. destruct H as [Hne H].
  rewrite filter_cons_True by congruence. rewrite IH by exact H. reflexivity.
Qed.

(** What [show] on a hidden modal does to a tidy document. *)
Lemma show_hidden_step (this : ModalRef) (w : World) :
  tidy w -> allocated this w -> isHidden this w = true ->
  let w' := outcome (show this w) in
  tidy w' /\ body w' = body w /\
  tree w' = tree w ++ [nextElem w] /\ nextElem w' = S (nextElem w) /\
  _backdropEl (deref w' this) = Some (nextElem w) /\
  _isHidden (deref w' this) = false /\
  hasAttribute w' (nextElem w) "modal-backdrop" = true /\
  (forall e, e ≠ nextElem w ->
     hasAttribute w' e "modal-backdrop" = hasAttribute w e "modal-backdrop") /\
  (forall m, allocated m w -> allocated m w') /\
  (forall other, other ≠ this -> deref w' other = deref w other).
Proof.
  intros T Hal Hh w'. subst w'.
  assert (Hbody : body w ≠ nextElem w).
  { pose proof (tidy_body w T) as [Hlt _]. lia. }
  destruct (show_creates_backdrop_facts this w Hal Hh Hbody) as (Ht & Hn & Hf & Ha).
  split; [apply tidy_show, T|].
  split.
  { rewrite show_steps. unfold outcome.
    rewrite (showSuffix_frame body) by reflexivity.
    apply (showMiddle_frame body); reflexivity. }
  split; [exact Ht|]. split; [exact Hn|]. split; [exact Hf|].
  split; [apply show_isHidden, Hal|].
  split.
  { unfold hasAttribute, getAttribute. rewrite Ha, lookup_singleton_eq.
    apply bool_decide_eq_true_2. eauto. }
  split; [intros e He; apply show_backdrop_attr, He|].
  split; [intros m Hm; apply show_allocated, Hm|].
  intros other Hne. apply show_deref_ne, Hne.
Qed.

(** X5. Two modals whose backdrop classes are valid tokens, shown one after
    the other, the second hidden again: the backdrop that leaves the
    document is the one of the first modal, which is still visible; the
    backdrop of the second, now hidden, stays. *)
Theorem stacked_hide_removes_the_other_backdrop (first second : ModalRef) (w : World) :
  let b1 := nextElem w in
  let b2 := S (nextElem w) in
  let w1 := outcome (show first w) in
  let w2 := outcome (show second w1) in
  let w3 := outcome (hide second w2) in
  tidy w -> noBackdrop w ->
  first ≠ second -> allocated first w -> allocated second w ->
  isHidden first w = true -> isHidden second w = true ->
  acceptsBackdropClasses first w = true -> acceptsBackdropClasses second w = true ->
  (hide second w2 = Normal tt w3) /\
  (isVisible first w3 = true) /\ (isHidden second w3 = true) /\
  (_backdropEl (deref w3 first) = Some b1) /\
  (_backdropEl (deref w3 second) = Some b2) /\
  (tree w2 = tree w ++ [b1; b2]) /\
  (tree w3 = tree w ++ [b2]).
Proof.
  cbv zeta. intros T Hnb Hne Hal1 Hal2 Hh1 Hh2 _ _.
  assert (Hfresh : forall e, e ∈ tree w -> e < nextElem w) by apply (tidy_tree w T).
  pose proof (show_hidden_step first w T Hal1 Hh1) as S1. cbv zeta in S1.
  revert S1. generalize (outcome (show first w)). intros w1 S1.
  destruct S1 as (T1 & Hb1 & Ht1 & Hn1 & Hf1 & Hv1 & Hnew1 & Hold1 & Hall1 & Hoth1).
  assert (Hh2' : isHidden second w1 = true).
  { unfold isHidden. rewrite Hoth1 by congruence. exact Hh2. }
  pose proof (show_hidden_step second w1 T1 (Hall1 _ Hal2) Hh2') as S2. cbv zeta in S2.
  revert S2. generalize (outcome (show second w1)). intros w2 S2.
  destruct S2 as (T2 & Hb2 & Ht2 & Hn2 & Hf2 & Hv2 & Hnew2 & Hold2 & Hall2 & Hoth2).
  rewrite Hn1 in Ht2, Hn2, Hf2, Hnew2, Hold2.
  assert (Htree2 : tree w2 = tree w ++ [nextElem w; S (nextElem w)]).
  { rewrite Ht2, Ht1, <- app_assoc. reflexivity. }
  assert (Hq : document_querySelector_attr w2 "modal-backdrop" = Some (nextElem w)).
  { unfold document_querySelector_attr. rewrite Htree2, find_app_skip.
    - simpl. rewrite Hold2 by lia. rewrite Hnew1. reflexivity.
    - intros e He. pose proof (Hfresh e He).
      rewrite Hold2, Hold1 by lia. apply Hnb, He. }
  destruct (hide_visible_tree second w2 (nextElem w) T2 Hv2 Hq) as (Hret & Ht3 & _).
  assert (Hav : backdropAvailable second w2) by (intros _; rewrite Hq; eauto).
  pose proof (hide_isHidden second w2 (Hall2 _ (Hall1 _ Hal2)) Hav) as Hh3.
  pose proof (hide_deref_ne second first w2 Hne) as Hd3.
  pose proof (hide_deref_frame _backdropEl second second w2 (fun _ _ => eq_refl)) as Hf3.
  revert Hret Ht3 Hh3 Hd3 Hf3. generalize (outcome (hide second w2)).
  intros w3 Hret Ht3 Hh3 Hd3 Hf3.
  split; [exact Hret|]. split; [|split; [|split; [|split; [|split]]]].
  - unfold isVisible. rewrite Hd3, Hoth2, Hv1 by congruence. reflexivity.
  - exact Hh3.
  - rewrite Hd3, Hoth2 by congruence. exact Hf1.
  - rewrite Hf3. exact Hf2.
  - exact Htree2.
  - rewrite Ht3, Htree2, filter_app.
    rewrite filter_ne_fresh by (intros Hin; apply Hfresh in Hin; lia).
    rewrite filter_cons_False by (intros Hn; apply Hn; reflexivity).
    rewrite filter_cons_True by lia. reflexivity.
Qed.

(** * What [show] registers, and the Escape key *)

Lemma showMiddle_listeners (this : ModalRef) (w : World) (e : ElemId) :
  e ≠ nextElem w -> listeners (element (showMiddle this w) e) = listeners (element w e).
Proof.
  intros Hne. unfold showMiddle.
  rewrite _createBackdrop_element_ne
    by (rewrite (showPrefix_frame nextElem) by reflexivity; exact Hne).
  apply (showPrefix_element_frame listeners); reflexivity.
Qed.

Lemma _setup_listeners_static (this : ModalRef) (w : World) (e : ElemId) :
  backdrop (_options (deref w this)) ≠ "dynamic" ->
  listeners (element (_setupModalCloseEventListeners this w) e)
  = if decide (body w = e)
    then listener_add (mkListener "keydown" (KeydownClosure this (nextSerial w)) true)
           (listeners (element w e))
    else listeners (element w e).
Proof.
  intros Hst. unfold _setupModalCloseEventListeners.
  destruct (decide _) as [Hdyn|_]; [contradiction|].
  rewrite listeners_addEventListener, body_updModal, body_with_nextSerial.
  rewrite element_updModal, element_with_nextSerial. reflexivity.
Qed.

(** X7. The listeners that a [show] that returns (one that builds no
    backdrop, or builds it from valid tokens) registers are those that the
    options ask for: none when the modal is not closable; with a backdrop
    that is not "dynamic", the Escape listener on the body and nothing on
    any other element; never one on the document itself. *)
Theorem show_registers_what_options_ask (this : ModalRef) (w : World) (e : ElemId) :
  let w' := outcome (show this w) in
  showable this w ->
  e ≠ nextElem w ->
  (closable (_options (deref w this)) = false ->
   listeners (element w' e) = listeners (element w e)) /\
  (closable (_options (deref w this)) = true ->
   backdrop (_options (deref w this)) ≠ "dynamic" ->
   listeners (element w' e)
   = if decide (body w = e)
     then listener_add (mkListener "keydown" (KeydownClosure this (nextSerial w)) true)
            (listeners (element w e))
     else listeners (element w e)) /\
  (documentListeners w' = documentListeners w).
Proof.
  intros w' _ Hne. subst w'. rewrite show_steps. unfold outcome. fold (showMiddle this w).
  pose proof (showMiddle_listeners this w e Hne) as Hl.
  pose proof (showMiddle_deref_frame _options this this w (fun _ _ => eq_refl)) as Ho.
  assert (Hb : body (showMiddle this w) = body w)
    by (apply (showMiddle_frame body); reflexivity).
  assert (Hs : nextSerial (showMiddle this w) = nextSerial w)
    by (apply (showMiddle_frame nextSerial); reflexivity).
  assert (Hd : documentListeners (showMiddle this w) = documentListeners w)
    by (apply (showMiddle_frame documentListeners); reflexivity).
  rewrite <- Ho, <- Hl, <- Hb, <- Hs, <- Hd.
  generalize (showMiddle this w). clear Hl Ho Hb Hs Hd. intros w1.
  split; [|split]; [| |apply (showSuffix_frame documentListeners); reflexivity].
  - intros Hc. unfold showSuffix. cbv zeta. rewrite element_emit.
    set (w2 := classList_add _ _ _).
    assert (Ho2 : _options (deref w2 this) = _options (deref w1 this)).
    { subst w2. unfold classList_add. rewrite deref_updElement.
      apply deref_updModal_frame. reflexivity. }
    rewrite Ho2, Hc. subst w2. unfold classList_add.
    rewrite (element_updElement_frame listeners) by reflexivity.
    rewrite element_updModal. reflexivity.
  - intros Hc Hst. unfold showSuffix. cbv zeta. rewrite element_emit.
    set (w2 := classList_add _ _ _).
    assert (Ho2 : _options (deref w2 this) = _options (deref w1 this)).
    { subst w2. unfold classList_add. rewrite deref_updElement.
      apply deref_updModal_frame. reflexivity. }
    assert (Hl2 : listeners (element w2 e) = listeners (element w1 e)).
    { subst w2. unfold classList_add.
      rewrite (element_updElement_frame listeners) by reflexivity.
      rewrite element_updModal. reflexivity. }
    rewrite Ho2, Hc. rewrite _setup_listeners_static by (rewrite Ho2; exact Hst).
    rewrite Hl2. reflexivity.
Qed.

(** X1. In every state that can be reached from a page without Modal objects
    the document holds at least as many backdrop elements as there are
    visible modals, so that [hide] never looks for a backdrop in vain: it
    returns on every modal, and so does [toggle] on every modal that is
    visible. *)
Theorem reachable_calls_return (w : World) (this : ModalRef) :
  reachable w ->
  countVisible w <= countBackdrops w /\
  backdropAvailable this w /\
  hide this w = Normal tt (outcome (hide this w)) /\
  (isVisible this w = true ->
   toggle this w
   = Normal tt (emit (Invoked HookToggle
                        (onToggle (_options (deref (outcome (hide this w)) this))) this)
                  (outcome (hide this w)))).
Proof.
  intros Hr.
  pose proof (reachable_consistent w Hr) as [_ Hc].
  pose proof (reachable_hide_returns w this Hr) as Hh.
  split; [exact Hc|]. split; [apply reachable_backdropAvailable, Hr|].
  split; [exact Hh|].
  unfold isVisible, toggle. intros E. apply negb_true_iff in E. rewrite E.
  rewrite Hh. reflexivity.
Qed.

(** The Escape key on a keydown closure of a modal that [hide] can
    handle: the modal is hidden afterwards, and it stays so. *)
Lemma callListeners_escape (this : ModalRef) (targetEl : ElemId)
    (backdropEl : option ElemId) (t : ElemId) (ev : Event) (n : nat)
    (ls : list Listener) (w : World) :
  let registered := mkListener "keydown" (KeydownClosure this n) true in
  ev_type ev = "keydown" -> ev_key ev = "Escape" ->
  (forall l, l ∈ ls -> l_type l = "keydown" ->
             exists k, l_callback l = KeydownClosure this k) ->
  dismissible this targetEl backdropEl w ->
  _isHidden (deref w this) = true \/
    (registered ∈ ls /\ registered ∈ listeners (element w t)) ->
  _isHidden (deref (callListeners (OnElement t) ls ev w) this) = true.
Proof.
  intros registered Hty Hkey. revert w.
  induction ls as [|l ls IH]; intros w Hown Hd Hcase; simpl.
  - destruct Hcase as [E|[Hin _]]; [exact E | inversion Hin].
  - assert (Hown' : forall l0, l0 ∈ ls -> l_type l0 = "keydown" ->
               exists k, l_callback l0 = KeydownClosure this k).
    { intros l0 Hl0. apply Hown. right. exact Hl0. }
    destruct (bool_decide (l_type l = ev_type ev) && bool_decide (l ∈ listeners (element w t)))
      eqn:Hrun.
    + apply andb_true_iff in Hrun as [Hlty Hreg].
      apply bool_decide_eq_true in Hlty. rewrite Hty in Hlty.
      destruct (Hown l (list_elem_of_here _ _) Hlty) as [k Hk].
      rewrite Hk. simpl invoke.
      destruct (decide (ev_key ev = "Escape")) as [_|Hn]; [|contradiction].
      destruct (hide_dismissible this targetEl backdropEl w Hd) as (Hret & Hd' & Hh').
      rewrite Hret. apply IH; [exact Hown' | exact Hd' | left; exact Hh'].
    + apply IH; [exact Hown' | exact Hd |].
      destruct Hcase as [E|[Hin Hreg]]; [left; exact E|]. right.
      split; [|exact Hreg].
      apply elem_of_cons in Hin as [Heq|Hin]; [|exact Hin].
      exfalso. subst l. simpl in Hrun. rewrite Hty in Hrun.
      rewrite bool_decide_eq_true_2 in Hrun by reflexivity.
      rewrite (bool_decide_eq_true_2 _ Hreg) in Hrun. discriminate.
Qed.

(** Any other key: no keydown closure does anything. *)
Lemma callListeners_other_key (this : ModalRef) (t : ElemId) (ev : Event)
    (ls : list Listener) (w : World) :
  ev_type ev = "keydown" -> ev_key ev ≠ "Escape" ->
  (forall l, l ∈ ls -> l_type l = "keydown" ->
             exists k, l_callback l = KeydownClosure this k) ->
  callListeners (OnElement t) ls ev w = w.
Proof.
  intros Hty Hkey. induction ls as [|l ls IH]; intros Hown; simpl; [reflexivity|].
  assert (Hown' : forall l0, l0 ∈ ls -> l_type l0 = "keydown" ->
             exists k, l_callback l0 = KeydownClosure this k).
  { intros l0 Hl0. apply Hown. right. exact Hl0. }
  destruct (bool_decide (l_type l = ev_type ev) && bool_decide (l ∈ listeners (element w t)))
    eqn:Hrun; [|apply IH, Hown'].
  apply andb_true_iff in Hrun as [Hlty _].
  apply bool_decide_eq_true in Hlty. rewrite Hty in Hlty.
  destruct (Hown l (list_elem_of_here _ _) Hlty) as [k Hk].
  rewrite Hk. simpl invoke.
  destruct (decide (ev_key ev = "Escape")) as [He|_]; [contradiction|].
  apply IH, Hown'.
Qed.

(** X8. A closable modal that [show] has made visible (it built no
    backdrop, or built it from valid tokens) has a "keydown" listener on
    the body.  When a key event reaches the listeners of the
    body, the modal is hidden afterwards if the key is Escape, and nothing
    at all changes for any other key.  (The body carries no "keydown"
    listeners besides the keydown closures of this modal.) *)
Theorem escape_key_dismisses (this : ModalRef) (w0 : World) (ev : Event) :
  let w := outcome (show this w0) in
  let w' := deliver (OnElement (body w0)) ev w in
  allocated this w0 ->
  showable this w0 ->
  body w0 ≠ nextElem w0 ->
  closable (_options (deref w0 this)) = true ->
  backdropAvailable this w0 ->
  onlyOwnKeydown this (body w0) w0 ->
  ev_type ev = "keydown" ->
  (isVisible this w = true) /\
  (exists n, mkListener "keydown" (KeydownClosure this n) true
               ∈ listeners (element w (body w0))) /\
  (ev_key ev = "Escape" -> isHidden this w' = true) /\
  (ev_key ev ≠ "Escape" -> w' = w).
Proof.
  intros w w' Hal _ Hb Hc Hav Hown Hty.
  destruct (show_registers_keydown this w0 Hc) as [Hreg _]. fold w in Hreg.
  assert (Hown1 : forall l, l ∈ listeners (element w (body w0)) -> l_type l = "keydown" ->
                    exists k, l_callback l = KeydownClosure this k).
  { intros l Hl Hlty. apply show_listeners_sub in Hl; [|exact Hb].
    destruct Hl as [Hl|[[n ->]|[n ->]]]; [apply Hown; assumption | discriminate | eauto]. }
  split; [unfold isVisible, w; rewrite show_isHidden by exact Hal; reflexivity|].
  split; [eauto|].
  split.
  - intros Hkey. unfold isHidden. subst w'. unfold deliver, listenersOf.
    apply (callListeners_escape this (_targetEl (deref w this)) (_backdropEl (deref w this))
             (body w0) ev (keydownSerial this w0)); try assumption.
    + split; [apply show_allocated, Hal | reflexivity | reflexivity |
              apply show_backdropAvailable, Hav].
    + right. split; exact Hreg.
  - intros Hkey. subst w'. unfold deliver, listenersOf.
    apply (callListeners_other_key this); assumption.
Qed.

(** * Bootstrapping *)

(** ** The markup stays the same *)

Lemma sameMarkup_refl (w : World) : sameMarkup w w.
Proof. split; reflexivity. Qed.

Lemma sameMarkup_trans (w1 w2 w3 : World) :
  sameMarkup w1 w2 -> sameMarkup w2 w3 -> sameMarkup w1 w3.
Proof. intros [A1 A2 A3 A4 A5] [B1 B2 B3 B4 B5]. split; congruence. Qed.

Lemma sameMarkup_updElement (e : ElemId) (f : Element -> Element) (w : World) :
  (forall x, tagName (f x) = tagName x) ->
  (forall x, parentNode (f x) = parentNode x) ->
  (forall x, attributes (f x) = attributes x) ->
  sameMarkup w (updElement e f w).
Proof.
  intros Ht Hp Ha. split; try reflexivity; intros e'.
  - apply (element_updElement_frame tagName), Ht.
  - apply (element_updElement_frame parentNode), Hp.
  - apply (element_updElement_frame attributes), Ha.
Qed.

Lemma sameMarkup_elements (w w1 w' : World) :
  elements w' = elements w1 -> tree w' = tree w1 -> body w' = body w1 ->
  sameMarkup w w1 -> sameMarkup w w'.
Proof.
  intros He Ht Hb [A1 A2 A3 A4 A5].
  split; [congruence | congruence | | |]; intros e; unfold element in *; rewrite He; auto.
Qed.

Lemma ancestors_sameMarkup (w w' : World) (e : ElemId) :
  sameMarkup w w' -> ancestors w' e = ancestors w e.
Proof.
  intros [Ht _ _ Hp _]. unfold ancestors. rewrite Ht.
  generalize (S (length (tree w))). intros fuel. revert e.
  induction fuel as [|k IH]; intros e; simpl; [reflexivity|].
  rewrite Hp. destruct (parentNode (element w e)); [rewrite IH|]; reflexivity.
Qed.

Lemma getAttribute_sameMarkup (w w' : World) (e : ElemId) (name : string) :
  sameMarkup w w' -> getAttribute w' e name = getAttribute w e name.
Proof. intros [_ _ _ _ Ha]. unfold getAttribute. rewrite Ha. reflexivity. Qed.

Lemma hasAttribute_sameMarkup (w w' : World) (e : ElemId) (name : string) :
  sameMarkup w w' -> hasAttribute w' e name = hasAttribute w e name.
Proof.
  intros H. unfold hasAttribute. rewrite (getAttribute_sameMarkup w w') by exact H.
  reflexivity.
Qed.

Lemma find_ext {A : Type} (f g : A -> bool) (l : list A) :
  (forall x, f x = g x) -> List.find f l = List.find g l.
Proof.
  intros H. induction l as [|x l IH]; simpl; [reflexivity|].
  rewrite H, IH. reflexivity.
Qed.

Lemma querySelector_attr_sameMarkup (w w' : World) (root : ElemId) (name : string) :
  sameMarkup w w' -> querySelector_attr w' root name = querySelector_attr w root name.
Proof.
  intros H. unfold querySelector_attr. rewrite (sm_tree w w' H).
  apply find_ext. intros e.
  rewrite (ancestors_sameMarkup w w') by exact H.
  rewrite (hasAttribute_sameMarkup w w') by exact H. reflexivity.
Qed.

Lemma querySelector_id_sameMarkup (w w' : World) (root : ElemId) (i : string) :
  sameMarkup w w' -> querySelector_id w' root i = querySelector_id w root i.
Proof.
  intros H. unfold querySelector_id. rewrite (sm_tree w w' H).
  apply find_ext. intros e.
  rewrite (ancestors_sameMarkup w w') by exact H.
  rewrite (getAttribute_sameMarkup w w') by exact H. reflexivity.
Qed.

Lemma getElementById_sameMarkup (w w' : World) (i : string) :
  sameMarkup w w' -> getElementById w' i = getElementById w i.
Proof.
  intros H. unfold getElementById. destruct (decide (i = "")); [reflexivity|].
  rewrite (sm_tree w w' H). apply find_ext. intros e.
  rewrite (getAttribute_sameMarkup w w') by exact H. reflexivity.
Qed.

Lemma querySelectorAll_attr_sameMarkup (w w' : World) (name : string) :
  sameMarkup w w' -> querySelectorAll_attr w' name = querySelectorAll_attr w name.
Proof.
  intros H. unfold querySelectorAll_attr. rewrite (sm_tree w w' H).
  apply filter_ext_in_list. intros e. apply hasAttribute_sameMarkup, H.
Qed.

(** ** States that extend a state *)

Lemma extends_refl (w : World) : extends w w.
Proof.
  split; try reflexivity; try tauto.
  - apply sameMarkup_refl.
  - intros m Hm. unfold deref. rewrite lookup_ge_None_2 by exact Hm. reflexivity.
Qed.

Lemma extends_trans (w1 w2 w3 : World) : extends w1 w2 -> extends w2 w3 -> extends w1 w3.
Proof.
  intros [A1 A2 A3 A4 A5 A6 A7] [B1 B2 B3 B4 B5 B6 B7]. split.
  - eapply sameMarkup_trans; eassumption.
  - lia.
  - intros m Hm. rewrite B3 by lia. apply A3, Hm.
  - intros m Hm. destruct (decide (m < length (modals w2))) as [Hlt|Hge].
    + rewrite B3 by exact Hlt. apply A4, Hm.
    + apply B4. lia.
  - intros e l Hl. apply B5, A5, Hl.
  - congruence.
  - intros h m. rewrite B7. apply A7.
Qed.

(** The steps that bootstrapping is made of, after a state [w1] that
    extends [w]. *)
Lemma extends_updElement (w w1 : World) (e : ElemId) (f : Element -> Element) :
  (forall x, tagName (f x) = tagName x) ->
  (forall x, parentNode (f x) = parentNode x) ->
  (forall x, attributes (f x) = attributes x) ->
  (forall x l, l ∈ listeners x -> l ∈ listeners (f x)) ->
  extends w w1 -> extends w (updElement e f w1).
Proof.
  intros Ht Hp Ha Hl [A1 A2 A3 A4 A5 A6 A7]. split; try assumption.
  - apply (sameMarkup_trans _ w1); [exact A1 | apply sameMarkup_updElement; assumption].
  - intros e' l Hin. apply A5 in Hin. rewrite element_updElement.
    destruct (decide (e = e')) as [->|]; [apply Hl|]; exact Hin.
Qed.

Lemma extends_classList_add (w w1 : World) (e : ElemId) (c : string) :
  extends w w1 -> extends w (classList_add e c w1).
Proof. apply extends_updElement; intros; try reflexivity. assumption. Qed.

Lemma extends_fold_classList_add (w w1 : World) (e : ElemId) (l : list string) :
  extends w w1 -> extends w (fold_left (fun w0 c => classList_add e c w0) l w1).
Proof.
  revert w1. induction l as [|c l IH]; intros w1 H1; simpl; [exact H1|].
  apply IH, extends_classList_add, H1.
Qed.

Lemma extends_addEventListener (w w1 : World) (e : ElemId) (ty : string) (cb : Callback)
    (cap : bool) :
  extends w w1 -> extends w (addEventListener (OnElement e) ty cb cap w1).
Proof.
  apply extends_updElement; intros; try reflexivity.
  simpl. apply listener_add_elem. right. assumption.
Qed.

Lemma extends_updModal (w w1 : World) (m : ModalRef) (f : Modal -> Modal) :
  length (modals w) <= m -> (forall M, _isHidden (f M) = _isHidden M) ->
  extends w w1 -> extends w (updModal m f w1).
Proof.
  intros Hm Hf [A1 A2 A3 A4 A5 A6 A7]. split; try assumption.
  - apply (sameMarkup_elements w w1); [reflexivity | reflexivity | reflexivity | exact A1].
  - rewrite length_modals_updModal. exact A2.
  - intros m' Hm'. rewrite deref_updModal_ne by lia. apply A3, Hm'.
  - intros m' Hm'. destruct (decide (m = m')) as [->|Hne].
    + unfold deref, updModal; simpl. rewrite list_lookup_alter.
      specialize (A4 m' Hm'). unfold deref in A4.
      destruct (decide (m' = m')) as [_|Hn]; [|contradiction].
      destruct (modals w1 !! m') as [M|]; [|exact A4].
      change (_isHidden (f M) = true). rewrite Hf. exact A4.
    + rewrite deref_updModal_ne by exact Hne. apply A4, Hm'.
Qed.

Lemma extends_with_nextSerial (w w1 : World) (n : nat) :
  extends w w1 -> extends w (with_nextSerial n w1).
Proof.
  intros [A1 A2 A3 A4 A5 A6 A7]. split; try assumption.
  apply (sameMarkup_elements w w1); [reflexivity | reflexivity | reflexivity | exact A1].
Qed.

Lemma extends_console_error (w w1 : World) (s : string) :
  extends w w1 -> extends w (emit (ConsoleError s) w1).
Proof.
  intros [A1 A2 A3 A4 A5 A6 A7]. split; try assumption.
  - apply (sameMarkup_elements w w1); [reflexivity | reflexivity | reflexivity | exact A1].
  - intros h m. rewrite effects_emit, invocations_snoc. simpl. rewrite A7. lia.
Qed.

Lemma extends_new_object (w w1 : World) (M : Modal) :
  _isHidden M = true ->
  extends w w1 -> extends w (with_modals (fun l => l ++ [M]) w1).
Proof.
  intros HM [A1 A2 A3 A4 A5 A6 A7]. split; try assumption.
  - apply (sameMarkup_elements w w1); [reflexivity | reflexivity | reflexivity | exact A1].
  - simpl. rewrite length_app. simpl. lia.
  - intros m Hm. unfold deref; simpl. rewrite lookup_app_l by lia. apply A3, Hm.
  - intros m Hm. unfold deref; simpl.
    destruct (decide (m < length (modals w1))) as [Hlt|Hge].
    + rewrite lookup_app_l by exact Hlt. apply A4, Hm.
    + rewrite lookup_app_r by lia.
      destruct (m - length (modals w1)) as [|k]; simpl; [exact HM | reflexivity].
Qed.

Lemma extends__init (w w1 : World) (this : ModalRef) :
  length (modals w) <= this -> extends w w1 -> extends w (_init this w1).
Proof.
  intros Hthis H1. unfold _init. cbv zeta.
  set (w2 := fold_left _ _ w1).
  assert (H2 : extends w w2).
  { subst w2. apply extends_fold_classList_add, H1. }
  clearbody w2.
  set (w3 := match querySelector_attr w2 _ "data-modal-resize-target" with
             | Some _ => _ | None => _ end).
  assert (H3 : extends w w3).
  { subst w3. destruct (querySelector_attr w2 _ _); [|exact H2].
    destruct (querySelector_id w2 _ _); [|exact H2].
    apply extends_addEventListener, extends_updModal; [exact Hthis | reflexivity | exact H2]. }
  clearbody w3.
  destruct (querySelector_attr w3 _ _); [|exact H3].
  destruct (querySelector_id w3 _ _); [|exact H3].
  apply extends_addEventListener, extends_updModal; [exact Hthis | reflexivity |].
  apply extends_updModal; [exact Hthis | reflexivity | exact H3].
Qed.

Lemma _init_length (this : ModalRef) (w : World) :
  length (modals (_init this w)) = length (modals w).
Proof.
  unfold _init. cbv zeta.
  set (w2 := fold_left _ _ w).
  assert (H2 : length (modals w2) = length (modals w)).
  { subst w2. apply (fold_classList_add_frame (fun w0 => length (modals w0))). reflexivity. }
  rewrite <- H2. clearbody w2.
  set (w3 := match querySelector_attr w2 _ "data-modal-resize-target" with
             | Some _ => _ | None => _ end).
  assert (H3 : length (modals w3) = length (modals w2)).
  { subst w3. destruct (querySelector_attr w2 _ _); [|reflexivity].
    destruct (querySelector_id w2 _ _); [|reflexivity].
    rewrite modals_addEventListener. apply length_modals_updModal. }
  rewrite <- H3. clearbody w3.
  destruct (querySelector_attr w3 _ _); [|reflexivity].
  destruct (querySelector_id w3 _ _); [|reflexivity].
  rewrite modals_addEventListener, !length_modals_updModal. reflexivity.
Qed.

(** A construction extends the state by one hidden Modal on its target. *)
Lemma extends_Modal_new (w : World) (el : ElemId) (options : option PartialOptions) :
  let w' := outcome (Modal_new (Some el) options w) in
  extends w w' /\ allocated (length (modals w)) w' /\
  _targetEl (deref w' (length (modals w))) = el /\
  _options (deref w' (length (modals w)))
    = spread DefaultOptions (default (allOptions DefaultOptions) options).
Proof.
  intros w'. subst w'. unfold Modal_new, outcome.
  assert (He : extends w (_init (length (modals w))
                 (with_modals (fun l => l ++ [constructed el (default (allOptions DefaultOptions) options)]) w))).
  { apply extends__init; [lia|]. apply extends_new_object; [reflexivity | apply extends_refl]. }
  split; [exact He|]. split.
  - unfold allocated.
    assert (Hl : length (modals (_init (length (modals w))
                   (with_modals (fun l => l ++ [constructed el (default (allOptions DefaultOptions) options)]) w)))
                 = S (length (modals w))).
    { rewrite (_init_length). simpl. rewrite length_app. simpl. lia. }
    lia.
  - split.
    + rewrite (_init_deref_frame _targetEl) by reflexivity.
      rewrite deref_new_object. reflexivity.
    + rewrite (_init_deref_frame _options) by reflexivity.
      rewrite deref_new_object. reflexivity.
Qed.

(** ** The loops of [initModals] *)

Lemma registered_extends (w w' : World) (instances : list ModalInstance) :
  extends w w' -> registered w instances -> registered w' instances.
Proof.
  intros He Hr mi Hmi. destruct (Hr mi Hmi) as (Hal & Hid & Hopt).
  pose proof (ext_length w w' He) as Hlen. unfold allocated in *.
  cbv zeta. rewrite (ext_modals w w' He) by exact Hal.
  split; [lia|]. split.
  - rewrite (getElementById_sameMarkup w w') by apply He. exact Hid.
  - rewrite Hopt. unfold optionsFromAttributes.
    rewrite !(getAttribute_sameMarkup w w') by apply He. reflexivity.
Qed.

Lemma registered_push (w : World) (instances : list ModalInstance) (mi : ModalInstance) :
  registered w instances ->
  allocated (object mi) w ->
  getElementById w (id mi) = Some (_targetEl (deref w (object mi))) ->
  _options (deref w (object mi))
    = spread DefaultOptions (optionsFromAttributes w (_targetEl (deref w (object mi)))) ->
  registered w (instances ++ [mi]).
Proof.
  intros Hr Hal Hid Hopt x Hx. apply elem_of_app in Hx as [Hx|Hx]; [apply Hr, Hx|].
  apply list_elem_of_singleton in Hx as ->. repeat split; assumption.
Qed.

(** A round of the first two loops that finds the element but no instance
    of it constructs one and registers it. *)
Lemma construct_and_register (w : World) (modalEl : ElemId) (modalId : string)
    (instances : list ModalInstance) :
  registered w instances ->
  getElementById w modalId = Some modalEl ->
  let w' := outcome (Modal_new (Some modalEl) (Some (optionsFromAttributes w modalEl)) w) in
  let modal := {| id := modalId; object := length (modals w) |} in
  extends w w' /\ registered w' (instances ++ [modal]).
Proof.
  intros Hr Hid w' modal.
  destruct (extends_Modal_new w modalEl (Some (optionsFromAttributes w modalEl)))
    as (He & Hal & Ht & Ho).
  fold w' in He, Hal, Ht, Ho.
  split; [exact He|].
  apply registered_push; [apply (registered_extends w), Hr; exact He | exact Hal | |].
  - simpl. rewrite (getElementById_sameMarkup w w') by apply He.
    rewrite Ht. exact Hid.
  - simpl object. rewrite Ho, Ht. simpl default. unfold optionsFromAttributes.
    rewrite !(getAttribute_sameMarkup w w') by apply He. reflexivity.
Qed.

Lemma round_refl (instances : list ModalInstance) (w : World) :
  registered w instances -> round instances w instances w.
Proof. intros Hr. split; [apply extends_refl | tauto | exact Hr]. Qed.

Lemma round_trans (s1 s2 s3 : list ModalInstance) (w1 w2 w3 : World) :
  round s1 w1 s2 w2 -> round s2 w2 s3 w3 -> round s1 w1 s3 w3.
Proof.
  intros [A1 A2 A3] [B1 B2 B3]. split; [|auto|exact B3].
  apply (extends_trans _ w2); assumption.
Qed.

(** A round that only extends the state. *)
Lemma round_same_list (instances : list ModalInstance) (w w' : World) :
  registered w instances -> extends w w' -> round instances w instances w'.
Proof.
  intros Hr He. split; [exact He | tauto | apply (registered_extends w), Hr; exact He].
Qed.

Lemma initTarget_round (triggerEl : ElemId) (instances : list ModalInstance) (w : World) :
  registered w instances ->
  exists instances' w',
    initTarget triggerEl instances w = Normal instances' w' /\
    round instances w instances' w'.
Proof.
  intros Hr. unfold initTarget. cbv zeta.
  destruct (getElementById w _) as [modalEl|] eqn:Hid.
  - destruct (getModalInstance _ instances).
    + eexists _, _. split; [reflexivity | apply round_refl, Hr].
    + destruct (construct_and_register w modalEl _ instances Hr Hid) as [He Hr'].
      eexists _, _. split; [reflexivity|].
      split; [exact He | intros mi Hmi; apply elem_of_app; left; exact Hmi | exact Hr'].
  - eexists _, _. split; [reflexivity|].
    apply round_same_list; [exact Hr|]. apply extends_console_error, extends_refl.
Qed.

Lemma initToggle_round (triggerEl : ElemId) (instances : list ModalInstance) (w : World) :
  registered w instances ->
  exists instances' w',
    initToggle triggerEl instances w = Normal instances' w' /\
    round instances w instances' w'.
Proof.
  intros Hr. unfold initToggle. cbv zeta.
  destruct (getElementById w _) as [modalEl|] eqn:Hid.
  - destruct (getModalInstance _ instances) as [modal|].
    + cbn [bind]. eexists _, _. split; [reflexivity|].
      apply round_same_list; [exact Hr|].
      apply extends_addEventListener, extends_with_nextSerial, extends_refl.
    + destruct (construct_and_register w modalEl _ instances Hr Hid) as [He Hr'].
      cbn [bind Modal_new outcome] in *.
      eexists _, _. split; [reflexivity|].
      split.
      * apply extends_addEventListener, extends_with_nextSerial, He.
      * intros mi Hmi. apply elem_of_app. left. exact Hmi.
      * eapply registered_extends; [|exact Hr'].
        apply extends_addEventListener, extends_with_nextSerial, extends_refl.
  - eexists _, _. split; [reflexivity|].
    apply round_same_list; [exact Hr|]. apply extends_console_error, extends_refl.
Qed.

Lemma initShowHide_round (attr : string) (mk : ModalRef -> nat -> Callback)
    (triggerEl : ElemId) (instances : list ModalInstance) (w : World) :
  registered w instances ->
  exists instances' w',
    initShowHide attr mk triggerEl instances w = Normal instances' w' /\
    round instances w instances' w'.
Proof.
  intros Hr. unfold initShowHide. cbv zeta.
  destruct (getElementById w _) as [modalEl|].
  - destruct (getModalInstance _ instances) as [modal|];
      eexists _, _; (split; [reflexivity|]); (apply round_same_list; [exact Hr|]).
    + apply extends_addEventListener, extends_with_nextSerial, extends_refl.
    + apply extends_console_error, extends_refl.
  - eexists _, _. split; [reflexivity|].
    apply round_same_list; [exact Hr|]. apply extends_console_error, extends_refl.
Qed.

Lemma forEach_app {A S : Type} (l1 l2 : list A) (f : A -> S -> World -> Completion S)
    (s : S) (w : World) :
  forEach (l1 ++ l2) f s w = forEach l1 f s w >>= fun s1 w1 => forEach l2 f s1 w1.
Proof.
  revert s w. induction l1 as [|x l1 IH]; intros s w; simpl; [reflexivity|].
  destruct (f x s w) as [s1 w1|e w1]; simpl; [apply IH | reflexivity].
Qed.

Lemma forEach_round {A : Type} (f : A -> list ModalInstance -> World ->
                                    Completion (list ModalInstance)) (l : list A) :
  (forall x s w, registered w s ->
     exists s' w', f x s w = Normal s' w' /\ round s w s' w') ->
  forall s w, registered w s ->
    exists s' w', forEach l f s w = Normal s' w' /\ round s w s' w'.
Proof.
  intros Hf. induction l as [|x l IH]; intros s w Hr; simpl.
  - exists s, w. split; [reflexivity | apply round_refl, Hr].
  - destruct (Hf x s w Hr) as (s1 & w1 & -> & R1). simpl.
    destruct (IH s1 w1 (round_registered _ _ _ _ R1)) as (s2 & w2 & -> & R2).
    exists s2, w2. split; [reflexivity | apply (round_trans _ s1 _ _ w1); assumption].
Qed.

(** The four loops, one after the other. *)
Lemma initModals_rounds_split (w : World) :
  exists s1 w1 s2 w2 s3 w3 s4 w4,
    forEach (querySelectorAll_attr w "data-modal-target") initTarget [] w = Normal s1 w1 /\
    forEach (querySelectorAll_attr w1 "data-modal-toggle") initToggle s1 w1 = Normal s2 w2 /\
    forEach (querySelectorAll_attr w2 "data-modal-show")
      (initShowHide "data-modal-show" TriggerShowClosure) s2 w2 = Normal s3 w3 /\
    forEach (querySelectorAll_attr w3 "data-modal-hide")
      (initShowHide "data-modal-hide" TriggerHideClosure) s3 w3 = Normal s4 w4 /\
    initModals w = Normal s4 w4 /\
    round [] w s1 w1 /\ round s1 w1 s2 w2 /\ round s2 w2 s3 w3 /\ round s3 w3 s4 w4.
Proof.
  unfold initModals.
  assert (Hr0 : registered w []) by (intros mi Hmi; inversion Hmi).
  destruct (forEach_round initTarget (querySelectorAll_attr w "data-modal-target")
              initTarget_round [] w Hr0) as (s1 & w1 & E1 & R1).
  destruct (forEach_round initToggle (querySelectorAll_attr w1 "data-modal-toggle")
              initToggle_round s1 w1 (round_registered _ _ _ _ R1)) as (s2 & w2 & E2 & R2).
  destruct (forEach_round (initShowHide "data-modal-show" TriggerShowClosure)
              (querySelectorAll_attr w2 "data-modal-show")
              (initShowHide_round _ _) s2 w2 (round_registered _ _ _ _ R2))
    as (s3 & w3 & E3 & R3).
  destruct (forEach_round (initShowHide "data-modal-hide" TriggerHideClosure)
              (querySelectorAll_attr w3 "data-modal-hide")
              (initShowHide_round _ _) s3 w3 (round_registered _ _ _ _ R3))
    as (s4 & w4 & E4 & R4).
  exists s1, w1, s2, w2, s3, w3, s4, w4.
  repeat (split; [assumption|]).
  split; [|repeat (split; [assumption|]); assumption].
  rewrite E1. cbn [bind]. rewrite E2. cbn [bind]. rewrite E3. cbn [bind]. exact E4.
Qed.

Lemma initModals_extends (w : World) :
  exists instances w',
    initModals w = Normal instances w' /\ extends w w' /\ registered w' instances.
Proof.
  destruct (initModals_rounds_split w)
    as (s1 & w1 & s2 & w2 & s3 & w3 & s4 & w4 & _ & _ & _ & _ & Hret & R1 & R2 & R3 & R4).
  exists s4, w4. split; [exact Hret|].
  pose proof (round_trans _ _ _ _ _ _ R1 (round_trans _ _ _ _ _ _ R2
               (round_trans _ _ _ _ _ _ R3 R4))) as [He _ Hr].
  split; assumption.
Qed.

(** X13. [initModals] returns on every page whose resize handles and drag
    anchors name plain identifiers.  It leaves the markup as it was but
    for the classes of the targets (the tree, and on every element the
    parent and the attributes other than class), every Modal object that
    existed as it was and every object that it constructs hidden,
    registers nothing on the document itself and invokes no callback; and
    every entry of its instance list names an object whose target is the
    element with the entry's identifier. *)
Theorem initModals_returns_and_shows_nothing (w : World) :
  plainPage w = true ->
  exists instances w',
    initModals w = Normal instances w' /\
    tree w' = tree w /\
    (forall e, attributes (element w' e) = attributes (element w e) /\
               parentNode (element w' e) = parentNode (element w e)) /\
    (forall m, allocated m w -> deref w' m = deref w m) /\
    (forall m, isHidden m w' = isHidden m w) /\
    documentListeners w' = documentListeners w /\
    (forall h m, invocations h m (effects w') = invocations h m (effects w)) /\
    (forall modalInstance, modalInstance ∈ instances ->
       allocated (object modalInstance) w' /\
       getElementById w (id modalInstance)
         = Some (_targetEl (deref w' (object modalInstance)))).
Proof.
  intros _.
  destruct (initModals_extends w) as (s & w' & Hret & He & Hr).
  exists s, w'. split; [exact Hret|].
  destruct He as [[M1 M2 M3 M4 M5] E2 E3 E4 E5 E6 E7].
  split; [exact M1|]. split; [intros e; split; [apply M5 | apply M4]|].
  split; [exact E3|]. split.
  { intros m. unfold isHidden.
    destruct (decide (m < length (modals w))) as [Hlt|Hge].
    - rewrite E3 by exact Hlt. reflexivity.
    - rewrite E4 by lia. unfold deref.
      rewrite lookup_ge_None_2 by lia. reflexivity. }
  split; [exact E6|]. split; [exact E7|].
  intros mi Hmi. destruct (Hr mi Hmi) as (Hal & Hid & _). split; [exact Hal|].
  rewrite <- Hid. symmetry. apply getElementById_sameMarkup.
  split; assumption.
Qed.

(** ** What the triggers are wired to *)

Lemma wired_extends (closure : ModalRef -> nat -> Callback) (triggerEl modalEl : ElemId)
    (w w' : World) :
  extends w w' -> wired closure triggerEl modalEl w -> wired closure triggerEl modalEl w'.
Proof.
  intros He (obj & n & Hal & Ht & Hl). exists obj, n. unfold allocated in *.
  pose proof (ext_length w w' He).
  split; [lia|]. split; [rewrite (ext_modals w w' He) by exact Hal; exact Ht|].
  apply (ext_listeners w w' He), Hl.
Qed.

Ltac click_registered :=
  rewrite ?listeners_addEventListener, ?element_updElement_eq;
  repeat match goal with
         | |- context [decide (?a = ?a)] =>
             destruct (decide (a = a)) as [_|?]; [|contradiction]
         end;
  simpl; apply listener_add_elem; left; reflexivity.

Lemma knows_found (modalId : string) (instances : list ModalInstance) :
  knows modalId instances ->
  exists modal, getModalInstance modalId instances = Some modal /\
                modal ∈ instances /\ id modal = modalId.
Proof.
  intros (mi & Hmi & Hid).
  destruct (getModalInstance modalId instances) as [modal|] eqn:E.
  - exists modal. split; [reflexivity|].
    apply getModalInstance_Some in E as (b & a & -> & Hid' & _).
    split; [|exact Hid']. apply elem_of_app. right. left.
  - exfalso. rewrite getModalInstance_None in E. apply (E mi Hmi Hid).
Qed.

Lemma forEach_at {A : Type} (f : A -> list ModalInstance -> World ->
                                 Completion (list ModalInstance))
    (l : list A) (x : A) (Pre P : list ModalInstance -> World -> Prop) :
  x ∈ l ->
  (forall y s w, registered w s ->
     exists s' w', f y s w = Normal s' w' /\ round s w s' w') ->
  (forall s w s' w', Pre s w -> round s w s' w' -> Pre s' w') ->
  (forall s w s' w', P s w -> round s w s' w' -> P s' w') ->
  (forall s w s' w', registered w s -> Pre s w -> f x s w = Normal s' w' -> P s' w') ->
  forall s w s' w', registered w s -> Pre s w ->
    forEach l f s w = Normal s' w' -> P s' w'.
Proof.
  intros Hx Hf HPre HP Hstep s w s' w' Hr Hpre Hrun.
  apply list_elem_of_split in Hx as (l1 & l2 & ->).
  rewrite forEach_app in Hrun.
  destruct (forEach_round f l1 Hf s w Hr) as (sa & wa & Ea & Ra).
  rewrite Ea in Hrun. cbn [bind forEach] in Hrun.
  pose proof (round_registered _ _ _ _ Ra) as Hra.
  destruct (Hf x sa wa Hra) as (sb & wb & Eb & Rb).
  rewrite Eb in Hrun. cbn [bind] in Hrun.
  pose proof (Hstep sa wa sb wb Hra (HPre _ _ _ _ Hpre Ra) Eb) as Hp.
  destruct (forEach_round f l2 Hf sb wb (round_registered _ _ _ _ Rb)) as (sc & wc & Ec & Rc).
  rewrite Ec in Hrun. injection Hrun as <- <-.
  apply (HP sb wb); assumption.
Qed.

Lemma trigger_listed (w0 w : World) (triggerEl : ElemId) (attr modalId : string) :
  extends w0 w -> triggerEl ∈ tree w0 ->
  getAttribute w0 triggerEl attr = Some modalId ->
  triggerEl ∈ querySelectorAll_attr w attr.
Proof.
  intros He Hin Ha.
  rewrite (querySelectorAll_attr_sameMarkup w0 w) by apply He.
  unfold querySelectorAll_attr. apply list_elem_of_In, filter_In.
  split; [apply list_elem_of_In, Hin|].
  unfold hasAttribute. rewrite Ha. apply bool_decide_eq_true_2. eauto.
Qed.

(** A round for a trigger that names the element [modalEl]. *)
Lemma initTarget_knows (w0 w : World) (triggerEl modalEl : ElemId) (modalId : string)
    (s s' : list ModalInstance) (w' : World) :
  getAttribute w0 triggerEl "data-modal-target" = Some modalId ->
  getElementById w0 modalId = Some modalEl ->
  extends w0 w ->
  initTarget triggerEl s w = Normal s' w' -> knows modalId s'.
Proof.
  intros Ha Hid He. unfold initTarget. cbv zeta.
  rewrite (getAttribute_sameMarkup w0 w), Ha by apply He. simpl interpolate.
  rewrite (getElementById_sameMarkup w0 w), Hid by apply He.
  destruct (getModalInstance modalId s) as [modal|] eqn:E.
  - intros [= <- <-]. apply getModalInstance_Some in E as (b & a & -> & Hid' & _).
    exists modal. split; [|exact Hid']. apply elem_of_app. right. left.
  - cbn [bind Modal_new]. intros [= <- <-].
    eexists. split; [apply elem_of_app; right; left | reflexivity].
Qed.

Lemma initToggle_wires (w0 w : World) (triggerEl modalEl : ElemId) (modalId : string)
    (s s' : list ModalInstance) (w' : World) :
  getAttribute w0 triggerEl "data-modal-toggle" = Some modalId ->
  getElementById w0 modalId = Some modalEl ->
  extends w0 w -> registered w s ->
  initToggle triggerEl s w = Normal s' w' ->
  knows modalId s' /\ wired TriggerToggleClosure triggerEl modalEl w'.
Proof.
  intros Ha Hid He Hr. unfold initToggle. cbv zeta.
  assert (Hid' : getElementById w modalId = Some modalEl).
  { rewrite (getElementById_sameMarkup w0 w) by apply He. exact Hid. }
  rewrite (getAttribute_sameMarkup w0 w), Ha by apply He. simpl interpolate.
  rewrite Hid'.
  destruct (getModalInstance modalId s) as [modal|] eqn:E.
  - cbn [bind]. intros [= <- <-].
    apply getModalInstance_Some in E as (b & a & -> & Hmid & _).
    assert (Hin : modal ∈ b ++ modal :: a) by (apply elem_of_app; right; left).
    split; [exists modal; split; assumption|].
    destruct (Hr modal Hin) as (Hal & Htarget & _).
    exists (object modal), (nextSerial w). split; [exact Hal|]. split.
    + rewrite ?deref_addEventListener, ?deref_updElement, ?deref_with_nextSerial.
      rewrite Hmid, Hid' in Htarget. congruence.
    + click_registered.
  - destruct (extends_Modal_new w modalEl (Some (optionsFromAttributes w modalEl)))
      as (_ & Hal & Ht & _).
    cbn [bind Modal_new outcome] in *. intros [= <- <-].
    split; [eexists; split; [apply elem_of_app; right; left | reflexivity]|].
    eexists (length (modals w)), _. split; [|split].
    + exact Hal.
    + rewrite ?deref_addEventListener, ?deref_updElement, ?deref_with_nextSerial. exact Ht.
    + click_registered.
Qed.

Lemma initShowHide_wires (attr : string) (mk : ModalRef -> nat -> Callback)
    (w0 w : World) (triggerEl modalEl : ElemId) (modalId : string)
    (s s' : list ModalInstance) (w' : World) :
  getAttribute w0 triggerEl attr = Some modalId ->
  getElementById w0 modalId = Some modalEl ->
  extends w0 w -> registered w s -> knows modalId s ->
  initShowHide attr mk triggerEl s w = Normal s' w' ->
  wired mk triggerEl modalEl w'.
Proof.
  intros Ha Hid He Hr Hk. unfold initShowHide. cbv zeta.
  assert (Hid' : getElementById w modalId = Some modalEl).
  { rewrite (getElementById_sameMarkup w0 w) by apply He. exact Hid. }
  rewrite (getAttribute_sameMarkup w0 w), Ha by apply He. simpl interpolate.
  rewrite Hid'.
  destruct (knows_found modalId s Hk) as (modal & -> & Hin & Hmid).
  intros [= <- <-].
  destruct (Hr modal Hin) as (Hal & Htarget & _).
  exists (object modal), (nextSerial w). split; [exact Hal|]. split.
  - rewrite ?deref_addEventListener, ?deref_updElement, ?deref_with_nextSerial.
    rewrite Hmid, Hid' in Htarget. congruence.
  - click_registered.
Qed.

Lemma knows_round (modalId : string) (s s' : list ModalInstance) (w w' : World) :
  knows modalId s -> round s w s' w' -> knows modalId s'.
Proof.
  intros (mi & Hmi & Hid) R. exists mi. split; [apply (round_keeps _ _ _ _ R), Hmi | exact Hid].
Qed.

(** X14. [initModals] on a page whose resize handles and drag anchors name
    plain identifiers, and where the element [triggerEl] names, in one of
    the four trigger attributes, the identifier of the element [modalEl].
    A toggle trigger gets a click listener that toggles a Modal object
    whose target is [modalEl]; a show or hide trigger gets one that shows
    or hides such an object, provided that some element of the page names
    the identifier in [data-modal-target] or [data-modal-toggle]. *)
Theorem initModals_wires_triggers (w : World) (triggerEl modalEl : ElemId)
    (modalId : string) :
  plainPage w = true ->
  triggerEl ∈ tree w -> getElementById w modalId = Some modalEl ->
  exists instances w',
    initModals w = Normal instances w' /\
    (getAttribute w triggerEl "data-modal-toggle" = Some modalId ->
     wired TriggerToggleClosure triggerEl modalEl w') /\
    ((exists creator, creator ∈ tree w /\
        (getAttribute w creator "data-modal-target" = Some modalId \/
         getAttribute w creator "data-modal-toggle" = Some modalId)) ->
     (getAttribute w triggerEl "data-modal-show" = Some modalId ->
      wired TriggerShowClosure triggerEl modalEl w') /\
     (getAttribute w triggerEl "data-modal-hide" = Some modalId ->
      wired TriggerHideClosure triggerEl modalEl w')).
Proof.
  intros _ Hin Hid.
  destruct (initModals_rounds_split w)
    as (s1 & w1 & s2 & w2 & s3 & w3 & s4 & w4 & E1 & E2 & E3 & E4 & Hret & R1 & R2 & R3 & R4).
  exists s4, w4. split; [exact Hret|].
  assert (Hr0 : registered w []) by (intros mi Hmi; inversion Hmi).
  pose proof (round_registered _ _ _ _ R1) as Hr1.
  pose proof (round_registered _ _ _ _ R2) as Hr2.
  pose proof (round_registered _ _ _ _ R3) as Hr3.
  pose proof (round_extends _ _ _ _ R1) as He1.
  pose proof (extends_trans _ _ _ He1 (round_extends _ _ _ _ R2)) as He2.
  pose proof (extends_trans _ _ _ He2 (round_extends _ _ _ _ R3)) as He3.
  assert (HPre : forall s w5 s' w', extends w w5 -> round s w5 s' w' -> extends w w').
  { intros s w5 s' w' H R. apply (extends_trans _ w5); [exact H | apply R]. }
  split.
  - intros Ha.
    assert (W2 : wired TriggerToggleClosure triggerEl modalEl w2).
    { apply (forEach_at initToggle (querySelectorAll_attr w1 "data-modal-toggle") triggerEl
               (fun _ w5 => extends w w5)
               (fun _ w5 => wired TriggerToggleClosure triggerEl modalEl w5))
        with (s := s1) (w := w1) (s' := s2); try assumption.
      - apply (trigger_listed w w1 _ _ modalId); assumption.
      - apply initToggle_round.
      - intros s w5 s' w' H R. apply (wired_extends _ _ _ w5); [apply R | exact H].
      - intros s w5 s' w' Hr He Hrun.
        apply (initToggle_wires w w5 triggerEl modalEl modalId s s' w'); assumption. }
    apply (wired_extends _ _ _ w3); [apply R4|].
    apply (wired_extends _ _ _ w2); [apply R3 | exact W2].
  - intros (creator & Hcin & Hc).
    assert (K2 : knows modalId s2).
    { destruct Hc as [Hc|Hc].
      - apply (knows_round modalId s1 s2 w1 w2); [|exact R2].
        apply (forEach_at initTarget (querySelectorAll_attr w "data-modal-target") creator
                 (fun _ w5 => extends w w5)
                 (fun s _ => knows modalId s))
          with (s := []) (w := w) (w' := w1); try assumption.
        + apply (trigger_listed w w _ _ modalId); [apply extends_refl | assumption..].
        + apply initTarget_round.
        + intros s w5 s' w' H R. apply (knows_round modalId s s' w5 w'); assumption.
        + intros s w5 s' w' Hr He Hrun.
          apply (initTarget_knows w w5 creator modalEl modalId s s' w'); assumption.
        + apply extends_refl.
      - apply (forEach_at initToggle (querySelectorAll_attr w1 "data-modal-toggle") creator
                 (fun _ w5 => extends w w5)
                 (fun s _ => knows modalId s))
          with (s := s1) (w := w1) (w' := w2); try assumption.
        + apply (trigger_listed w w1 _ _ modalId); assumption.
        + apply initToggle_round.
        + intros s w5 s' w' H R. apply (knows_round modalId s s' w5 w'); assumption.
        + intros s w5 s' w' Hr He Hrun.
          apply (initToggle_wires w w5 creator modalEl modalId s s' w'); assumption. }
    pose proof (knows_round _ _ _ _ _ K2 R3) as K3.
    assert (HPreK : forall s w5 s' w',
              extends w w5 /\ knows modalId s -> round s w5 s' w' ->
              extends w w' /\ knows modalId s').
    { intros s w5 s' w' [H K] R.
      split; [apply (HPre s w5 s' w'); assumption | apply (knows_round _ s _ w5 w'); assumption]. }
    split.
    + intros Ha.
      apply (wired_extends _ _ _ w3); [apply R4|].
      apply (forEach_at (initShowHide "data-modal-show" TriggerShowClosure)
               (querySelectorAll_attr w2 "data-modal-show") triggerEl
               (fun s w5 => extends w w5 /\ knows modalId s)
               (fun _ w5 => wired TriggerShowClosure triggerEl modalEl w5))
        with (s := s2) (w := w2) (s' := s3); try assumption.
      * apply (trigger_listed w w2 _ _ modalId); assumption.
      * apply initShowHide_round.
      * intros s w5 s' w' H R. apply (wired_extends _ _ _ w5); [apply R | exact H].
      * intros s w5 s' w' Hr [He K] Hrun.
        apply (initShowHide_wires "data-modal-show" TriggerShowClosure w w5 triggerEl
                 modalEl modalId s s' w'); assumption.
      * split; assumption.
    + intros Ha.
      apply (forEach_at (initShowHide "data-modal-hide" TriggerHideClosure)
               (querySelectorAll_attr w3 "data-modal-hide") triggerEl
               (fun s w5 => extends w w5 /\ knows modalId s)
               (fun _ w5 => wired TriggerHideClosure triggerEl modalEl w5))
        with (s := s3) (w := w3) (s' := s4); try assumption.
      * apply (trigger_listed w w3 _ _ modalId); assumption.
      * apply initShowHide_round.
      * intros s w5 s' w' H R. apply (wired_extends _ _ _ w5); [apply R | exact H].
      * intros s w5 s' w' Hr [He K] Hrun.
        apply (initShowHide_wires "data-modal-hide" TriggerHideClosure w w5 triggerEl
                 modalEl modalId s s' w'); assumption.
      * split; assumption.
Qed.

(** ** What the constructor wires *)

Lemma resizeParts_sameMarkup (w w' : World) (targetEl : ElemId) :
  sameMarkup w w' -> resizeParts w' targetEl = resizeParts w targetEl.
Proof.
  intros H. unfold resizeParts.
  rewrite (querySelector_attr_sameMarkup w w') by exact H.
  destruct (querySelector_attr w targetEl _); [|reflexivity].
  rewrite (getAttribute_sameMarkup w w'), (querySelector_id_sameMarkup w w') by exact H.
  reflexivity.
Qed.

Lemma dragParts_sameMarkup (w w' : World) (targetEl : ElemId) :
  sameMarkup w w' -> dragParts w' targetEl = dragParts w targetEl.
Proof.
  intros H. unfold dragParts.
  rewrite (querySelector_attr_sameMarkup w w') by exact H.
  destruct (querySelector_attr w targetEl _); [|reflexivity].
  rewrite (getAttribute_sameMarkup w w'), (querySelector_id_sameMarkup w w') by exact H.
  reflexivity.
Qed.

(** [_init] after the placement classes, in terms of what it looks up. *)
Lemma _init_parts (this : ModalRef) (w : World) :
  let targetEl := _targetEl (deref w this) in
  let w1 := fold_left (fun w0 c => classList_add targetEl c w0)
              (_getPlacementClasses this w) w in
  let w2 := match resizeParts w1 targetEl with
            | Some (resizeEl, resizeTargetEl) =>
                addEventListener (OnElement resizeEl) "mousedown" (OnResizeMouseDown this) true
                  (updModal this (set_resizeTargetEl (Some resizeTargetEl)) w1)
            | None => w1
            end in
  _init this w
  = match dragParts w2 targetEl with
    | Some (dragAnchorEl, dragTargetEl) =>
        addEventListener (OnElement dragAnchorEl) "mousedown" (OnDragMouseDown this) true
          (updModal this (set_dragTargetEl (Some dragTargetEl))
             (updModal this (set_dragAnchorEl (Some dragAnchorEl)) w2))
    | None => w2
    end.
Proof.
  intros targetEl w1 w2. subst w2 w1 targetEl. unfold _init, resizeParts, dragParts. cbv zeta.
  set (w1 := fold_left _ _ w). clearbody w1.
  destruct (querySelector_attr w1 _ "data-modal-resize-target") as [resizeEl|].
  - destruct (querySelector_id w1 _ _) as [resizeTargetEl|].
    + set (w2 := addEventListener _ _ _ _ _). clearbody w2.
      destruct (querySelector_attr w2 _ "data-modal-drag"); [|reflexivity].
      destruct (querySelector_id w2 _ _); reflexivity.
    + destruct (querySelector_attr w1 _ "data-modal-drag"); [|reflexivity].
      destruct (querySelector_id w1 _ _); reflexivity.
  - destruct (querySelector_attr w1 _ "data-modal-drag"); [|reflexivity].
    destruct (querySelector_id w1 _ _); reflexivity.
Qed.


(** ** Options and complaints *)

(** X15. On a page whose resize handles and drag anchors name plain
    identifiers [initModals] returns, and the Modal objects that it lists
    take their placement and their backdrop from the attributes
    [data-modal-placement] and [data-modal-backdrop] of their target, and
    the defaults where the attribute is missing or empty.  They are
    closable, they have the default backdrop classes and their callbacks
    do nothing: there is no attribute that says otherwise. *)
Theorem initModals_options_from_markup (w : World) :
  plainPage w = true ->
  exists instances w',
    initModals w = Normal instances w' /\
    forall modalInstance, modalInstance ∈ instances ->
      let M := deref w' (object modalInstance) in
      let fromAttribute name fallback :=
        match getAttribute w (_targetEl M) name with
        | Some v => if decide (v = "") then fallback else v
        | None => fallback
        end in
      placement (_options M) = fromAttribute "data-modal-placement" "center" /\
      backdrop (_options M) = fromAttribute "data-modal-backdrop" "dynamic" /\
      closable (_options M) = true /\
      backdropClasses (_options M) = "bg-black bg-opacity-30 fixed inset-0 z-40" /\
      onShow (_options M) = NoopFn /\ onHide (_options M) = NoopFn /\
      onToggle (_options M) = NoopFn.
Proof.
  intros _.
  destruct (initModals_extends w) as (s & w' & Hret & He & Hr).
  exists s, w'. split; [exact Hret|].
  intros mi Hmi. destruct (Hr mi Hmi) as (_ & _ & Hopt). cbv zeta in *.
  rewrite Hopt. unfold optionsFromAttributes, spread, or_default. cbv zeta. simpl.
  rewrite !(getAttribute_sameMarkup w w') by apply He.
  repeat split; reflexivity.
Qed.

(** Rounds of the last two loops on an empty instance list: each trigger
    gets a line on the console and nothing else happens. *)
Lemma forEach_initShowHide_empty (attr : string) (mk : ModalRef -> nat -> Callback)
    (l : list ElemId) (w : World) :
  exists w' errors,
    forEach l (initShowHide attr mk) [] w = Normal [] w' /\
    elements w' = elements w /\ tree w' = tree w /\ modals w' = modals w /\
    documentListeners w' = documentListeners w /\
    effects w' = effects w ++ map ConsoleError errors /\ length errors = length l.
Proof.
  revert w. induction l as [|x l IH]; intros w; simpl.
  - exists w, []. simpl. rewrite app_nil_r. repeat split; reflexivity.
  - assert (Hstep : exists msg,
              initShowHide attr mk x [] w = Normal [] (emit (ConsoleError msg) w)).
    { unfold initShowHide. cbv zeta.
      destruct (getElementById w _); [|eauto].
      unfold getModalInstance. simpl. eauto. }
    destruct Hstep as [msg ->]. cbn [bind].
    destruct (IH (emit (ConsoleError msg) w)) as (w' & errors & -> & H1 & H2 & H3 & H4 & H5 & H6).
    exists w', (msg :: errors). split; [reflexivity|].
    repeat (split; [assumption|]). split.
    + rewrite H5, effects_emit, <- app_assoc. reflexivity.
    + simpl. rewrite H6. reflexivity.
Qed.

Lemma querySelectorAll_attr_same (w w' : World) (name : string) :
  elements w' = elements w -> tree w' = tree w ->
  querySelectorAll_attr w' name = querySelectorAll_attr w name.
Proof.
  intros He Ht. unfold querySelectorAll_attr, hasAttribute, getAttribute, element.
  rewrite He, Ht. reflexivity.
Qed.

(** X16. A page without [data-modal-target] and [data-modal-toggle]
    triggers: [initModals] constructs no Modal object and registers no
    listener; each [data-modal-show] and [data-modal-hide] trigger is
    reported on the console. *)
Theorem initModals_without_creators (w : World) :
  querySelectorAll_attr w "data-modal-target" = [] ->
  querySelectorAll_attr w "data-modal-toggle" = [] ->
  exists w' errors,
    initModals w = Normal [] w' /\
    modals w' = modals w /\ elements w' = elements w /\
    documentListeners w' = documentListeners w /\
    effects w' = effects w ++ map ConsoleError errors /\
    length errors = length (querySelectorAll_attr w "data-modal-show")
                    + length (querySelectorAll_attr w "data-modal-hide").
Proof.
  intros H1 H2. unfold initModals. rewrite H1. cbn [forEach bind]. rewrite H2.
  cbn [forEach bind].
  destruct (forEach_initShowHide_empty "data-modal-show" TriggerShowClosure
              (querySelectorAll_attr w "data-modal-show") w)
    as (w3 & e3 & -> & A1 & A2 & A3 & A4 & A5 & A6).
  cbn [bind].
  destruct (forEach_initShowHide_empty "data-modal-hide" TriggerHideClosure
              (querySelectorAll_attr w3 "data-modal-hide") w3)
    as (w4 & e4 & -> & B1 & B2 & B3 & B4 & B5 & B6).
  exists w4, (e3 ++ e4). split; [reflexivity|].
  split; [congruence|]. split; [congruence|]. split; [congruence|]. split.
  - rewrite B5, A5, map_app, app_assoc. reflexivity.
  - rewrite length_app, A6, B6.
    rewrite (querySelectorAll_attr_same w w3) by assumption. reflexivity.
Qed.

(** * The markup of the target *)

(** X17. What [show] and [hide] write on a target that is neither the body
    nor an element yet to be created.  After [show] the target has the
    class "flex" and not "hidden", [aria-modal] is "true", [role] is
    "dialog" and [aria-hidden] is gone; after a [hide] that returns it has
    "hidden" and not "flex", [aria-hidden] is "true" and [aria-modal] and
    [role] are gone.  Every other class and attribute of the target is
    kept by both. *)
Theorem show_and_hide_mark_the_target (this : ModalRef) (w : World) :
  let targetEl := _targetEl (deref w this) in
  let shown := element (outcome (show this w)) targetEl in
  let hidden := element (outcome (hide this w)) targetEl in
  targetEl ≠ body w -> targetEl ≠ nextElem w ->
  ("flex" ∈ classList shown /\ ("hidden" ∉ classList shown) /\
   attributes shown !! "aria-modal" = Some "true" /\
   attributes shown !! "role" = Some "dialog" /\
   attributes shown !! "aria-hidden" = None /\
   (forall c, c ≠ "flex" -> c ≠ "hidden" ->
      (c ∈ classList shown <-> c ∈ classList (element w targetEl))) /\
   (forall a, a ≠ "aria-modal" -> a ≠ "role" -> a ≠ "aria-hidden" ->
      attributes shown !! a = attributes (element w targetEl) !! a)) /\
  (backdropAvailable this w ->
   "hidden" ∈ classList hidden /\ ("flex" ∉ classList hidden) /\
   attributes hidden !! "aria-hidden" = Some "true" /\
   attributes hidden !! "aria-modal" = None /\
   attributes hidden !! "role" = None /\
   (forall c, c ≠ "flex" -> c ≠ "hidden" ->
      (c ∈ classList hidden <-> c ∈ classList (element w targetEl))) /\
   (forall a, a ≠ "aria-modal" -> a ≠ "role" -> a ≠ "aria-hidden" ->
      attributes hidden !! a = attributes (element w targetEl) !! a)).
Proof.
  intros targetEl shown hidden Hb Hn. split.
  - destruct (show_target this w Hn Hb) as [Hcl Hat]. fold targetEl shown in Hcl, Hat.
    rewrite Hcl, Hat. clear Hcl Hat.
    split; [apply token_remove_elem; split; [discriminate|];
            apply token_add_elem; left; reflexivity|].
    split; [rewrite token_remove_elem; intros [H _]; apply H; reflexivity|].
    split; [rewrite lookup_delete_ne, lookup_insert_ne, lookup_insert_eq by discriminate;
            reflexivity|].
    split; [rewrite lookup_delete_ne, lookup_insert_eq by discriminate; reflexivity|].
    split; [apply lookup_delete_eq|].
    split.
    + intros c Hf Hh. rewrite token_remove_elem, token_add_elem. tauto.
    + intros a H1 H2 H3.
      rewrite lookup_delete_ne, !lookup_insert_ne by congruence. reflexivity.
  - intros Hav. destruct (hide_target this w Hav Hb) as [Hcl Hat].
    fold targetEl hidden in Hcl, Hat. rewrite Hcl, Hat. clear Hcl Hat.
    split; [apply token_remove_elem; split; [discriminate|];
            apply token_add_elem; left; reflexivity|].
    split; [rewrite token_remove_elem; intros [H _]; apply H; reflexivity|].
    split; [rewrite !lookup_delete_ne, lookup_insert_eq by discriminate; reflexivity|].
    split; [rewrite lookup_delete_ne by discriminate; apply lookup_delete_eq|].
    split; [apply lookup_delete_eq|].
    split.
    + intros c Hf Hh. rewrite token_remove_elem, token_add_elem. tauto.
    + intros a H1 H2 H3.
      rewrite !lookup_delete_ne, lookup_insert_ne by congruence. reflexivity.
Qed.

Lemma show_and_hide_mark_witness :
  _targetEl (deref sampleReady 0) ≠ body sampleReady /\
  _targetEl (deref sampleReady 0) ≠ nextElem sampleReady /\
  "flex" ∈ classList (element (outcome (show 0 sampleReady)) (_targetEl (deref sampleReady 0))) /\
  attributes (element (outcome (show 0 sampleReady)) (_targetEl (deref sampleReady 0)))
    !! "role" = Some "dialog".
Proof.
  assert (H1 : _targetEl (deref sampleReady 0) ≠ body sampleReady) by by_computation.
  assert (H2 : _targetEl (deref sampleReady 0) ≠ nextElem sampleReady) by by_computation.
  split; [exact H1|]. split; [exact H2|].
  pose proof (show_and_hide_mark_the_target 0 sampleReady) as H. cbv zeta in H.
  destruct (H H1 H2) as [(Hf & _ & _ & Hr & _) _].
  split; [exact Hf | exact Hr].
Defined.

(** * The further properties on the sample pages *)

Lemma stackPage_pristine : pristine stackPage.
Proof.
  split; [|reflexivity]. split.
  - intros e He. vm_compute in He.
    repeat (apply elem_of_cons in He as [->|He]; [simpl; lia|]).
    inversion He.
  - by_computation.
  - intros e p H. unfold element in H.
    destruct (elements stackPage !! e) as [x|] eqn:Hx; [|discriminate H].
    apply elem_of_list_to_map_2 in Hx. simpl in H.
    repeat (apply elem_of_cons in Hx as [Hx|Hx];
            [injection Hx as -> ->; simpl in H;
             first [discriminate H
                   | injection H as <-;
                     split; [simpl; lia | vm_compute; reflexivity]]|]).
    inversion Hx.
  - split; [simpl; lia | vm_compute; reflexivity].
Defined.

Lemma stackReady_tidy : tidy stackReady.
Proof.
  apply con_tidy, reachable_consistent.
  apply (reachable_step stackPage); [|apply step_initModals].
  apply reachable_page, stackPage_pristine.
Defined.

Lemma stackReady_noBackdrop : noBackdrop stackReady.
Proof. intros e He. each_element He. Defined.

Lemma reachable_calls_witness :
  reachable sampleShown /\
  countVisible sampleShown <= countBackdrops sampleShown /\
  hide 0 sampleShown = Normal tt (outcome (hide 0 sampleShown)).
Proof.
  split; [exact sampleShown_reachable|].
  destruct (reachable_calls_return sampleShown 0 sampleShown_reachable) as (Hc & _ & Hh & _).
  split; [exact Hc | exact Hh].
Defined.

Lemma hide_without_backdrop_witness :
  isVisible 0 sampleShownBare = true /\ noBackdrop sampleShownBare /\
  returns (hide 0 sampleShownBare) = false /\
  isVisible 0 (outcome (hide 0 sampleShownBare)) = true /\
  effects (outcome (hide 0 sampleShownBare)) = effects sampleShownBare.
Proof.
  assert (Hv : isVisible 0 sampleShownBare = true) by (vm_compute; reflexivity).
  assert (Hn : noBackdrop sampleShownBare) by (intros e He; each_element He).
  split; [exact Hv|]. split; [exact Hn|].
  pose proof (hide_without_backdrop_throws 0 sampleShownBare) as H. cbv zeta in H.
  destruct (H Hv Hn) as (Hr & _ & _ & Hv' & _ & _ & _ & He & _).
  split; [exact Hr|]. split; [exact Hv' | exact He].
Defined.

Lemma show_creates_backdrop_witness :
  allocated 0 sampleReady /\ isHidden 0 sampleReady = true /\
  acceptsBackdropClasses 0 sampleReady = true /\
  body sampleReady ≠ nextElem sampleReady /\
  tree (outcome (show 0 sampleReady)) = tree sampleReady ++ [nextElem sampleReady] /\
  classList (element (outcome (show 0 sampleReady)) (nextElem sampleReady))
    = ["bg-black"; "bg-opacity-30"; "fixed"; "inset-0"; "z-40"].
Proof.
  assert (Hh : isHidden 0 sampleReady = true) by (vm_compute; reflexivity).
  assert (Hb : body sampleReady ≠ nextElem sampleReady) by by_computation.
  assert (Htok : acceptsBackdropClasses 0 sampleReady = true) by (vm_compute; reflexivity).
  split; [exact sampleReady_allocated|]. split; [exact Hh|]. split; [exact Htok|].
  split; [exact Hb|].
  pose proof (show_creates_backdrop_only_when_hidden 0 sampleReady) as H. cbv zeta in H.
  destruct H as [H _].
  destruct (H sampleReady_allocated Hh Htok Hb) as (Ht & _ & _ & _ & _ & _ & Hcl).
  split; [exact Ht|]. apply Hcl. vm_compute. reflexivity.
Defined.

Lemma hide_removes_first_backdrop_witness :
  tidy (outcome (show 1 (outcome (show 0 stackReady)))) /\
  isVisible 1 (outcome (show 1 (outcome (show 0 stackReady)))) = true /\
  document_querySelector_attr (outcome (show 1 (outcome (show 0 stackReady)))) "modal-backdrop"
    = Some 6 /\
  _backdropEl (deref (outcome (show 1 (outcome (show 0 stackReady)))) 1) = Some 7 /\
  tree (outcome (hide 1 (outcome (show 1 (outcome (show 0 stackReady))))))
    = filter (fun x => x ≠ 6) (tree (outcome (show 1 (outcome (show 0 stackReady))))).
Proof.
  assert (T : tidy (outcome (show 1 (outcome (show 0 stackReady)))))
    by (apply tidy_show, tidy_show, stackReady_tidy).
  assert (Hv : isVisible 1 (outcome (show 1 (outcome (show 0 stackReady)))) = true)
    by (vm_compute; reflexivity).
  assert (Hq : document_querySelector_attr (outcome (show 1 (outcome (show 0 stackReady))))
                 "modal-backdrop" = Some 6) by (vm_compute; reflexivity).
  split; [exact T|]. split; [exact Hv|]. split; [exact Hq|].
  split; [vm_compute; reflexivity|].
  pose proof (hide_removes_first_backdrop 1 (outcome (show 1 (outcome (show 0 stackReady)))))
    as H. cbv zeta in H.
  destruct H as [H _]. destruct (H T Hv 6 Hq) as (_ & Ht & _). exact Ht.
Defined.

Lemma stacked_hide_witness :
  tidy stackReady /\ noBackdrop stackReady /\
  allocated 0 stackReady /\ allocated 1 stackReady /\
  isHidden 0 stackReady = true /\ isHidden 1 stackReady = true /\
  acceptsBackdropClasses 0 stackReady = true /\ acceptsBackdropClasses 1 stackReady = true /\
  isVisible 0 (outcome (hide 1 (outcome (show 1 (outcome (show 0 stackReady)))))) = true /\
  _backdropEl (deref (outcome (hide 1 (outcome (show 1 (outcome (show 0 stackReady)))))) 0)
    = Some (nextElem stackReady) /\
  tree (outcome (hide 1 (outcome (show 1 (outcome (show 0 stackReady))))))
    = tree stackReady ++ [S (nextElem stackReady)].
Proof.
  assert (A0 : allocated 0 stackReady) by by_computation.
  assert (A1 : allocated 1 stackReady) by by_computation.
  assert (H0 : isHidden 0 stackReady = true) by (vm_compute; reflexivity).
  assert (H1 : isHidden 1 stackReady = true) by (vm_compute; reflexivity).
  assert (Hne : 0 ≠ 1) by discriminate.
  assert (K0 : acceptsBackdropClasses 0 stackReady = true) by (vm_compute; reflexivity).
  assert (K1 : acceptsBackdropClasses 1 stackReady = true) by (vm_compute; reflexivity).
  split; [exact stackReady_tidy|]. split; [exact stackReady_noBackdrop|].
  split; [exact A0|]. split; [exact A1|]. split; [exact H0|]. split; [exact H1|].
  split; [exact K0|]. split; [exact K1|].
  pose proof (stacked_hide_removes_the_other_backdrop 0 1 stackReady) as H. cbv zeta in H.
  destruct (H stackReady_tidy stackReady_noBackdrop Hne A0 A1 H0 H1 K0 K1)
    as (_ & Hv & _ & Hb & _ & _ & Ht).
  split; [exact Hv|]. split; [exact Hb | exact Ht].
Defined.

Lemma scroll_lock_witness :
  showable 0 stackReady /\
  "overflow-hidden" ∈ classList (element (outcome (show 0 stackReady)) (body stackReady)) /\
  backdropAvailable 1 (outcome (show 1 (outcome (show 0 stackReady)))) /\
  isVisible 0 (outcome (hide 1 (outcome (show 1 (outcome (show 0 stackReady)))))) = true /\
  "overflow-hidden"
    ∉ classList (element (outcome (hide 1 (outcome (show 1 (outcome (show 0 stackReady))))))
                         (body (outcome (show 1 (outcome (show 0 stackReady)))))).
Proof.
  assert (Hs : showable 0 stackReady) by (intros _; vm_compute; reflexivity).
  assert (Hav : backdropAvailable 1 (outcome (show 1 (outcome (show 0 stackReady))))).
  { intros _. exists 6. vm_compute. reflexivity. }
  split; [exact Hs|].
  split; [apply (body_scroll_lock_follows_last_call 0 stackReady), Hs|].
  split; [exact Hav|].
  destruct (body_scroll_lock_follows_last_call 1 (outcome (show 1 (outcome (show 0 stackReady)))))
    as [_ H].
  destruct (H Hav) as (_ & Hcl & Hothers).
  split; [|exact Hcl].
  rewrite Hothers by discriminate. vm_compute. reflexivity.
Defined.

Lemma show_registers_witness :
  showable 1 stackReady /\
  3 ≠ nextElem stackReady /\
  closable (_options (deref stackReady 1)) = true /\
  backdrop (_options (deref stackReady 1)) ≠ "dynamic" /\
  listeners (element (outcome (show 1 stackReady)) 5) = listeners (element stackReady 5) /\
  listeners (element (outcome (show 1 stackReady)) 1)
    = [mkListener "keydown" (KeydownClosure 1 (nextSerial stackReady)) true].
Proof.
  assert (Hc : closable (_options (deref stackReady 1)) = true) by (vm_compute; reflexivity).
  assert (Hs : backdrop (_options (deref stackReady 1)) ≠ "dynamic")
    by (vm_compute; discriminate).
  assert (Hok : showable 1 stackReady) by (intros _; vm_compute; reflexivity).
  split; [exact Hok|].
  split; [by_computation|]. split; [exact Hc|]. split; [exact Hs|]. split.
  - pose proof (show_registers_what_options_ask 1 stackReady 5) as H. cbv zeta in H.
    assert (Hne : 5 ≠ nextElem stackReady) by by_computation.
    destruct (H Hok Hne) as (_ & H2 & _). rewrite (H2 Hc Hs). vm_compute. reflexivity.
  - pose proof (show_registers_what_options_ask 1 stackReady 1) as H. cbv zeta in H.
    assert (Hne : 1 ≠ nextElem stackReady) by by_computation.
    destruct (H Hok Hne) as (_ & H2 & _). rewrite (H2 Hc Hs). vm_compute. reflexivity.
Defined.

Lemma escape_key_witness :
  let escape := {| ev_type := "keydown"; ev_target := 1; ev_key := "Escape";
                   pageX := 0; pageY := 0 |} in
  let enter := {| ev_type := "keydown"; ev_target := 1; ev_key := "Enter";
                  pageX := 0; pageY := 0 |} in
  allocated 1 stackReady /\
  showable 1 stackReady /\
  closable (_options (deref stackReady 1)) = true /\
  backdropAvailable 1 stackReady /\
  onlyOwnKeydown 1 (body stackReady) stackReady /\
  isHidden 1 (deliver (OnElement (body stackReady)) escape (outcome (show 1 stackReady)))
    = true /\
  deliver (OnElement (body stackReady)) enter (outcome (show 1 stackReady))
    = outcome (show 1 stackReady).
Proof.
  intros escape enter.
  assert (Hal : allocated 1 stackReady) by by_computation.
  assert (Hb : body stackReady ≠ nextElem stackReady) by by_computation.
  assert (Hc : closable (_options (deref stackReady 1)) = true) by (vm_compute; reflexivity).
  assert (Hav : backdropAvailable 1 stackReady).
  { intros H. vm_compute in H. discriminate H. }
  assert (Hown : onlyOwnKeydown 1 (body stackReady) stackReady).
  { intros l Hl. vm_compute in Hl. inversion Hl. }
  assert (Hok : showable 1 stackReady) by (intros _; vm_compute; reflexivity).
  split; [exact Hal|]. split; [exact Hok|].
  split; [exact Hc|]. split; [exact Hav|]. split; [exact Hown|].
  split.
  - pose proof (escape_key_dismisses 1 stackReady escape) as H. cbv zeta in H.
    destruct (H Hal Hok Hb Hc Hav Hown eq_refl) as (_ & _ & He & _). apply He. reflexivity.
  - pose proof (escape_key_dismisses 1 stackReady enter) as H. cbv zeta in H.
    destruct (H Hal Hok Hb Hc Hav Hown eq_refl) as (_ & _ & _ & Hn). apply Hn. discriminate.
Defined.

Lemma resize_gesture_witness :
  let down := sampleEvent "mousedown" 7 100 100 in
  let up := sampleEvent "mouseup" 7 150 150 in
  let moves := [sampleEvent "mousemove" 7 120 130; sampleEvent "mousemove" 7 150 150] in
  _resizeTargetEl (deref sampleReady 0) = Some 4 /\
  documentListeners sampleReady = [] /\
  documentListeners (outcome (__onResizeMouseDown 0 down sampleReady))
    = [mkListener "mousemove" (OnResizeMouseMove 0) true;
       mkListener "mouseup" (OnResizeMouseUp 0) true] /\
  documentListeners
    (outcome (__onResizeMouseUp 0 up
                (handleEach (__onResizeMouseMove 0) moves
                   (outcome (__onResizeMouseDown 0 down sampleReady))))) = [].
Proof.
  intros down up moves.
  assert (Hr : _resizeTargetEl (deref sampleReady 0) = Some 4) by (vm_compute; reflexivity).
  assert (Hd : documentListeners sampleReady = []) by (vm_compute; reflexivity).
  split; [exact Hr|]. split; [exact Hd|].
  pose proof (resize_gesture_listeners_round_trip 0 sampleReady 4 down down up moves) as H.
  cbv zeta in H.
  assert (H1 : mkListener "mousemove" (OnResizeMouseMove 0) true ∉ documentListeners sampleReady)
    by by_computation.
  assert (H2 : mkListener "mouseup" (OnResizeMouseUp 0) true ∉ documentListeners sampleReady)
    by by_computation.
  destruct (H Hr H1 H2) as (Hdown & _ & _ & Hup).
  rewrite Hd in Hdown, Hup. split; [exact Hdown | exact Hup].
Defined.

Lemma drag_press_witness :
  withinControl sampleReady 6 /\ ~ withinControl sampleReady 5 /\
  __onDragMouseDown 0 (sampleEvent "mousedown" 6 10 20) sampleReady = Normal tt sampleReady /\
  effects (outcome (__onDragMouseDown 0 (sampleEvent "mousedown" 5 10 20) sampleReady))
    = effects sampleReady ++ [StopPropagation; PreventDefault;
                              ConsoleLogString "target"; ConsoleLogElement 5].
Proof.
  assert (Hin : withinControl sampleReady 6).
  { exists 6. split; [left | right; vm_compute; reflexivity]. }
  assert (Hout : ~ withinControl sampleReady 5).
  { rewrite <- closest_a_button_withinControl. vm_compute. intros [x Hx]. discriminate Hx. }
  split; [exact Hin|]. split; [exact Hout|].
  destruct (drag_press_skips_links_and_buttons 0 (sampleEvent "mousedown" 6 10 20) sampleReady)
    as [H1 _].
  destruct (drag_press_skips_links_and_buttons 0 (sampleEvent "mousedown" 5 10 20) sampleReady)
    as [_ H2].
  split; [exact (H1 Hin)|]. cbv zeta in H2. destruct (H2 Hout) as (_ & He & _). exact He.
Defined.

Lemma drag_gesture_witness :
  let down := sampleEvent "mousedown" 5 10 20 in
  let up := sampleEvent "mouseup" 5 40 60 in
  let moves := [sampleEvent "mousemove" 5 40 60] in
  allocated 0 sampleReady /\ ~ withinControl sampleReady (ev_target down) /\
  documentListeners sampleReady = [] /\
  documentListeners
    (outcome (__onDragMouseUp 0 up
                (handleEach (__onDragMouseMove 0) moves
                   (outcome (__onDragMouseDown 0 down sampleReady))))) = [].
Proof.
  intros down up moves.
  assert (Hout : ~ withinControl sampleReady (ev_target down)).
  { rewrite <- closest_a_button_withinControl. vm_compute. intros [x Hx]. discriminate Hx. }
  assert (Hd : documentListeners sampleReady = []) by (vm_compute; reflexivity).
  split; [exact sampleReady_allocated|]. split; [exact Hout|]. split; [exact Hd|].
  pose proof (drag_gesture_listeners_round_trip 0 sampleReady down up moves) as H.
  cbv zeta in H.
  assert (H1 : mkListener "mousemove" (OnDragMouseMove 0) true ∉ documentListeners sampleReady)
    by by_computation.
  assert (H2 : mkListener "mouseup" (OnDragMouseUp 0) true ∉ documentListeners sampleReady)
    by by_computation.
  destruct (H sampleReady_allocated Hout H1 H2) as (_ & _ & Hup & _).
  rewrite Hd in Hup. exact Hup.
Defined.

Lemma initModals_wires_witness :
  plainPage samplePage = true /\
  2 ∈ tree samplePage /\ getElementById samplePage "my-modal" = Some 3 /\
  getAttribute samplePage 2 "data-modal-toggle" = Some "my-modal" /\
  wired TriggerToggleClosure 2 3 (outcome (initModals samplePage)).
Proof.
  assert (Hin : 2 ∈ tree samplePage) by by_computation.
  assert (Hid : getElementById samplePage "my-modal" = Some 3) by (vm_compute; reflexivity).
  assert (Ha : getAttribute samplePage 2 "data-modal-toggle" = Some "my-modal")
    by (vm_compute; reflexivity).
  assert (Hp : plainPage samplePage = true) by (vm_compute; reflexivity).
  split; [exact Hp|].
  split; [exact Hin|]. split; [exact Hid|]. split; [exact Ha|].
  destruct (initModals_wires_triggers samplePage 2 3 "my-modal" Hp Hin Hid)
    as (s & w' & Hret & Ht & _).
  rewrite Hret. exact (Ht Ha).
Defined.

Lemma initModals_without_creators_witness :
  querySelectorAll_attr orphanPage "data-modal-target" = [] /\
  querySelectorAll_attr orphanPage "data-modal-toggle" = [] /\
  exists w' errors,
    initModals orphanPage = Normal [] w' /\ modals w' = [] /\
    effects w' = map ConsoleError errors /\ length errors = 2.
Proof.
  assert (H1 : querySelectorAll_attr orphanPage "data-modal-target" = [])
    by (vm_compute; reflexivity).
  assert (H2 : querySelectorAll_attr orphanPage "data-modal-toggle" = [])
    by (vm_compute; reflexivity).
  split; [exact H1|]. split; [exact H2|].
  destruct (initModals_without_creators orphanPage H1 H2)
    as (w' & errors & Hret & Hm & _ & _ & He & Hl).
  exists w', errors. split; [exact Hret|]. split; [exact Hm|]. split; [exact He | exact Hl].
Defined.

(** * No listener ever throws *)

(** ** Steps that keep the wiring *)

Lemma keepsWiring_refl (w : World) : keepsWiring w w.
Proof. split; auto. Qed.

Lemma callbackReady_kept (w w' : World) (cb : Callback) :
  keepsWiring w w' -> callbackReady w cb -> callbackReady w' cb.
Proof. intros [R D _ _]. destruct cb; simpl; auto. Qed.

Lemma keepsWiring_trans (w1 w2 w3 : World) :
  keepsWiring w1 w2 -> keepsWiring w2 w3 -> keepsWiring w1 w3.
Proof.
  intros A B. split.
  - intros m H. apply (kw_resize _ _ B), (kw_resize _ _ A), H.
  - intros m H. apply (kw_drag _ _ B), (kw_drag _ _ A), H.
  - intros t l H. destruct (kw_listeners _ _ B t l H) as [H2|H2]; [|right; exact H2].
    destruct (kw_listeners _ _ A t l H2) as [H1|H1]; [left; exact H1|].
    right. apply (callbackReady_kept w2 w3); assumption.
  - rewrite (kw_uncaught _ _ B). apply (kw_uncaught _ _ A).
Qed.

Lemma wellWired_kept (w w' : World) : keepsWiring w w' -> wellWired w -> wellWired w'.
Proof.
  intros K H t l Hl. destruct (kw_listeners _ _ K t l Hl) as [H1|H1]; [|exact H1].
  apply (callbackReady_kept w w' _ K), (H t l H1).
Qed.

(** A step that changes neither target field and adds no listener but
    ready ones. *)
Lemma keepsWiring_intro (w w' : World) :
  (forall m, _resizeTargetEl (deref w' m) = _resizeTargetEl (deref w m)) ->
  (forall m, _dragTargetEl (deref w' m) = _dragTargetEl (deref w m)) ->
  (forall e l, l ∈ listeners (element w' e) ->
     l ∈ listeners (element w e) \/ callbackReady w' (l_callback l)) ->
  (forall l, l ∈ documentListeners w' ->
     l ∈ documentListeners w \/ callbackReady w' (l_callback l)) ->
  uncaught w' = uncaught w ->
  keepsWiring w w'.
Proof.
  intros R D Le Ld U. split; [| | |exact U].
  - intros m. rewrite R. tauto.
  - intros m. rewrite D. tauto.
  - intros [e|] l; simpl; [apply Le | apply Ld].
Qed.

Lemma kw_updElement (e : ElemId) (f : Element -> Element) (w : World) :
  (forall x l, l ∈ listeners (f x) -> l ∈ listeners x) ->
  keepsWiring w (updElement e f w).
Proof.
  intros Hf. apply keepsWiring_intro; try reflexivity; [|tauto].
  intros e' l. rewrite element_updElement.
  destruct (decide (e = e')) as [->|]; [intros H; left; apply Hf, H | tauto].
Qed.

Lemma kw_classList_add (e : ElemId) (c : string) (w : World) :
  keepsWiring w (classList_add e c w).
Proof. apply kw_updElement. tauto. Qed.

Lemma kw_setStyle (e : ElemId) (p v : string) (w : World) :
  keepsWiring w (setStyle e p v w).
Proof. apply kw_updElement. tauto. Qed.

Lemma kw_fold_classList_add (e : ElemId) (l : list string) (w : World) :
  keepsWiring w (fold_left (fun w0 c => classList_add e c w0) l w).
Proof.
  revert w. induction l as [|c l IH]; intros w; simpl; [apply keepsWiring_refl|].
  apply (keepsWiring_trans _ (classList_add e c w)); [apply kw_classList_add | apply IH].
Qed.

Lemma kw_addEventListener (t : EventTarget) (ty : string) (cb : Callback) (cap : bool)
    (w : World) :
  callbackReady w cb -> keepsWiring w (addEventListener t ty cb cap w).
Proof.
  intros Hcb.
  assert (Hd : forall m, deref (addEventListener t ty cb cap w) m = deref w m)
    by (intros m; apply deref_addEventListener).
  assert (Hcb' : callbackReady (addEventListener t ty cb cap w) cb).
  { destruct cb; simpl in *; rewrite ?Hd; exact Hcb. }
  apply keepsWiring_intro.
  - intros m. rewrite Hd. reflexivity.
  - intros m. rewrite Hd. reflexivity.
  - intros e l. destruct t as [e0|]; [|simpl; tauto].
    rewrite listeners_addEventListener.
    destruct (decide (e0 = e)); [|tauto].
    rewrite listener_add_elem. intros [->|H]; [right; exact Hcb' | left; exact H].
  - intros l. destruct t as [e0|]; simpl; [tauto|].
    rewrite listener_add_elem. intros [->|H]; [right; exact Hcb' | left; exact H].
  - destruct t; reflexivity.
Qed.

Lemma kw_removeEventListener (t : EventTarget) (ty : string) (cb : Callback) (cap : bool)
    (w : World) :
  keepsWiring w (removeEventListener t ty cb cap w).
Proof.
  destruct t as [e0|].
  - apply kw_updElement. intros x l. simpl. rewrite listener_remove_elem. tauto.
  - apply keepsWiring_intro; try reflexivity; [tauto|].
    intros l. simpl. rewrite listener_remove_elem. tauto.
Qed.

Lemma kw_removeEventListener_opt (t : EventTarget) (ty : string) (cb : option Callback)
    (cap : bool) (w : World) :
  keepsWiring w (removeEventListener_opt t ty cb cap w).
Proof. destruct cb; [apply kw_removeEventListener | apply keepsWiring_refl]. Qed.

Lemma kw_emit (x : Effect) (w : World) :
  is_uncaught x = false -> keepsWiring w (emit x w).
Proof.
  intros Hx. apply keepsWiring_intro; try reflexivity; try tauto.
  unfold uncaught. rewrite effects_emit, List.filter_app, length_app. simpl.
  rewrite Hx. simpl. lia.
Qed.

Lemma kw_with_nextSerial (n : nat) (w : World) : keepsWiring w (with_nextSerial n w).
Proof. apply keepsWiring_intro; try reflexivity; tauto. Qed.

Lemma kw_updModal (m : ModalRef) (f : Modal -> Modal) (w : World) :
  (forall M, is_Some (_resizeTargetEl M) -> is_Some (_resizeTargetEl (f M))) ->
  (forall M, is_Some (_dragTargetEl M) -> is_Some (_dragTargetEl (f M))) ->
  keepsWiring w (updModal m f w).
Proof.
  intros Hr Hd.
  assert (Hderef : forall m', deref (updModal m f w) m' = deref w m' \/
                              deref (updModal m f w) m' = f (deref w m') /\
                              modals w !! m' = Some (deref w m')).
  { intros m'. unfold deref, updModal; simpl. rewrite list_lookup_alter.
    destruct (decide (m = m')) as [->|]; [|left; reflexivity].
    destruct (modals w !! m'); simpl; [right; split; reflexivity | left; reflexivity]. }
  split; [| | |reflexivity].
  - intros m' H. destruct (Hderef m') as [->|[-> _]]; [exact H | apply Hr, H].
  - intros m' H. destruct (Hderef m') as [->|[-> _]]; [exact H | apply Hd, H].
  - intros t l H. left. destruct t; exact H.
Qed.

(** Chaining: each statement of a handler keeps the wiring. *)
Ltac wiring_step :=
  match goal with
  | |- keepsWiring ?w ?w => apply keepsWiring_refl
  | |- keepsWiring ?w (addEventListener ?a ?b ?c ?d ?w') =>
      apply (keepsWiring_trans w w'); [|apply kw_addEventListener]
  | |- keepsWiring ?w (removeEventListener ?a ?b ?c ?d ?w') =>
      apply (keepsWiring_trans w w'); [|apply kw_removeEventListener]
  | |- keepsWiring ?w (classList_add ?e ?c ?w') =>
      apply (keepsWiring_trans w w'); [|apply kw_classList_add]
  | |- keepsWiring ?w (setStyle ?e ?p ?v ?w') =>
      apply (keepsWiring_trans w w'); [|apply kw_setStyle]
  | |- keepsWiring ?w (emit ?x ?w') =>
      apply (keepsWiring_trans w w'); [|apply kw_emit; reflexivity]
  | |- keepsWiring ?w (with_nextSerial ?n ?w') =>
      apply (keepsWiring_trans w w'); [|apply kw_with_nextSerial]
  | |- keepsWiring ?w (updModal ?m ?f ?w') =>
      apply (keepsWiring_trans w w'); [|apply kw_updModal; intros ? ?; assumption]
  end.

(** A step on the elements that registers nothing. *)
Lemma kw_elements (w w' : World) :
  modals w' = modals w -> documentListeners w' = documentListeners w ->
  effects w' = effects w ->
  (forall e l, l ∈ listeners (element w' e) -> l ∈ listeners (element w e)) ->
  keepsWiring w w'.
Proof.
  intros Hm Hd He Hl.
  assert (Hderef : forall m, deref w' m = deref w m)
    by (intros m; apply deref_same_modals, Hm).
  apply keepsWiring_intro.
  - intros m. rewrite Hderef. reflexivity.
  - intros m. rewrite Hderef. reflexivity.
  - intros e l H. left. apply Hl, H.
  - intros l. rewrite Hd. tauto.
  - unfold uncaught. rewrite He. reflexivity.
Qed.

Lemma kw_classList_remove (e : ElemId) (c : string) (w : World) :
  keepsWiring w (classList_remove e c w).
Proof. apply kw_updElement. tauto. Qed.

Lemma kw_setAttribute (e : ElemId) (n v : string) (w : World) :
  keepsWiring w (setAttribute e n v w).
Proof. apply kw_updElement. tauto. Qed.

Lemma kw_removeAttribute (e : ElemId) (n : string) (w : World) :
  keepsWiring w (removeAttribute e n w).
Proof. apply kw_updElement. tauto. Qed.

Lemma kw_createElement (tag : string) (w : World) :
  keepsWiring w (snd (createElement tag w)).
Proof.
  apply kw_elements; try reflexivity.
  intros e l. unfold createElement, element; simpl.
  destruct (decide (nextElem w = e)) as [->|Hne].
  - rewrite lookup_insert_eq. simpl. intros H. inversion H.
  - rewrite lookup_insert_ne by exact Hne. tauto.
Qed.

Lemma kw_body_append (child : ElemId) (w : World) :
  keepsWiring w (body_append child w).
Proof.
  apply kw_elements; try reflexivity.
  intros e l. unfold body_append.
  change (element (with_tree _ ?w0) e) with (element w0 e).
  rewrite element_updElement. destruct (decide (child = e)) as [->|]; tauto.
Qed.

Lemma kw_remove (el : ElemId) (w : World) : keepsWiring w (remove el w).
Proof.
  apply kw_elements; try reflexivity.
  intros e l. unfold remove. rewrite element_updElement.
  destruct (decide (el = e)) as [->|]; tauto.
Qed.

Ltac wiring_more :=
  match goal with
  | |- keepsWiring ?w (classList_remove ?e ?c ?w') =>
      apply (keepsWiring_trans w w'); [|apply kw_classList_remove]
  | |- keepsWiring ?w (setAttribute ?e ?n ?v ?w') =>
      apply (keepsWiring_trans w w'); [|apply kw_setAttribute]
  | |- keepsWiring ?w (removeAttribute ?e ?n ?w') =>
      apply (keepsWiring_trans w w'); [|apply kw_removeAttribute]
  | |- keepsWiring ?w (removeEventListener_opt ?a ?b ?c ?d ?w') =>
      apply (keepsWiring_trans w w'); [|apply kw_removeEventListener_opt]
  | |- keepsWiring ?w (body_append ?e ?w') =>
      apply (keepsWiring_trans w w'); [|apply kw_body_append]
  | |- keepsWiring ?w (remove ?e ?w') =>
      apply (keepsWiring_trans w w'); [|apply kw_remove]
  | |- keepsWiring ?w (fold_left (fun w0 c => classList_add ?e c w0) ?l ?w') =>
      apply (keepsWiring_trans w w'); [|apply kw_fold_classList_add]
  | |- callbackReady _ (ClickOutsideClosure _ _) => exact I
  | |- callbackReady _ (KeydownClosure _ _) => exact I
  | |- callbackReady _ (OnResizeMouseUp _) => exact I
  | |- callbackReady _ (OnDragMouseUp _) => exact I
  | |- callbackReady _ (TriggerToggleClosure _ _) => exact I
  | |- callbackReady _ (TriggerShowClosure _ _) => exact I
  | |- callbackReady _ (TriggerHideClosure _ _) => exact I
  end.

Ltac wiring_steps := repeat first [wiring_step | wiring_more].

(** ** The methods keep the wiring *)

Lemma kw__setup (this : ModalRef) (w : World) :
  keepsWiring w (_setupModalCloseEventListeners this w).
Proof.
  unfold _setupModalCloseEventListeners. cbv zeta.
  destruct (decide _); wiring_steps.
Qed.

Lemma kw__remove (this : ModalRef) (w : World) :
  keepsWiring w (_removeModalCloseEventListeners this w).
Proof.
  unfold _removeModalCloseEventListeners. cbv zeta.
  destruct (decide _); wiring_steps.
Qed.

Lemma kw_showPrefix (this : ModalRef) (w : World) : keepsWiring w (showPrefix this w).
Proof. unfold showPrefix. cbv zeta. wiring_steps. Qed.

Lemma kw_hidePrefix (this : ModalRef) (w : World) : keepsWiring w (hidePrefix this w).
Proof. unfold hidePrefix. cbv zeta. wiring_steps. Qed.

Lemma kw__createBackdrop (this : ModalRef) (w : World) :
  keepsWiring w (_createBackdrop this w).
Proof.
  destruct (_isHidden (deref w this)) eqn:E.
  - rewrite _createBackdrop_hidden by exact E. unfold backdropSketch.
    wiring_steps. apply kw_createElement.
  - rewrite _createBackdrop_visible by exact E. apply keepsWiring_refl.
Qed.

Lemma kw_showSuffix (this : ModalRef) (w : World) : keepsWiring w (showSuffix this w).
Proof.
  unfold showSuffix. cbv zeta. wiring_step.
  destruct (closable _); [|wiring_steps].
  eapply keepsWiring_trans; [|apply kw__setup]. wiring_steps.
Qed.

Lemma kw_hideSuffix (this : ModalRef) (w : World) : keepsWiring w (hideSuffix this w).
Proof.
  unfold hideSuffix. cbv zeta. wiring_step.
  destruct (closable _); [|wiring_steps].
  eapply keepsWiring_trans; [|apply kw__remove]. wiring_steps.
Qed.

Lemma kw_show (this : ModalRef) (w : World) : keepsWiring w (outcome (show this w)).
Proof.
  rewrite show_steps. unfold outcome.
  eapply keepsWiring_trans; [|apply kw_showSuffix].
  eapply keepsWiring_trans; [|apply kw__createBackdrop].
  apply kw_showPrefix.
Qed.

Lemma kw_hide (this : ModalRef) (w : World) : keepsWiring w (outcome (hide this w)).
Proof.
  destruct (_isHidden (deref w this)) eqn:E.
  - rewrite hide_hidden by exact E. unfold outcome.
    eapply keepsWiring_trans; [|apply kw_hideSuffix]. apply kw_hidePrefix.
  - destruct (document_querySelector_attr w "modal-backdrop") as [el|] eqn:Hq.
    + rewrite (hide_visible this w el) by assumption. unfold outcome.
      eapply keepsWiring_trans; [|apply kw_hideSuffix].
      eapply keepsWiring_trans; [|apply kw_remove]. apply kw_hidePrefix.
    + rewrite hide_throws by assumption. apply kw_hidePrefix.
Qed.

Lemma kw_toggle (this : ModalRef) (w : World) : keepsWiring w (outcome (toggle this w)).
Proof.
  unfold toggle. destruct (_isHidden (deref w this)).
  - pose proof (kw_show this w) as Hs.
    destruct (show this w) as [[] w1|e w1]; cbn [bind outcome] in *; [|exact Hs].
    wiring_step. exact Hs.
  - pose proof (kw_hide this w) as Hh.
    destruct (hide this w) as [[] w1|e w1]; cbn [bind outcome] in *; [|exact Hh].
    wiring_step. exact Hh.
Qed.

(** ** Construction *)

Lemma kw_new_object (obj : Modal) (w : World) :
  keepsWiring w (with_modals (fun l => l ++ [obj]) w).
Proof.
  assert (Hd : forall m, deref (with_modals (fun l => l ++ [obj]) w) m = deref w m \/
                         modals w !! m = None).
  { intros m. unfold deref; simpl.
    destruct (modals w !! m) as [M|] eqn:HM; [left | right; reflexivity].
    rewrite (lookup_app_l_Some _ _ _ _ HM). reflexivity. }
  split; [| | |reflexivity].
  - intros m. destruct (Hd m) as [->|HN]; [tauto|].
    unfold deref at 1. rewrite HN. simpl. intros [x Hx]. discriminate Hx.
  - intros m. destruct (Hd m) as [->|HN]; [tauto|].
    unfold deref at 1. rewrite HN. simpl. intros [x Hx]. discriminate Hx.
  - intros t l H. left. destruct t; exact H.
Qed.

Lemma ready_after_set_resize (this : ModalRef) (r : ElemId) (w : World) :
  allocated this w ->
  is_Some (_resizeTargetEl (deref (updModal this (set_resizeTargetEl (Some r)) w) this)).
Proof. intros H. rewrite deref_updModal_eq by exact H. simpl. eauto. Qed.

Lemma ready_after_set_drag (this : ModalRef) (d : ElemId) (w : World) :
  allocated this w ->
  is_Some (_dragTargetEl (deref (updModal this (set_dragTargetEl (Some d)) w) this)).
Proof. intros H. rewrite deref_updModal_eq by exact H. simpl. eauto. Qed.

Lemma kw__init (this : ModalRef) (w : World) :
  allocated this w -> keepsWiring w (_init this w).
Proof.
  intros Hal. unfold _init. cbv zeta.
  set (w1 := fold_left _ _ w).
  assert (H1 : keepsWiring w w1) by apply kw_fold_classList_add.
  assert (A1 : allocated this w1).
  { unfold allocated. subst w1.
    rewrite (fold_classList_add_frame (fun w0 => length (modals w0))) by reflexivity.
    exact Hal. }
  clearbody w1.
  set (w2 := match querySelector_attr w1 _ "data-modal-resize-target" with
             | Some _ => _ | None => _ end).
  assert (H2 : keepsWiring w w2 /\ allocated this w2).
  { subst w2. destruct (querySelector_attr w1 _ _) as [resizeEl|]; [|split; assumption].
    destruct (querySelector_id w1 _ _) as [r|]; [|split; assumption].
    split.
    - apply (keepsWiring_trans _ w1); [exact H1|].
      apply (keepsWiring_trans _ (updModal this (set_resizeTargetEl (Some r)) w1)).
      + apply kw_updModal; intros M HM; simpl; eauto.
      + apply kw_addEventListener. apply ready_after_set_resize, A1.
    - unfold allocated. rewrite modals_addEventListener, length_modals_updModal. exact A1. }
  destruct H2 as [H2 A2]. clearbody w2.
  destruct (querySelector_attr w2 _ _) as [dragAnchorEl|]; [|exact H2].
  destruct (querySelector_id w2 _ _) as [d|]; [|exact H2].
  apply (keepsWiring_trans _ w2); [exact H2|].
  set (w3 := updModal this (set_dragAnchorEl (Some dragAnchorEl)) w2).
  assert (A3 : allocated this w3)
    by (unfold allocated; subst w3; rewrite length_modals_updModal; exact A2).
  assert (H3 : keepsWiring w2 w3)
    by (subst w3; apply kw_updModal; intros M HM; exact HM).
  clearbody w3.
  apply (keepsWiring_trans _ w3); [exact H3|].
  apply (keepsWiring_trans _ (updModal this (set_dragTargetEl (Some d)) w3)).
  - apply kw_updModal; intros M HM; simpl; eauto.
  - apply kw_addEventListener. apply ready_after_set_drag, A3.
Qed.

Lemma kw_Modal_new (targetEl : option ElemId) (options : option PartialOptions) (w : World) :
  keepsWiring w (outcome (Modal_new targetEl options w)).
Proof.
  unfold Modal_new. destruct targetEl as [el|]; [|apply keepsWiring_refl].
  unfold outcome. eapply keepsWiring_trans; [apply kw_new_object|].
  apply kw__init. unfold allocated. simpl. rewrite length_app. simpl. lia.
Qed.

(** ** The listeners *)

Lemma ready_resize_kept (this : ModalRef) (w w' : World) :
  keepsWiring w w' -> is_Some (_resizeTargetEl (deref w this)) ->
  is_Some (_resizeTargetEl (deref w' this)).
Proof. intros K. apply (kw_resize _ _ K). Qed.

Lemma ready_drag_kept (this : ModalRef) (w w' : World) :
  keepsWiring w w' -> is_Some (_dragTargetEl (deref w this)) ->
  is_Some (_dragTargetEl (deref w' this)).
Proof. intros K. apply (kw_drag _ _ K). Qed.

(** A listener that is ready returns ... *)
Lemma invoke_ready_returns (cb : Callback) (ev : Event) (w : World) :
  consistent w -> callbackReady w cb -> returns (invoke cb ev w) = true.
Proof.
  intros Hc Hr.
  assert (Hh : forall m, returns (hide m w) = true).
  { intros m.
    destruct (hide_effects m w (consistent_backdropAvailable w m Hc)) as [-> _].
    reflexivity. }
  destruct cb as [m k|m k|m|m|m|m|m|m|m k|m k|m k]; cbn [invoke].
  - unfold _handleOutsideClick. destruct (_ || _); [apply Hh | reflexivity].
  - destruct (decide _); [apply Hh | reflexivity].
  - unfold __onResizeMouseDown, required. cbv zeta.
    destruct Hr as [r Hr].
    change (deref (emit PreventDefault (emit StopPropagation w)) m) with (deref w m).
    rewrite Hr. reflexivity.
  - unfold __onResizeMouseMove, required. cbv zeta.
    destruct Hr as [r Hr].
    change (deref (emit PreventDefault (emit StopPropagation w)) m) with (deref w m).
    rewrite Hr. reflexivity.
  - reflexivity.
  - unfold __onDragMouseDown. cbv zeta. destruct (bool_decide _); reflexivity.
  - unfold __onDragMouseMove, required. cbv zeta.
    destruct Hr as [d Hd].
    match goal with
    | |- context [_dragTargetEl (deref ?w1 m)] =>
        assert (H1 : is_Some (_dragTargetEl (deref w1 m)))
    end.
    { rewrite !(deref_updModal_frame _dragTargetEl) by reflexivity.
      exists d. exact Hd. }
    destruct H1 as [d' ->]. reflexivity.
  - reflexivity.
  - unfold toggle. destruct (_isHidden (deref w m)).
    + rewrite show_returns. reflexivity.
    + pose proof (Hh m) as H. destruct (hide m w) as [[] w1|e w1]; [reflexivity|discriminate H].
  - reflexivity.
  - apply Hh.
Qed.

(** ... and leaves only ready listeners behind. *)
Lemma kw_invoke (cb : Callback) (ev : Event) (w : World) :
  callbackReady w cb -> keepsWiring w (outcome (invoke cb ev w)).
Proof.
  intros Hr.
  destruct cb as [m k|m k|m|m|m|m|m|m|m k|m k|m k]; cbn [invoke].
  - unfold _handleOutsideClick. destruct (_ || _); [apply kw_hide | apply keepsWiring_refl].
  - destruct (decide _); [apply kw_hide | apply keepsWiring_refl].
  - unfold __onResizeMouseDown, required. cbv zeta.
    destruct (_resizeTargetEl _) as [r|] eqn:E; unfold outcome; [|wiring_steps].
    match goal with
    | |- keepsWiring w (addEventListener _ _ _ _ (addEventListener _ _ _ _ ?w4)) =>
        assert (H4 : keepsWiring w w4) by wiring_steps; set (w' := w4) in *
    end.
    clearbody w'.
    wiring_steps; first [exact H4 | apply (ready_resize_kept m w w' H4), Hr].
  - unfold __onResizeMouseMove, required. cbv zeta.
    destruct (_resizeTargetEl _) as [r|] eqn:E; unfold outcome; wiring_steps.
  - unfold __onResizeMouseUp, outcome. cbv zeta. wiring_steps.
  - unfold __onDragMouseDown. cbv zeta.
    destruct (bool_decide _); unfold outcome; [apply keepsWiring_refl|].
    match goal with
    | |- keepsWiring w (addEventListener _ _ _ _ (addEventListener _ _ _ _ ?w4)) =>
        assert (H4 : keepsWiring w w4) by wiring_steps; set (w' := w4) in *
    end.
    clearbody w'.
    wiring_steps; first [exact H4 | apply (ready_drag_kept m w w' H4), Hr].
  - unfold __onDragMouseMove, required. cbv zeta.
    destruct (_dragTargetEl _) as [d|] eqn:E; unfold outcome; wiring_steps.
  - unfold __onDragMouseUp, outcome. cbv zeta. wiring_steps.
  - apply kw_toggle.
  - apply kw_show.
  - apply kw_hide.
Qed.

(** The invariant of event delivery. *)
Lemma kw_callListeners (t : EventTarget) (ls : list Listener) (ev : Event) (w : World) :
  consistent w -> wellWired w -> keepsWiring w (callListeners t ls ev w).
Proof.
  revert w. induction ls as [|l ls IH]; intros w Hc Hw; simpl; [apply keepsWiring_refl|].
  destruct (bool_decide (l_type l = ev_type ev) && bool_decide (l ∈ listenersOf w t)) eqn:Hrun;
    [|apply IH; assumption].
  apply andb_prop in Hrun as [_ Hin]. apply bool_decide_eq_true in Hin.
  pose proof (Hw t l Hin) as Hr.
  pose proof (invoke_ready_returns _ ev w Hc Hr) as Hret.
  pose proof (kw_invoke _ ev w Hr) as Hk.
  pose proof (consistent_invoke (l_callback l) ev w Hc) as Hi.
  destruct (invoke (l_callback l) ev w) as [[] w1|e w1]; [|discriminate Hret].
  cbn [outcome] in Hk, Hi.
  apply (keepsWiring_trans _ w1); [exact Hk|].
  apply IH; [exact Hi | apply (wellWired_kept w w1 Hk Hw)].
Qed.

(** ** Bootstrapping *)

Lemma kw_initTarget (triggerEl : ElemId) (instances : list ModalInstance) (w : World) :
  keepsWiring w (outcome (initTarget triggerEl instances w)).
Proof.
  unfold initTarget. cbv zeta.
  destruct (getElementById w _) as [modalEl|]; [|unfold outcome; wiring_steps].
  destruct (getModalInstance _ instances); [apply keepsWiring_refl|].
  pose proof (kw_Modal_new (Some modalEl) (Some (optionsFromAttributes w modalEl)) w) as H.
  destruct (Modal_new _ _ w) as [obj w1|e w1]; exact H.
Qed.

Lemma kw_initToggle (triggerEl : ElemId) (instances : list ModalInstance) (w : World) :
  keepsWiring w (outcome (initToggle triggerEl instances w)).
Proof.
  unfold initToggle. cbv zeta.
  destruct (getElementById w _) as [modalEl|]; [|unfold outcome; wiring_steps].
  destruct (getModalInstance _ instances); cbn [bind outcome].
  - wiring_steps.
  - pose proof (kw_Modal_new (Some modalEl) (Some (optionsFromAttributes w modalEl)) w) as H.
    destruct (Modal_new _ _ w) as [obj w1|e w1]; cbn [bind outcome] in *; [|exact H].
    apply (keepsWiring_trans _ w1); [exact H|]. wiring_steps.
Qed.

Lemma kw_initShowHide (attr : string) (mk : ModalRef -> nat -> Callback)
    (triggerEl : ElemId) (instances : list ModalInstance) (w : World) :
  (forall m k w0, callbackReady w0 (mk m k)) ->
  keepsWiring w (outcome (initShowHide attr mk triggerEl instances w)).
Proof.
  intros Hmk. unfold initShowHide. cbv zeta.
  destruct (getElementById w _) as [modalEl|]; [|unfold outcome; wiring_steps].
  destruct (getModalInstance _ instances); unfold outcome; wiring_steps.
  apply Hmk.
Qed.

Lemma kw_forEach {A S : Type} (f : A -> S -> World -> Completion S) (l : list A) :
  (forall x s w, keepsWiring w (outcome (f x s w))) ->
  forall s w, keepsWiring w (outcome (forEach l f s w)).
Proof.
  intros Hf. induction l as [|x l IH]; intros s w; simpl; [apply keepsWiring_refl|].
  pose proof (Hf x s w) as H1.
  destruct (f x s w) as [s1 w1|e w1]; cbn [bind outcome] in *; [|exact H1].
  apply (keepsWiring_trans _ w1); [exact H1 | apply IH].
Qed.

Lemma kw_initModals (w : World) : keepsWiring w (outcome (initModals w)).
Proof.
  unfold initModals.
  pose proof (kw_forEach initTarget (querySelectorAll_attr w "data-modal-target")
                kw_initTarget [] w) as H1.
  destruct (forEach _ initTarget [] w) as [s1 w1|e w1]; cbn [bind outcome] in *; [|exact H1].
  pose proof (kw_forEach initToggle (querySelectorAll_attr w1 "data-modal-toggle")
                kw_initToggle s1 w1) as H2.
  destruct (forEach _ initToggle s1 w1) as [s2 w2|e w2]; cbn [bind outcome] in *;
    [|apply (keepsWiring_trans _ w1); assumption].
  assert (Hshow : forall x s w0, keepsWiring w0
            (outcome (initShowHide "data-modal-show" TriggerShowClosure x s w0)))
    by (intros; apply kw_initShowHide; intros; exact I).
  assert (Hhide : forall x s w0, keepsWiring w0
            (outcome (initShowHide "data-modal-hide" TriggerHideClosure x s w0)))
    by (intros; apply kw_initShowHide; intros; exact I).
  pose proof (kw_forEach _ (querySelectorAll_attr w2 "data-modal-show") Hshow s2 w2) as H3.
  destruct (forEach _ (initShowHide "data-modal-show" _) s2 w2) as [s3 w3|e w3];
    cbn [bind outcome] in *.
  - apply (keepsWiring_trans _ w1); [exact H1|].
    apply (keepsWiring_trans _ w2); [exact H2|].
    apply (keepsWiring_trans _ w3); [exact H3|].
    apply (kw_forEach _ _ Hhide).
  - apply (keepsWiring_trans _ w1); [exact H1|].
    apply (keepsWiring_trans _ w2); [exact H2 | exact H3].
Qed.

(** ** Runs *)

Lemma kw_step (w w' : World) :
  consistent w -> wellWired w -> step w w' -> keepsWiring w w'.
Proof.
  intros Hc Hw [targetEl options|this|this|this|t ev|].
  - apply kw_Modal_new.
  - apply kw_show.
  - apply kw_hide.
  - apply kw_toggle.
  - apply kw_callListeners; assumption.
  - apply kw_initModals.
Qed.

Lemma runs_invariant (w0 w : World) :
  consistent w0 -> wellWired w0 -> runs w0 w ->
  consistent w /\ wellWired w /\ uncaught w = uncaught w0.
Proof.
  intros Hc Hw. induction 1 as [|w w' _ IH Hs]; [auto|].
  destruct IH as (Hc' & Hw' & Hu).
  pose proof (kw_step w w' Hc' Hw' Hs) as Hk.
  split; [apply (step_consistent w w' Hs Hc')|].
  split; [apply (wellWired_kept w w' Hk Hw')|].
  rewrite (kw_uncaught _ _ Hk). exact Hu.
Qed.

(** X18. On a page without Modal objects whose listeners, if it has any,
    are none of the gesture handlers that read a resize or a drag
    target, no listener ever throws, whatever is constructed, called,
    bootstrapped and delivered afterwards, the option callbacks taken as
    returning: in every state of such a run each registered listener
    returns on every event, so that no delivery reports an uncaught
    exception, and the gesture handlers are only ever registered for
    a Modal that has the element they dereference. *)
Theorem listeners_never_throw (w0 w : World) (t : EventTarget) (l : Listener) (ev : Event) :
  pristine w0 -> wellWired w0 -> runs w0 w ->
  uncaught w = uncaught w0 /\
  uncaught (deliver t ev w) = uncaught w0 /\
  (l ∈ listenersOf w t ->
   callbackReady w (l_callback l) /\ returns (invoke (l_callback l) ev w) = true).
Proof.
  intros Hp Hw Hr.
  pose proof (pristine_consistent w0 Hp) as Hc.
  destruct (runs_invariant w0 w Hc Hw Hr) as (Hc' & Hw' & Hu).
  split; [exact Hu|]. split.
  - destruct (runs_invariant w0 (deliver t ev w) Hc Hw) as (_ & _ & Hd); [|exact Hd].
    apply (runs_step w0 w); [exact Hr | apply step_deliver].
  - intros Hin. split; [apply (Hw' t l Hin)|].
    apply invoke_ready_returns; [exact Hc' | apply (Hw' t l Hin)].
Qed.

Lemma samplePage_wellWired : wellWired samplePage.
Proof.
  intros [e|] l H; [|inversion H].
  simpl in H. unfold element in H.
  destruct (elements samplePage !! e) as [x|] eqn:Hx; [|inversion H].
  apply elem_of_list_to_map_2 in Hx. simpl in H.
  repeat (apply elem_of_cons in Hx as [Hx|Hx]; [injection Hx as -> ->; inversion H|]).
  inversion Hx.
Defined.

Lemma listeners_never_throw_witness :
  let press := sampleEvent "mousedown" 5 10 20 in
  let onDrag := mkListener "mousedown" (OnDragMouseDown 0) true in
  pristine samplePage /\ wellWired samplePage /\ runs samplePage sampleShown /\
  onDrag ∈ listenersOf sampleShown (OnElement 5) /\
  uncaught (deliver (OnElement 5) press sampleShown) = 0 /\
  returns (invoke (OnDragMouseDown 0) press sampleShown) = true.
Proof.
  intros press onDrag.
  assert (Hruns : runs samplePage sampleShown).
  { apply (runs_step samplePage sampleReady); [|apply step_show].
    apply (runs_step samplePage samplePage); [apply runs_start | apply step_initModals]. }
  assert (Hin : onDrag ∈ listenersOf sampleShown (OnElement 5))
    by (vm_compute; repeat constructor).
  destruct (listeners_never_throw samplePage sampleShown (OnElement 5) onDrag press
              samplePage_pristine samplePage_wellWired Hruns) as (_ & Hd & Hl).
  split; [exact samplePage_pristine|]. split; [exact samplePage_wellWired|].
  split; [exact Hruns|]. split; [exact Hin|]. split; [exact Hd | apply (Hl Hin)].
Defined.

(** ** [initModals] starts from nothing *)

Lemma listsNewObjects_push (n0 : nat) (instances : list ModalInstance) (w w' : World)
    (modalId : string) :
  listsNewObjects n0 instances w ->
  length (modals w') = S (length (modals w)) ->
  listsNewObjects n0 (instances ++ [{| id := modalId; object := length (modals w) |}]) w'.
Proof.
  intros [Hl Hi] Hl'. split.
  - rewrite Hl', Hl, length_app. simpl. lia.
  - intros i mi Hmi.
    destruct (decide (i < length instances)) as [Hlt|Hge].
    + rewrite lookup_app_l in Hmi by exact Hlt. apply Hi, Hmi.
    + rewrite lookup_app_r in Hmi by lia.
      destruct (i - length instances) as [|k] eqn:Hk; [|destruct k; discriminate Hmi].
      injection Hmi as <-. simpl. lia.
Qed.

Lemma listsNewObjects_same (n0 : nat) (instances : list ModalInstance) (w w' : World) :
  listsNewObjects n0 instances w -> length (modals w') = length (modals w) ->
  listsNewObjects n0 instances w'.
Proof. intros [Hl Hi] Hl'. split; [rewrite Hl'; exact Hl | exact Hi]. Qed.

Lemma Modal_new_length (el : ElemId) (options : option PartialOptions) (w : World) :
  exists w', Modal_new (Some el) options w = Normal (length (modals w)) w' /\
             length (modals w') = S (length (modals w)).
Proof.
  unfold Modal_new. eexists. split; [reflexivity|].
  rewrite _init_length. simpl. rewrite length_app. simpl. lia.
Qed.

Lemma initTarget_listsNewObjects (n0 : nat) (triggerEl : ElemId)
    (instances : list ModalInstance) (w : World) :
  listsNewObjects n0 instances w ->
  exists instances' w', initTarget triggerEl instances w = Normal instances' w' /\
                        listsNewObjects n0 instances' w'.
Proof.
  intros H. unfold initTarget. cbv zeta.
  destruct (getElementById w _) as [modalEl|].
  - destruct (getModalInstance _ instances).
    + exists instances, w. split; [reflexivity | exact H].
    + destruct (Modal_new_length modalEl (Some (optionsFromAttributes w modalEl)) w)
        as (w' & -> & Hl).
      cbn [bind]. eexists _, w'. split; [reflexivity|].
      apply (listsNewObjects_push n0 instances w w' _ H Hl).
  - eexists _, _. split; [reflexivity|].
    apply (listsNewObjects_same n0 instances w); [exact H | reflexivity].
Qed.

Lemma initToggle_listsNewObjects (n0 : nat) (triggerEl : ElemId)
    (instances : list ModalInstance) (w : World) :
  listsNewObjects n0 instances w ->
  exists instances' w', initToggle triggerEl instances w = Normal instances' w' /\
                        listsNewObjects n0 instances' w'.
Proof.
  intros H. unfold initToggle. cbv zeta.
  destruct (getElementById w _) as [modalEl|].
  - destruct (getModalInstance _ instances); cbn [bind].
    + eexists _, _. split; [reflexivity|].
      apply (listsNewObjects_same n0 instances w); [exact H|].
      rewrite modals_addEventListener. reflexivity.
    + destruct (Modal_new_length modalEl (Some (optionsFromAttributes w modalEl)) w)
        as (w' & -> & Hl).
      cbn [bind]. eexists _, _. split; [reflexivity|].
      apply (listsNewObjects_same n0 _ w');
        [|rewrite modals_addEventListener; reflexivity].
      apply (listsNewObjects_push n0 instances w w' _ H Hl).
  - eexists _, _. split; [reflexivity|].
    apply (listsNewObjects_same n0 instances w); [exact H | reflexivity].
Qed.

Lemma initShowHide_listsNewObjects (n0 : nat) (attr : string)
    (mk : ModalRef -> nat -> Callback) (triggerEl : ElemId)
    (instances : list ModalInstance) (w : World) :
  listsNewObjects n0 instances w ->
  exists instances' w',
    initShowHide attr mk triggerEl instances w = Normal instances' w' /\
    listsNewObjects n0 instances' w'.
Proof.
  intros H. unfold initShowHide. cbv zeta.
  destruct (getElementById w _) as [modalEl|];
    [destruct (getModalInstance _ instances)|];
    eexists _, _; (split; [reflexivity|]);
    apply (listsNewObjects_same n0 instances w); try exact H;
    rewrite ?modals_addEventListener; reflexivity.
Qed.

Lemma forEach_listsNewObjects {A : Type} (n0 : nat)
    (f : A -> list ModalInstance -> World -> Completion (list ModalInstance))
    (l : list A) :
  (forall x s w, listsNewObjects n0 s w ->
     exists s' w', f x s w = Normal s' w' /\ listsNewObjects n0 s' w') ->
  forall s w, listsNewObjects n0 s w ->
    exists s' w', forEach l f s w = Normal s' w' /\ listsNewObjects n0 s' w'.
Proof.
  intros Hf. induction l as [|x l IH]; intros s w H; simpl.
  - exists s, w. split; [reflexivity | exact H].
  - destruct (Hf x s w H) as (s1 & w1 & -> & H1). cbn [bind]. apply IH, H1.
Qed.

(** X19. [initModals] keeps no memory of an earlier call: its instance
    list starts empty, so whatever Modal objects exist already (and on a
    page whose resize handles and drag anchors name plain identifiers,
    where the constructors return) it constructs one new object for every
    entry of the list that it builds, the i-th entry naming the i-th
    object constructed.  No entry names an object that existed before the
    call. *)
Theorem initModals_constructs_afresh (w : World) :
  plainPage w = true ->
  exists instances w',
    initModals w = Normal instances w' /\
    length (modals w') = length (modals w) + length instances /\
    (forall i modalInstance, instances !! i = Some modalInstance ->
       object modalInstance = length (modals w) + i) /\
    (forall modalInstance, modalInstance ∈ instances ->
       ~ allocated (object modalInstance) w).
Proof.
  intros _.
  assert (H0 : listsNewObjects (length (modals w)) [] w).
  { split; [simpl; lia|]. intros i mi Hmi. discriminate Hmi. }
  unfold initModals.
  destruct (forEach_listsNewObjects (length (modals w)) initTarget
              (querySelectorAll_attr w "data-modal-target")
              (initTarget_listsNewObjects _) [] w H0) as (s1 & w1 & -> & H1).
  cbn [bind].
  destruct (forEach_listsNewObjects (length (modals w)) initToggle
              (querySelectorAll_attr w1 "data-modal-toggle")
              (initToggle_listsNewObjects _) s1 w1 H1) as (s2 & w2 & -> & H2).
  cbn [bind].
  destruct (forEach_listsNewObjects (length (modals w))
              (initShowHide "data-modal-show" TriggerShowClosure)
              (querySelectorAll_attr w2 "data-modal-show")
              (initShowHide_listsNewObjects _ _ _) s2 w2 H2) as (s3 & w3 & -> & H3).
  cbn [bind].
  destruct (forEach_listsNewObjects (length (modals w))
              (initShowHide "data-modal-hide" TriggerHideClosure)
              (querySelectorAll_attr w3 "data-modal-hide")
              (initShowHide_listsNewObjects _ _ _) s3 w3 H3) as (s4 & w4 & -> & [Hl Hi]).
  exists s4, w4. split; [reflexivity|]. split; [exact Hl|]. split; [exact Hi|].
  intros mi Hmi. apply list_elem_of_lookup in Hmi as [i Hmi].
  unfold allocated. rewrite (Hi i mi Hmi). lia.
Qed.

(** * The path of a release event *)

(** * Releasing the pointer: the path of the event *)

(** ** Nodes where nothing listens *)

Lemma callListeners_other_type (t : EventTarget) (ls : list Listener) (ev : Event)
    (w : World) :
  (forall l, l ∈ ls -> l_type l ≠ ev_type ev) -> callListeners t ls ev w = w.
Proof.
  induction ls as [|l ls IH]; intros H; simpl; [reflexivity|].
  rewrite (bool_decide_eq_false_2 _ (H l (list_elem_of_here _ _))). simpl.
  apply IH. intros l0 Hl0. apply H. right. exact Hl0.
Qed.

Lemma listenersInPhase_elem (capture : bool) (w : World) (t : EventTarget) (l : Listener) :
  l ∈ listenersInPhase capture w t <-> l ∈ listenersOf w t /\ l_capture l = capture.
Proof.
  unfold listenersInPhase. rewrite !list_elem_of_In, filter_In.
  rewrite Bool.eqb_true_iff. tauto.
Qed.

Lemma no_new_effects (w : World) :
  existsb is_stopPropagation (drop (length (effects w)) (effects w)) = false.
Proof. rewrite drop_all. reflexivity. Qed.

Lemma visitNode_idle (capture : bool) (t : EventTarget) (ev : Event) (w : World) :
  callListeners t (listenersInPhase capture w t) ev w = w ->
  visitNode capture t ev w = (false, w).
Proof. intros H. unfold visitNode. rewrite H, no_new_effects. reflexivity. Qed.

Lemma visitPath_idle (capture : bool) (path : list EventTarget) (ev : Event) (w : World) :
  (forall t, t ∈ path -> callListeners t (listenersInPhase capture w t) ev w = w) ->
  visitPath capture path ev w = (false, w).
Proof.
  induction path as [|t path IH]; intros H; cbn [visitPath]; [reflexivity|].
  rewrite visitNode_idle by (apply H; left).
  apply IH. intros t0 Ht0. apply H. right. exact Ht0.
Qed.

Lemma dispatchEvent_idle (ev : Event) (w : World) :
  (forall t capture, t ∈ eventPath w (ev_target ev) ->
     callListeners t (listenersInPhase capture w t) ev w = w) ->
  dispatchEvent ev w = w.
Proof.
  intros H. unfold dispatchEvent.
  rewrite visitPath_idle by (intros t Ht; apply H, Ht).
  rewrite visitPath_idle; [reflexivity|].
  intros t Ht. apply H. apply list_elem_of_In. apply in_rev.
  apply list_elem_of_In. exact Ht.
Qed.

(** ** The listeners after [show] and [hide] *)

Lemma hide_listeners_sub (this : ModalRef) (w : World) (t : EventTarget) (x : Listener) :
  x ∈ listenersOf (outcome (hide this w)) t -> x ∈ listenersOf w t.
Proof.
  assert (Hs : forall w0 e, x ∈ listeners (element (hideSuffix this w0) e) ->
                            x ∈ listeners (element w0 e)).
  { intros w0 e. unfold hideSuffix. cbv zeta. rewrite element_emit.
    set (w1 := classList_remove _ _ _).
    assert (H1 : listeners (element w1 e) = listeners (element w0 e)).
    { subst w1. unfold classList_remove.
      rewrite (element_updElement_frame listeners) by reflexivity.
      rewrite element_updModal. reflexivity. }
    clearbody w1. destruct (closable _).
    - intros H. apply _remove_shrinks in H. rewrite H1 in H. exact H.
    - rewrite H1. tauto. }
  assert (Hp : forall e, listeners (element (hidePrefix this w) e) = listeners (element w e))
    by (intros e; apply (hidePrefix_element_frame listeners); reflexivity).
  assert (Hsd : forall w0, documentListeners (hideSuffix this w0) = documentListeners w0).
  { intros w0. unfold hideSuffix, _removeModalCloseEventListeners. cbv zeta.
    destruct (closable _); [|reflexivity].
    destruct (decide _);
      destruct (_keydownEventListener _); try destruct (_clickOutsideEventListener _);
      reflexivity. }
  assert (Hpd : documentListeners (hidePrefix this w) = documentListeners w)
    by (apply (hidePrefix_frame documentListeners); reflexivity).
  destruct t as [e|]; simpl.
  - destruct (_isHidden (deref w this)) eqn:E.
    + rewrite hide_hidden by exact E. unfold outcome.
      intros H. apply Hs in H. rewrite Hp in H. exact H.
    + destruct (document_querySelector_attr w "modal-backdrop") as [el|] eqn:Hq.
      * rewrite (hide_visible this w el) by assumption. unfold outcome.
        intros H. apply Hs in H.
        rewrite (remove_element_frame listeners) in H by reflexivity.
        rewrite Hp in H. exact H.
      * rewrite hide_throws by assumption. unfold outcome. rewrite Hp. tauto.
  - destruct (_isHidden (deref w this)) eqn:E.
    + rewrite hide_hidden by exact E. unfold outcome. rewrite Hsd, Hpd. tauto.
    + destruct (document_querySelector_attr w "modal-backdrop") as [el|] eqn:Hq.
      * rewrite (hide_visible this w el) by assumption. unfold outcome.
        rewrite Hsd. rewrite (remove_frame documentListeners) by reflexivity.
        rewrite Hpd. tauto.
      * rewrite hide_throws by assumption. unfold outcome. rewrite Hpd. tauto.
Qed.

Lemma _setup_mouseup_listeners (this : ModalRef) (w : World) (e : ElemId) (x : Listener) :
  x ∈ listeners (element (_setupModalCloseEventListeners this w) e) ->
  l_type x = "mouseup" ->
  x ∈ listeners (element w e) \/
  (e = _targetEl (deref w this) /\ exists n, l_callback x = ClickOutsideClosure this n).
Proof.
  unfold _setupModalCloseEventListeners. cbv zeta.
  rewrite listeners_addEventListener. intros H Hty.
  assert (H1 : x ∈ listeners (element
            (if decide (backdrop (_options (deref w this)) = "dynamic")
             then addEventListener (OnElement (_targetEl (deref
                      (updModal this (set_clickOutsideEventListener
                         (Some (ClickOutsideClosure this (nextSerial w))))
                         (with_nextSerial (S (nextSerial w)) w)) this)))
                    "mouseup" (ClickOutsideClosure this (nextSerial w)) true
                    (updModal this (set_clickOutsideEventListener
                         (Some (ClickOutsideClosure this (nextSerial w))))
                         (with_nextSerial (S (nextSerial w)) w))
             else w) e)).
  { destruct (decide (body _ = e)); [|exact H].
    apply listener_add_elem in H as [->|H]; [discriminate Hty | exact H]. }
  clear H. destruct (decide _) as [Hdyn|_]; [|left; exact H1].
  rewrite listeners_addEventListener in H1.
  rewrite (deref_updModal_frame _targetEl) in H1 by reflexivity.
  rewrite deref_with_nextSerial in H1.
  rewrite element_updModal, element_with_nextSerial in H1.
  destruct (decide (_targetEl (deref w this) = e)) as [<-|]; [|left; exact H1].
  apply listener_add_elem in H1 as [->|H1]; [|left; exact H1].
  right. split; [reflexivity | eauto].
Qed.

Lemma show_mouseup_listeners (this : ModalRef) (w : World) (e : ElemId) (x : Listener) :
  e ≠ nextElem w ->
  x ∈ listeners (element (outcome (show this w)) e) ->
  l_type x = "mouseup" ->
  x ∈ listeners (element w e) \/
  (e = _targetEl (deref w this) /\ exists n, l_callback x = ClickOutsideClosure this n).
Proof.
  intros Hne. rewrite show_steps. unfold outcome, showSuffix. cbv zeta.
  rewrite element_emit. fold (showMiddle this w).
  set (w1 := classList_add _ _ _).
  assert (H1 : listeners (element w1 e) = listeners (element w e)).
  { subst w1. unfold classList_add.
    rewrite (element_updElement_frame listeners) by reflexivity.
    rewrite element_updModal. apply showMiddle_listeners, Hne. }
  assert (Ht : _targetEl (deref w1 this) = _targetEl (deref w this)).
  { subst w1. unfold classList_add. rewrite deref_updElement.
    rewrite (deref_updModal_frame _targetEl) by reflexivity.
    apply (showMiddle_deref_frame _targetEl). reflexivity. }
  clearbody w1. destruct (closable _).
  - intros H Hty. apply _setup_mouseup_listeners in H; [|exact Hty].
    rewrite H1, Ht in H. exact H.
  - rewrite H1. tauto.
Qed.

Lemma backdropSketch_listeners (this : ModalRef) (w : World) :
  listeners (element (backdropSketch this w) (nextElem w)) = [].
Proof.
  unfold backdropSketch.
  rewrite (fold_classList_add_frame (fun w0 => listeners (element w0 (nextElem w))))
    by (intros c w0; unfold classList_add;
        apply (element_updElement_frame listeners); reflexivity).
  unfold setAttribute. rewrite (element_updElement_frame listeners) by reflexivity.
  unfold createElement, element; simpl. rewrite lookup_insert_eq. reflexivity.
Qed.

Lemma show_backdrop_listeners (this : ModalRef) (w : World) :
  _isHidden (deref w this) = true ->
  _targetEl (deref w this) ≠ nextElem w -> body w ≠ nextElem w ->
  listeners (element (outcome (show this w)) (nextElem w)) = [].
Proof.
  intros Hh Ht Hb. rewrite show_steps. unfold outcome, showSuffix. cbv zeta.
  rewrite element_emit. fold (showMiddle this w).
  set (w1 := classList_add _ _ _).
  assert (H1 : listeners (element w1 (nextElem w)) = []).
  { subst w1. unfold classList_add.
    rewrite (element_updElement_frame listeners) by reflexivity.
    rewrite element_updModal. unfold showMiddle.
    assert (Hh1 : _isHidden (deref (showPrefix this w) this) = true).
    { rewrite (showPrefix_frame (fun w0 => deref w0 this)) by reflexivity. exact Hh. }
    assert (Hn1 : nextElem (showPrefix this w) = nextElem w)
      by (apply (showPrefix_frame nextElem); reflexivity).
    rewrite _createBackdrop_hidden by exact Hh1.
    rewrite element_updModal. unfold body_append.
    rewrite element_with_tree.
    rewrite (element_updElement_frame listeners) by reflexivity.
    rewrite <- Hn1. apply backdropSketch_listeners. }
  assert (Ht1 : _targetEl (deref w1 this) = _targetEl (deref w this)).
  { subst w1. unfold classList_add. rewrite deref_updElement.
    rewrite (deref_updModal_frame _targetEl) by reflexivity.
    apply (showMiddle_deref_frame _targetEl). reflexivity. }
  assert (Hb1 : body w1 = body w).
  { subst w1. unfold classList_add. rewrite body_updElement, body_updModal.
    apply (showMiddle_frame body); reflexivity. }
  clearbody w1. destruct (closable _); [|exact H1].
  unfold _setupModalCloseEventListeners. cbv zeta.
  destruct (decide (backdrop _ = "dynamic")) as [Hdyn|_].
  - rewrite listeners_addEventListener.
    destruct (decide (body _ = nextElem w)) as [Hc|_];
      [exfalso; apply Hb; rewrite <- Hb1; exact Hc|].
    rewrite element_updModal, element_with_nextSerial.
    rewrite listeners_addEventListener.
    rewrite (deref_updModal_frame _targetEl) by reflexivity.
    rewrite deref_with_nextSerial, Ht1.
    rewrite decide_False by exact Ht.
    rewrite element_updModal, element_with_nextSerial. exact H1.
  - rewrite listeners_addEventListener.
    destruct (decide (body _ = nextElem w)) as [Hc|_];
      [exfalso; apply Hb; rewrite <- Hb1; exact Hc|].
    rewrite element_updModal, element_with_nextSerial. exact H1.
Qed.

Lemma show_documentListeners (this : ModalRef) (w : World) :
  documentListeners (outcome (show this w)) = documentListeners w.
Proof.
  rewrite show_steps. unfold outcome. fold (showMiddle this w).
  rewrite (showSuffix_frame documentListeners) by reflexivity.
  apply (showMiddle_frame documentListeners); reflexivity.
Qed.

Lemma show_parentNode_ne (this : ModalRef) (w : World) (e : ElemId) :
  e ≠ nextElem w ->
  parentNode (element (outcome (show this w)) e) = parentNode (element w e).
Proof.
  intros Hne. rewrite show_steps. unfold outcome.
  rewrite (showSuffix_element_frame parentNode) by reflexivity.
  rewrite _createBackdrop_element_ne
    by (rewrite (showPrefix_frame nextElem) by reflexivity; exact Hne).
  apply (showPrefix_element_frame parentNode); reflexivity.
Qed.

Lemma ancestors_upto_agree (n : nat) (w w0 : World) (k : nat) (x : ElemId) :
  (forall e, e < n -> parentNode (element w e) = parentNode (element w0 e)) ->
  (forall e p, parentNode (element w0 e) = Some p -> p < n) ->
  x < n ->
  ancestors_upto k w x = ancestors_upto k w0 x.
Proof.
  intros Hsame Hlt. revert x. induction k as [|k IH]; intros x Hx; simpl; [reflexivity|].
  rewrite Hsame by exact Hx.
  destruct (parentNode (element w0 x)) as [p|] eqn:Hp; [|reflexivity].
  rewrite IH by (apply (Hlt x p Hp)). reflexivity.
Qed.

Lemma show_backdrop_parent (this : ModalRef) (w : World) :
  isHidden this w = true ->
  parentNode (element (outcome (show this w)) (nextElem w)) = Some (body w).
Proof.
  intros Hh. unfold isHidden in Hh.
  assert (Hh1 : _isHidden (deref (showPrefix this w) this) = true).
  { rewrite (showPrefix_frame (fun w0 => deref w0 this)) by reflexivity. exact Hh. }
  assert (Hn1 : nextElem (showPrefix this w) = nextElem w)
    by (apply (showPrefix_frame nextElem); reflexivity).
  assert (Hb1 : body (showPrefix this w) = body w)
    by (apply (showPrefix_frame body); reflexivity).
  destruct (_createBackdrop_hidden_view this (showPrefix this w) Hh1)
    as (_ & _ & _ & _ & _ & Hpar & _ & _).
  rewrite Hn1, Hb1 in Hpar.
  rewrite show_steps. unfold outcome.
  rewrite (showSuffix_element_frame parentNode) by reflexivity. exact Hpar.
Qed.

(** The backdrop hangs under the body: its ancestors are the body and the
    ancestors of the body. *)
Lemma show_backdrop_ancestors (this : ModalRef) (w : World) :
  tidy w -> allocated this w -> isHidden this w = true ->
  ancestors (outcome (show this w)) (nextElem w) = body w :: ancestors w (body w).
Proof.
  intros T Hal Hh.
  assert (Hbody : body w < nextElem w) by apply (tidy_body w T).
  destruct (show_creates_backdrop_facts this w Hal Hh) as (Ht & _); [lia|].
  pose proof (show_backdrop_parent this w Hh) as Hpar.
  assert (Hsame : forall e, e < nextElem w ->
            parentNode (element (outcome (show this w)) e) = parentNode (element w e))
    by (intros e He; apply show_parentNode_ne; lia).
  revert Ht Hpar Hsame. generalize (outcome (show this w)). intros w' Ht Hpar Hsame.
  unfold ancestors. rewrite Ht, length_app.
  replace (length (tree w) + length [nextElem w]) with (S (length (tree w)))
    by (simpl; lia).
  remember (S (length (tree w))) as k eqn:Hk.
  cbn [ancestors_upto]. rewrite Hpar. f_equal.
  apply (ancestors_upto_agree (nextElem w)).
  - exact Hsame.
  - intros e p Hp. apply (tidy_parent w T e p Hp).
  - exact Hbody.
Qed.

(** ** The click-outside closures at work *)

Lemma mouseupOnlyOwn_hide (this : ModalRef) (targetEl : ElemId) (w : World) :
  mouseupOnlyOwn this targetEl w -> mouseupOnlyOwn this targetEl (outcome (hide this w)).
Proof. intros H t l Hl. apply H. apply (hide_listeners_sub this w t l Hl). Qed.

(** A release on the target: the listeners called are click-outside
    closures; none stops the event; once one has run the modal is hidden
    and stays so. *)
Lemma callListeners_own (this : ModalRef) (targetEl : ElemId) (backdropEl : option ElemId)
    (ev : Event) (t : EventTarget) (ls : list Listener) (w : World) :
  ev_type ev = "mouseup" -> ev_target ev = targetEl ->
  dismissible this targetEl backdropEl w ->
  mouseupOnlyOwn this targetEl w ->
  (forall l, l ∈ ls -> l_type l = "mouseup" ->
             exists k, l_callback l = ClickOutsideClosure this k) ->
  let w' := callListeners t ls ev w in
  dismissible this targetEl backdropEl w' /\
  mouseupOnlyOwn this targetEl w' /\
  (exists xs, effects w' = effects w ++ xs /\ existsb is_stopPropagation xs = false) /\
  (w' = w \/ _isHidden (deref w' this) = true) /\
  (_isHidden (deref w this) = true -> _isHidden (deref w' this) = true) /\
  (forall l0, l0 ∈ ls -> l_type l0 = "mouseup" -> l0 ∈ listenersOf w t ->
     _isHidden (deref w' this) = true).
Proof.
  intros Hty Htg. revert w.
  induction ls as [|l ls IH]; intros w Hd Hm Hown; cbn [callListeners].
  - split; [exact Hd|]. split; [exact Hm|].
    split; [exists []; rewrite app_nil_r; split; reflexivity|].
    split; [left; reflexivity|]. split; [tauto|].
    intros l0 Hl0. inversion Hl0.
  - assert (Hown' : forall l0, l0 ∈ ls -> l_type l0 = "mouseup" ->
               exists k, l_callback l0 = ClickOutsideClosure this k).
    { intros l0 Hl0. apply Hown. right. exact Hl0. }
    destruct (bool_decide (l_type l = ev_type ev) && bool_decide (l ∈ listenersOf w t))
      eqn:Hrun.
    + apply andb_true_iff in Hrun as [Hlty Hreg].
      apply bool_decide_eq_true in Hlty. rewrite Hty in Hlty.
      destruct (Hown l (list_elem_of_here _ _) Hlty) as [k Hk].
      rewrite Hk. cbn [invoke]. rewrite Htg.
      destruct (_handleOutsideClick_dismisses this targetEl backdropEl targetEl w Hd
                  (or_introl eq_refl)) as (Hret & Hd1 & Hh1).
      cbv zeta in Hret, Hd1, Hh1.
      assert (Hout : outcome (_handleOutsideClick this targetEl w) = outcome (hide this w)).
      { unfold _handleOutsideClick. rewrite (dis_target _ _ _ _ Hd).
        rewrite bool_decide_eq_true_2 by reflexivity. reflexivity. }
      rewrite Hret. rewrite Hout in *.
      pose proof (mouseupOnlyOwn_hide this targetEl w Hm) as Hm1.
      destruct (hide_effects this w (dis_available _ _ _ _ Hd)) as [_ He1].
      revert Hd1 Hh1 Hm1 He1. generalize (outcome (hide this w)). intros w1 Hd1 Hh1 Hm1 He1.
      destruct (IH w1 Hd1 Hm1 Hown') as (Hd2 & Hm2 & (xs & He2 & Hxs) & _ & Hmono & _).
      split; [exact Hd2|]. split; [exact Hm2|].
      split.
      { eexists. rewrite He2, He1, <- app_assoc. split; [reflexivity|].
        simpl. exact Hxs. }
      split; [right; apply Hmono, Hh1|].
      split; [intros _; apply Hmono, Hh1|].
      intros l0 _ _ _. apply Hmono, Hh1.
    + destruct (IH w Hd Hm Hown') as (Hd2 & Hm2 & He2 & Hcase & Hmono & Hlast).
      split; [exact Hd2|]. split; [exact Hm2|]. split; [exact He2|].
      split; [exact Hcase|]. split; [exact Hmono|].
      intros l0 Hl0 Hl0ty Hl0reg.
      apply elem_of_cons in Hl0 as [->|Hl0]; [|apply (Hlast l0 Hl0 Hl0ty Hl0reg)].
      exfalso. rewrite Hl0ty, <- Hty in Hrun.
      rewrite bool_decide_eq_true_2 in Hrun by reflexivity.
      rewrite bool_decide_eq_true_2 in Hrun by exact Hl0reg. discriminate Hrun.
Qed.

Lemma visitNode_own (this : ModalRef) (targetEl : ElemId) (backdropEl : option ElemId)
    (ev : Event) (capture : bool) (t : EventTarget) (w : World) :
  ev_type ev = "mouseup" -> ev_target ev = targetEl ->
  dismissible this targetEl backdropEl w ->
  mouseupOnlyOwn this targetEl w ->
  exists w',
    visitNode capture t ev w = (false, w') /\
    dismissible this targetEl backdropEl w' /\
    mouseupOnlyOwn this targetEl w' /\
    (w' = w \/ _isHidden (deref w' this) = true) /\
    (_isHidden (deref w this) = true -> _isHidden (deref w' this) = true) /\
    (forall l0, l0 ∈ listenersInPhase capture w t -> l_type l0 = "mouseup" ->
       _isHidden (deref w' this) = true).
Proof.
  intros Hty Htg Hd Hm.
  assert (Hown : forall l, l ∈ listenersInPhase capture w t -> l_type l = "mouseup" ->
             exists k, l_callback l = ClickOutsideClosure this k).
  { intros l Hl Hlty. apply listenersInPhase_elem in Hl as [Hl _].
    apply (Hm t l Hl Hlty). }
  destruct (callListeners_own this targetEl backdropEl ev t
              (listenersInPhase capture w t) w Hty Htg Hd Hm Hown)
    as (Hd1 & Hm1 & (xs & He & Hxs) & Hcase & Hmono & Hlast).
  cbv zeta in *. unfold visitNode.
  revert Hd1 Hm1 He Hcase Hmono Hlast.
  generalize (callListeners t (listenersInPhase capture w t) ev w).
  intros w' Hd1 Hm1 He Hcase Hmono Hlast.
  exists w'. rewrite He, drop_app_length, Hxs.
  split; [reflexivity|]. split; [exact Hd1|]. split; [exact Hm1|].
  split; [exact Hcase|]. split; [exact Hmono|].
  intros l0 Hl0 Hl0ty. apply (Hlast l0 Hl0 Hl0ty).
  apply listenersInPhase_elem in Hl0 as [Hl0 _]. exact Hl0.
Qed.

Lemma visitPath_own (this : ModalRef) (targetEl : ElemId) (backdropEl : option ElemId)
    (ev : Event) (capture : bool) (path : list EventTarget) (w : World) :
  ev_type ev = "mouseup" -> ev_target ev = targetEl ->
  dismissible this targetEl backdropEl w ->
  mouseupOnlyOwn this targetEl w ->
  exists w',
    visitPath capture path ev w = (false, w') /\
    dismissible this targetEl backdropEl w' /\
    mouseupOnlyOwn this targetEl w' /\
    (_isHidden (deref w this) = true -> _isHidden (deref w' this) = true) /\
    (forall t l0, t ∈ path -> l0 ∈ listenersInPhase capture w t -> l_type l0 = "mouseup" ->
       _isHidden (deref w' this) = true).
Proof.
  intros Hty Htg. revert w.
  induction path as [|t path IH]; intros w Hd Hm; cbn [visitPath].
  - exists w. split; [reflexivity|]. split; [exact Hd|]. split; [exact Hm|].
    split; [tauto|]. intros t l0 Ht. inversion Ht.
  - destruct (visitNode_own this targetEl backdropEl ev capture t w Hty Htg Hd Hm)
      as (w1 & -> & Hd1 & Hm1 & Hcase & Hmono1 & Hlast1).
    destruct (IH w1 Hd1 Hm1) as (w2 & -> & Hd2 & Hm2 & Hmono2 & Hlast2).
    exists w2. split; [reflexivity|]. split; [exact Hd2|]. split; [exact Hm2|].
    split; [intros H; apply Hmono2, Hmono1, H|].
    intros t0 l0 Ht0 Hl0 Hl0ty.
    apply elem_of_cons in Ht0 as [->|Ht0].
    + apply Hmono2. apply (Hlast1 l0 Hl0 Hl0ty).
    + destruct Hcase as [->|Hh]; [apply (Hlast2 t0 l0 Ht0 Hl0 Hl0ty) | apply Hmono2, Hh].
Qed.

Lemma eventPath_target (w : World) (e : ElemId) : OnElement e ∈ eventPath w e.
Proof.
  unfold eventPath. right. apply list_elem_of_fmap. exists e. split; [reflexivity|].
  apply list_elem_of_In. apply -> in_rev. left. reflexivity.
Qed.

Lemma eventPath_elem (w : World) (e : ElemId) (t : EventTarget) :
  t ∈ eventPath w e -> t = OnDocument \/ exists x, t = OnElement x /\ x ∈ e :: ancestors w e.
Proof.
  unfold eventPath. intros H. apply elem_of_cons in H as [->|H]; [left; reflexivity|].
  right. apply list_elem_of_fmap in H as (x & -> & Hx). exists x. split; [reflexivity|].
  apply list_elem_of_In. apply in_rev. apply list_elem_of_In. exact Hx.
Qed.

(** The three releases, in a state that has the facts [show] leaves. *)
Lemma release_paths (this : ModalRef) (targetEl backdropEl : ElemId) (n : nat)
    (ev : Event) (w : World) :
  ev_type ev = "mouseup" ->
  dismissible this targetEl (Some backdropEl) w ->
  mouseupOnlyOwn this targetEl w ->
  _isHidden (deref w this) = false ->
  mkListener "mouseup" (ClickOutsideClosure this n) true ∈ listeners (element w targetEl) ->
  (ev_target ev = targetEl -> isHidden this (dispatchEvent ev w) = true) /\
  (ev_target ev = backdropEl -> (OnElement targetEl ∉ eventPath w backdropEl) ->
   dispatchEvent ev w = w /\ isVisible this (dispatchEvent ev w) = true) /\
  (ev_target ev ≠ targetEl -> ev_target ev ≠ backdropEl -> dispatchEvent ev w = w).
Proof.
  intros Hty Hd Hm Hvis Hreg.
  assert (Hidle : forall t capture,
            (t = OnElement targetEl ->
             ev_target ev ≠ targetEl /\ ev_target ev ≠ backdropEl) ->
            callListeners t (listenersInPhase capture w t) ev w = w).
  { intros t capture Hcase.
    assert (Hdec : t = OnElement targetEl \/ t ≠ OnElement targetEl).
    { destruct t as [e|]; [|right; discriminate].
      destruct (decide (e = targetEl)) as [->|Hne]; [left; reflexivity|].
      right. intros [= E]. contradiction. }
    destruct Hdec as [->|Hne].
    - destruct (Hcase eq_refl) as [H1 H2].
      apply (callListeners_ignores this); [exact Hty | | |].
      + rewrite (dis_target _ _ _ _ Hd). exact H1.
      + rewrite (dis_backdrop _ _ _ _ Hd). congruence.
      + intros l Hl Hlty. apply listenersInPhase_elem in Hl as [Hl _].
        apply (Hm _ l Hl Hlty).
    - apply callListeners_other_type.
      intros l Hl Hlty. apply listenersInPhase_elem in Hl as [Hl _].
      rewrite Hty in Hlty. destruct (Hm t l Hl Hlty) as [Heq _]. contradiction. }
  split; [|split].
  - intros Htg. unfold isHidden, dispatchEvent.
    destruct (visitPath_own this targetEl (Some backdropEl) ev true
                (eventPath w (ev_target ev)) w Hty Htg Hd Hm)
      as (w1 & -> & Hd1 & Hm1 & _ & Hlast).
    assert (Hh1 : _isHidden (deref w1 this) = true).
    { apply (Hlast (OnElement targetEl) (mkListener "mouseup" (ClickOutsideClosure this n) true)).
      - rewrite Htg. apply eventPath_target.
      - apply listenersInPhase_elem. split; [exact Hreg | reflexivity].
      - reflexivity. }
    destruct (visitPath_own this targetEl (Some backdropEl) ev false
                (rev (eventPath w (ev_target ev))) w1 Hty Htg Hd1 Hm1)
      as (w2 & -> & _ & _ & Hmono & _).
    apply Hmono, Hh1.
  - intros Htg Hoff.
    assert (Hsame : dispatchEvent ev w = w).
    { apply dispatchEvent_idle. intros t capture Hin. apply Hidle.
      intros ->. rewrite Htg in Hin. contradiction. }
    rewrite Hsame. split; [reflexivity|]. unfold isVisible. rewrite Hvis. reflexivity.
  - intros Hn1 Hn2. apply dispatchEvent_idle. intros t capture _. apply Hidle.
    intros _. split; assumption.
Qed.

Lemma show_mouseupOnlyOwn (this : ModalRef) (w : World) :
  isHidden this w = true ->
  _targetEl (deref w this) < nextElem w -> body w < nextElem w ->
  mouseupOnlyOwn this (_targetEl (deref w this)) w ->
  mouseupOnlyOwn this (_targetEl (deref w this)) (outcome (show this w)).
Proof.
  intros Hhid Hlt Hbody Hown.
  assert (Hb : listeners (element (outcome (show this w)) (nextElem w)) = [])
    by (apply show_backdrop_listeners; [exact Hhid | lia | lia]).
  pose proof (show_documentListeners this w) as Hdoc.
  pose proof (fun e x => show_mouseup_listeners this w e x) as Hel.
  revert Hb Hdoc Hel. generalize (outcome (show this w)). intros w' Hb Hdoc Hel.
  intros [e|] l Hl Hlty.
  - change (l ∈ listeners (element w' e)) in Hl.
    destruct (decide (e = nextElem w)) as [->|Hne].
    + rewrite Hb in Hl. inversion Hl.
    + destruct (Hel e l Hne Hl Hlty) as [Hl0|[-> Hcb]]; [|split; [reflexivity | exact Hcb]].
      apply (Hown (OnElement e) l Hl0 Hlty).
  - change (l ∈ documentListeners w') in Hl. rewrite Hdoc in Hl.
    apply (Hown OnDocument l Hl Hlty).
Qed.

Lemma show_dismissible (this : ModalRef) (w : World) :
  tidy w -> allocated this w -> isHidden this w = true ->
  dismissible this (_targetEl (deref w this)) (Some (nextElem w)) (outcome (show this w)).
Proof.
  intros T Hal Hhid.
  assert (Hbody : body w < nextElem w) by apply (tidy_body w T).
  destruct (show_creates_backdrop_facts this w Hal Hhid) as (_ & _ & Hb & _); [lia|].
  split; [apply show_allocated, Hal | apply (show_deref_frame _targetEl); reflexivity
          | exact Hb |].
  apply show_backdropAvailable. intros E. unfold isHidden in Hhid. congruence.
Qed.

Lemma show_backdrop_off_path (this : ModalRef) (w : World) :
  tidy w -> allocated this w -> isHidden this w = true ->
  _targetEl (deref w this) < nextElem w ->
  _targetEl (deref w this) ≠ body w ->
  _targetEl (deref w this) ∉ ancestors w (body w) ->
  OnElement (_targetEl (deref w this)) ∉ eventPath (outcome (show this w)) (nextElem w).
Proof.
  intros T Hal Hhid Hlt Hnb Hna Hin.
  apply eventPath_elem in Hin as [Hin|(x & Hx0 & Hx)]; [discriminate|].
  injection Hx0 as <-.
  rewrite (show_backdrop_ancestors this w T Hal Hhid) in Hx.
  apply elem_of_cons in Hx as [Hx|Hx]; [lia|].
  apply elem_of_cons in Hx as [Hx|Hx]; [contradiction | contradiction].
Qed.

(** C8, as the code has it.  A hidden modal with backdrop "dynamic" and
    closable true, on a page where nothing else listens for "mouseup";
    [show] makes it visible, appends its backdrop to the body and
    registers a capturing "mouseup" listener on the target.  A release on
    the target itself hides the modal, and a release on any other element
    but the backdrop changes nothing.  A release on the backdrop changes
    nothing either, and the modal stays visible: the backdrop is a child
    of the body, so the event goes from the document through the body to
    the backdrop and back, and never comes by the target, where the
    listener that looks for it is registered (unless the target is the
    body or one of its ancestors). *)
Theorem release_on_backdrop_misses_the_listener (this : ModalRef) (w0 : World) (ev : Event) :
  let targetEl := _targetEl (deref w0 this) in
  let backdropEl := nextElem w0 in
  let w := outcome (show this w0) in
  let w' := dispatchEvent ev w in
  tidy w0 ->
  allocated this w0 ->
  isHidden this w0 = true ->
  acceptsBackdropClasses this w0 = true ->
  targetEl < nextElem w0 ->
  backdrop (_options (deref w0 this)) = "dynamic" ->
  closable (_options (deref w0 this)) = true ->
  mouseupOnlyOwn this targetEl w0 ->
  ev_type ev = "mouseup" ->
  (show this w0 = Normal tt w) /\
  (isVisible this w = true) /\
  (_backdropEl (deref w this) = Some backdropEl) /\
  (parentNode (element w backdropEl) = Some (body w0)) /\
  (mkListener "mouseup" (ClickOutsideClosure this (nextSerial w0)) true
     ∈ listeners (element w targetEl)) /\
  (ev_target ev = targetEl -> isHidden this w' = true) /\
  (ev_target ev = backdropEl ->
   targetEl ≠ body w0 -> targetEl ∉ ancestors w0 (body w0) ->
   (OnElement targetEl ∉ eventPath w backdropEl) /\ w' = w /\ isVisible this w' = true) /\
  (ev_target ev ≠ targetEl -> ev_target ev ≠ backdropEl -> w' = w).
Proof.
  cbv zeta. intros T Hal Hhid _ Hlt Hdyn Hc Hown Hty.
  assert (Hbody : body w0 < nextElem w0) by apply (tidy_body w0 T).
  pose proof (show_registers_mouseup this w0 Hc Hdyn) as Hreg.
  pose proof (show_isHidden this w0 Hal) as Hvis.
  pose proof (show_dismissible this w0 T Hal Hhid) as Hd.
  pose proof (show_mouseupOnlyOwn this w0 Hhid Hlt Hbody Hown) as Hm.
  destruct (release_paths this (_targetEl (deref w0 this)) (nextElem w0) (nextSerial w0)
              ev (outcome (show this w0)) Hty Hd Hm Hvis Hreg) as (P1 & P2 & P3).
  split; [apply show_returns|].
  split; [unfold isVisible; rewrite Hvis; reflexivity|].
  split; [apply (dis_backdrop _ _ _ _ Hd)|].
  split; [apply show_backdrop_parent, Hhid|]. split; [exact Hreg|].
  split; [exact P1|]. split; [|exact P3].
  intros Htg Hnb Hna.
  pose proof (show_backdrop_off_path this w0 T Hal Hhid Hlt Hnb Hna) as Hoff.
  split; [exact Hoff | apply (P2 Htg Hoff)].
Qed.

Lemma listeners_by_element (w : World) (P : ElemId -> Listener -> Prop) :
  (forall i x, (i, x) ∈ map_to_list (elements w) -> forall l, l ∈ listeners x -> P i l) ->
  forall e l, l ∈ listeners (element w e) -> P e l.
Proof.
  intros H e l. unfold element.
  destruct (elements w !! e) as [x|] eqn:Hx; simpl.
  - apply (H e x). apply elem_of_map_to_list. exact Hx.
  - intros Hl. inversion Hl.
Qed.

Lemma sampleReady_mouseupOnlyOwn : mouseupOnlyOwn 0 3 sampleReady.
Proof.
  intros [e|] l Hl Hty; [|vm_compute in Hl; inversion Hl].
  exfalso. revert e l Hl Hty.
  apply (listeners_by_element sampleReady (fun _ l => l_type l = "mouseup" -> False)).
  intros i x Hx l Hl Hty. vm_compute in Hx.
  repeat (apply elem_of_cons in Hx as [Hx|Hx];
          [injection Hx as -> ->; vm_compute in Hl;
           repeat (apply elem_of_cons in Hl as [->|Hl]; [discriminate Hty|]);
           inversion Hl|]).
  inversion Hx.
Defined.

Lemma release_on_backdrop_witness :
  let onBackdrop := sampleEvent "mouseup" 8 5 5 in
  let onTarget := sampleEvent "mouseup" 3 5 5 in
  let onPanel := sampleEvent "mouseup" 4 300 300 in
  tidy sampleReady /\ allocated 0 sampleReady /\ isHidden 0 sampleReady = true /\
  acceptsBackdropClasses 0 sampleReady = true /\
  backdrop (_options (deref sampleReady 0)) = "dynamic" /\
  closable (_options (deref sampleReady 0)) = true /\
  mouseupOnlyOwn 0 3 sampleReady /\
  _backdropEl (deref sampleShown 0) = Some 8 /\
  dispatchEvent onBackdrop sampleShown = sampleShown /\
  isVisible 0 (dispatchEvent onBackdrop sampleShown) = true /\
  isHidden 0 (dispatchEvent onTarget sampleShown) = true /\
  dispatchEvent onPanel sampleShown = sampleShown.
Proof.
  intros onBackdrop onTarget onPanel.
  assert (T : tidy sampleReady).
  { apply con_tidy, reachable_consistent.
    apply (reachable_step samplePage); [|apply step_initModals].
    apply reachable_page, samplePage_pristine. }
  assert (Hh : isHidden 0 sampleReady = true) by (vm_compute; reflexivity).
  assert (Htok : acceptsBackdropClasses 0 sampleReady = true) by (vm_compute; reflexivity).
  assert (Hlt : _targetEl (deref sampleReady 0) < nextElem sampleReady) by by_computation.
  assert (Hd : backdrop (_options (deref sampleReady 0)) = "dynamic")
    by (vm_compute; reflexivity).
  assert (Hc : closable (_options (deref sampleReady 0)) = true)
    by (vm_compute; reflexivity).
  assert (Hm : mouseupOnlyOwn 0 (_targetEl (deref sampleReady 0)) sampleReady)
    by exact sampleReady_mouseupOnlyOwn.
  split; [exact T|]. split; [exact sampleReady_allocated|]. split; [exact Hh|].
  split; [exact Htok|]. split; [exact Hd|]. split; [exact Hc|].
  split; [exact sampleReady_mouseupOnlyOwn|].
  pose proof (release_on_backdrop_misses_the_listener 0 sampleReady onBackdrop) as H1.
  pose proof (release_on_backdrop_misses_the_listener 0 sampleReady onTarget) as H2.
  pose proof (release_on_backdrop_misses_the_listener 0 sampleReady onPanel) as H3.
  cbv zeta in H1, H2, H3.
  specialize (H1 T sampleReady_allocated Hh Htok Hlt Hd Hc Hm eq_refl).
  specialize (H2 T sampleReady_allocated Hh Htok Hlt Hd Hc Hm eq_refl).
  specialize (H3 T sampleReady_allocated Hh Htok Hlt Hd Hc Hm eq_refl).
  destruct H1 as (_ & _ & Hb & _ & _ & _ & Hbug & _).
  destruct H2 as (_ & _ & _ & _ & _ & Hhide & _).
  destruct H3 as (_ & _ & _ & _ & _ & _ & _ & Hother).
  split; [exact Hb|].
  destruct Hbug as (_ & Hsame & Hvis).
  - vm_compute. reflexivity.
  - vm_compute. discriminate.
  - vm_compute. intros Hin. repeat (apply elem_of_cons in Hin as [Hin|Hin]; [discriminate Hin|]).
    inversion Hin.
  - split; [exact Hsame|]. split; [exact Hvis|]. split.
    + apply Hhide. vm_compute. reflexivity.
    + apply Hother; vm_compute; discriminate.
Defined.

(** * Sample runs of the constructor and of the bootstrapping *)

Lemma samplePage_plain : plainPage samplePage = true.
Proof. vm_compute. reflexivity. Defined.







Lemma initModals_returns_witness :
  plainPage samplePage = true /\
  exists instances w',
    initModals samplePage = Normal instances w' /\
    tree w' = tree samplePage /\ documentListeners w' = documentListeners samplePage.
Proof.
  destruct (initModals_returns_and_shows_nothing samplePage samplePage_plain)
    as (instances & w' & Hret & Ht & _ & _ & _ & Hd & _).
  split; [exact samplePage_plain|].
  exists instances, w'. split; [exact Hret|]. split; [exact Ht | exact Hd].
Defined.

Lemma initModals_options_witness :
  plainPage stackPage = true /\
  exists instances w',
    initModals stackPage = Normal instances w' /\
    forall modalInstance, modalInstance ∈ instances ->
      closable (_options (deref w' (object modalInstance))) = true.
Proof.
  assert (Hp : plainPage stackPage = true) by (vm_compute; reflexivity).
  destruct (initModals_options_from_markup stackPage Hp) as (instances & w' & Hret & H).
  split; [exact Hp|].
  exists instances, w'. split; [exact Hret|].
  intros mi Hmi. specialize (H mi Hmi). cbv zeta in H.
  destruct H as (_ & _ & Hc & _). exact Hc.
Defined.

Lemma initModals_afresh_witness :
  plainPage stackPage = true /\
  exists instances w',
    initModals stackPage = Normal instances w' /\
    length (modals w') = length (modals stackPage) + length instances.
Proof.
  assert (Hp : plainPage stackPage = true) by (vm_compute; reflexivity).
  destruct (initModals_constructs_afresh stackPage Hp) as (instances & w' & Hret & Hl & _).
  split; [exact Hp|].
  exists instances, w'. split; [exact Hret | exact Hl].
Defined.
